(** * The concurrent copying collector of ART: marking, copying and forwarding

    A shallow embedding of [runtime/gc/collector/concurrent_copying.cc] and the
    properties its specification states about it.  Collector code that runs on
    one thread is written as state-passing functions in a state-and-failure
    monad; code whose behaviour depends on the interleaving with other threads
    ([Copy], the field and root updates) is a step function on activation
    frames, run under arbitrary schedules.

    The file first gives all definitions, then the theorems. *)

From Stdlib Require Import ZArith List Bool Lia Sorted.
From stdpp Require Import base option list gmap.

Open Scope Z_scope.

(** ** Part I. Definitions *)

(** *** Machine words and object headers *)

(** [size_t], [uint64_t] and [int64_t] arithmetic of an LP64 build. *)
Definition kBitsPerWord : Z := 64.
Definition wrap64 (x : Z) : Z := x mod 2 ^ kBitsPerWord.
Definition to_int64 (x : Z) : Z :=
  let y := wrap64 x in if y <? 2 ^ (kBitsPerWord - 1) then y else y - 2 ^ kBitsPerWord.

(** [RoundUp(x, n)] of base/bit_utils.h for a power of two [n] (and any positive [n]). *)
Definition RoundUp (x n : Z) : Z := ((x + n - 1) / n) * n.
Definition IsAligned (x n : Z) : bool := x mod n =? 0.

(** Modelled from the spec: lock_word.h is absent.  "A lock word (one machine
    word whose tag bits encode either a normal lock/hash state or a forwarding
    address)".  The tag is the constructor; the bit layout is not modelled. *)
Inductive LockWord : Type :=
| LwUnlocked
| LwThinLocked (owner count : Z)
| LwFatLocked (monitor_id : Z)
| LwHashCode (hash : Z)
| LwForwardingAddress (target : Z).

Inductive LockState : Type :=
| kUnlocked | kThinLocked | kFatLocked | kHashCode | kForwardingAddress.

Definition GetState (lw : LockWord) : LockState :=
  match lw with
  | LwUnlocked => kUnlocked
  | LwThinLocked _ _ => kThinLocked
  | LwFatLocked _ => kFatLocked
  | LwHashCode _ => kHashCode
  | LwForwardingAddress _ => kForwardingAddress
  end.

Definition is_forwarding (lw : LockWord) : bool :=
  match lw with LwForwardingAddress _ => true | _ => false end.

(** [LockWord::ForwardingAddress()], read only in the forwarding state. *)
Definition ForwardingAddress (lw : LockWord) : Z :=
  match lw with LwForwardingAddress t => t | _ => 0 end.

Definition FromForwardingAddress (target : Z) : LockWord := LwForwardingAddress target.

#[global] Instance LockWord_eq_dec : EqDecision LockWord.
Proof. solve_decision. Defined.

(** The read-barrier state of an object: [ReadBarrier::WhitePtr()] and so on. *)
Inductive RbPtr : Type := WhitePtr | GrayPtr | BlackPtr.

#[global] Instance RbPtr_eq_dec : EqDecision RbPtr.
Proof. solve_decision. Defined.

(** What a [mirror::Class] says about its instances. *)
Record ClassData := {
  object_size : Z;        (* GetObjectSize() *)
  component_size : Z;     (* GetComponentSize(); 0 when the class is no array class *)
  reference_class : bool  (* IsTypeOfReferenceClass() *)
}.

(** Modelled from the spec: object.h is absent.  "Opaque heap-allocated value
    with: a class pointer, a lock word, a read-barrier state, and an enumerable
    set of outgoing reference fields."  References are addresses, [0] is
    [nullptr]. *)
Record Object := {
  klass : Z;
  monitor : LockWord;
  rb_ptr : RbPtr;
  array_length : Z;               (* mirror::Array::length_ *)
  ref_fields : list Z;            (* the fields VisitReferences reports by offset *)
  referent : Z;                   (* mirror::Reference::referent_ *)
  pending_next : Z;               (* mirror::Reference::pending_next_ *)
  native_roots : list Z;          (* the compressed roots VisitReferences reports *)
  class_data : option ClassData   (* set when the object is itself a mirror::Class *)
}.

Definition set_klass (v : Z) (o : Object) : Object :=
  Build_Object v (monitor o) (rb_ptr o) (array_length o) (ref_fields o) (referent o)
    (pending_next o) (native_roots o) (class_data o).
Definition set_monitor (v : LockWord) (o : Object) : Object :=
  Build_Object (klass o) v (rb_ptr o) (array_length o) (ref_fields o) (referent o)
    (pending_next o) (native_roots o) (class_data o).
Definition set_rb_ptr (v : RbPtr) (o : Object) : Object :=
  Build_Object (klass o) (monitor o) v (array_length o) (ref_fields o) (referent o)
    (pending_next o) (native_roots o) (class_data o).
Definition SetLength (v : Z) (o : Object) : Object :=
  Build_Object (klass o) (monitor o) (rb_ptr o) v (ref_fields o) (referent o)
    (pending_next o) (native_roots o) (class_data o).
Definition set_ref_fields (v : list Z) (o : Object) : Object :=
  Build_Object (klass o) (monitor o) (rb_ptr o) (array_length o) v (referent o)
    (pending_next o) (native_roots o) (class_data o).
Definition set_native_roots (v : list Z) (o : Object) : Object :=
  Build_Object (klass o) (monitor o) (rb_ptr o) (array_length o) (ref_fields o) (referent o)
    (pending_next o) v (class_data o).

(** The result of [memset(obj, 0, size)]. *)
Definition zeroed_object : Object :=
  Build_Object 0 LwUnlocked WhitePtr 0 [] 0 0 [] None.

(** *** Spaces, stacks and threads *)

Inductive RegionType : Type :=
| kRegionTypeFromSpace | kRegionTypeUnevacFromSpace | kRegionTypeToSpace | kRegionTypeNone.

#[global] Instance RegionType_eq_dec : EqDecision RegionType.
Proof. solve_decision. Defined.

Inductive MarkStackMode : Type :=
| kMarkStackModeOff | kMarkStackModeThreadLocal | kMarkStackModeShared
| kMarkStackModeGcExclusive.

#[global] Instance MarkStackMode_eq_dec : EqDecision MarkStackMode.
Proof. solve_decision. Defined.

(** [accounting::AtomicStack]: [elems] runs from [Begin()] to [End()], the back
    is the last element. *)
Record ObjectStack := { elems : list Z; capacity : nat }.

Definition IsEmpty (st : ObjectStack) : bool :=
  match elems st with [] => true | _ => false end.
Definition IsFull (st : ObjectStack) : bool := Nat.eqb (List.length (elems st)) (capacity st).
Definition PushBack (x : Z) (st : ObjectStack) : ObjectStack :=
  {| elems := elems st ++ [x]; capacity := capacity st |}.
Definition ResetStack (st : ObjectStack) : ObjectStack :=
  {| elems := []; capacity := capacity st |}.
Definition Resize (new_capacity : nat) (st : ObjectStack) : ObjectStack :=
  {| elems := []; capacity := new_capacity |}.
(** [PopBack()]: the last element and the stack without it. *)
Definition PopBack (st : ObjectStack) : option (Z * ObjectStack) :=
  match List.rev (elems st) with
  | [] => None
  | x :: r => Some (x, {| elems := List.rev r; capacity := capacity st |})
  end.
(** [AtomicStack::Create(name, 4 * KB, 4 * KB)]: room for 4096 references. *)
Definition Create (cap : nat) : ObjectStack := {| elems := []; capacity := cap |}.

Record Thread := {
  tl_mark_stack : option ObjectStack;   (* GetThreadLocalMarkStack() *)
  is_gc_marking : bool;                 (* GetIsGcMarking() *)
  tl_weak_ref_access_enabled : bool     (* GetWeakRefAccessEnabled() *)
}.

Definition SetThreadLocalMarkStack (v : option ObjectStack) (t : Thread) : Thread :=
  Build_Thread v (is_gc_marking t) (tl_weak_ref_access_enabled t).
Definition SetIsGcMarking (v : bool) (t : Thread) : Thread :=
  Build_Thread (tl_mark_stack t) v (tl_weak_ref_access_enabled t).
Definition SetWeakRefAccessEnabled (v : bool) (t : Thread) : Thread :=
  Build_Thread (tl_mark_stack t) (is_gc_marking t) v.

(** Build constants, sizes and the space layout: what the collector reads but
    never changes during a cycle.  The values live in headers that are not part
    of the embedded sources, so the development is parametric in them. *)
Record Env := {
  kUseBakerReadBarrier : bool;
  kIsDebugBuild : bool;
  collector_type_is_CC : bool;                 (* heap_->collector_type_ == kCollectorTypeCC *)
  kEnableToSpaceInvariantChecks : bool;       (* ReadBarrier::kEnableToSpaceInvariantChecks *)
  kEnableNoFromSpaceRefsVerification : bool;
  kEnableFromSpaceAccountingCheck : bool;
  use_tlab : bool;                             (* heap_->use_tlab_ *)
  kRegionSize : Z;                             (* space::RegionSpace::kRegionSize *)
  kAlignment : Z;                              (* space::RegionSpace::kAlignment *)
  kObjectAlignment : Z;
  sizeof_Object : Z;                           (* sizeof(mirror::Object) *)
  Array_DataOffset : Z -> Z;                   (* mirror::Array::DataOffset(component_size) *)
  kMarkStackPoolSize : nat;
  GetRegionType : Z -> RegionType;             (* region_space_->GetRegionType(ref) *)
  immune_ContainsObject : Z -> bool;           (* immune_spaces_.ContainsObject(ref) *)
  non_moving_HasAddress : Z -> bool;           (* heap_->non_moving_space_->HasAddress(ref) *)
  has_space_bitmap : Z -> bool                 (* GetContinuousSpaceBitmap(ref) != nullptr *)
}.

Existing Class Env.


Record State := {
  heap : gmap Z Object;  (* object memory, keyed by start address *)
  region_space_bitmap : gset Z;  (* region_space_bitmap_: marks in unevac-from regions *)
  mark_bitmap : gset Z;  (* bits of the continuous-space mark bitmaps of heap_mark_bitmap_ *)
  los_bitmap : gset Z;  (* bits of the large-object bitmap of heap_mark_bitmap_ *)
  allocation_stack : list Z;  (* heap_->allocation_stack_ *)
  gc_mark_stack : ObjectStack;  (* gc_mark_stack_ *)
  revoked_mark_stacks : list ObjectStack;  (* revoked_mark_stacks_ *)
  pooled_mark_stacks : list ObjectStack;  (* pooled_mark_stacks_, the back of the vector first *)
  false_gray_stack : list Z;  (* false_gray_stack_ *)
  immune_gray_stack : list Z;  (* immune_gray_stack_ *)
  skipped_blocks_map : list (Z * Z);  (* skipped_blocks_map_: multimap, kept sorted by size *)
  threads : gmap nat Thread;  (* the thread list *)
  thread_running_gc : option nat;  (* thread_running_gc_ *)
  mark_stack_mode : MarkStackMode;  (* mark_stack_mode_ *)
  is_marking : bool;  (* is_marking_ *)
  is_asserting_to_space_invariant : bool;  (* is_asserting_to_space_invariant_ *)
  gc_grays_immune_objects : bool;  (* gc_grays_immune_objects_ *)
  updated_all_immune_objects : bool;  (* updated_all_immune_objects_ *)
  is_mark_stack_push_disallowed : Z;  (* is_mark_stack_push_disallowed_ *)
  weak_ref_access_enabled : bool;  (* weak_ref_access_enabled_ *)
  objects_moved : Z;  (* objects_moved_ (Atomic<size_t>) *)
  bytes_moved : Z;  (* bytes_moved_ (Atomic<size_t>) *)
  to_space_bytes_skipped : Z;  (* to_space_bytes_skipped_ *)
  to_space_objects_skipped : Z;  (* to_space_objects_skipped_ *)
  num_bytes_allocated : Z;  (* heap_->num_bytes_allocated_ *)
  live_bytes : Z;  (* bytes reported through region_space_->AddLiveBytes *)
  roots : list Z;  (* the root slots Runtime::VisitRoots enumerates *)
  int_array_class : Z;  (* the GcRoot behind mirror::IntArray::GetArrayClass *)
  java_lang_Object : Z;  (* WellKnownClasses::ToClass(java_lang_Object) *)
  region_alloc : list (option Z);  (* answers region_space_->AllocNonvirtual will give, in order *)
  non_moving_alloc : list (option (Z * Z));  (* answers (address, bytes allocated) non_moving_space_->Alloc will give *)
  weak_cas_fails : list bool;  (* whether the next weak compare-and-swap fails spuriously *)
  processed : list Z  (* history variable: arguments of ProcessMarkStackRef, latest first *)
}.

Definition set_heap (v : gmap Z Object) (s : State) : State :=
  Build_State v (region_space_bitmap s) (mark_bitmap s) (los_bitmap s) (allocation_stack s)
    (gc_mark_stack s) (revoked_mark_stacks s) (pooled_mark_stacks s) (false_gray_stack s)
    (immune_gray_stack s) (skipped_blocks_map s) (threads s) (thread_running_gc s)
    (mark_stack_mode s) (is_marking s) (is_asserting_to_space_invariant s)
    (gc_grays_immune_objects s) (updated_all_immune_objects s) (is_mark_stack_push_disallowed s)
    (weak_ref_access_enabled s) (objects_moved s) (bytes_moved s) (to_space_bytes_skipped s)
    (to_space_objects_skipped s) (num_bytes_allocated s) (live_bytes s) (roots s)
    (int_array_class s) (java_lang_Object s) (region_alloc s) (non_moving_alloc s)
    (weak_cas_fails s) (processed s).

Definition set_region_space_bitmap (v : gset Z) (s : State) : State :=
  Build_State (heap s) v (mark_bitmap s) (los_bitmap s) (allocation_stack s) (gc_mark_stack s)
    (revoked_mark_stacks s) (pooled_mark_stacks s) (false_gray_stack s) (immune_gray_stack s)
    (skipped_blocks_map s) (threads s) (thread_running_gc s) (mark_stack_mode s) (is_marking s)
    (is_asserting_to_space_invariant s) (gc_grays_immune_objects s)
    (updated_all_immune_objects s) (is_mark_stack_push_disallowed s) (weak_ref_access_enabled s)
    (objects_moved s) (bytes_moved s) (to_space_bytes_skipped s) (to_space_objects_skipped s)
    (num_bytes_allocated s) (live_bytes s) (roots s) (int_array_class s) (java_lang_Object s)
    (region_alloc s) (non_moving_alloc s) (weak_cas_fails s) (processed s).

Definition set_mark_bitmap (v : gset Z) (s : State) : State :=
  Build_State (heap s) (region_space_bitmap s) v (los_bitmap s) (allocation_stack s)
    (gc_mark_stack s) (revoked_mark_stacks s) (pooled_mark_stacks s) (false_gray_stack s)
    (immune_gray_stack s) (skipped_blocks_map s) (threads s) (thread_running_gc s)
    (mark_stack_mode s) (is_marking s) (is_asserting_to_space_invariant s)
    (gc_grays_immune_objects s) (updated_all_immune_objects s) (is_mark_stack_push_disallowed s)
    (weak_ref_access_enabled s) (objects_moved s) (bytes_moved s) (to_space_bytes_skipped s)
    (to_space_objects_skipped s) (num_bytes_allocated s) (live_bytes s) (roots s)
    (int_array_class s) (java_lang_Object s) (region_alloc s) (non_moving_alloc s)
    (weak_cas_fails s) (processed s).

Definition set_los_bitmap (v : gset Z) (s : State) : State :=
  Build_State (heap s) (region_space_bitmap s) (mark_bitmap s) v (allocation_stack s)
    (gc_mark_stack s) (revoked_mark_stacks s) (pooled_mark_stacks s) (false_gray_stack s)
    (immune_gray_stack s) (skipped_blocks_map s) (threads s) (thread_running_gc s)
    (mark_stack_mode s) (is_marking s) (is_asserting_to_space_invariant s)
    (gc_grays_immune_objects s) (updated_all_immune_objects s) (is_mark_stack_push_disallowed s)
    (weak_ref_access_enabled s) (objects_moved s) (bytes_moved s) (to_space_bytes_skipped s)
    (to_space_objects_skipped s) (num_bytes_allocated s) (live_bytes s) (roots s)
    (int_array_class s) (java_lang_Object s) (region_alloc s) (non_moving_alloc s)
    (weak_cas_fails s) (processed s).

Definition set_allocation_stack (v : list Z) (s : State) : State :=
  Build_State (heap s) (region_space_bitmap s) (mark_bitmap s) (los_bitmap s) v
    (gc_mark_stack s) (revoked_mark_stacks s) (pooled_mark_stacks s) (false_gray_stack s)
    (immune_gray_stack s) (skipped_blocks_map s) (threads s) (thread_running_gc s)
    (mark_stack_mode s) (is_marking s) (is_asserting_to_space_invariant s)
    (gc_grays_immune_objects s) (updated_all_immune_objects s) (is_mark_stack_push_disallowed s)
    (weak_ref_access_enabled s) (objects_moved s) (bytes_moved s) (to_space_bytes_skipped s)
    (to_space_objects_skipped s) (num_bytes_allocated s) (live_bytes s) (roots s)
    (int_array_class s) (java_lang_Object s) (region_alloc s) (non_moving_alloc s)
    (weak_cas_fails s) (processed s).

Definition set_gc_mark_stack (v : ObjectStack) (s : State) : State :=
  Build_State (heap s) (region_space_bitmap s) (mark_bitmap s) (los_bitmap s)
    (allocation_stack s) v (revoked_mark_stacks s) (pooled_mark_stacks s) (false_gray_stack s)
    (immune_gray_stack s) (skipped_blocks_map s) (threads s) (thread_running_gc s)
    (mark_stack_mode s) (is_marking s) (is_asserting_to_space_invariant s)
    (gc_grays_immune_objects s) (updated_all_immune_objects s) (is_mark_stack_push_disallowed s)
    (weak_ref_access_enabled s) (objects_moved s) (bytes_moved s) (to_space_bytes_skipped s)
    (to_space_objects_skipped s) (num_bytes_allocated s) (live_bytes s) (roots s)
    (int_array_class s) (java_lang_Object s) (region_alloc s) (non_moving_alloc s)
    (weak_cas_fails s) (processed s).

Definition set_revoked_mark_stacks (v : list ObjectStack) (s : State) : State :=
  Build_State (heap s) (region_space_bitmap s) (mark_bitmap s) (los_bitmap s)
    (allocation_stack s) (gc_mark_stack s) v (pooled_mark_stacks s) (false_gray_stack s)
    (immune_gray_stack s) (skipped_blocks_map s) (threads s) (thread_running_gc s)
    (mark_stack_mode s) (is_marking s) (is_asserting_to_space_invariant s)
    (gc_grays_immune_objects s) (updated_all_immune_objects s) (is_mark_stack_push_disallowed s)
    (weak_ref_access_enabled s) (objects_moved s) (bytes_moved s) (to_space_bytes_skipped s)
    (to_space_objects_skipped s) (num_bytes_allocated s) (live_bytes s) (roots s)
    (int_array_class s) (java_lang_Object s) (region_alloc s) (non_moving_alloc s)
    (weak_cas_fails s) (processed s).

Definition set_pooled_mark_stacks (v : list ObjectStack) (s : State) : State :=
  Build_State (heap s) (region_space_bitmap s) (mark_bitmap s) (los_bitmap s)
    (allocation_stack s) (gc_mark_stack s) (revoked_mark_stacks s) v (false_gray_stack s)
    (immune_gray_stack s) (skipped_blocks_map s) (threads s) (thread_running_gc s)
    (mark_stack_mode s) (is_marking s) (is_asserting_to_space_invariant s)
    (gc_grays_immune_objects s) (updated_all_immune_objects s) (is_mark_stack_push_disallowed s)
    (weak_ref_access_enabled s) (objects_moved s) (bytes_moved s) (to_space_bytes_skipped s)
    (to_space_objects_skipped s) (num_bytes_allocated s) (live_bytes s) (roots s)
    (int_array_class s) (java_lang_Object s) (region_alloc s) (non_moving_alloc s)
    (weak_cas_fails s) (processed s).

Definition set_false_gray_stack (v : list Z) (s : State) : State :=
  Build_State (heap s) (region_space_bitmap s) (mark_bitmap s) (los_bitmap s)
    (allocation_stack s) (gc_mark_stack s) (revoked_mark_stacks s) (pooled_mark_stacks s) v
    (immune_gray_stack s) (skipped_blocks_map s) (threads s) (thread_running_gc s)
    (mark_stack_mode s) (is_marking s) (is_asserting_to_space_invariant s)
    (gc_grays_immune_objects s) (updated_all_immune_objects s) (is_mark_stack_push_disallowed s)
    (weak_ref_access_enabled s) (objects_moved s) (bytes_moved s) (to_space_bytes_skipped s)
    (to_space_objects_skipped s) (num_bytes_allocated s) (live_bytes s) (roots s)
    (int_array_class s) (java_lang_Object s) (region_alloc s) (non_moving_alloc s)
    (weak_cas_fails s) (processed s).

Definition set_immune_gray_stack (v : list Z) (s : State) : State :=
  Build_State (heap s) (region_space_bitmap s) (mark_bitmap s) (los_bitmap s)
    (allocation_stack s) (gc_mark_stack s) (revoked_mark_stacks s) (pooled_mark_stacks s)
    (false_gray_stack s) v (skipped_blocks_map s) (threads s) (thread_running_gc s)
    (mark_stack_mode s) (is_marking s) (is_asserting_to_space_invariant s)
    (gc_grays_immune_objects s) (updated_all_immune_objects s) (is_mark_stack_push_disallowed s)
    (weak_ref_access_enabled s) (objects_moved s) (bytes_moved s) (to_space_bytes_skipped s)
    (to_space_objects_skipped s) (num_bytes_allocated s) (live_bytes s) (roots s)
    (int_array_class s) (java_lang_Object s) (region_alloc s) (non_moving_alloc s)
    (weak_cas_fails s) (processed s).

Definition set_skipped_blocks_map (v : list (Z * Z)) (s : State) : State :=
  Build_State (heap s) (region_space_bitmap s) (mark_bitmap s) (los_bitmap s)
    (allocation_stack s) (gc_mark_stack s) (revoked_mark_stacks s) (pooled_mark_stacks s)
    (false_gray_stack s) (immune_gray_stack s) v (threads s) (thread_running_gc s)
    (mark_stack_mode s) (is_marking s) (is_asserting_to_space_invariant s)
    (gc_grays_immune_objects s) (updated_all_immune_objects s) (is_mark_stack_push_disallowed s)
    (weak_ref_access_enabled s) (objects_moved s) (bytes_moved s) (to_space_bytes_skipped s)
    (to_space_objects_skipped s) (num_bytes_allocated s) (live_bytes s) (roots s)
    (int_array_class s) (java_lang_Object s) (region_alloc s) (non_moving_alloc s)
    (weak_cas_fails s) (processed s).

Definition set_threads (v : gmap nat Thread) (s : State) : State :=
  Build_State (heap s) (region_space_bitmap s) (mark_bitmap s) (los_bitmap s)
    (allocation_stack s) (gc_mark_stack s) (revoked_mark_stacks s) (pooled_mark_stacks s)
    (false_gray_stack s) (immune_gray_stack s) (skipped_blocks_map s) v (thread_running_gc s)
    (mark_stack_mode s) (is_marking s) (is_asserting_to_space_invariant s)
    (gc_grays_immune_objects s) (updated_all_immune_objects s) (is_mark_stack_push_disallowed s)
    (weak_ref_access_enabled s) (objects_moved s) (bytes_moved s) (to_space_bytes_skipped s)
    (to_space_objects_skipped s) (num_bytes_allocated s) (live_bytes s) (roots s)
    (int_array_class s) (java_lang_Object s) (region_alloc s) (non_moving_alloc s)
    (weak_cas_fails s) (processed s).

Definition set_thread_running_gc (v : option nat) (s : State) : State :=
  Build_State (heap s) (region_space_bitmap s) (mark_bitmap s) (los_bitmap s)
    (allocation_stack s) (gc_mark_stack s) (revoked_mark_stacks s) (pooled_mark_stacks s)
    (false_gray_stack s) (immune_gray_stack s) (skipped_blocks_map s) (threads s) v
    (mark_stack_mode s) (is_marking s) (is_asserting_to_space_invariant s)
    (gc_grays_immune_objects s) (updated_all_immune_objects s) (is_mark_stack_push_disallowed s)
    (weak_ref_access_enabled s) (objects_moved s) (bytes_moved s) (to_space_bytes_skipped s)
    (to_space_objects_skipped s) (num_bytes_allocated s) (live_bytes s) (roots s)
    (int_array_class s) (java_lang_Object s) (region_alloc s) (non_moving_alloc s)
    (weak_cas_fails s) (processed s).

Definition set_mark_stack_mode (v : MarkStackMode) (s : State) : State :=
  Build_State (heap s) (region_space_bitmap s) (mark_bitmap s) (los_bitmap s)
    (allocation_stack s) (gc_mark_stack s) (revoked_mark_stacks s) (pooled_mark_stacks s)
    (false_gray_stack s) (immune_gray_stack s) (skipped_blocks_map s) (threads s)
    (thread_running_gc s) v (is_marking s) (is_asserting_to_space_invariant s)
    (gc_grays_immune_objects s) (updated_all_immune_objects s) (is_mark_stack_push_disallowed s)
    (weak_ref_access_enabled s) (objects_moved s) (bytes_moved s) (to_space_bytes_skipped s)
    (to_space_objects_skipped s) (num_bytes_allocated s) (live_bytes s) (roots s)
    (int_array_class s) (java_lang_Object s) (region_alloc s) (non_moving_alloc s)
    (weak_cas_fails s) (processed s).

Definition set_is_marking (v : bool) (s : State) : State :=
  Build_State (heap s) (region_space_bitmap s) (mark_bitmap s) (los_bitmap s)
    (allocation_stack s) (gc_mark_stack s) (revoked_mark_stacks s) (pooled_mark_stacks s)
    (false_gray_stack s) (immune_gray_stack s) (skipped_blocks_map s) (threads s)
    (thread_running_gc s) (mark_stack_mode s) v (is_asserting_to_space_invariant s)
    (gc_grays_immune_objects s) (updated_all_immune_objects s) (is_mark_stack_push_disallowed s)
    (weak_ref_access_enabled s) (objects_moved s) (bytes_moved s) (to_space_bytes_skipped s)
    (to_space_objects_skipped s) (num_bytes_allocated s) (live_bytes s) (roots s)
    (int_array_class s) (java_lang_Object s) (region_alloc s) (non_moving_alloc s)
    (weak_cas_fails s) (processed s).

Definition set_is_asserting_to_space_invariant (v : bool) (s : State) : State :=
  Build_State (heap s) (region_space_bitmap s) (mark_bitmap s) (los_bitmap s)
    (allocation_stack s) (gc_mark_stack s) (revoked_mark_stacks s) (pooled_mark_stacks s)
    (false_gray_stack s) (immune_gray_stack s) (skipped_blocks_map s) (threads s)
    (thread_running_gc s) (mark_stack_mode s) (is_marking s) v (gc_grays_immune_objects s)
    (updated_all_immune_objects s) (is_mark_stack_push_disallowed s) (weak_ref_access_enabled s)
    (objects_moved s) (bytes_moved s) (to_space_bytes_skipped s) (to_space_objects_skipped s)
    (num_bytes_allocated s) (live_bytes s) (roots s) (int_array_class s) (java_lang_Object s)
    (region_alloc s) (non_moving_alloc s) (weak_cas_fails s) (processed s).

Definition set_gc_grays_immune_objects (v : bool) (s : State) : State :=
  Build_State (heap s) (region_space_bitmap s) (mark_bitmap s) (los_bitmap s)
    (allocation_stack s) (gc_mark_stack s) (revoked_mark_stacks s) (pooled_mark_stacks s)
    (false_gray_stack s) (immune_gray_stack s) (skipped_blocks_map s) (threads s)
    (thread_running_gc s) (mark_stack_mode s) (is_marking s) (is_asserting_to_space_invariant s)
    v (updated_all_immune_objects s) (is_mark_stack_push_disallowed s)
    (weak_ref_access_enabled s) (objects_moved s) (bytes_moved s) (to_space_bytes_skipped s)
    (to_space_objects_skipped s) (num_bytes_allocated s) (live_bytes s) (roots s)
    (int_array_class s) (java_lang_Object s) (region_alloc s) (non_moving_alloc s)
    (weak_cas_fails s) (processed s).

Definition set_updated_all_immune_objects (v : bool) (s : State) : State :=
  Build_State (heap s) (region_space_bitmap s) (mark_bitmap s) (los_bitmap s)
    (allocation_stack s) (gc_mark_stack s) (revoked_mark_stacks s) (pooled_mark_stacks s)
    (false_gray_stack s) (immune_gray_stack s) (skipped_blocks_map s) (threads s)
    (thread_running_gc s) (mark_stack_mode s) (is_marking s) (is_asserting_to_space_invariant s)
    (gc_grays_immune_objects s) v (is_mark_stack_push_disallowed s) (weak_ref_access_enabled s)
    (objects_moved s) (bytes_moved s) (to_space_bytes_skipped s) (to_space_objects_skipped s)
    (num_bytes_allocated s) (live_bytes s) (roots s) (int_array_class s) (java_lang_Object s)
    (region_alloc s) (non_moving_alloc s) (weak_cas_fails s) (processed s).

Definition set_is_mark_stack_push_disallowed (v : Z) (s : State) : State :=
  Build_State (heap s) (region_space_bitmap s) (mark_bitmap s) (los_bitmap s)
    (allocation_stack s) (gc_mark_stack s) (revoked_mark_stacks s) (pooled_mark_stacks s)
    (false_gray_stack s) (immune_gray_stack s) (skipped_blocks_map s) (threads s)
    (thread_running_gc s) (mark_stack_mode s) (is_marking s) (is_asserting_to_space_invariant s)
    (gc_grays_immune_objects s) (updated_all_immune_objects s) v (weak_ref_access_enabled s)
    (objects_moved s) (bytes_moved s) (to_space_bytes_skipped s) (to_space_objects_skipped s)
    (num_bytes_allocated s) (live_bytes s) (roots s) (int_array_class s) (java_lang_Object s)
    (region_alloc s) (non_moving_alloc s) (weak_cas_fails s) (processed s).

Definition set_weak_ref_access_enabled (v : bool) (s : State) : State :=
  Build_State (heap s) (region_space_bitmap s) (mark_bitmap s) (los_bitmap s)
    (allocation_stack s) (gc_mark_stack s) (revoked_mark_stacks s) (pooled_mark_stacks s)
    (false_gray_stack s) (immune_gray_stack s) (skipped_blocks_map s) (threads s)
    (thread_running_gc s) (mark_stack_mode s) (is_marking s) (is_asserting_to_space_invariant s)
    (gc_grays_immune_objects s) (updated_all_immune_objects s) (is_mark_stack_push_disallowed s)
    v (objects_moved s) (bytes_moved s) (to_space_bytes_skipped s) (to_space_objects_skipped s)
    (num_bytes_allocated s) (live_bytes s) (roots s) (int_array_class s) (java_lang_Object s)
    (region_alloc s) (non_moving_alloc s) (weak_cas_fails s) (processed s).

Definition set_objects_moved (v : Z) (s : State) : State :=
  Build_State (heap s) (region_space_bitmap s) (mark_bitmap s) (los_bitmap s)
    (allocation_stack s) (gc_mark_stack s) (revoked_mark_stacks s) (pooled_mark_stacks s)
    (false_gray_stack s) (immune_gray_stack s) (skipped_blocks_map s) (threads s)
    (thread_running_gc s) (mark_stack_mode s) (is_marking s) (is_asserting_to_space_invariant s)
    (gc_grays_immune_objects s) (updated_all_immune_objects s) (is_mark_stack_push_disallowed s)
    (weak_ref_access_enabled s) v (bytes_moved s) (to_space_bytes_skipped s)
    (to_space_objects_skipped s) (num_bytes_allocated s) (live_bytes s) (roots s)
    (int_array_class s) (java_lang_Object s) (region_alloc s) (non_moving_alloc s)
    (weak_cas_fails s) (processed s).

Definition set_bytes_moved (v : Z) (s : State) : State :=
  Build_State (heap s) (region_space_bitmap s) (mark_bitmap s) (los_bitmap s)
    (allocation_stack s) (gc_mark_stack s) (revoked_mark_stacks s) (pooled_mark_stacks s)
    (false_gray_stack s) (immune_gray_stack s) (skipped_blocks_map s) (threads s)
    (thread_running_gc s) (mark_stack_mode s) (is_marking s) (is_asserting_to_space_invariant s)
    (gc_grays_immune_objects s) (updated_all_immune_objects s) (is_mark_stack_push_disallowed s)
    (weak_ref_access_enabled s) (objects_moved s) v (to_space_bytes_skipped s)
    (to_space_objects_skipped s) (num_bytes_allocated s) (live_bytes s) (roots s)
    (int_array_class s) (java_lang_Object s) (region_alloc s) (non_moving_alloc s)
    (weak_cas_fails s) (processed s).

Definition set_to_space_bytes_skipped (v : Z) (s : State) : State :=
  Build_State (heap s) (region_space_bitmap s) (mark_bitmap s) (los_bitmap s)
    (allocation_stack s) (gc_mark_stack s) (revoked_mark_stacks s) (pooled_mark_stacks s)
    (false_gray_stack s) (immune_gray_stack s) (skipped_blocks_map s) (threads s)
    (thread_running_gc s) (mark_stack_mode s) (is_marking s) (is_asserting_to_space_invariant s)
    (gc_grays_immune_objects s) (updated_all_immune_objects s) (is_mark_stack_push_disallowed s)
    (weak_ref_access_enabled s) (objects_moved s) (bytes_moved s) v (to_space_objects_skipped s)
    (num_bytes_allocated s) (live_bytes s) (roots s) (int_array_class s) (java_lang_Object s)
    (region_alloc s) (non_moving_alloc s) (weak_cas_fails s) (processed s).

Definition set_to_space_objects_skipped (v : Z) (s : State) : State :=
  Build_State (heap s) (region_space_bitmap s) (mark_bitmap s) (los_bitmap s)
    (allocation_stack s) (gc_mark_stack s) (revoked_mark_stacks s) (pooled_mark_stacks s)
    (false_gray_stack s) (immune_gray_stack s) (skipped_blocks_map s) (threads s)
    (thread_running_gc s) (mark_stack_mode s) (is_marking s) (is_asserting_to_space_invariant s)
    (gc_grays_immune_objects s) (updated_all_immune_objects s) (is_mark_stack_push_disallowed s)
    (weak_ref_access_enabled s) (objects_moved s) (bytes_moved s) (to_space_bytes_skipped s) v
    (num_bytes_allocated s) (live_bytes s) (roots s) (int_array_class s) (java_lang_Object s)
    (region_alloc s) (non_moving_alloc s) (weak_cas_fails s) (processed s).

Definition set_num_bytes_allocated (v : Z) (s : State) : State :=
  Build_State (heap s) (region_space_bitmap s) (mark_bitmap s) (los_bitmap s)
    (allocation_stack s) (gc_mark_stack s) (revoked_mark_stacks s) (pooled_mark_stacks s)
    (false_gray_stack s) (immune_gray_stack s) (skipped_blocks_map s) (threads s)
    (thread_running_gc s) (mark_stack_mode s) (is_marking s) (is_asserting_to_space_invariant s)
    (gc_grays_immune_objects s) (updated_all_immune_objects s) (is_mark_stack_push_disallowed s)
    (weak_ref_access_enabled s) (objects_moved s) (bytes_moved s) (to_space_bytes_skipped s)
    (to_space_objects_skipped s) v (live_bytes s) (roots s) (int_array_class s)
    (java_lang_Object s) (region_alloc s) (non_moving_alloc s) (weak_cas_fails s) (processed s).

Definition set_live_bytes (v : Z) (s : State) : State :=
  Build_State (heap s) (region_space_bitmap s) (mark_bitmap s) (los_bitmap s)
    (allocation_stack s) (gc_mark_stack s) (revoked_mark_stacks s) (pooled_mark_stacks s)
    (false_gray_stack s) (immune_gray_stack s) (skipped_blocks_map s) (threads s)
    (thread_running_gc s) (mark_stack_mode s) (is_marking s) (is_asserting_to_space_invariant s)
    (gc_grays_immune_objects s) (updated_all_immune_objects s) (is_mark_stack_push_disallowed s)
    (weak_ref_access_enabled s) (objects_moved s) (bytes_moved s) (to_space_bytes_skipped s)
    (to_space_objects_skipped s) (num_bytes_allocated s) v (roots s) (int_array_class s)
    (java_lang_Object s) (region_alloc s) (non_moving_alloc s) (weak_cas_fails s) (processed s).

Definition set_roots (v : list Z) (s : State) : State :=
  Build_State (heap s) (region_space_bitmap s) (mark_bitmap s) (los_bitmap s)
    (allocation_stack s) (gc_mark_stack s) (revoked_mark_stacks s) (pooled_mark_stacks s)
    (false_gray_stack s) (immune_gray_stack s) (skipped_blocks_map s) (threads s)
    (thread_running_gc s) (mark_stack_mode s) (is_marking s) (is_asserting_to_space_invariant s)
    (gc_grays_immune_objects s) (updated_all_immune_objects s) (is_mark_stack_push_disallowed s)
    (weak_ref_access_enabled s) (objects_moved s) (bytes_moved s) (to_space_bytes_skipped s)
    (to_space_objects_skipped s) (num_bytes_allocated s) (live_bytes s) v (int_array_class s)
    (java_lang_Object s) (region_alloc s) (non_moving_alloc s) (weak_cas_fails s) (processed s).

Definition set_int_array_class (v : Z) (s : State) : State :=
  Build_State (heap s) (region_space_bitmap s) (mark_bitmap s) (los_bitmap s)
    (allocation_stack s) (gc_mark_stack s) (revoked_mark_stacks s) (pooled_mark_stacks s)
    (false_gray_stack s) (immune_gray_stack s) (skipped_blocks_map s) (threads s)
    (thread_running_gc s) (mark_stack_mode s) (is_marking s) (is_asserting_to_space_invariant s)
    (gc_grays_immune_objects s) (updated_all_immune_objects s) (is_mark_stack_push_disallowed s)
    (weak_ref_access_enabled s) (objects_moved s) (bytes_moved s) (to_space_bytes_skipped s)
    (to_space_objects_skipped s) (num_bytes_allocated s) (live_bytes s) (roots s) v
    (java_lang_Object s) (region_alloc s) (non_moving_alloc s) (weak_cas_fails s) (processed s).

Definition set_java_lang_Object (v : Z) (s : State) : State :=
  Build_State (heap s) (region_space_bitmap s) (mark_bitmap s) (los_bitmap s)
    (allocation_stack s) (gc_mark_stack s) (revoked_mark_stacks s) (pooled_mark_stacks s)
    (false_gray_stack s) (immune_gray_stack s) (skipped_blocks_map s) (threads s)
    (thread_running_gc s) (mark_stack_mode s) (is_marking s) (is_asserting_to_space_invariant s)
    (gc_grays_immune_objects s) (updated_all_immune_objects s) (is_mark_stack_push_disallowed s)
    (weak_ref_access_enabled s) (objects_moved s) (bytes_moved s) (to_space_bytes_skipped s)
    (to_space_objects_skipped s) (num_bytes_allocated s) (live_bytes s) (roots s)
    (int_array_class s) v (region_alloc s) (non_moving_alloc s) (weak_cas_fails s) (processed s).

Definition set_region_alloc (v : list (option Z)) (s : State) : State :=
  Build_State (heap s) (region_space_bitmap s) (mark_bitmap s) (los_bitmap s)
    (allocation_stack s) (gc_mark_stack s) (revoked_mark_stacks s) (pooled_mark_stacks s)
    (false_gray_stack s) (immune_gray_stack s) (skipped_blocks_map s) (threads s)
    (thread_running_gc s) (mark_stack_mode s) (is_marking s) (is_asserting_to_space_invariant s)
    (gc_grays_immune_objects s) (updated_all_immune_objects s) (is_mark_stack_push_disallowed s)
    (weak_ref_access_enabled s) (objects_moved s) (bytes_moved s) (to_space_bytes_skipped s)
    (to_space_objects_skipped s) (num_bytes_allocated s) (live_bytes s) (roots s)
    (int_array_class s) (java_lang_Object s) v (non_moving_alloc s) (weak_cas_fails s)
    (processed s).

Definition set_non_moving_alloc (v : list (option (Z * Z))) (s : State) : State :=
  Build_State (heap s) (region_space_bitmap s) (mark_bitmap s) (los_bitmap s)
    (allocation_stack s) (gc_mark_stack s) (revoked_mark_stacks s) (pooled_mark_stacks s)
    (false_gray_stack s) (immune_gray_stack s) (skipped_blocks_map s) (threads s)
    (thread_running_gc s) (mark_stack_mode s) (is_marking s) (is_asserting_to_space_invariant s)
    (gc_grays_immune_objects s) (updated_all_immune_objects s) (is_mark_stack_push_disallowed s)
    (weak_ref_access_enabled s) (objects_moved s) (bytes_moved s) (to_space_bytes_skipped s)
    (to_space_objects_skipped s) (num_bytes_allocated s) (live_bytes s) (roots s)
    (int_array_class s) (java_lang_Object s) (region_alloc s) v (weak_cas_fails s) (processed s).

Definition set_weak_cas_fails (v : list bool) (s : State) : State :=
  Build_State (heap s) (region_space_bitmap s) (mark_bitmap s) (los_bitmap s)
    (allocation_stack s) (gc_mark_stack s) (revoked_mark_stacks s) (pooled_mark_stacks s)
    (false_gray_stack s) (immune_gray_stack s) (skipped_blocks_map s) (threads s)
    (thread_running_gc s) (mark_stack_mode s) (is_marking s) (is_asserting_to_space_invariant s)
    (gc_grays_immune_objects s) (updated_all_immune_objects s) (is_mark_stack_push_disallowed s)
    (weak_ref_access_enabled s) (objects_moved s) (bytes_moved s) (to_space_bytes_skipped s)
    (to_space_objects_skipped s) (num_bytes_allocated s) (live_bytes s) (roots s)
    (int_array_class s) (java_lang_Object s) (region_alloc s) (non_moving_alloc s) v
    (processed s).

Definition set_processed (v : list Z) (s : State) : State :=
  Build_State (heap s) (region_space_bitmap s) (mark_bitmap s) (los_bitmap s)
    (allocation_stack s) (gc_mark_stack s) (revoked_mark_stacks s) (pooled_mark_stacks s)
    (false_gray_stack s) (immune_gray_stack s) (skipped_blocks_map s) (threads s)
    (thread_running_gc s) (mark_stack_mode s) (is_marking s) (is_asserting_to_space_invariant s)
    (gc_grays_immune_objects s) (updated_all_immune_objects s) (is_mark_stack_push_disallowed s)
    (weak_ref_access_enabled s) (objects_moved s) (bytes_moved s) (to_space_bytes_skipped s)
    (to_space_objects_skipped s) (num_bytes_allocated s) (live_bytes s) (roots s)
    (int_array_class s) (java_lang_Object s) (region_alloc s) (non_moving_alloc s)
    (weak_cas_fails s) v.

(** *** The state-and-failure monad *)

Inductive Result (A : Type) : Type :=
| Ok (a : A)
| Fatal        (* a CHECK (or, in a debug build, a DCHECK) failed: the process is aborted *)
| OutOfFuel    (* the loop bound of the model was reached *)
| Unspecified. (* a collaborator outside the collector broke its contract *)
Arguments Ok {A} a.
Arguments Fatal {A}.
Arguments OutOfFuel {A}.
Arguments Unspecified {A}.

Definition M (A : Type) : Type := State -> Result (A * State).

Definition ret {A : Type} (a : A) : M A := fun s => Ok (a, s).
Definition bind {A B : Type} (c : M A) (k : A -> M B) : M B :=
  fun s =>
    match c s with
    | Ok (a, s') => k a s'
    | Fatal => Fatal
    | OutOfFuel => OutOfFuel
    | Unspecified => Unspecified
    end.
Definition fatal {A : Type} : M A := fun _ => Fatal.
Definition unspecified {A : Type} : M A := fun _ => Unspecified.
Definition out_of_fuel {A : Type} : M A := fun _ => OutOfFuel.
Definition gets {A : Type} (f : State -> A) : M A := fun s => Ok (f s, s).
Definition modify (f : State -> State) : M unit := fun s => Ok (tt, f s).

Notation "x <- c1 ;; c2" := (bind c1 (fun x => c2))
  (at level 100, c1 at next level, right associativity).
Notation "c1 ;; c2" := (bind c1 (fun _ => c2))
  (at level 100, right associativity).

Definition when (b : bool) (c : M unit) : M unit := if b then c else ret tt.
Definition CHECK (c : bool) : M unit := if c then ret tt else fatal.

(** [for (x : l) body(x)] *)
Fixpoint for_each {A : Type} (l : list A) (body : A -> M unit) : M unit :=
  match l with
  | [] => ret tt
  | x :: r => body x ;; for_each r body
  end.

Section Collector.

Context {E : Env}.

(** [DCHECK(c)]: compiled in only when [kIsDebugBuild]; the condition is not
    even evaluated otherwise. *)
Definition DCHECK (c : M bool) : M unit :=
  if kIsDebugBuild E then (b <- c ;; CHECK b) else ret tt.

(** *** Object accessors *)

Definition object_at (a : Z) : M Object :=
  fun s => match heap s !! a with Some o => Ok (o, s) | None => Unspecified end.
Definition store_object (a : Z) (o : Object) : M unit :=
  modify (fun s => set_heap (<[a := o]> (heap s)) s).

Definition GetReadBarrierPointer (a : Z) : M RbPtr := o <- object_at a ;; ret (rb_ptr o).
Definition SetReadBarrierPointer (a : Z) (p : RbPtr) : M unit :=
  o <- object_at a ;; store_object a (set_rb_ptr p o).
(** [AtomicSetReadBarrierPointer(expected, new)]: a strong compare-and-swap. *)
Definition AtomicSetReadBarrierPointer (a : Z) (expected new : RbPtr) : M bool :=
  o <- object_at a ;;
  if decide (rb_ptr o = expected)
  then store_object a (set_rb_ptr new o) ;; ret true
  else ret false.
Definition GetLockWord (a : Z) : M LockWord := o <- object_at a ;; ret (monitor o).
Definition GetClass (a : Z) : M Z := o <- object_at a ;; ret (klass o).
Definition SetClass (a : Z) (c : Z) : M unit :=
  o <- object_at a ;; store_object a (set_klass c o).

(** The next answer of the weak compare-and-swap oracle. *)
Definition next_weak_cas_fails : M bool :=
  fun s => match weak_cas_fails s with
           | [] => Ok (false, s)
           | b :: r => Ok (b, set_weak_cas_fails r s)
           end.

(** [CasLockWordWeakSequentiallyConsistent(old, new)] *)
Definition CasLockWordWeak (a : Z) (old new : LockWord) : M bool :=
  spurious <- next_weak_cas_fails ;;
  o <- object_at a ;;
  if negb spurious && bool_decide (monitor o = old)
  then store_object a (set_monitor new o) ;; ret true
  else ret false.

(** The class record behind a class pointer. *)
Definition class_of (c : Z) : M ClassData :=
  o <- object_at c ;;
  match class_data o with Some d => ret d | None => unspecified end.

(** Modelled from the spec: object-inl.h is absent.  "Size is recoverable from
    the object's class/shape even while the object lies in from-space."  An
    array instance takes its header and [array_length] components, any other
    instance the object size of its class. *)
Definition SizeOf (a : Z) : M Z :=
  o <- object_at a ;;
  d <- class_of (klass o) ;;
  if component_size d =? 0
  then ret (object_size d)
  else ret (Array_DataOffset E (component_size d) + array_length o * component_size d).

Definition IsInToSpace (ref : Z) : bool :=
  bool_decide (GetRegionType E ref = kRegionTypeToSpace).
Definition IsInFromSpace (ref : Z) : bool :=
  bool_decide (GetRegionType E ref = kRegionTypeFromSpace).
Definition IsInUnevacFromSpace (ref : Z) : bool :=
  bool_decide (GetRegionType E ref = kRegionTypeUnevacFromSpace).

Definition is_gc_thread (self : nat) (s : State) : bool :=
  bool_decide (thread_running_gc s = Some self).

Definition thread_at (t : nat) : M Thread :=
  fun s => match threads s !! t with Some th => Ok (th, s) | None => Unspecified end.
Definition store_thread (t : nat) (th : Thread) : M unit :=
  modify (fun s => set_threads (<[t := th]> (threads s)) s).

(** *** The mark stacks *)

Definition ExpandGcMarkStack : M unit :=
  DCHECK (gets (fun s => IsFull (gc_mark_stack s))) ;;
  st <- gets gc_mark_stack ;;
  let new_size := (capacity st * 2)%nat in
  let temp := elems st in
  modify (set_gc_mark_stack (Resize new_size st)) ;;
  for_each temp (fun ref => modify (fun s => set_gc_mark_stack (PushBack ref (gc_mark_stack s)) s)) ;;
  DCHECK (gets (fun s => negb (IsFull (gc_mark_stack s)))).

Definition push_gc_mark_stack (to_ref : Z) : M unit :=
  full <- gets (fun s => IsFull (gc_mark_stack s)) ;;
  when full ExpandGcMarkStack ;;
  modify (fun s => set_gc_mark_stack (PushBack to_ref (gc_mark_stack s)) s).

Definition PushOntoMarkStack (self : nat) (to_ref : Z) : M unit :=
  disallowed <- gets is_mark_stack_push_disallowed ;;
  CHECK (disallowed =? 0) ;;
  gc <- gets thread_running_gc ;;
  CHECK (bool_decide (gc <> None)) ;;
  mode <- gets mark_stack_mode ;;
  match mode with
  | kMarkStackModeThreadLocal =>
      if bool_decide (gc = Some self) then
        (* The GC-running thread uses the GC mark stack. *)
        th <- thread_at self ;;
        CHECK (bool_decide (tl_mark_stack th = None)) ;;
        push_gc_mark_stack to_ref
      else
        th <- thread_at self ;;
        let tl := tl_mark_stack th in
        if match tl with None => true | Some st => IsFull st end then
          pooled <- gets pooled_mark_stacks ;;
          new_tl <- match pooled with
                    | st :: rest => modify (set_pooled_mark_stacks rest) ;; ret st
                    | [] => ret (Create 4096)
                    end ;;
          DCHECK (ret (IsEmpty new_tl)) ;;
          store_thread self (SetThreadLocalMarkStack (Some (PushBack to_ref new_tl)) th) ;;
          match tl with
          | Some old =>
              modify (fun s => set_revoked_mark_stacks (revoked_mark_stacks s ++ [old]) s)
          | None => ret tt
          end
        else
          match tl with
          | Some st => store_thread self (SetThreadLocalMarkStack (Some (PushBack to_ref st)) th)
          | None => ret tt
          end
  | kMarkStackModeShared =>
      push_gc_mark_stack to_ref
  | _ =>
      CHECK (bool_decide (mode = kMarkStackModeGcExclusive)) ;;
      CHECK (bool_decide (gc = Some self)) ;;
      push_gc_mark_stack to_ref
  end.

Definition PushOntoFalseGrayStack (ref : Z) : M unit :=
  CHECK (kUseBakerReadBarrier E) ;;
  DCHECK (ret (negb (ref =? 0))) ;;
  modify (fun s => set_false_gray_stack (false_gray_stack s ++ [ref]) s).

Definition IsOnAllocStack (ref : Z) : M bool :=
  gets (fun s => bool_decide (ref ∈ allocation_stack s)).


(** *** Bitmaps *)

Definition region_bitmap_Test (ref : Z) : M bool :=
  gets (fun s => bool_decide (ref ∈ region_space_bitmap s)).
Definition region_bitmap_AtomicTestAndSet (ref : Z) : M bool :=
  old <- region_bitmap_Test ref ;;
  modify (fun s => set_region_space_bitmap ({[ref]} ∪ region_space_bitmap s) s) ;;
  ret old.
Definition mark_bitmap_Test (ref : Z) : M bool :=
  gets (fun s => bool_decide (ref ∈ mark_bitmap s)).
Definition mark_bitmap_AtomicTestAndSet (ref : Z) : M bool :=
  old <- mark_bitmap_Test ref ;;
  modify (fun s => set_mark_bitmap ({[ref]} ∪ mark_bitmap s) s) ;;
  ret old.
(** [Clear(obj)] returns the bit it cleared. *)
Definition mark_bitmap_Clear (ref : Z) : M bool :=
  old <- mark_bitmap_Test ref ;;
  modify (fun s => set_mark_bitmap (mark_bitmap s ∖ {[ref]}) s) ;;
  ret old.
Definition los_bitmap_Test (ref : Z) : M bool :=
  gets (fun s => bool_decide (ref ∈ los_bitmap s)).
Definition los_bitmap_AtomicTestAndSet (ref : Z) : M bool :=
  old <- los_bitmap_Test ref ;;
  modify (fun s => set_los_bitmap ({[ref]} ∪ los_bitmap s) s) ;;
  ret old.

(** *** The to-space invariant assertions (lines 1532-1552 and 1662-1696) *)

Definition AssertToSpaceInvariantInNonMovingSpace (self : nat) (ref : Z) : M unit :=
  if immune_ContainsObject E ref then
    if kUseBakerReadBarrier E then
      by_gc <- gets (fun s => is_gc_thread self s && negb (gc_grays_immune_objects s)) ;;
      if by_gc then ret tt
      else
        updated <- gets updated_all_immune_objects ;;
        if updated then ret tt
        else rb <- GetReadBarrierPointer ref ;; CHECK (bool_decide (rb = GrayPtr))
    else ret tt
  else
    (* CHECK(los_bitmap != nullptr), line 1683: the state has one large-object
       bitmap, which covers every address. *)
    let is_los := negb (has_space_bitmap E ref) in
    marked <- (if is_los then los_bitmap_Test ref else mark_bitmap_Test ref) ;;
    if marked then ret tt
    else on_stack <- IsOnAllocStack ref ;; CHECK on_stack.

(** [AssertToSpaceInvariant(obj, offset, ref)]; the holder [obj] only feeds the log. *)
Definition AssertToSpaceInvariant (self : nat) (ref : Z) : M unit :=
  CHECK (collector_type_is_CC E) ;;
  asserting <- gets is_asserting_to_space_invariant ;;
  if asserting then
    if IsInToSpace ref then ret tt
    else if IsInUnevacFromSpace ref then
      marked <- region_bitmap_Test ref ;; CHECK marked
    else if IsInFromSpace ref then fatal
    else AssertToSpaceInvariantInNonMovingSpace self ref
  else ret tt.

(** *** MarkNonMoving (lines 2144-2219) *)

Definition rb_is_gray_or_white (ref : Z) : M bool :=
  rb <- GetReadBarrierPointer ref ;;
  ret (bool_decide (rb = GrayPtr) || bool_decide (rb = WhitePtr)).
Definition rb_is (ref : Z) (p : RbPtr) : M bool :=
  rb <- GetReadBarrierPointer ref ;; ret (bool_decide (rb = p)).

Definition MarkNonMoving (self : nat) (ref : Z) : M Z :=
  DCHECK (ret (bool_decide (GetRegionType E ref = kRegionTypeNone))) ;;
  DCHECK (ret (negb (immune_ContainsObject E ref))) ;;
  (* CHECK(los_bitmap != nullptr), line 2153: the state has one large-object
     bitmap, which covers every address. *)
  let is_los := negb (has_space_bitmap E ref) in
  marked <- (if is_los then ret false else mark_bitmap_Test ref) ;;
  if marked then
    (* Already marked. *)
    when (kUseBakerReadBarrier E) (DCHECK (rb_is_gray_or_white ref)) ;;
    ret ref
  else
    los_marked <- (if is_los then los_bitmap_Test ref else ret false) ;;
    if los_marked then
      (* Already marked in LOS. *)
      when (kUseBakerReadBarrier E) (DCHECK (rb_is_gray_or_white ref)) ;;
      ret ref
    else
      (* Not marked. *)
      on_stack <- IsOnAllocStack ref ;;
      if on_stack then
        (* On the allocation stack: considered marked, kept white. *)
        DCHECK (b <- (if is_los then los_bitmap_Test ref else mark_bitmap_Test ref) ;;
                ret (negb b)) ;;
        when (kUseBakerReadBarrier E) (DCHECK (rb_is ref WhitePtr)) ;;
        ret ref
      else
        again <- (if kUseBakerReadBarrier E
                  then (if is_los then los_bitmap_Test ref else mark_bitmap_Test ref)
                  else ret false) ;;
        if again then ret ref
        else
          cas_success <- (if kUseBakerReadBarrier E
                          then AtomicSetReadBarrierPointer ref WhitePtr GrayPtr
                          else ret false) ;;
          was_set <- (if is_los then los_bitmap_AtomicTestAndSet ref
                      else mark_bitmap_AtomicTestAndSet ref) ;;
          (if was_set then
             (* Already marked by another thread: a false gray. *)
             (if kUseBakerReadBarrier E && cas_success then
                gray <- rb_is ref GrayPtr ;;
                when gray (PushOntoFalseGrayStack ref)
              else ret tt)
           else
             (* Newly marked. *)
             when (kUseBakerReadBarrier E) (DCHECK (rb_is ref GrayPtr)) ;;
             PushOntoMarkStack self ref) ;;
          ret ref.

(** *** Mark and its helpers *)

(** Modelled from the spec: concurrent_copying-inl.h is absent.  "Attempt to
    read a forwarding pointer from ref's lock word.  If present, return it." *)
Definition GetFwdPtr (from_ref : Z) : M Z :=
  lw <- GetLockWord from_ref ;;
  match GetState lw with
  | kForwardingAddress => ret (ForwardingAddress lw)
  | _ => ret 0
  end.

(** Modelled from the spec: concurrent_copying-inl.h is absent.
    "Unevac-from-space: CAS the region bitmap; if newly set, gray the object
    (Baker) and push to mark stack; return ref." *)
Definition MarkUnevacFromSpaceRegion (self : nat) (ref : Z) : M Z :=
  was_set <- region_bitmap_AtomicTestAndSet ref ;;
  (if was_set then ret tt
   else
     when (kUseBakerReadBarrier E) (SetReadBarrierPointer ref GrayPtr) ;;
     PushOntoMarkStack self ref) ;;
  ret ref.

(** Modelled from the spec: concurrent_copying-inl.h is absent.  An immune
    object is never moved; "during the cycle the collector may temporarily gray
    them and then whiten them", the grayed ones being kept on the immune gray
    stack "so it can whiten them later".  Nothing is grayed once
    [updated_all_immune_objects_] is published, nor by the field scan, which
    runs [Mark] with [kGrayImmuneObject] off. *)
Definition MarkImmuneSpace (kGrayImmuneObject : bool) (ref : Z) : M Z :=
  (if kUseBakerReadBarrier E then
     updated <- gets updated_all_immune_objects ;;
     if negb kGrayImmuneObject || updated then ret tt
     else
       success <- AtomicSetReadBarrierPointer ref WhitePtr GrayPtr ;;
       when success (modify (fun s => set_immune_gray_stack (immune_gray_stack s ++ [ref]) s))
   else ret tt) ;;
  ret ref.


(** *** The skipped-blocks map

    [std::multimap<size_t, uint8_t*>]: the list is kept sorted by size, blocks
    of one size in insertion order. *)

(** [lower_bound(k)]: position and entry of the first block of size at least [k]. *)
Fixpoint lower_bound (k : Z) (m : list (Z * Z)) : option (nat * (Z * Z)) :=
  match m with
  | [] => None
  | (size, a) :: r =>
      if k <=? size then Some (O, (size, a))
      else match lower_bound k r with
           | Some (i, e) => Some (S i, e)
           | None => None
           end
  end.

Fixpoint multimap_insert (e : Z * Z) (m : list (Z * Z)) : list (Z * Z) :=
  match m with
  | [] => [e]
  | e' :: r => if fst e' <=? fst e then e' :: multimap_insert e r else e :: e' :: r
  end.

Definition min_object_size : Z := RoundUp (sizeof_Object E) (kAlignment E).

(** *** Allocators

    region_space.h and the non-moving space are absent; the state holds the
    answers they will give.  An answer must be a fresh address in the space it
    stands for, anything else is [Unspecified]. *)

Definition fresh (a : Z) (s : State) : bool :=
  negb (a =? 0) && bool_decide (heap s !! a = None).

(** [region_space_->AllocNonvirtual<true>(alloc_size, &bytes_allocated, ...)] *)
Definition AllocNonvirtual (alloc_size : Z) : M Z :=
  fun s =>
    match region_alloc s with
    | [] => Ok (0, s)
    | None :: r => Ok (0, set_region_alloc r s)
    | Some a :: r =>
        if fresh a s && IsInToSpace a
        then Ok (a, set_heap (<[a := zeroed_object]> (heap s)) (set_region_alloc r s))
        else Unspecified
    end.

(** [heap_->non_moving_space_->Alloc(self, obj_size, &bytes_allocated, ...)]:
    the address and the bytes the allocator reports. *)
Definition non_moving_space_Alloc (obj_size : Z) : M (Z * Z) :=
  fun s =>
    match non_moving_alloc s with
    | [] => Ok ((0, 0), s)
    | None :: r => Ok ((0, 0), set_non_moving_alloc r s)
    | Some (a, n) :: r =>
        if fresh a s && non_moving_HasAddress E a
           && bool_decide (GetRegionType E a = kRegionTypeNone)
           && negb (immune_ContainsObject E a) && (obj_size <=? n)
        then Ok ((a, n), set_heap (<[a := zeroed_object]> (heap s)) (set_non_moving_alloc r s))
        else Unspecified
    end.

(** [FreeLarge] and [non_moving_space_->Free]: the block leaves the heap. *)
Definition free_block (a : Z) : M unit :=
  modify (fun s => set_heap (delete a (heap s)) s).

(** *** Activation frames of Mark, Copy and FillWithDummyObject *)

Record CopyLocals := {
  from_ref : Z;
  obj_size : Z;
  region_space_alloc_size : Z;
  bytes_allocated : Z;
  non_moving_space_bytes_allocated : Z;
  to_ref : Z;
  fall_back_to_non_moving : bool;
  old_lock_word : LockWord;
  skipped_addr : Z;       (* addr of AllocateInSkippedBlock *)
  skipped_byte_size : Z   (* byte_size of AllocateInSkippedBlock *)
}.

Definition entry_locals (from : Z) : CopyLocals :=
  Build_CopyLocals from 0 0 0 0 0 false LwUnlocked 0 0.

(** The program points of [Copy] at which another thread can interleave. *)
Inductive CopyPc : Type :=
| CopyEntry               (* lines 1954-1971: sizes, region-space allocation *)
| CopyTrySkipped          (* line 1973 and AllocateInSkippedBlock, lines 1897-1943 *)
| CopySkippedRemainder    (* AllocateInSkippedBlock, lines 1944-1950, and 1974-1980 *)
| CopyNonMovingFallback   (* lines 1983-1998 *)
| CopyLoopHead            (* lines 2007-2016: memcpy, lock word, lost-race test *)
| CopyLostRace            (* lines 2017-2049 *)
| CopySetGray             (* lines 2053-2057 *)
| CopyCas                 (* lines 2060-2061 *)
| CopyCountObject         (* line 2063 *)
| CopyCountBytes          (* line 2064 *)
| CopyPush.               (* lines 2065-2077 *)

#[global] Instance CopyPc_eq_dec : EqDecision CopyPc.
Proof. solve_decision. Defined.

Inductive Frame : Type :=
| FMark (kGrayImmuneObject : bool) (ref : Z)
| FCopy (pc : CopyPc) (l : CopyLocals)
| FFillEntry (dummy_obj byte_size : Z)
| FFillAwait (dummy_obj byte_size : Z) (enabled : bool)
| FFillRest (dummy_obj byte_size : Z) (enabled : bool) (int_array_class_ : Z).

(** What one step of the running frame does to the call stack. *)
Inductive FrameStep : Type :=
| Goto (f : Frame)                  (* the frame goes on as [f] *)
| Call (caller callee : Frame)      (* [callee] runs, then [caller] resumes *)
| Return (v : Z).

Definition with_to_ref (a : Z) (n : Z) (l : CopyLocals) : CopyLocals :=
  Build_CopyLocals (from_ref l) (obj_size l) (region_space_alloc_size l) n
    (non_moving_space_bytes_allocated l) a (fall_back_to_non_moving l) (old_lock_word l)
    (skipped_addr l) (skipped_byte_size l).
Definition with_fallback (a n : Z) (l : CopyLocals) : CopyLocals :=
  Build_CopyLocals (from_ref l) (obj_size l) (region_space_alloc_size l) n n a true
    (old_lock_word l) (skipped_addr l) (skipped_byte_size l).
Definition with_old_lock_word (lw : LockWord) (l : CopyLocals) : CopyLocals :=
  Build_CopyLocals (from_ref l) (obj_size l) (region_space_alloc_size l) (bytes_allocated l)
    (non_moving_space_bytes_allocated l) (to_ref l) (fall_back_to_non_moving l) lw
    (skipped_addr l) (skipped_byte_size l).
Definition with_skipped (a n : Z) (l : CopyLocals) : CopyLocals :=
  Build_CopyLocals (from_ref l) (obj_size l) (region_space_alloc_size l) (bytes_allocated l)
    (non_moving_space_bytes_allocated l) (to_ref l) (fall_back_to_non_moving l)
    (old_lock_word l) a n.
Definition with_sizes (size alloc_size : Z) (l : CopyLocals) : CopyLocals :=
  Build_CopyLocals (from_ref l) size alloc_size (bytes_allocated l)
    (non_moving_space_bytes_allocated l) (to_ref l) (fall_back_to_non_moving l)
    (old_lock_word l) (skipped_addr l) (skipped_byte_size l).


(** *** FillWithDummyObject (lines 1855-1892)

    The function calls [Mark] on the int-array class, which may copy that class:
    it is one frame up to the call and one after it. *)

Definition to_int32 (x : Z) : Z :=
  let y := x mod 2 ^ 32 in if y <? 2 ^ 31 then y else y - 2 ^ 32.

(** Lines 1859-1865, up to the call of [Mark].  [enabled] is the field of the
    [ScopedGcGraysImmuneObjects] guard. *)
Definition FillWithDummyObject_enter (self : nat) (dummy_obj byte_size : Z) : M FrameStep :=
  enabled <- gets (fun s => kUseBakerReadBarrier E && is_gc_thread self s
                            && negb (gc_grays_immune_objects s)) ;;
  when enabled (modify (set_gc_grays_immune_objects true)) ;;
  CHECK (IsAligned byte_size (kObjectAlignment E)) ;;
  store_object dummy_obj zeroed_object ;;
  root <- gets int_array_class ;;
  ret (Call (FFillAwait dummy_obj byte_size enabled) (FMark true root)).

(** Lines 1866-1891 and the destructor of the guard. *)
Definition FillWithDummyObject_rest (self : nat) (dummy_obj byte_size : Z) (enabled : bool)
    (int_array_class_ : Z) : M FrameStep :=
  CHECK (negb (int_array_class_ =? 0)) ;;
  AssertToSpaceInvariant self int_array_class_ ;;
  d <- class_of int_array_class_ ;;
  let component_size_ := component_size d in
  CHECK (component_size_ =? 4) ;;
  let data_offset := Array_DataOffset E component_size_ in
  (if byte_size <? data_offset then
     (* An int array is too big. Use java.lang.Object. *)
     jlo <- gets java_lang_Object ;;
     AssertToSpaceInvariant self jlo ;;
     dj <- class_of jlo ;;
     CHECK (byte_size =? object_size dj) ;;
     SetClass dummy_obj jlo ;;
     size <- SizeOf dummy_obj ;;
     CHECK (byte_size =? size)
   else
     (* Use an int array. *)
     SetClass dummy_obj int_array_class_ ;;
     CHECK (negb (component_size d =? 0)) ;;
     let length := to_int32 ((byte_size - data_offset) / component_size_) in
     o <- object_at dummy_obj ;;
     store_object dummy_obj (SetLength length o) ;;
     size <- SizeOf dummy_obj ;;
     CHECK (byte_size =? size)) ;;
  by_gc <- gets (is_gc_thread self) ;;
  when (kUseBakerReadBarrier E && by_gc && enabled)
    (DCHECK (gets gc_grays_immune_objects) ;; modify (set_gc_grays_immune_objects false)) ;;
  ret (Return 0).

(** *** Copy (lines 1953-2083), with AllocateInSkippedBlock (lines 1895-1951) *)

Definition Copy_entry (l : CopyLocals) : M FrameStep :=
  DCHECK (ret (IsInFromSpace (from_ref l))) ;;
  size <- SizeOf (from_ref l) ;;
  let alloc_size := RoundUp size (kAlignment E) in
  a <- AllocNonvirtual alloc_size ;;
  let l1 := with_sizes size alloc_size l in
  if a =? 0 then ret (Goto (FCopy CopyTrySkipped l1))
  else ret (Goto (FCopy CopyLoopHead (with_to_ref a alloc_size l1))).

(** [AllocateInSkippedBlock(alloc_size)] up to the call of FillWithDummyObject. *)
Definition Copy_try_skipped (l : CopyLocals) : M FrameStep :=
  let alloc_size := region_space_alloc_size l in
  CHECK (IsAligned alloc_size (kAlignment E)) ;;
  m <- gets skipped_blocks_map ;;
  match lower_bound alloc_size m with
  | None => ret (Goto (FCopy CopyNonMovingFallback l))
  | Some (i, (byte_size, _)) =>
      CHECK (alloc_size <=? byte_size) ;;
      found <- (if (alloc_size <? byte_size) && (byte_size - alloc_size <? min_object_size) then
                  (* The remainder would be too small for a dummy object. *)
                  match lower_bound (alloc_size + min_object_size) m with
                  | None => ret None
                  | Some (j, (size_j, addr_j)) =>
                      CHECK (IsAligned (size_j - alloc_size) (kAlignment E)) ;;
                      CHECK (min_object_size <=? size_j - alloc_size) ;;
                      ret (Some j)
                  end
                else ret (Some i)) ;;
      match found with
      | None => ret (Goto (FCopy CopyNonMovingFallback l))
      | Some k =>
          match m !! k with
          | None => unspecified
          | Some (byte_size, addr) =>
              CHECK (alloc_size <=? byte_size) ;;
              CHECK (IsInToSpace addr) ;;
              CHECK (IsAligned byte_size (kAlignment E)) ;;
              modify (set_skipped_blocks_map (delete k m)) ;;
              (* memset(addr, 0, byte_size) *)
              store_object addr zeroed_object ;;
              if alloc_size <? byte_size then
                CHECK (IsAligned (byte_size - alloc_size) (kAlignment E)) ;;
                CHECK (min_object_size <=? byte_size - alloc_size) ;;
                (* The remainder lies inside the block, which lies in the to-space:
                   no object starts there, and memset has zeroed it. *)
                inside <- gets (fun s => fresh (addr + alloc_size) s
                                         && IsInToSpace (addr + alloc_size)) ;;
                if inside then
                  store_object (addr + alloc_size) zeroed_object ;;
                  ret (Call (FCopy CopySkippedRemainder (with_skipped addr byte_size l))
                            (FFillEntry (addr + alloc_size) (byte_size - alloc_size)))
                else unspecified
              else
                ret (Goto (FCopy CopyLoopHead (with_to_ref addr alloc_size l)))
          end
      end
  end.

(** The remainder of a split block goes back to the map; then lines 1974-1980.
    [RecordAlloc] only feeds the region's object count, which is not modelled. *)
Definition Copy_skipped_remainder (l : CopyLocals) : M FrameStep :=
  let alloc_size := region_space_alloc_size l in
  let addr := skipped_addr l in
  CHECK (IsInToSpace (addr + alloc_size)) ;;
  modify (fun s => set_skipped_blocks_map
            (multimap_insert (skipped_byte_size l - alloc_size, addr + alloc_size)
               (skipped_blocks_map s)) s) ;;
  ret (Goto (FCopy CopyLoopHead (with_to_ref addr alloc_size l))).

Definition Copy_non_moving_fallback (l : CopyLocals) : M FrameStep :=
  r <- non_moving_space_Alloc (obj_size l) ;;
  let '(a, n) := r in
  CHECK (negb (a =? 0)) ;;
  CHECK (has_space_bitmap E a) ;;
  was_set <- mark_bitmap_AtomicTestAndSet a ;;
  CHECK (negb was_set) ;;
  ret (Goto (FCopy CopyLoopHead (with_fallback a n l))).

Definition Copy_loop_head (l : CopyLocals) : M FrameStep :=
  (* memcpy(to_ref, from_ref, obj_size) *)
  o <- object_at (from_ref l) ;;
  store_object (to_ref l) o ;;
  lw <- GetLockWord (to_ref l) ;;
  let l1 := with_old_lock_word lw l in
  match GetState lw with
  | kForwardingAddress =>
      (* Lost the race: make the copy a dummy object, then recycle it. *)
      ret (Call (FCopy CopyLostRace l1) (FFillEntry (to_ref l) (bytes_allocated l)))
  | _ => ret (Goto (FCopy CopySetGray l1))
  end.

Definition Copy_lost_race (l : CopyLocals) : M FrameStep :=
  (if negb (fall_back_to_non_moving l) then
     DCHECK (ret (IsInToSpace (to_ref l))) ;;
     if kRegionSize E <? bytes_allocated l then
       (* Free the large alloc. *)
       free_block (to_ref l)
     else
       (* Record the lost copy for later reuse. *)
       modify (fun s => set_num_bytes_allocated
                 (wrap64 (num_bytes_allocated s + bytes_allocated l)) s) ;;
       modify (fun s => set_to_space_bytes_skipped
                 (wrap64 (to_space_bytes_skipped s + bytes_allocated l)) s) ;;
       modify (fun s => set_to_space_objects_skipped
                 (wrap64 (to_space_objects_skipped s + 1)) s) ;;
       modify (fun s => set_skipped_blocks_map
                 (multimap_insert (bytes_allocated l, to_ref l) (skipped_blocks_map s)) s)
   else
     DCHECK (ret (non_moving_HasAddress E (to_ref l))) ;;
     DCHECK (ret (bytes_allocated l =? non_moving_space_bytes_allocated l)) ;;
     (* Free the non-moving-space chunk. *)
     CHECK (has_space_bitmap E (to_ref l)) ;;
     was_set <- mark_bitmap_Clear (to_ref l) ;;
     CHECK was_set ;;
     free_block (to_ref l)) ;;
  (* Get the winner's forward ptr. *)
  let lost_fwd_ptr := to_ref l in
  let winner := ForwardingAddress (old_lock_word l) in
  CHECK (negb (winner =? 0)) ;;
  CHECK (negb (winner =? lost_fwd_ptr)) ;;
  CHECK (IsInToSpace winner || non_moving_HasAddress E winner) ;;
  lw <- GetLockWord winner ;;
  CHECK (negb (is_forwarding lw)) ;;
  ret (Return winner).

Definition Copy_set_gray (l : CopyLocals) : M FrameStep :=
  when (kUseBakerReadBarrier E) (SetReadBarrierPointer (to_ref l) GrayPtr) ;;
  ret (Goto (FCopy CopyCas l)).

Definition Copy_cas (l : CopyLocals) : M FrameStep :=
  let new_lock_word := FromForwardingAddress (to_ref l) in
  success <- CasLockWordWeak (from_ref l) (old_lock_word l) new_lock_word ;;
  if success then ret (Goto (FCopy CopyCountObject l))
  else ret (Goto (FCopy CopyLoopHead l)).

Definition Copy_count_object (l : CopyLocals) : M FrameStep :=
  modify (fun s => set_objects_moved (wrap64 (objects_moved s + 1)) s) ;;
  ret (Goto (FCopy CopyCountBytes l)).

Definition Copy_count_bytes (l : CopyLocals) : M FrameStep :=
  modify (fun s => set_bytes_moved (wrap64 (bytes_moved s + region_space_alloc_size l)) s) ;;
  ret (Goto (FCopy CopyPush l)).

Definition Copy_push (self : nat) (l : CopyLocals) : M FrameStep :=
  (if negb (fall_back_to_non_moving l)
   then DCHECK (ret (IsInToSpace (to_ref l)))
   else DCHECK (ret (non_moving_HasAddress E (to_ref l))) ;;
        DCHECK (ret (bytes_allocated l =? non_moving_space_bytes_allocated l))) ;;
  when (kUseBakerReadBarrier E) (DCHECK (rb_is (to_ref l) GrayPtr)) ;;
  DCHECK (fwd <- GetFwdPtr (from_ref l) ;; ret (fwd =? to_ref l)) ;;
  lw <- GetLockWord (to_ref l) ;;
  CHECK (negb (is_forwarding lw)) ;;
  PushOntoMarkStack self (to_ref l) ;;
  ret (Return (to_ref l)).

Definition Copy_step (self : nat) (pc : CopyPc) (l : CopyLocals) : M FrameStep :=
  match pc with
  | CopyEntry => Copy_entry l
  | CopyTrySkipped => Copy_try_skipped l
  | CopySkippedRemainder => Copy_skipped_remainder l
  | CopyNonMovingFallback => Copy_non_moving_fallback l
  | CopyLoopHead => Copy_loop_head l
  | CopyLostRace => Copy_lost_race l
  | CopySetGray => Copy_set_gray l
  | CopyCas => Copy_cas l
  | CopyCountObject => Copy_count_object l
  | CopyCountBytes => Copy_count_bytes l
  | CopyPush => Copy_push self l
  end.

(** Modelled from the spec: concurrent_copying-inl.h is absent.  "Classify ref
    by region role.  To-space: return ref verbatim.  Unevac-from-space: [...].
    From-space: attempt to read a forwarding pointer from ref's lock word.  If
    present, return it.  Otherwise call Copy(ref).  Immune / non-moving:
    [...]".  The callers pass null references, which come back unchanged. *)
Definition Mark_step (self : nat) (kGrayImmuneObject : bool) (ref : Z) : M FrameStep :=
  if ref =? 0 then ret (Return 0)
  else
    match GetRegionType E ref with
    | kRegionTypeToSpace => ret (Return ref)
    | kRegionTypeFromSpace =>
        fwd <- GetFwdPtr ref ;;
        if fwd =? 0 then ret (Goto (FCopy CopyEntry (entry_locals ref)))
        else ret (Return fwd)
    | kRegionTypeUnevacFromSpace =>
        r <- MarkUnevacFromSpaceRegion self ref ;; ret (Return r)
    | kRegionTypeNone =>
        if immune_ContainsObject E ref
        then r <- MarkImmuneSpace kGrayImmuneObject ref ;; ret (Return r)
        else r <- MarkNonMoving self ref ;; ret (Return r)
    end.

Definition frame_step (self : nat) (f : Frame) : M FrameStep :=
  match f with
  | FMark g ref => Mark_step self g ref
  | FCopy pc l => Copy_step self pc l
  | FFillEntry d n => FillWithDummyObject_enter self d n
  | FFillAwait d n en => unspecified
  | FFillRest d n en c => FillWithDummyObject_rest self d n en c
  end.

(** A returned value reaches the frame that made the call. *)
Definition resume (caller : Frame) (v : Z) : Frame :=
  match caller with
  | FFillAwait d n en => FFillRest d n en v
  | f => f
  end.

(** A thread in the collector: its call stack, innermost frame first, or the
    value its outermost call returned. *)
Inductive Activity : Type :=
| Running (stack : list Frame)
| Finished (v : Z).

Definition thread_step (self : nat) (stack : list Frame) : M Activity :=
  match stack with
  | [] => unspecified
  | f :: rest =>
      r <- frame_step self f ;;
      match r with
      | Goto f' => ret (Running (f' :: rest))
      | Call caller callee => ret (Running (callee :: caller :: rest))
      | Return v =>
          match rest with
          | [] => ret (Finished v)
          | caller :: rest' => ret (Running (resume caller v :: rest'))
          end
      end
  end.

(** A call that no other thread interleaves with. *)
Fixpoint run_thread (fuel : nat) (self : nat) (stack : list Frame) : M Z :=
  match fuel with
  | O => out_of_fuel
  | S n =>
      a <- thread_step self stack ;;
      match a with
      | Finished v => ret v
      | Running stack' => run_thread n self stack'
      end
  end.

Definition Mark (fuel : nat) (self : nat) (kGrayImmuneObject : bool) (ref : Z) : M Z :=
  run_thread fuel self [FMark kGrayImmuneObject ref].
Definition Copy (fuel : nat) (self : nat) (from : Z) : M Z :=
  run_thread fuel self [FCopy CopyEntry (entry_locals from)].
Definition FillWithDummyObject (fuel : nat) (self : nat) (dummy_obj byte_size : Z) : M unit :=
  run_thread fuel self [FFillEntry dummy_obj byte_size] ;; ret tt.


(** *** Predicates of the specification *)

(** [c] returns [a] from [s] and leaves [s] as it is. *)
Definition returns {A : Type} (c : M A) (s : State) (a : A) : Prop := c s = Ok (a, s).

(** The classes FillWithDummyObject installs: the int-array class and
    java.lang.Object are classes in the to-space, apart from the block to fill. *)
Definition dummy_classes_ok (s : State) (dummy_obj : Z) (dj : ClassData) : Prop :=
  int_array_class s <> 0 /\
  int_array_class s <> dummy_obj /\ java_lang_Object s <> dummy_obj /\
  IsInToSpace (int_array_class s) = true /\ IsInToSpace (java_lang_Object s) = true /\
  (exists oc d, heap s !! int_array_class s = Some oc /\ class_data oc = Some d /\
                component_size d = 4) /\
  (exists oj, heap s !! java_lang_Object s = Some oj /\ class_data oj = Some dj /\
              component_size dj = 0).

(** The state with its mark stacks (and the threads that hold the thread-local
    ones) blanked: equal blanked states differ in the mark stacks only. *)
Definition without_mark_stacks (s : State) : State :=
  set_gc_mark_stack (Create 0)
    (set_revoked_mark_stacks [] (set_pooled_mark_stacks [] (set_threads ∅ s))).

(** [x] lies on the GC mark stack or on the thread-local mark stack of [self]. *)
Definition on_mark_stack (self : nat) (x : Z) (s : State) : Prop :=
  x ∈ elems (gc_mark_stack s) \/
  exists th st, threads s !! self = Some th /\ tl_mark_stack th = Some st /\ x ∈ elems st.

(** The answer an allocator gives next: a block, or failure. *)
Definition next_answer {A : Type} (answers : list (option A)) : option A :=
  match answers with
  | Some a :: _ => Some a
  | _ => None
  end.

(** *** IsMarked (lines 2085-2136) and IsMarkedHeapReference (lines 2269-2281) *)

Definition IsMarked (from_ref : Z) : M Z :=
  DCHECK (ret (negb (from_ref =? 0))) ;;
  match GetRegionType E from_ref with
  | kRegionTypeToSpace =>
      (* It's already marked. *)
      ret from_ref
  | kRegionTypeFromSpace =>
      to_ref <- GetFwdPtr from_ref ;;
      DCHECK (ret ((to_ref =? 0) || IsInToSpace to_ref || non_moving_HasAddress E to_ref)) ;;
      ret to_ref
  | kRegionTypeUnevacFromSpace =>
      marked <- region_bitmap_Test from_ref ;;
      if marked then ret from_ref else ret 0
  | kRegionTypeNone =>
      if immune_ContainsObject E from_ref then
        (* An immune object is alive. *)
        ret from_ref
      else
        (* CHECK(los_bitmap != nullptr), line 2115: the state has one
           large-object bitmap, which covers every address. *)
        let is_los := negb (has_space_bitmap E from_ref) in
        marked <- (if is_los then los_bitmap_Test from_ref else mark_bitmap_Test from_ref) ;;
        if marked then ret from_ref
        else
          on_stack <- IsOnAllocStack from_ref ;;
          if on_stack then ret from_ref else ret 0
  end.

(** Modelled from the spec: concurrent_copying.h is absent.  The collector's
    own [IsInToSpace(ref)], the test ProcessMarkStackRef applies to a referent
    that "has not yet been copied": the reference is where [IsMarked] says its
    object lives. *)
Definition collector_IsInToSpace (ref : Z) : M bool :=
  DCHECK (ret (negb (ref =? 0))) ;;
  m <- IsMarked ref ;;
  ret (m =? ref).

(** *** Slots that hold references *)

Inductive Slot : Type :=
| FieldSlot (obj : Z) (i : nat)        (* a reference field of an object *)
| ReferentSlot (obj : Z)               (* the referent of a java.lang.ref.Reference *)
| NativeRootSlot (obj : Z) (i : nat)   (* a compressed root held by an object *)
| RootSlot (i : nat).                  (* a root of the runtime *)

Definition slot_load (sl : Slot) : M Z :=
  match sl with
  | FieldSlot obj i =>
      o <- object_at obj ;;
      match ref_fields o !! i with Some v => ret v | None => unspecified end
  | ReferentSlot obj => o <- object_at obj ;; ret (referent o)
  | NativeRootSlot obj i =>
      o <- object_at obj ;;
      match native_roots o !! i with Some v => ret v | None => unspecified end
  | RootSlot i =>
      rs <- gets roots ;;
      match rs !! i with Some v => ret v | None => unspecified end
  end.

Definition set_referent (v : Z) (o : Object) : Object :=
  Build_Object (klass o) (monitor o) (rb_ptr o) (array_length o) (ref_fields o) v
    (pending_next o) (native_roots o) (class_data o).
Definition set_pending_next (v : Z) (o : Object) : Object :=
  Build_Object (klass o) (monitor o) (rb_ptr o) (array_length o) (ref_fields o) (referent o)
    v (native_roots o) (class_data o).

Definition slot_store (sl : Slot) (v : Z) : M unit :=
  match sl with
  | FieldSlot obj i =>
      o <- object_at obj ;; store_object obj (set_ref_fields (<[i := v]> (ref_fields o)) o)
  | ReferentSlot obj => o <- object_at obj ;; store_object obj (set_referent v o)
  | NativeRootSlot obj i =>
      o <- object_at obj ;; store_object obj (set_native_roots (<[i := v]> (native_roots o)) o)
  | RootSlot i => modify (fun s => set_roots (<[i := v]> (roots s)) s)
  end.

(** [CasFieldWeakRelaxedObjectWithoutWriteBarrier] and
    [CompareExchangeWeakRelaxed]: may fail although the slot holds [expected]. *)
Definition slot_cas_weak (sl : Slot) (expected new : Z) : M bool :=
  spurious <- next_weak_cas_fails ;;
  v <- slot_load sl ;;
  if negb spurious && (v =? expected)
  then slot_store sl new ;; ret true
  else ret false.

Definition IsMarkedHeapReference (field : Slot) : M bool :=
  from_ref <- slot_load field ;;
  to_ref <- IsMarked from_ref ;;
  if to_ref =? 0 then ret false
  else
    when (negb (from_ref =? to_ref)) (slot_store field to_ref) ;;
    ret true.

(** *** Forwarding a slot: the loop of Process (lines 1761-1770), of VisitRoots
    (lines 1783-1791) and of MarkRoot (lines 1801-1810)

    [do { if (expected_ref != load) break; } while (!cas_weak(expected_ref, new_ref))] *)

Inductive UpdatePc : Type :=
| UpdateLoad    (* the test of the loop body *)
| UpdateCas     (* the compare-and-swap of the loop condition *)
| UpdateDone.

Definition update_step (sl : Slot) (expected_ref new_ref : Z) (pc : UpdatePc) : M UpdatePc :=
  match pc with
  | UpdateLoad =>
      v <- slot_load sl ;;
      if negb (expected_ref =? v) then
        (* It was updated by the mutator. *)
        ret UpdateDone
      else ret UpdateCas
  | UpdateCas =>
      success <- slot_cas_weak sl expected_ref new_ref ;;
      if success then ret UpdateDone else ret UpdateLoad
  | UpdateDone => ret UpdateDone
  end.

(** The loop with no other thread in between. *)
Fixpoint update_loop (fuel : nat) (sl : Slot) (expected_ref new_ref : Z) (pc : UpdatePc)
    : M unit :=
  match pc with
  | UpdateDone => ret tt
  | _ =>
      match fuel with
      | O => out_of_fuel
      | S n =>
          pc' <- update_step sl expected_ref new_ref pc ;;
          update_loop n sl expected_ref new_ref pc'
      end
  end.

(** Process (lines 1752-1771) *)
Definition Process (fuel self : nat) (obj : Z) (offset : nat) : M unit :=
  DCHECK (gets (is_gc_thread self)) ;;
  ref <- slot_load (FieldSlot obj offset) ;;
  to_ref <- Mark fuel self false ref ;;
  if to_ref =? ref then ret tt
  else update_loop fuel (FieldSlot obj offset) ref to_ref UpdateLoad.

(** MarkRoot (lines 1795-1812) *)
Definition MarkRoot (fuel self : nat) (kGrayImmuneObject : bool) (root : Slot) : M unit :=
  DCHECK (v <- slot_load root ;; ret (negb (v =? 0))) ;;
  ref <- slot_load root ;;
  to_ref <- Mark fuel self kGrayImmuneObject ref ;;
  if negb (to_ref =? ref)
  then update_loop fuel root ref to_ref UpdateLoad
  else ret tt.

(** VisitRoots over [mirror::Object***] (lines 1774-1793): root [i] of the
    runtime's roots, for the [count] roots given. *)
Definition VisitRoots (fuel self : nat) (root_slots : list nat) : M unit :=
  for_each root_slots (fun i =>
    ref <- slot_load (RootSlot i) ;;
    to_ref <- Mark fuel self true ref ;;
    if to_ref =? ref then ret tt
    else update_loop fuel (RootSlot i) ref to_ref UpdateLoad).

(** VisitRoots over compressed references (lines 1814-1824) *)
Definition VisitRoots_compressed (fuel self : nat) (root_slots : list Slot) : M unit :=
  for_each root_slots (fun root =>
    v <- slot_load root ;;
    when (negb (v =? 0)) (MarkRoot fuel self true root)).

(** *** Scanning an object *)

(** Modelled from the spec: reference_processor.cc is absent.
    [DelayReferenceReferent(klass, ref, collector)] asks the collector's
    IsMarkedHeapReference about the referent, which forwards the referent field
    when a copy exists; a Reference whose referent is not marked is put on a
    pending list ("leave this reference gray in the queue"), which the model
    records in [pending_next]. *)
Definition DelayReferenceReferent (ref : Z) : M unit :=
  o <- object_at ref ;;
  if referent o =? 0 then ret tt
  else
    marked <- IsMarkedHeapReference (ReferentSlot ref) ;;
    if marked then ret tt
    else
      o1 <- object_at ref ;;
      when (pending_next o1 =? 0) (store_object ref (set_pending_next ref o1)).

Definition IsTypeOfReferenceClass (obj : Z) : M bool :=
  c <- GetClass obj ;; d <- class_of c ;; ret (reference_class d).

(** Modelled from the spec: object-inl.h is absent.  [VisitReferences] hands
    the "enumerable set of outgoing reference fields" to the visitor: the
    fields by offset, the object itself when its class is a Reference class,
    the native roots when [kVisitNativeRoots]. *)
Definition VisitReferences (obj : Z) (visit_field : nat -> M unit)
    (visit_reference : M unit) (visit_native_root : nat -> M unit) : M unit :=
  o <- object_at obj ;;
  for_each (seq 0 (List.length (ref_fields o))) visit_field ;;
  is_ref <- IsTypeOfReferenceClass obj ;;
  when is_ref visit_reference ;;
  for_each (seq 0 (List.length (native_roots o))) visit_native_root.

(** Scan (lines 1735-1749) with RefFieldsVisitor (lines 1699-1732).  The
    read-barrier counter of [kDisallowReadBarrierDuringScan] is a debugging aid
    of the thread and is left out. *)
Definition Scan (fuel self : nat) (to_ref : Z) : M unit :=
  DCHECK (ret (negb (IsInFromSpace to_ref))) ;;
  DCHECK (gets (is_gc_thread self)) ;;
  VisitReferences to_ref
    (fun offset => Process fuel self to_ref offset)
    (is_ref <- IsTypeOfReferenceClass to_ref ;; CHECK is_ref ;;
     DelayReferenceReferent to_ref)
    (fun i =>
       v <- slot_load (NativeRootSlot to_ref i) ;;
       when (negb (v =? 0)) (MarkRoot fuel self false (NativeRootSlot to_ref i))).

(** AssertToSpaceInvariantObjectVisitor (lines 1094-1115) with its field
    visitor (lines 1060-1092). *)
Definition AssertToSpaceInvariantObject (self : nat) (obj : Z) : M unit :=
  CHECK (negb (obj =? 0)) ;;
  CHECK (negb (IsInFromSpace obj)) ;;
  AssertToSpaceInvariant self obj ;;
  VisitReferences obj
    (fun offset =>
       ref <- slot_load (FieldSlot obj offset) ;;
       when (negb (ref =? 0)) (AssertToSpaceInvariant self ref))
    (is_ref <- IsTypeOfReferenceClass obj ;; CHECK is_ref)
    (fun i =>
       ref <- slot_load (NativeRootSlot obj i) ;;
       when (negb (ref =? 0)) (AssertToSpaceInvariant self ref)).

(** Whether ProcessMarkStackRef leaves [to_ref] gray (lines 1305-1307). *)
Definition reference_with_unmarked_referent (to_ref : Z) : M bool :=
  is_ref <- IsTypeOfReferenceClass to_ref ;;
  if is_ref then
    o <- object_at to_ref ;;
    if negb (referent o =? 0) then
      in_to_space <- collector_IsInToSpace (referent o) ;;
      ret (negb in_to_space)
    else ret false
  else ret false.

(** ProcessMarkStackRef (lines 1290-1340).  [USE_BAKER_OR_BROOKS_READ_BARRIER]
    is defined exactly in the builds with [kUseBakerReadBarrier]: the collector
    runs with the Baker or the table-lookup barrier only. *)
Definition ProcessMarkStackRef (fuel self : nat) (to_ref : Z) : M unit :=
  modify (fun s => set_processed (to_ref :: processed s) s) ;;
  DCHECK (ret (negb (IsInFromSpace to_ref))) ;;
  when (kUseBakerReadBarrier E) (DCHECK (rb_is to_ref GrayPtr)) ;;
  (* Scan ref fields. *)
  Scan fuel self to_ref ;;
  when (kUseBakerReadBarrier E) (DCHECK (rb_is to_ref GrayPtr)) ;;
  (if kUseBakerReadBarrier E then
     leave_gray <- reference_with_unmarked_referent to_ref ;;
     if leave_gray then
       (* Leave this reference gray in the queue. *)
       DCHECK (o <- object_at to_ref ;; ret (negb (pending_next o =? 0)))
     else
       success <- AtomicSetReadBarrierPointer to_ref GrayPtr WhitePtr ;;
       DCHECK (ret success)
   else
     DCHECK (ret (negb (kUseBakerReadBarrier E)))) ;;
  when (IsInUnevacFromSpace to_ref)
    (DCHECK (region_bitmap_Test to_ref) ;;
     size <- SizeOf to_ref ;;
     let alloc_size := RoundUp size (kAlignment E) in
     modify (fun s => set_live_bytes (live_bytes s + alloc_size) s)) ;;
  when (kEnableToSpaceInvariantChecks E || kIsDebugBuild E)
    (AssertToSpaceInvariantObject self to_ref).

(** *** Draining the mark stacks *)

(** The checkpoint of RevokeThreadLocalMarkStacks (lines 1117-1168), run on
    every thread of the list. *)
Definition RevokeThreadLocalMarkStacks (disable_weak_ref_access : bool) : M unit :=
  ts <- gets (fun s => map_to_list (threads s)) ;;
  for_each ts (fun '(t, _) =>
    th <- thread_at t ;;
    (match tl_mark_stack th with
     | Some st =>
         modify (fun s => set_revoked_mark_stacks (revoked_mark_stacks s ++ [st]) s) ;;
         store_thread t (SetThreadLocalMarkStack None th)
     | None => ret tt
     end) ;;
    when disable_weak_ref_access
      (th1 <- thread_at t ;; store_thread t (SetWeakRefAccessEnabled false th1))).

(** The loop over the revoked stacks in ProcessThreadLocalMarkStacks
    (lines 1269-1286). *)
Fixpoint process_revoked_stacks (fuel self : nat) (stacks : list ObjectStack) (count : Z)
    : M Z :=
  match stacks with
  | [] => ret count
  | mark_stack :: rest =>
      for_each (elems mark_stack) (ProcessMarkStackRef fuel self) ;;
      let count' := wrap64 (count + Z.of_nat (List.length (elems mark_stack))) in
      pooled <- gets pooled_mark_stacks ;;
      (if (kMarkStackPoolSize E <=? List.length pooled)%nat
       then ret tt   (* The pool has enough. Delete it. *)
       else modify (set_pooled_mark_stacks (ResetStack mark_stack :: pooled))) ;;
      process_revoked_stacks fuel self rest count'
  end.

(** ProcessThreadLocalMarkStacks (lines 1258-1288) *)
Definition ProcessThreadLocalMarkStacks (fuel self : nat) (disable_weak_ref_access : bool)
    : M Z :=
  RevokeThreadLocalMarkStacks disable_weak_ref_access ;;
  mark_stacks <- gets revoked_mark_stacks ;;
  modify (set_revoked_mark_stacks []) ;;
  process_revoked_stacks fuel self mark_stacks 0.

(** [while (!gc_mark_stack_->IsEmpty()) { pop; ProcessMarkStackRef; ++count; }] *)
Fixpoint drain_gc_mark_stack (fuel : nat) (self : nat) (count : Z) : M Z :=
  st <- gets gc_mark_stack ;;
  match PopBack st with
  | None => ret count
  | Some (to_ref, st') =>
      match fuel with
      | O => out_of_fuel
      | S n =>
          modify (set_gc_mark_stack st') ;;
          ProcessMarkStackRef n self to_ref ;;
          drain_gc_mark_stack n self (wrap64 (count + 1))
      end
  end.

(** The loop of the shared mode (lines 1219-1237): take all references off
    the stack under the lock, then process them. *)
Fixpoint drain_shared_mark_stack (fuel : nat) (self : nat) (count : Z) : M Z :=
  st <- gets gc_mark_stack ;;
  if IsEmpty st then ret count
  else
    match fuel with
    | O => out_of_fuel
    | S n =>
        let refs := elems st in
        modify (set_gc_mark_stack (ResetStack st)) ;;
        for_each refs (ProcessMarkStackRef n self) ;;
        drain_shared_mark_stack n self (wrap64 (count + Z.of_nat (List.length refs)))
    end.

(** ProcessMarkStackOnce (lines 1197-1256), with its count. *)
Definition ProcessMarkStackOnce_count (fuel self : nat) : M Z :=
  gc <- gets thread_running_gc ;;
  CHECK (bool_decide (gc <> None)) ;;
  CHECK (bool_decide (gc = Some self)) ;;
  th <- thread_at self ;;
  CHECK (bool_decide (tl_mark_stack th = None)) ;;
  mode <- gets mark_stack_mode ;;
  match mode with
  | kMarkStackModeThreadLocal =>
      (* Process the thread-local mark stacks and the GC mark stack. *)
      count <- ProcessThreadLocalMarkStacks fuel self false ;;
      count' <- drain_gc_mark_stack fuel self count ;;
      modify (fun s => set_gc_mark_stack (ResetStack (gc_mark_stack s)) s) ;;
      ret count'
  | kMarkStackModeShared =>
      revoked <- gets revoked_mark_stacks ;;
      CHECK (bool_decide (revoked = [])) ;;
      drain_shared_mark_stack fuel self 0
  | _ =>
      CHECK (bool_decide (mode = kMarkStackModeGcExclusive)) ;;
      revoked <- gets revoked_mark_stacks ;;
      CHECK (bool_decide (revoked = [])) ;;
      count <- drain_gc_mark_stack fuel self 0 ;;
      modify (fun s => set_gc_mark_stack (ResetStack (gc_mark_stack s)) s) ;;
      ret count
  end.

Definition ProcessMarkStackOnce (fuel self : nat) : M bool :=
  count <- ProcessMarkStackOnce_count fuel self ;;
  (* Return true if the stack was empty. *)
  ret (count =? 0).

(** ProcessMarkStack (lines 1182-1195): [rounds] bounds the iterations of
    [while (true)]. *)
Fixpoint ProcessMarkStack_loop (rounds : nat) (fuel self : nat) (empty_prev : bool) : M unit :=
  match rounds with
  | O => out_of_fuel
  | S n =>
      empty <- ProcessMarkStackOnce fuel self ;;
      if empty_prev && empty then
        (* Saw empty mark stack for a second time, done. *)
        ret tt
      else ProcessMarkStack_loop n fuel self empty
  end.

Definition ProcessMarkStack (rounds fuel self : nat) : M unit :=
  ProcessMarkStack_loop rounds fuel self false.

(** [c] leaves the component [proj] of the state as it is. *)
Definition keeps {A B : Type} (proj : State -> A) (c : M B) : Prop :=
  forall s b s', c s = Ok (b, s') -> proj s' = proj s.

(** What the successive calls of ProcessMarkStackOnce report, from [s] to [s']. *)
Inductive drains (fuel self : nat) : State -> list bool -> State -> Prop :=
| drains_nil (s : State) : drains fuel self s [] s
| drains_cons (s s1 s' : State) (empty : bool) (later : list bool) :
    ProcessMarkStackOnce fuel self s = Ok (empty, s1) ->
    drains fuel self s1 later s' ->
    drains fuel self s (empty :: later) s'.

(** Whether two successive reports say "empty", [empty_prev] being the report
    before the first of the list. *)
Fixpoint seen_empty_twice (empty_prev : bool) (reports : list bool) : bool :=
  match reports with
  | [] => false
  | empty :: later => (empty_prev && empty) || seen_empty_twice empty later
  end.

(** *** Schedules of a forwarding update

    While the collector runs the loop of [update_step] on a slot, mutators
    store into the same slot. *)

Inductive UpdateEvent : Type :=
| CollectorStep             (* the loop of the collector takes its next step *)
| MutatorStore (v : Z).     (* a mutator stores [v] into the slot *)

Fixpoint run_update (sl : Slot) (expected_ref new_ref : Z) (events : list UpdateEvent)
    (pc : UpdatePc) : M UpdatePc :=
  match events with
  | [] => ret pc
  | CollectorStep :: later =>
      pc' <- update_step sl expected_ref new_ref pc ;;
      run_update sl expected_ref new_ref later pc'
  | MutatorStore v :: later =>
      slot_store sl v ;;
      run_update sl expected_ref new_ref later pc
  end.

(** The slot exists and holds [v]. *)
Definition slot_holds (sl : Slot) (s : State) (v : Z) : Prop := slot_load sl s = Ok (v, s).

(** *** Several threads in the collector at once

    Mutators enter [Mark] through the read barrier while the collector thread
    marks.  A configuration holds the shared state and what every thread is
    doing; an action lets one thread take one step of its running frame, lets
    a thread that is not in the collector call [Mark], or lets a mutator
    change the lock word of an object. *)

(** What [thread_step] makes of the outcome of the running frame. *)
Definition after_step (r : FrameStep) (rest : list Frame) : Activity :=
  match r with
  | Goto f' => Running (f' :: rest)
  | Call caller callee => Running (callee :: caller :: rest)
  | Return v =>
      match rest with
      | [] => Finished v
      | caller :: rest' => Running (resume caller v :: rest')
      end
  end.

Definition rb_at (s : State) (a : Z) : option RbPtr := rb_ptr <$> heap s !! a.
Definition lock_word_at (s : State) (a : Z) : option LockWord := monitor <$> heap s !! a.

Record Config := {
  state_of : State;
  pool : list Activity;                       (* what thread [t] is doing, at index [t] *)
  (* history variables *)
  counted : list (Z * Z);                     (* objects_moved_ was incremented for a copy of
                                                 this from_ref, of this size (line 2063) *)
  counted_bytes : list (Z * Z);               (* the same for bytes_moved_ (line 2064) *)
  installed : list (Z * Z * option RbPtr);    (* a forwarding address was installed: from_ref,
                                                 to_ref and the color of to_ref then (line 2061) *)
  returned : list (Z * Z)                     (* a call for this from-space reference returned
                                                 this reference *)
}.

Definition log_counted (f : Frame) : list (Z * Z) :=
  match f with
  | FCopy CopyCountObject l => [(from_ref l, region_space_alloc_size l)]
  | _ => []
  end.

Definition log_counted_bytes (f : Frame) : list (Z * Z) :=
  match f with
  | FCopy CopyCountBytes l => [(from_ref l, region_space_alloc_size l)]
  | _ => []
  end.

Definition log_installed (f : Frame) (r : FrameStep) (s' : State)
    : list (Z * Z * option RbPtr) :=
  match f, r with
  | FCopy CopyCas l, Goto (FCopy CopyCountObject _) =>
      [(from_ref l, to_ref l, rb_at s' (to_ref l))]
  | _, _ => []
  end.

Definition log_returned (f : Frame) (r : FrameStep) : list (Z * Z) :=
  match f, r with
  | FCopy _ l, Return v => [(from_ref l, v)]
  | FMark _ ref, Return v => if negb (ref =? 0) && IsInFromSpace ref then [(ref, v)] else []
  | _, _ => []
  end.

Inductive Action : Type :=
| ActCall (t : nat) (kGrayImmuneObject : bool) (ref : Z)  (* thread [t] calls Mark(ref) *)
| ActStep (t : nat)                                        (* thread [t] takes its next step *)
| ActLockWord (x : Z) (lw : LockWord).                     (* a mutator changes a lock word *)

(** Modelled from the spec: the monitor and hash-code code is absent.  "The CAS
    may also fail because the lock word changed due to hash-code installation
    or monitor inflation": a mutator replaces a lock word that is no forwarding
    address by another that is none. *)
Definition mutator_sets_lock_word (x : Z) (lw : LockWord) : M unit :=
  o <- object_at x ;;
  if negb (is_forwarding (monitor o)) && negb (is_forwarding lw)
  then store_object x (set_monitor lw o)
  else unspecified.

Definition config_step (a : Action) (c : Config) : Result Config :=
  match a with
  | ActCall t g ref =>
      match pool c !! t with
      | Some (Finished _) =>
          Ok {| state_of := state_of c;
                pool := <[t := Running [FMark g ref]]> (pool c);
                counted := counted c; counted_bytes := counted_bytes c;
                installed := installed c; returned := returned c |}
      | _ => Unspecified
      end
  | ActStep t =>
      match pool c !! t with
      | Some (Running (f :: rest)) =>
          match frame_step t f (state_of c) with
          | Ok (r, s') =>
              Ok {| state_of := s';
                    pool := <[t := after_step r rest]> (pool c);
                    counted := log_counted f ++ counted c;
                    counted_bytes := log_counted_bytes f ++ counted_bytes c;
                    installed := log_installed f r s' ++ installed c;
                    returned := log_returned f r ++ returned c |}
          | Fatal => Fatal
          | OutOfFuel => OutOfFuel
          | Unspecified => Unspecified
          end
      | _ => Unspecified
      end
  | ActLockWord x lw =>
      match mutator_sets_lock_word x lw (state_of c) with
      | Ok (_, s') =>
          Ok {| state_of := s'; pool := pool c;
                counted := counted c; counted_bytes := counted_bytes c;
                installed := installed c; returned := returned c |}
      | Fatal => Fatal
      | OutOfFuel => OutOfFuel
      | Unspecified => Unspecified
      end
  end.

(** A schedule: the actions in the order they happen. *)
Fixpoint run_actions (schedule : list Action) (c : Config) : Result Config :=
  match schedule with
  | [] => Ok c
  | a :: later =>
      match config_step a c with
      | Ok c' => run_actions later c'
      | Fatal => Fatal
      | OutOfFuel => OutOfFuel
      | Unspecified => Unspecified
      end
  end.

(** *** Invariants of the configurations *)

(** The addresses a frame has for itself: a block it allocated or took from
    the skipped-blocks map and has not yet published, recycled or freed. *)
Definition owned_frame (f : Frame) : list Z :=
  match f with
  | FCopy CopySkippedRemainder l =>
      [skipped_addr l; skipped_addr l + region_space_alloc_size l]
  | FCopy CopyLoopHead l | FCopy CopyLostRace l | FCopy CopySetGray l | FCopy CopyCas l =>
      [to_ref l]
  | _ => []
  end.

Definition owned_activity (a : Activity) : list Z :=
  match a with
  | Running stack => stack ≫= owned_frame
  | Finished _ => []
  end.

(** All addresses that are not public: those of the frames and the blocks of
    the skipped-blocks map. *)
Definition owned_all (c : Config) : list Z :=
  (pool c ≫= owned_activity) ++ (skipped_blocks_map (state_of c)).*2.

(** Where a copy may live: in the to-space, or marked in the non-moving space. *)
Definition non_moving_target (s : State) (t : Z) : Prop :=
  GetRegionType E t = kRegionTypeNone /\ immune_ContainsObject E t = false /\
  has_space_bitmap E t = true /\ non_moving_HasAddress E t = true /\ t ∈ mark_bitmap s.

Definition good_target (s : State) (t : Z) : Prop :=
  IsInToSpace t = true \/ non_moving_target s t.

Definition target_ok (s : State) (l : CopyLocals) : Prop :=
  if fall_back_to_non_moving l then non_moving_target s (to_ref l)
  else IsInToSpace (to_ref l) = true.

Definition frame_ok (s : State) (f : Frame) : Prop :=
  match f with
  | FCopy pc l =>
      IsInFromSpace (from_ref l) = true /\
      match pc with
      | CopyEntry | CopyTrySkipped | CopyNonMovingFallback =>
          fall_back_to_non_moving l = false
      | CopySkippedRemainder =>
          fall_back_to_non_moving l = false /\ IsInToSpace (skipped_addr l) = true
      | CopyLoopHead => target_ok s l
      | CopySetGray => target_ok s l /\ is_forwarding (old_lock_word l) = false
      | CopyCas =>
          target_ok s l /\ is_forwarding (old_lock_word l) = false /\
          (kUseBakerReadBarrier E = true -> rb_at s (to_ref l) = Some GrayPtr)
      | CopyLostRace =>
          target_ok s l /\ is_forwarding (old_lock_word l) = true /\
          lock_word_at s (from_ref l) = Some (old_lock_word l)
      | CopyCountObject | CopyCountBytes | CopyPush =>
          lock_word_at s (from_ref l) = Some (LwForwardingAddress (to_ref l))
      end
  | _ => True
  end.

(** The shape of a call stack: Mark (and the Copy it becomes) is called from
    FillWithDummyObject or from outside, FillWithDummyObject from Copy, on the
    lost copy or on the remainder of a split block. *)
Fixpoint stack_ok (stack : list Frame) : Prop :=
  match stack with
  | [] => True
  | f :: rest =>
      match f with
      | FMark _ _ | FCopy _ _ =>
          match rest with
          | [] => True
          | FFillAwait _ _ _ :: _ => True
          | _ => False
          end
      | FFillEntry d _ | FFillAwait d _ _ | FFillRest d _ _ _ =>
          match rest with
          | FCopy CopyLostRace l :: _ => to_ref l = d
          | FCopy CopySkippedRemainder l :: _ =>
              skipped_addr l + region_space_alloc_size l = d
          | _ => False
          end
      end /\ stack_ok rest
  end.

Definition activity_ok (s : State) (a : Activity) : Prop :=
  match a with
  | Running stack => Forall (frame_ok s) stack /\ stack_ok stack
  | Finished _ => True
  end.

(** A published copy: the forwarding address of a from-space object. *)
Definition published_ok (c : Config) (t : Z) : Prop :=
  good_target (state_of c) t /\ is_Some (heap (state_of c) !! t) /\ (t ∉ owned_all c) /\
  (kUseBakerReadBarrier E = true -> rb_at (state_of c) t <> Some BlackPtr).

Definition forwarded_ok (c : Config) : Prop :=
  forall x o t,
    heap (state_of c) !! x = Some o -> IsInFromSpace x = true ->
    monitor o = LwForwardingAddress t -> published_ok c t.

(** Ownership: no address is owned twice, an owned address holds an object
    outside the from-space, the frames are in order, and forwarding addresses
    lead to published copies. *)
Definition inv_own (c : Config) : Prop :=
  NoDup (owned_all c) /\
  (forall a, a ∈ owned_all c ->
     is_Some (heap (state_of c) !! a) /\ IsInFromSpace a = false) /\
  Forall (activity_ok (state_of c)) (pool c) /\
  forwarded_ok c.

(** The part of the state the invariants speak of. *)
Definition view (s : State) : gmap Z Object * gset Z * list (Z * Z) * Z * Z :=
  (heap s, mark_bitmap s, skipped_blocks_map s, objects_moved s, bytes_moved s).

(** What a step does to an object it does not own: nothing, gray it, change
    its lock word (to a forwarding address only for the pair [pub] the step
    publishes), or allocate it. *)
Inductive obj_change (pub : option (Z * Z)) (a : Z) : option Object -> option Object -> Prop :=
| oc_same (x : option Object) : obj_change pub a x x
| oc_gray (o : Object) : obj_change pub a (Some o) (Some (set_rb_ptr GrayPtr o))
| oc_relock (o : Object) (lw : LockWord) :
    is_forwarding (monitor o) = false -> is_forwarding lw = false ->
    obj_change pub a (Some o) (Some (set_monitor lw o))
| oc_forward (o : Object) (t : Z) :
    pub = Some (a, t) -> is_forwarding (monitor o) = false ->
    obj_change pub a (Some o) (Some (set_monitor (LwForwardingAddress t) o))
| oc_alloc (o : Object) : IsInFromSpace a = false -> obj_change pub a None (Some o).

(** The forwarding address a step installs: the compare-and-swap of Copy, when
    it succeeds, publishes the copy [to_ref] of [from_ref]. *)
Definition published (f : Frame) (r : FrameStep) : option (Z * Z) :=
  match f with
  | FCopy CopyCas l =>
      match r with
      | Goto (FCopy CopyCountObject _) => Some (from_ref l, to_ref l)
      | _ => None
      end
  | _ => None
  end.

(** What a step of a thread whose frames own [mine] does, as far as ownership
    goes: it writes the objects at [W] and clears the mark bits at [Wb], which
    are its own or the map's, allocates [N], publishes [pub], and goes on as
    [act']. *)
Definition step_own (pub : option (Z * Z)) (s s' : State) (mine : list Z) (act' : Activity)
    : Prop :=
  exists (W Wb N : list Z),
    (forall a, a ∉ W -> obj_change pub a (heap s !! a) (heap s' !! a)) /\
    (forall a, a ∉ Wb -> a ∈ mark_bitmap s -> a ∈ mark_bitmap s') /\
    (forall a, a ∈ W ++ Wb -> a ∈ mine ++ (skipped_blocks_map s).*2) /\
    NoDup N /\ (forall a, a ∈ N -> heap s !! a = None) /\
    owned_activity act' ++ (skipped_blocks_map s').*2
      ⊆+ N ++ mine ++ (skipped_blocks_map s).*2 /\
    (forall a, a ∈ owned_activity act' ++ (skipped_blocks_map s').*2 ->
       is_Some (heap s' !! a) /\ IsInFromSpace a = false) /\
    activity_ok s' act' /\
    match pub with
    | Some (x, t) =>
        t ∈ mine /\ (t ∉ owned_activity act' ++ (skipped_blocks_map s').*2) /\
        good_target s' t /\ is_Some (heap s' !! t) /\
        (kUseBakerReadBarrier E = true -> rb_at s' t = Some GrayPtr)
    | None => True
    end.

(** A frame that waits for a callee. *)
Definition waiting (f : Frame) : Prop :=
  match f with
  | FFillAwait _ _ _ | FCopy CopyLostRace _ | FCopy CopySkippedRemainder _ => True
  | _ => False
  end.

(** *** The history of a run

    The logs of a configuration say which forwarding addresses were installed,
    for which objects the counters were incremented, and what the calls
    returned.  A thread between the compare-and-swap and the increment of
    [objects_moved_] (or of [bytes_moved_]) has the increment pending. *)

Definition pending_count (f : Frame) : list Z :=
  match f with
  | FCopy CopyCountObject l => [from_ref l]
  | _ => []
  end.

Definition pending_bytes (f : Frame) : list Z :=
  match f with
  | FCopy CopyCountObject l | FCopy CopyCountBytes l => [from_ref l]
  | _ => []
  end.

Definition pending (p : Frame -> list Z) (a : Activity) : list Z :=
  match a with
  | Running stack => stack ≫= p
  | Finished _ => []
  end.

(** The from-space object [x] is forwarded to [t]. *)
Definition forwarded_to (s : State) (x t : Z) : Prop :=
  IsInFromSpace x = true /\ lock_word_at s x = Some (LwForwardingAddress t).

Definition sum_sizes (log : list (Z * Z)) : Z := foldr (fun e n => e.2 + n) 0 log.

(** The logs and the counters agree: the evacuated objects are those with a
    forwarding address, each was installed once, its increments are pending or
    done, the counters started at [n0] and [b0], and a call returned what its
    argument is forwarded to. *)
Definition inv_log (n0 b0 : Z) (c : Config) : Prop :=
  let s := state_of c in
  NoDup (installed c).*1.*1 /\
  (installed c).*1.*1 ≡ₚ (pool c ≫= pending pending_count) ++ (counted c).*1 /\
  (installed c).*1.*1 ≡ₚ (pool c ≫= pending pending_bytes) ++ (counted_bytes c).*1 /\
  (forall x t col, (x, t, col) ∈ installed c ->
     forwarded_to s x t /\ (kUseBakerReadBarrier E = true -> col = Some GrayPtr)) /\
  (forall x o, heap s !! x = Some o -> IsInFromSpace x = true ->
     is_forwarding (monitor o) = true -> x ∈ (installed c).*1.*1) /\
  (forall x v, (x, v) ∈ returned c -> forwarded_to s x v) /\
  objects_moved s = wrap64 (n0 + Z.of_nat (length (counted c))) /\
  bytes_moved s = wrap64 (b0 + sum_sizes (counted_bytes c)).

(** *** Sizes

    The size [SizeOf] finds, read off the heap, and the bytes a copy takes. *)
Definition size_in (h : gmap Z Object) (a : Z) : option Z :=
  match h !! a with
  | Some o =>
      match h !! klass o with
      | Some oc =>
          match class_data oc with
          | Some d =>
              Some (if component_size d =? 0 then object_size d
                    else Array_DataOffset E (component_size d)
                         + array_length o * component_size d)
          | None => None
          end
      | None => None
      end
  | None => None
  end.

Definition copy_size (h : gmap Z Object) (a : Z) : Z :=
  match size_in h a with
  | Some n => RoundUp n (kAlignment E)
  | None => 0
  end.

(** Modelled from the spec: region_space.h is absent.  "from_objects_before_copy"
    and "from_bytes_before_copy": the objects of the from-space and the bytes
    they take, each object rounded up to the alignment of the region space. *)
Definition from_space_objects (s : State) : list Z :=
  filter (fun a => IsInFromSpace a = true) (map_to_list (heap s)).*1.
Definition from_objects_of (s : State) : Z := Z.of_nat (length (from_space_objects s)).
Definition from_bytes_of (s : State) : Z :=
  foldr (fun a n => copy_size (heap s) a + n) 0 (from_space_objects s).

(** What [l'] keeps of the call that [l] belongs to. *)
Definition same_call (l l' : CopyLocals) : Prop :=
  from_ref l' = from_ref l /\ obj_size l' = obj_size l /\
  region_space_alloc_size l' = region_space_alloc_size l.

(** Past its entry a Copy frame knows the size of its object. *)
Definition frame_sized (s : State) (f : Frame) : Prop :=
  match f with
  | FCopy CopyEntry _ => True
  | FCopy _ l =>
      size_in (heap s) (from_ref l) = Some (obj_size l) /\
      region_space_alloc_size l = RoundUp (obj_size l) (kAlignment E)
  | _ => True
  end.

Definition activity_sized (s : State) (a : Activity) : Prop :=
  match a with
  | Running stack => Forall (frame_sized s) stack
  | Finished _ => True
  end.

(** The from-space objects have classes that no thread owns, and sizes; the
    frames and the logs have the sizes right. *)
Definition inv_size (c : Config) : Prop :=
  let s := state_of c in
  (forall x o, heap s !! x = Some o -> IsInFromSpace x = true ->
     (klass o ∉ owned_all c) /\ exists n, size_in (heap s) x = Some n /\ 0 <= n) /\
  Forall (activity_sized s) (pool c) /\
  (forall x n, (x, n) ∈ counted_bytes c ->
     IsInFromSpace x = true /\ is_Some (heap s !! x) /\ n = copy_size (heap s) x).

(** A configuration at the flip: no thread is in the collector, nothing is
    forwarded or counted yet, and the blocks of the skipped-blocks map are
    distinct objects outside the from-space. *)
Definition at_flip (c : Config) : Prop :=
  let s := state_of c in
  Forall (fun a => match a with Finished _ => True | Running _ => False end) (pool c) /\
  counted c = [] /\ counted_bytes c = [] /\ installed c = [] /\ returned c = [] /\
  objects_moved s = 0 /\ bytes_moved s = 0 /\
  NoDup (skipped_blocks_map s).*2 /\
  (forall a, a ∈ (skipped_blocks_map s).*2 ->
     is_Some (heap s !! a) /\ IsInFromSpace a = false) /\
  (forall x o, heap s !! x = Some o -> IsInFromSpace x = true ->
     is_forwarding (monitor o) = false /\ (klass o ∉ (skipped_blocks_map s).*2) /\
     exists n, size_in (heap s) x = Some n /\ 0 <= n).

(** *** ReclaimPhase, the record of the freed objects (lines 1472-1505)

    region_space.h is absent: what the region space reports about the
    from-space and the unevacuated from-space is given, and so are the counts
    of the first pause.  The result is the pair passed to RecordFree. *)
Record RegionSpaceCounts := {
  GetBytesAllocatedInFromSpace : Z;
  GetObjectsAllocatedInFromSpace : Z;
  GetBytesAllocatedInUnevacFromSpace : Z;
  GetObjectsAllocatedInUnevacFromSpace : Z
}.

Definition ReclaimPhase_RecordFree (region_space : RegionSpaceCounts)
    (from_space_num_objects_at_first_pause from_space_num_bytes_at_first_pause : Z)
    : M (Z * Z) :=
  let from_bytes := GetBytesAllocatedInFromSpace region_space in
  let from_objects := GetObjectsAllocatedInFromSpace region_space in
  let unevac_from_bytes := GetBytesAllocatedInUnevacFromSpace region_space in
  let unevac_from_objects := GetObjectsAllocatedInUnevacFromSpace region_space in
  to_bytes <- gets bytes_moved ;;
  to_objects <- gets objects_moved ;;
  when (kEnableFromSpaceAccountingCheck E)
    (CHECK (from_space_num_objects_at_first_pause
            =? wrap64 (from_objects + unevac_from_objects)) ;;
     CHECK (from_space_num_bytes_at_first_pause
            =? wrap64 (from_bytes + unevac_from_bytes))) ;;
  CHECK (to_objects <=? from_objects) ;;
  CHECK (to_bytes <=? from_bytes) ;;
  let freed_bytes := to_int64 (from_bytes - to_bytes) in
  let freed_objects := to_int64 (from_objects - to_objects) in
  ret (freed_objects, freed_bytes).

(** *** A call on its own *)

(** The configuration of a state in which no thread is in the collector. *)
Definition idle (s : State) : Config :=
  {| state_of := s; pool := []; counted := []; counted_bytes := []; installed := [];
     returned := [] |}.

(** Between calls: the skipped blocks are distinct objects outside the
    from-space, and the forwarding addresses lead to copies that are in the
    to-space or marked in the non-moving space, and not black. *)
Definition quiescent (s : State) : Prop := inv_own (idle s).

(** The outermost frame of the stack belongs to a call for [x]. *)
Definition bottom_for (x : Z) (stack : list Frame) : Prop :=
  match last stack with
  | Some (FMark _ ref) => ref = x
  | Some (FCopy _ l) => from_ref l = x
  | _ => False
  end.

(** *** Properties beyond the claims *)

(** [y] lies on some mark stack: the GC mark stack, a revoked stack, or the
    thread-local mark stack of some thread. *)
Definition on_some_mark_stack (y : Z) (s : State) : Prop :=
  y ∈ elems (gc_mark_stack s) \/
  (exists st, st ∈ revoked_mark_stacks s /\ y ∈ elems st) \/
  (exists t th st, threads s !! t = Some th /\ tl_mark_stack th = Some st /\ y ∈ elems st).

(** The skipped-blocks map in order: [std::multimap] keeps its entries sorted
    by key, the size of the block. *)
Definition sorted_by_size (m : list (Z * Z)) : Prop :=
  StronglySorted (fun e e' => e.1 <= e'.1) m.

(** A block of [size] bytes serves a request of [alloc_size] bytes when it
    fits exactly or leaves room for a dummy object. *)
Definition block_fits (alloc_size size : Z) : Prop :=
  size = alloc_size \/ alloc_size + min_object_size <= size.

(** The from-space objects that carry a forwarding address. *)
Definition is_forwarded (s : State) (a : Z) : bool :=
  match lock_word_at s a with
  | Some lw => is_forwarding lw
  | None => false
  end.
Definition forwarded_objects (s : State) : list Z :=
  filter (fun a => is_forwarded s a = true) (from_space_objects s).

(** No thread is in the collector. *)
Definition all_finished (c : Config) : Prop :=
  Forall (fun a => match a with Finished _ => True | Running _ => False end) (pool c).

(** *** Further steps of the marking phase *)

(** ReenableWeakRefAccess (lines 694-711).  The broadcasts that unblock
    waiting threads are not modelled. *)
Definition ReenableWeakRefAccess : M unit :=
  modify (set_weak_ref_access_enabled true) ;;
  (* Iterate all threads and re-enable weak ref access. *)
  ts <- gets (fun s => map_to_list (threads s)) ;;
  for_each ts (fun '(t, _) =>
    th <- thread_at t ;; store_thread t (SetWeakRefAccessEnabled true th)).

(** DisableMarking (lines 757-772), with the checkpoint of lines 713-755 run
    on every thread of the list.  The read barrier table of
    [kUseTableLookupReadBarrier] is not modelled. *)
Definition DisableMarking : M unit :=
  modify (set_is_marking false) ;;
  ts <- gets (fun s => map_to_list (threads s)) ;;
  for_each ts (fun '(t, _) =>
    th <- thread_at t ;; store_thread t (SetIsGcMarking false th)) ;;
  modify (set_is_mark_stack_push_disallowed 1) ;;
  modify (set_mark_stack_mode kMarkStackModeOff).

(** ProcessFalseGrayStack (lines 781-798) *)
Definition ProcessFalseGrayStack : M unit :=
  CHECK (kUseBakerReadBarrier E) ;;
  (* Change the objects on the false gray stack from gray to white. *)
  objs <- gets false_gray_stack ;;
  for_each objs (fun obj =>
    DCHECK (m <- IsMarked obj ;; ret (negb (m =? 0))) ;;
    rb <- GetReadBarrierPointer obj ;;
    when (bool_decide (rb = GrayPtr))
      (success <- AtomicSetReadBarrierPointer obj GrayPtr WhitePtr ;;
       DCHECK (ret success))) ;;
  modify (set_false_gray_stack []).

(** What ProcessFalseGrayStack makes of the object at [a]. *)
Definition whiten (stack : list Z) (a : Z) (o : Object) : Object :=
  if bool_decide (a ∈ stack) && bool_decide (rb_ptr o = GrayPtr)
  then set_rb_ptr WhitePtr o else o.

(** What the checkpoint of RevokeThreadLocalMarkStacks leaves of a thread. *)
Definition revoked_thread (disable_weak_ref_access : bool) (th : Thread) : Thread :=
  let th1 := SetThreadLocalMarkStack None th in
  if disable_weak_ref_access then SetWeakRefAccessEnabled false th1 else th1.

(** The thread-local mark stacks, in the order of the thread list. *)
Definition thread_local_mark_stacks (s : State) : list ObjectStack :=
  omap (fun e => tl_mark_stack e.2) (map_to_list (threads s)).

(** RevokeThreadLocalMarkStack (lines 1170-1180), called by [self] for [thread]. *)
Definition RevokeThreadLocalMarkStack (self thread : nat) : M unit :=
  CHECK (bool_decide (self = thread)) ;;
  th <- thread_at thread ;;
  match tl_mark_stack th with
  | Some st =>
      marking <- gets is_marking ;;
      CHECK marking ;;
      modify (fun s => set_revoked_mark_stacks (revoked_mark_stacks s ++ [st]) s) ;;
      store_thread thread (SetThreadLocalMarkStack None th)
  | None => ret tt
  end.

(** SwitchToSharedMarkStackMode (lines 1342-1360) *)
Definition SwitchToSharedMarkStackMode (fuel self : nat) : M unit :=
  gc <- gets thread_running_gc ;;
  CHECK (bool_decide (gc <> None)) ;;
  CHECK (bool_decide (gc = Some self)) ;;
  th <- thread_at self ;;
  CHECK (bool_decide (tl_mark_stack th = None)) ;;
  before_mark_stack_mode <- gets mark_stack_mode ;;
  CHECK (bool_decide (before_mark_stack_mode = kMarkStackModeThreadLocal)) ;;
  modify (set_mark_stack_mode kMarkStackModeShared) ;;
  enabled <- gets weak_ref_access_enabled ;;
  CHECK enabled ;;
  modify (set_weak_ref_access_enabled false) ;;
  (* Process the thread local mark stacks one last time after switching to the
     shared mark stack mode and disable weak ref accesses. *)
  ProcessThreadLocalMarkStacks fuel self true ;;
  ret tt.

(** SwitchToGcExclusiveMarkStackMode (lines 1362-1375) *)
Definition SwitchToGcExclusiveMarkStackMode (self : nat) : M unit :=
  gc <- gets thread_running_gc ;;
  CHECK (bool_decide (gc <> None)) ;;
  CHECK (bool_decide (gc = Some self)) ;;
  th <- thread_at self ;;
  CHECK (bool_decide (tl_mark_stack th = None)) ;;
  before_mark_stack_mode <- gets mark_stack_mode ;;
  CHECK (bool_decide (before_mark_stack_mode = kMarkStackModeShared)) ;;
  modify (set_mark_stack_mode kMarkStackModeGcExclusive).

(** CheckEmptyMarkStack (lines 1377-1409).  With a revoked mark stack left the
    collector logs the references on the stacks and aborts. *)
Definition CheckEmptyMarkStack (self : nat) : M unit :=
  gc <- gets thread_running_gc ;;
  CHECK (bool_decide (gc <> None)) ;;
  CHECK (bool_decide (gc = Some self)) ;;
  th <- thread_at self ;;
  CHECK (bool_decide (tl_mark_stack th = None)) ;;
  mark_stack_mode <- gets mark_stack_mode ;;
  if bool_decide (mark_stack_mode = kMarkStackModeThreadLocal) then
    (* Thread-local mark stack mode. *)
    RevokeThreadLocalMarkStacks false ;;
    revoked <- gets revoked_mark_stacks ;;
    match revoked with
    | [] => ret tt
    | _ :: _ => fatal
    end
  else
    (* Shared, GC-exclusive, or off. *)
    st <- gets gc_mark_stack ;;
    CHECK (IsEmpty st) ;;
    revoked <- gets revoked_mark_stacks ;;
    CHECK (bool_decide (revoked = [])).

(** What a thread [self] that runs the collector does to the mark stacks
    while it marks: it pushes onto the GC mark stack and leaves the stacks of
    the threads and the revoked stacks alone. *)
Definition stacks_grow (self : nat) (s s' : State) : Prop :=
  thread_running_gc s' = thread_running_gc s /\
  mark_stack_mode s' = mark_stack_mode s /\
  (thread_running_gc s = Some self ->
   threads s' = threads s /\ revoked_mark_stacks s' = revoked_mark_stacks s /\
   elems (gc_mark_stack s) `prefix_of` elems (gc_mark_stack s')).

(** Every run of [c] that returns is within [R]. *)
Definition preserves {B : Type} (R : State -> State -> Prop) (c : M B) : Prop :=
  forall s b s', c s = Ok (b, s') -> R s s'.

(** The part of the state [stacks_grow] speaks of. *)
Definition mark_stack_state (s : State)
    : option nat * MarkStackMode * gmap nat Thread * list ObjectStack * ObjectStack :=
  (thread_running_gc s, mark_stack_mode s, threads s, revoked_mark_stacks s, gc_mark_stack s).

(* end of the collector's definitions *)

End Collector.

(** *** A layout and states for the examples

    ART's sizes for 32-bit heap references: 8-byte object alignment, an 8-byte
    [mirror::Object], array data at offset 12 rounded up to the component
    size, 1 MiB regions.  The spaces are address ranges. *)

Definition in_range (lo hi a : Z) : bool := (lo <=? a) && (a <? hi).

Definition example_env : Env := {|
  kUseBakerReadBarrier := true;
  kIsDebugBuild := true;
  collector_type_is_CC := true;
  kEnableToSpaceInvariantChecks := false;
  kEnableNoFromSpaceRefsVerification := false;
  kEnableFromSpaceAccountingCheck := false;
  use_tlab := true;
  kRegionSize := 1048576;
  kAlignment := 8;
  kObjectAlignment := 8;
  sizeof_Object := 8;
  Array_DataOffset := fun component_size => RoundUp 12 component_size;
  kMarkStackPoolSize := 256;
  GetRegionType := fun a =>
    if in_range 1000 2000 a then kRegionTypeFromSpace
    else if in_range 2000 3000 a then kRegionTypeUnevacFromSpace
    else if in_range 3000 5000 a then kRegionTypeToSpace
    else kRegionTypeNone;
  immune_ContainsObject := in_range 5000 6000;
  non_moving_HasAddress := in_range 6000 7000;
  has_space_bitmap := in_range 5000 7000
|}.

Definition example_thread : Thread :=
  {| tl_mark_stack := None; is_gc_marking := true; tl_weak_ref_access_enabled := true |}.

(** Nothing allocated, thread 0 running the collector in the thread-local
    mark-stack mode, thread 1 a mutator. *)
Definition empty_state : State := {|
  heap := ∅;
  region_space_bitmap := ∅;
  mark_bitmap := ∅;
  los_bitmap := ∅;
  allocation_stack := [];
  gc_mark_stack := Create 8;
  revoked_mark_stacks := [];
  pooled_mark_stacks := [];
  false_gray_stack := [];
  immune_gray_stack := [];
  skipped_blocks_map := [];
  threads := {[ 0%nat := example_thread; 1%nat := example_thread ]};
  thread_running_gc := Some 0%nat;
  mark_stack_mode := kMarkStackModeThreadLocal;
  is_marking := true;
  is_asserting_to_space_invariant := true;
  gc_grays_immune_objects := false;
  updated_all_immune_objects := true;
  is_mark_stack_push_disallowed := 0;
  weak_ref_access_enabled := true;
  objects_moved := 0;
  bytes_moved := 0;
  to_space_bytes_skipped := 0;
  to_space_objects_skipped := 0;
  num_bytes_allocated := 0;
  live_bytes := 0;
  roots := [];
  int_array_class := 0;
  java_lang_Object := 0;
  region_alloc := [];
  non_moving_alloc := [];
  weak_cas_fails := [];
  processed := []
|}.

Definition class_object (d : ClassData) : Object :=
  Build_Object 0 LwUnlocked WhitePtr 0 [] 0 0 [] (Some d).
Definition instance_of (c : Z) (fields : list Z) : Object :=
  Build_Object c LwUnlocked WhitePtr 0 fields 0 0 [] None.

Definition int_array_class_data : ClassData :=
  {| object_size := 0; component_size := 4; reference_class := false |}.
Definition java_lang_Object_data : ClassData :=
  {| object_size := 8; component_size := 0; reference_class := false |}.

(** The two classes FillWithDummyObject uses, in the to-space at 3000 and 3008. *)
Definition state_with_classes : State :=
  set_int_array_class 3000 (set_java_lang_Object 3008
    (set_heap {[ 3000 := class_object int_array_class_data;
                 3008 := class_object java_lang_Object_data ]} empty_state)).

(** An 8-byte object at 1000 in the from-space; the region space and the
    skipped-blocks map have nothing to give, the non-moving space offers 6000. *)
Definition exhausted_to_space_state : State :=
  set_non_moving_alloc [Some (6000, 8)]
    (set_heap (<[1000 := instance_of 3008 []]> (heap state_with_classes)) state_with_classes).

Definition copy_of_1000 : CopyLocals := with_sizes 8 8 (entry_locals 1000).

(** A gray java.lang.Object at 3100 in the to-space, on the GC mark stack. *)
Definition state_with_gray_object : State :=
  set_gc_mark_stack (PushBack 3100 (Create 8))
    (set_heap (<[3100 := set_rb_ptr GrayPtr (instance_of 3008 [])]> (heap state_with_classes))
       state_with_classes).

(** An object at 3100 whose one reference field holds the from-space
    reference 1000. *)
Definition state_with_field : State :=
  set_heap (<[3100 := instance_of 3008 [1000]]> (heap state_with_classes)) state_with_classes.

Definition reference_class_data : ClassData :=
  {| object_size := 16; component_size := 0; reference_class := true |}.

(** A gray java.lang.ref.Reference at 3100, its class at 3016, whose referent
    is the from-space object 1000, not copied yet. *)
Definition state_with_gray_reference : State :=
  set_heap
    (<[3016 := class_object reference_class_data]>
       (<[3100 := Build_Object 3016 LwUnlocked GrayPtr 0 [] 1000 0 [] None]>
          (<[1000 := instance_of 3008 []]> (heap state_with_classes))))
    state_with_classes.

(** Two threads, none of them in the collector, and an 8-byte object at 1000
    in the from-space; the region space will answer 3200 and then 3300. *)
Definition race_state : State :=
  set_region_alloc [Some 3200; Some 3300]
    (set_heap (<[1000 := instance_of 3008 []]> (heap state_with_classes)) state_with_classes).

Definition race_start : Config :=
  {| state_of := race_state; pool := [Finished 0; Finished 0];
     counted := []; counted_bytes := []; installed := []; returned := [] |}.

(** Both threads call Mark(1000), allocate and copy; thread 0 installs its
    copy; thread 1 fails its compare-and-swap, finds the forwarding address on
    the next round, fills its block and returns; thread 0 counts and pushes. *)
Definition race_schedule : list Action :=
  [ActCall 0 true 1000; ActCall 1 true 1000;
   ActStep 0; ActStep 1; ActStep 0; ActStep 1; ActStep 0; ActStep 1;
   ActStep 0; ActStep 1; ActStep 0;
   ActStep 1; ActStep 1; ActStep 1; ActStep 1; ActStep 1; ActStep 1;
   ActStep 0; ActStep 0; ActStep 0].

(** A white java.lang.Object at 6000 in the non-moving space, not marked. *)
Definition state_with_non_moving_object : State :=
  set_heap (<[6000 := instance_of 3008 []]> (heap state_with_classes)) state_with_classes.

(** The from-space object at 1000 with its copy at 3200 and the forwarding
    address installed. *)
Definition state_with_forwarded_object : State :=
  set_heap (<[1000 := set_monitor (LwForwardingAddress 3200) (instance_of 3008 [])]>
              (<[3200 := instance_of 3008 []]> (heap state_with_classes)))
    state_with_classes.

(** The object at 3100 still holds the from-space reference 1000 in its
    field, and 1000 is forwarded to 3200. *)
Definition state_with_stale_field : State :=
  set_heap (<[3100 := instance_of 3008 [1000]]> (heap state_with_forwarded_object))
    state_with_forwarded_object.

(** Three skipped blocks, of 8, 24 and 40 bytes. *)
Definition state_with_skipped_blocks : State :=
  set_skipped_blocks_map [(8, 3400); (24, 3500); (40, 3600)] state_with_classes.

(** The object at 3100 holds the to-space reference 3200 and null. *)
Definition state_with_forwarded_field : State :=
  set_heap (<[3100 := instance_of 3008 [3200; 0]]>
              (<[3200 := instance_of 3008 []]> (heap state_with_classes)))
    state_with_classes.

(** The object at 6000 in the non-moving space is marked and gray, and lies
    on the false gray stack. *)
Definition state_with_false_gray : State :=
  set_false_gray_stack [6000]
    (set_mark_bitmap {[6000]}
       (set_heap (<[6000 := set_rb_ptr GrayPtr (instance_of 3008 [])]>
                    (heap state_with_classes))
          state_with_classes)).

(** The GC mark stack is full: one reference, capacity one. *)
Definition state_with_full_mark_stack : State :=
  set_gc_mark_stack {| elems := [3100]; capacity := 1 |} state_with_gray_object.

(** Thread 1 has a thread-local mark stack with the reference 3200. *)
Definition state_with_thread_local_stack : State :=
  set_threads
    (<[1%nat := SetThreadLocalMarkStack (Some (PushBack 3200 (Create 8))) example_thread]>
       (threads state_with_classes))
    state_with_classes.

(** The gray object 3100 is on the thread-local mark stack of thread 1, the
    GC mark stack is empty. *)
Definition state_with_gray_on_thread_stack : State :=
  set_threads
    (<[1%nat := SetThreadLocalMarkStack (Some (PushBack 3100 (Create 8))) example_thread]>
       (threads state_with_classes))
    (set_gc_mark_stack (Create 8) state_with_gray_object).

(** The two classes in the immune space, at 5000 and 5008, and a zeroed
    block at 3100. *)
Definition state_with_immune_classes : State :=
  set_int_array_class 5000 (set_java_lang_Object 5008
    (set_heap {[ 5000 := class_object int_array_class_data;
                 5008 := class_object java_lang_Object_data;
                 3100 := zeroed_object ]} empty_state)).

(* end of the definitions *)

(** ** Part II. Theorems *)

Section CollectorFacts.

Context {E : Env}.


(** *** Reasoning in the monad *)

Lemma bind_Ok {A B : Type} (c : M A) (k : A -> M B) (s : State) (r : B * State) :
  bind c k s = Ok r <-> exists a s1, c s = Ok (a, s1) /\ k a s1 = Ok r.
Proof.
  unfold bind. split.
  - destruct (c s) as [[a s1]| | |]; try discriminate. eauto.
  - intros (a & s1 & -> & H). exact H.
Qed.

Lemma ret_Ok {A : Type} (a : A) (s : State) (r : A * State) :
  ret a s = Ok r <-> r = (a, s).
Proof. unfold ret. split; [intros [= <-]; reflexivity | intros ->; reflexivity]. Qed.

Lemma gets_Ok {A : Type} (f : State -> A) (s : State) (r : A * State) :
  gets f s = Ok r <-> r = (f s, s).
Proof. unfold gets. split; [intros [= <-]; reflexivity | intros ->; reflexivity]. Qed.

Lemma modify_Ok (f : State -> State) (s : State) (r : unit * State) :
  modify f s = Ok r <-> r = (tt, f s).
Proof. unfold modify. split; [intros [= <-]; reflexivity | intros ->; reflexivity]. Qed.

Lemma CHECK_Ok (c : bool) (s : State) (r : unit * State) :
  CHECK c s = Ok r <-> c = true /\ r = (tt, s).
Proof.
  unfold CHECK, ret, fatal. destruct c; split.
  - intros [= <-]. auto.
  - intros [_ ->]. reflexivity.
  - discriminate.
  - intros [? _]. discriminate.
Qed.

Lemma when_Ok (b : bool) (c : M unit) (s : State) (r : unit * State) :
  when b c s = Ok r <-> (b = true /\ c s = Ok r) \/ (b = false /\ r = (tt, s)).
Proof.
  unfold when, ret. destruct b; split; intros H.
  - left. auto.
  - destruct H as [[_ H]|[H _]]; [exact H | discriminate].
  - right. injection H as <-. auto.
  - destruct H as [[H _]|[_ ->]]; [discriminate | reflexivity].
Qed.

Lemma object_at_Ok (a : Z) (s : State) (r : Object * State) :
  object_at a s = Ok r <-> exists o, heap s !! a = Some o /\ r = (o, s).
Proof.
  unfold object_at. destruct (heap s !! a) as [o|]; split.
  - intros [= <-]. eauto.
  - intros (o' & [= <-] & ->). reflexivity.
  - discriminate.
  - intros (o' & [=] & _).
Qed.

(** Splits a hypothesis [H : c s = Ok r] along the structure of [c];
    [inv_prim] knows the operations proved so far. *)
Ltac inv_prim H := fail.
Ltac inv_step H :=
  lazymatch type of H with
  | bind _ _ _ = Ok _ =>
      let a := fresh "a" in let s1 := fresh "s" in let H1 := fresh "H" in
      apply bind_Ok in H; destruct H as (a & s1 & H1 & H); inv_step H1
  | ret _ _ = Ok _ => apply ret_Ok in H; simplify_eq
  | gets _ _ = Ok _ => apply gets_Ok in H; simplify_eq
  | modify _ _ = Ok _ => apply modify_Ok in H; simplify_eq
  | CHECK _ _ = Ok _ =>
      let Hc := fresh "Hc" in
      apply CHECK_Ok in H; destruct H as [Hc H]; simplify_eq
  | object_at _ _ = Ok _ =>
      let o := fresh "o" in let Ho := fresh "Ho" in
      apply object_at_Ok in H; destruct H as (o & Ho & H); simplify_eq
  | _ => first [inv_prim H | idtac]
  end.

Lemma run_thread_S (fuel self : nat) (stack : list Frame) (s : State) :
  run_thread (S fuel) self stack s =
  match thread_step self stack s with
  | Ok (Finished v, s1) => Ok (v, s1)
  | Ok (Running stack', s1) => run_thread fuel self stack' s1
  | Fatal => Fatal
  | OutOfFuel => OutOfFuel
  | Unspecified => Unspecified
  end.
Proof.
  simpl. unfold bind. destruct (thread_step self stack s) as [[[st|v] s1]| | |]; reflexivity.
Qed.

Lemma thread_step_cons (self : nat) (f : Frame) (rest : list Frame) (s : State) :
  thread_step self (f :: rest) s =
  match frame_step self f s with
  | Ok (Goto f', s1) => Ok (Running (f' :: rest), s1)
  | Ok (Call caller callee, s1) => Ok (Running (callee :: caller :: rest), s1)
  | Ok (Return v, s1) =>
      match rest with
      | [] => Ok (Finished v, s1)
      | caller :: rest' => Ok (Running (resume caller v :: rest'), s1)
      end
  | Fatal => Fatal
  | OutOfFuel => OutOfFuel
  | Unspecified => Unspecified
  end.
Proof.
  unfold thread_step, bind.
  destruct (frame_step self f s) as [[[f'|c d|v] s1]| | |]; try reflexivity.
  destruct rest; reflexivity.
Qed.

(** A call returns to its caller: the run of a stack splits into the run of
    the frames above a caller and the run of what is left. *)
Lemma run_thread_call (fuel self : nat) (top : list Frame) (caller : Frame)
    (rest : list Frame) (s : State) (v : Z) (s' : State) :
  top <> [] ->
  run_thread fuel self (top ++ caller :: rest) s = Ok (v, s') ->
  exists f1 f2 v1 s1,
    run_thread f1 self top s = Ok (v1, s1) /\
    run_thread f2 self (resume caller v1 :: rest) s1 = Ok (v, s') /\
    (f1 + f2 = fuel)%nat.
Proof.
  revert top s. induction fuel as [|fuel IH]; intros top s Htop H.
  - discriminate.
  - destruct top as [|f top']; [congruence|]. clear Htop.
    rewrite run_thread_S in H. simpl app in H. rewrite thread_step_cons in H.
    destruct (frame_step self f s) as [[[f'|c d|v0] s1]| | |] eqn:Hf; try discriminate.
    + destruct (IH (f' :: top') s1 ltac:(discriminate) H) as (f1 & f2 & v1 & s2 & H1 & H2 & Hn).
      exists (S f1), f2, v1, s2. split; [|split; [exact H2 | lia]].
      rewrite run_thread_S, thread_step_cons, Hf. exact H1.
    + destruct (IH (d :: c :: top') s1 ltac:(discriminate) H) as (f1 & f2 & v1 & s2 & H1 & H2 & Hn).
      exists (S f1), f2, v1, s2. split; [|split; [exact H2 | lia]].
      rewrite run_thread_S, thread_step_cons, Hf. exact H1.
    + destruct top' as [|c' top''].
      * simpl in H. exists 1%nat, fuel, v0, s1. split; [|split; [exact H | lia]].
        rewrite run_thread_S, thread_step_cons, Hf. reflexivity.
      * simpl in H.
        destruct (IH (resume c' v0 :: top'') s1 ltac:(discriminate) H)
          as (f1 & f2 & v1 & s2 & H1 & H2 & Hn).
        exists (S f1), f2, v1, s2. split; [|split; [exact H2 | lia]].
        rewrite run_thread_S, thread_step_cons, Hf. exact H1.
Qed.

Lemma class_of_Ok (c : Z) (s : State) (r : ClassData * State) :
  class_of c s = Ok r <->
  exists o d, heap s !! c = Some o /\ class_data o = Some d /\ r = (d, s).
Proof.
  unfold class_of, bind, object_at, ret, unspecified.
  destruct (heap s !! c) as [o|]; [destruct (class_data o) as [d|] eqn:Hd|]; split.
  - intros [= <-]. eauto.
  - intros (o' & d' & [= <-] & Hd' & ->). congruence.
  - discriminate.
  - intros (o' & d' & [= <-] & Hd' & _). congruence.
  - discriminate.
  - intros (o' & d' & [=] & _).
Qed.

Lemma store_object_Ok (a : Z) (o : Object) (s : State) (r : unit * State) :
  store_object a o s = Ok r <-> r = (tt, set_heap (<[a := o]> (heap s)) s).
Proof.
  unfold store_object, modify. split; [intros [= <-]; reflexivity | intros ->; reflexivity].
Qed.

Lemma SetClass_Ok (a c : Z) (s : State) (r : unit * State) :
  SetClass a c s = Ok r <->
  exists o, heap s !! a = Some o /\ r = (tt, set_heap (<[a := set_klass c o]> (heap s)) s).
Proof.
  unfold SetClass, bind, object_at, store_object, modify.
  destruct (heap s !! a) as [o|]; split; try discriminate.
  - intros [= <-]. eauto.
  - intros (o' & [= <-] & ->). reflexivity.
  - intros (o' & [=] & _).
Qed.

Lemma GetReadBarrierPointer_Ok (a : Z) (s : State) (r : RbPtr * State) :
  GetReadBarrierPointer a s = Ok r <-> exists o, heap s !! a = Some o /\ r = (rb_ptr o, s).
Proof.
  unfold GetReadBarrierPointer, bind, object_at, ret.
  destruct (heap s !! a) as [o|]; split; try discriminate.
  - intros [= <-]. eauto.
  - intros (o' & [= <-] & ->). reflexivity.
  - intros (o' & [=] & _).
Qed.

Lemma GetLockWord_Ok (a : Z) (s : State) (r : LockWord * State) :
  GetLockWord a s = Ok r <-> exists o, heap s !! a = Some o /\ r = (monitor o, s).
Proof.
  unfold GetLockWord, bind, object_at, ret.
  destruct (heap s !! a) as [o|]; split; try discriminate.
  - intros [= <-]. eauto.
  - intros (o' & [= <-] & ->). reflexivity.
  - intros (o' & [=] & _).
Qed.

Ltac inv_prim H ::=
  lazymatch type of H with
  | class_of _ _ = Ok _ =>
      let o := fresh "oc" in let d := fresh "d" in
      let Ho := fresh "Hoc" in let Hd := fresh "Hd" in
      apply class_of_Ok in H; destruct H as (o & d & Ho & Hd & H);
      simplify_eq
  | store_object _ _ _ = Ok _ =>
      apply store_object_Ok in H; simplify_eq
  | SetClass _ _ _ = Ok _ =>
      let o := fresh "o" in let Ho := fresh "Ho" in
      apply SetClass_Ok in H; destruct H as (o & Ho & H); simplify_eq
  | GetReadBarrierPointer _ _ = Ok _ =>
      let o := fresh "o" in let Ho := fresh "Ho" in
      apply GetReadBarrierPointer_Ok in H; destruct H as (o & Ho & H);
      simplify_eq
  | GetLockWord _ _ = Ok _ =>
      let o := fresh "o" in let Ho := fresh "Ho" in
      apply GetLockWord_Ok in H; destruct H as (o & Ho & H);
      simplify_eq
  end.

Lemma AssertToSpaceInvariantInNonMovingSpace_state (self : nat) (ref : Z) (s s' : State)
    (u : unit) :
  AssertToSpaceInvariantInNonMovingSpace self ref s = Ok (u, s') -> s' = s.
Proof.
  unfold AssertToSpaceInvariantInNonMovingSpace, los_bitmap_Test, mark_bitmap_Test,
    IsOnAllocStack.
  intros H.
  destruct (immune_ContainsObject E ref).
  - destruct (kUseBakerReadBarrier E); [|inv_step H; congruence].
    inv_step H. destruct (_ && _); [inv_step H; congruence|].
    inv_step H. destruct (updated_all_immune_objects s); [inv_step H; congruence|].
    repeat inv_step H. congruence.
  - destruct (negb (has_space_bitmap E ref)); inv_step H;
      match type of H with (if ?b then _ else _) _ = _ => destruct b end;
      repeat inv_step H; congruence.
Qed.

Lemma AssertToSpaceInvariant_state (self : nat) (ref : Z) (s s' : State) (u : unit) :
  AssertToSpaceInvariant self ref s = Ok (u, s') -> s' = s.
Proof.
  unfold AssertToSpaceInvariant, region_bitmap_Test. intros H.
  apply bind_Ok in H as ([] & s0 & Hc & H). apply CHECK_Ok in Hc as [_ [= ->]].
  inv_step H. destruct (is_asserting_to_space_invariant s); [|inv_step H; congruence].
  destruct (IsInToSpace ref); [inv_step H; congruence|].
  destruct (IsInUnevacFromSpace ref); [repeat inv_step H; congruence|].
  destruct (IsInFromSpace ref); [discriminate|].
  eapply AssertToSpaceInvariantInNonMovingSpace_state; eauto.
Qed.

Lemma SizeOf_state (a : Z) (s s' : State) (n : Z) : SizeOf a s = Ok (n, s') -> s' = s.
Proof.
  unfold SizeOf. intros H. repeat inv_step H.
  match type of H with (if ?b then _ else _) _ = _ => destruct b end;
    inv_step H; congruence.
Qed.

Ltac inv_prim H ::=
  lazymatch type of H with
  | class_of _ _ = Ok _ =>
      let o := fresh "oc" in let d := fresh "d" in
      let Ho := fresh "Hoc" in let Hd := fresh "Hd" in
      apply class_of_Ok in H; destruct H as (o & d & Ho & Hd & H);
      simplify_eq
  | store_object _ _ _ = Ok _ =>
      apply store_object_Ok in H; simplify_eq
  | SetClass _ _ _ = Ok _ =>
      let o := fresh "o" in let Ho := fresh "Ho" in
      apply SetClass_Ok in H; destruct H as (o & Ho & H); simplify_eq
  | GetReadBarrierPointer _ _ = Ok _ =>
      let o := fresh "o" in let Ho := fresh "Ho" in
      apply GetReadBarrierPointer_Ok in H; destruct H as (o & Ho & H);
      simplify_eq
  | GetLockWord _ _ = Ok _ =>
      let o := fresh "o" in let Ho := fresh "Ho" in
      apply GetLockWord_Ok in H; destruct H as (o & Ho & H);
      simplify_eq
  | AssertToSpaceInvariant _ _ ?s = Ok (_, ?s') =>
      let Hs := fresh "Hs" in
      pose proof (AssertToSpaceInvariant_state _ _ _ _ _ H) as Hs;
      first [subst s' | rewrite Hs in *; clear Hs];
      lazymatch type of H with ?c ?s1 = Ok (?u, _) => change (returns c s1 u) in H end
  | SizeOf _ ?s = Ok (_, ?s') =>
      let Hs := fresh "Hs" in
      pose proof (SizeOf_state _ _ _ _ H) as Hs;
      first [subst s' | rewrite Hs in *; clear Hs];
      lazymatch type of H with ?c ?s1 = Ok (?u, _) => change (returns c s1 u) in H end
  end.

(** The part of FillWithDummyObject after the call of Mark: on a block below
    the int-array data offset it returns only for a block of exactly the size
    of a java.lang.Object, and then the block has that class. *)
Lemma FillWithDummyObject_rest_small (self : nat) (dummy_obj byte_size : Z) (enabled : bool)
    (c : Z) (s : State) (r : FrameStep) (s' : State) :
  byte_size < Array_DataOffset E 4 ->
  FillWithDummyObject_rest self dummy_obj byte_size enabled c s = Ok (r, s') ->
  r = Return 0 /\
  java_lang_Object s' = java_lang_Object s /\
  (forall a, a <> dummy_obj -> heap s' !! a = heap s !! a) /\
  exists o oj dj,
    heap s' !! dummy_obj = Some o /\ klass o = java_lang_Object s /\
    heap s !! java_lang_Object s = Some oj /\ class_data oj = Some dj /\
    byte_size = object_size dj.
Proof.
  intros Hsmall H. unfold FillWithDummyObject_rest in H.
  repeat inv_step H.
  match goal with H : (component_size _ =? 4) = true |- _ =>
    apply Z.eqb_eq in H; rewrite H in * end.
  destruct (byte_size <? Array_DataOffset E 4) eqn:Hlt; [|apply Z.ltb_ge in Hlt; lia].
  match goal with H : bind _ _ _ = Ok _ |- _ => repeat inv_step H end.
  match goal with H : (byte_size =? object_size _) = true |- _ => apply Z.eqb_eq in H end.
  split; [reflexivity|].
  match goal with
  | H : when _ _ ?s1 = Ok (_, ?s2) |- _ =>
      assert (Hs2 : heap s2 = heap s1 /\ java_lang_Object s2 = java_lang_Object s1)
  end.
  { match goal with H : when _ _ _ = Ok _ |- _ =>
      apply when_Ok in H as [[_ H]|[_ [= _ <-]]]; [|split; reflexivity];
      repeat inv_step H; unfold DCHECK in * end.
    destruct (kIsDebugBuild E);
      repeat match goal with H : bind _ _ _ = Ok _ |- _ => repeat inv_step H
                        | H : ret _ _ = Ok _ |- _ => inv_step H end;
      split; reflexivity. }
  destruct Hs2 as [Hheap Hjlo]. simpl in Hheap, Hjlo. split; [exact Hjlo|].
  split; [intros a0 Ha0; rewrite Hheap; apply lookup_insert_ne; congruence|].
  eexists _, _, _. rewrite Hheap. rewrite lookup_insert_eq.
  repeat split; eauto.
Qed.

Lemma bind_eq {A B : Type} (c : M A) (k : A -> M B) (s s1 : State) (a : A) :
  c s = Ok (a, s1) -> bind c k s = k a s1.
Proof. unfold bind. intros ->. reflexivity. Qed.

Lemma bind_Fatal {A B : Type} (c : M A) (k : A -> M B) (s : State) :
  c s = Fatal -> bind c k s = Fatal.
Proof. unfold bind. intros ->. reflexivity. Qed.

Lemma AssertToSpaceInvariant_to_space (self : nat) (ref : Z) (s : State) :
  collector_type_is_CC E = true ->
  IsInToSpace ref = true -> AssertToSpaceInvariant self ref s = Ok (tt, s).
Proof.
  intros Hcc H. unfold AssertToSpaceInvariant, bind, gets, ret. rewrite Hcc. cbn.
  destruct (is_asserting_to_space_invariant s); [rewrite H|]; reflexivity.
Qed.

Lemma class_of_eq (c : Z) (s : State) (o : Object) (d : ClassData) :
  heap s !! c = Some o -> class_data o = Some d -> class_of c s = Ok (d, s).
Proof. intros. apply class_of_Ok. eauto. Qed.

Lemma FillWithDummyObject_enter_eq (self : nat) (dummy_obj byte_size : Z) (s : State) :
  FillWithDummyObject_enter self dummy_obj byte_size s =
  let enabled := kUseBakerReadBarrier E && is_gc_thread self s
                 && negb (gc_grays_immune_objects s) in
  let s1 := if enabled then set_gc_grays_immune_objects true s else s in
  if IsAligned byte_size (kObjectAlignment E)
  then Ok (Call (FFillAwait dummy_obj byte_size enabled) (FMark true (int_array_class s)),
           set_heap (<[dummy_obj := zeroed_object]> (heap s1)) s1)
  else Fatal.
Proof.
  unfold FillWithDummyObject_enter, bind, gets, when, modify, CHECK, store_object, ret, fatal.
  destruct (kUseBakerReadBarrier E && is_gc_thread self s && negb (gc_grays_immune_objects s));
    destruct (IsAligned byte_size (kObjectAlignment E)); reflexivity.
Qed.

Lemma Mark_step_to_space (self : nat) (g : bool) (ref : Z) (s : State) :
  IsInToSpace ref = true -> Mark_step self g ref s = Ok (Return ref, s).
Proof.
  intros H. unfold Mark_step. unfold IsInToSpace in H. apply bool_decide_eq_true in H.
  rewrite H. destruct (ref =? 0) eqn:H0; [|reflexivity].
  apply Z.eqb_eq in H0. subst. reflexivity.
Qed.

Lemma FillWithDummyObject_rest_object (self : nat) (dummy_obj byte_size : Z) (enabled : bool)
    (dj : ClassData) (s : State) :
  collector_type_is_CC E = true ->
  dummy_classes_ok s dummy_obj dj ->
  heap s !! dummy_obj = Some zeroed_object ->
  byte_size < Array_DataOffset E 4 ->
  (enabled = true -> gc_grays_immune_objects s = true) ->
  if byte_size =? object_size dj
  then exists s',
    FillWithDummyObject_rest self dummy_obj byte_size enabled (int_array_class s) s
      = Ok (Return 0, s') /\
    heap s' = <[dummy_obj := set_klass (java_lang_Object s) zeroed_object]> (heap s)
  else
    FillWithDummyObject_rest self dummy_obj byte_size enabled (int_array_class s) s = Fatal.
Proof.
  intros Hcc (Hc0 & Hcd & Hjd & Hc & Hj & (oc & d & Hoc & Hd & Hcs) & (oj & Hoj & Hdj & Hjs))
    Hz Hlt Hen.
  apply Z.ltb_lt in Hlt.
  assert (Hn : negb (int_array_class s =? 0) = true) by (apply negb_true_iff, Z.eqb_neq; exact Hc0).
  assert (Hpre :
            FillWithDummyObject_rest self dummy_obj byte_size enabled (int_array_class s) s =
            bind (jlo <- gets java_lang_Object ;;
                  AssertToSpaceInvariant self jlo ;;
                  dj0 <- class_of jlo ;;
                  CHECK (byte_size =? object_size dj0) ;;
                  SetClass dummy_obj jlo ;;
                  size <- SizeOf dummy_obj ;; CHECK (byte_size =? size))
                 (fun _ => by_gc <- gets (is_gc_thread self) ;;
                    when (kUseBakerReadBarrier E && by_gc && enabled)
                      (DCHECK (gets gc_grays_immune_objects) ;;
                       modify (set_gc_grays_immune_objects false)) ;;
                    ret (Return 0)) s).
  { unfold FillWithDummyObject_rest.
    rewrite Hn. unfold CHECK at 1. rewrite (bind_eq _ _ s s tt) by reflexivity.
    rewrite (bind_eq _ _ s s tt) by (apply AssertToSpaceInvariant_to_space; [exact Hcc | exact Hc]).
    rewrite (bind_eq _ _ s s d) by (eapply class_of_eq; eauto).
    rewrite Hcs. change (4 =? 4) with true. unfold CHECK at 1.
    rewrite (bind_eq _ _ s s tt) by reflexivity.
    rewrite Hlt. reflexivity. }
  rewrite Hpre. clear Hpre.
  destruct (byte_size =? object_size dj) eqn:Hsz.
  - apply Z.eqb_eq in Hsz.
    set (s1 := set_heap (<[dummy_obj := set_klass (java_lang_Object s) zeroed_object]> (heap s)) s).
    assert (Hfill : (jlo <- gets java_lang_Object ;;
                     AssertToSpaceInvariant self jlo ;;
                     dj0 <- class_of jlo ;;
                     CHECK (byte_size =? object_size dj0) ;;
                     SetClass dummy_obj jlo ;;
                     size <- SizeOf dummy_obj ;; CHECK (byte_size =? size)) s = Ok (tt, s1)).
    { rewrite (bind_eq _ _ s s (java_lang_Object s)) by reflexivity.
      rewrite (bind_eq _ _ s s tt) by (apply AssertToSpaceInvariant_to_space; [exact Hcc | exact Hj]).
      rewrite (bind_eq _ _ s s dj) by (eapply class_of_eq; eauto).
      rewrite Hsz, Z.eqb_refl. unfold CHECK at 1. rewrite (bind_eq _ _ s s tt) by reflexivity.
      rewrite (bind_eq _ _ s s1 tt) by (apply SetClass_Ok; eauto).
      assert (HS : SizeOf dummy_obj s1 = Ok (object_size dj, s1)).
      { unfold SizeOf.
        rewrite (bind_eq _ _ s1 s1 (set_klass (java_lang_Object s) zeroed_object))
          by (apply object_at_Ok; eexists; split; [apply lookup_insert_eq | reflexivity]).
        simpl klass.
        rewrite (bind_eq _ _ s1 s1 dj).
        - rewrite Hjs. reflexivity.
        - eapply class_of_eq; [|exact Hdj]. simpl. rewrite lookup_insert_ne by congruence.
          exact Hoj. }
      rewrite (bind_eq _ _ s1 s1 (object_size dj)) by exact HS.
      rewrite Z.eqb_refl. reflexivity. }
    rewrite (bind_eq _ _ s s1 tt) by exact Hfill.
    unfold bind, gets, when, DCHECK, modify, ret, CHECK, fatal. simpl.
    destruct (kUseBakerReadBarrier E); simpl; [|eexists; split; reflexivity].
    change (is_gc_thread self s1) with (is_gc_thread self s).
    destruct (is_gc_thread self s); simpl; [|eexists; split; reflexivity].
    destruct enabled; simpl; [|eexists; split; reflexivity].
    destruct (kIsDebugBuild E); simpl; [|eexists; split; reflexivity].
    unfold bind, ret. simpl. rewrite Hen by reflexivity. eexists; split; reflexivity.
  - apply bind_Fatal.
    rewrite (bind_eq _ _ s s (java_lang_Object s)) by reflexivity.
    rewrite (bind_eq _ _ s s tt) by (apply AssertToSpaceInvariant_to_space; [exact Hcc | exact Hj]).
    rewrite (bind_eq _ _ s s dj) by (eapply class_of_eq; eauto).
    rewrite Hsz. reflexivity.
Qed.

(** The same step for classes in any space: it needs the two assertions of
    the to-space invariant to pass, not the to-space. *)
Lemma FillWithDummyObject_rest_passes (self : nat) (dummy_obj byte_size : Z) (enabled : bool)
    (c : Z) (dj : ClassData) (o0 : Object) (s : State) :
  c <> 0 -> java_lang_Object s <> dummy_obj ->
  AssertToSpaceInvariant self c s = Ok (tt, s) ->
  AssertToSpaceInvariant self (java_lang_Object s) s = Ok (tt, s) ->
  (exists oc d, heap s !! c = Some oc /\ class_data oc = Some d /\ component_size d = 4) ->
  (exists oj, heap s !! java_lang_Object s = Some oj /\ class_data oj = Some dj /\
              component_size dj = 0) ->
  heap s !! dummy_obj = Some o0 ->
  byte_size < Array_DataOffset E 4 ->
  (enabled = true -> gc_grays_immune_objects s = true) ->
  if byte_size =? object_size dj
  then exists s',
    FillWithDummyObject_rest self dummy_obj byte_size enabled c s = Ok (Return 0, s') /\
    heap s' = <[dummy_obj := set_klass (java_lang_Object s) o0]> (heap s)
  else
    FillWithDummyObject_rest self dummy_obj byte_size enabled c s = Fatal.
Proof.
  intros Hc0 Hjd Hac Haj (oc & d & Hoc & Hd & Hcs) (oj & Hoj & Hdj & Hjs) Hz Hlt Hen.
  apply Z.ltb_lt in Hlt.
  assert (Hn : negb (c =? 0) = true) by (apply negb_true_iff, Z.eqb_neq; exact Hc0).
  assert (Hpre :
            FillWithDummyObject_rest self dummy_obj byte_size enabled c s =
            bind (jlo <- gets java_lang_Object ;;
                  AssertToSpaceInvariant self jlo ;;
                  dj0 <- class_of jlo ;;
                  CHECK (byte_size =? object_size dj0) ;;
                  SetClass dummy_obj jlo ;;
                  size <- SizeOf dummy_obj ;; CHECK (byte_size =? size))
                 (fun _ => by_gc <- gets (is_gc_thread self) ;;
                    when (kUseBakerReadBarrier E && by_gc && enabled)
                      (DCHECK (gets gc_grays_immune_objects) ;;
                       modify (set_gc_grays_immune_objects false)) ;;
                    ret (Return 0)) s).
  { unfold FillWithDummyObject_rest.
    rewrite Hn. unfold CHECK at 1. rewrite (bind_eq _ _ s s tt) by reflexivity.
    rewrite (bind_eq _ _ s s tt) by exact Hac.
    rewrite (bind_eq _ _ s s d) by (eapply class_of_eq; eauto).
    rewrite Hcs. change (4 =? 4) with true. unfold CHECK at 1.
    rewrite (bind_eq _ _ s s tt) by reflexivity.
    rewrite Hlt. reflexivity. }
  rewrite Hpre. clear Hpre.
  destruct (byte_size =? object_size dj) eqn:Hsz.
  - apply Z.eqb_eq in Hsz.
    set (s1 := set_heap (<[dummy_obj := set_klass (java_lang_Object s) o0]> (heap s)) s).
    assert (Hfill : (jlo <- gets java_lang_Object ;;
                     AssertToSpaceInvariant self jlo ;;
                     dj0 <- class_of jlo ;;
                     CHECK (byte_size =? object_size dj0) ;;
                     SetClass dummy_obj jlo ;;
                     size <- SizeOf dummy_obj ;; CHECK (byte_size =? size)) s = Ok (tt, s1)).
    { rewrite (bind_eq _ _ s s (java_lang_Object s)) by reflexivity.
      rewrite (bind_eq _ _ s s tt) by exact Haj.
      rewrite (bind_eq _ _ s s dj) by (eapply class_of_eq; eauto).
      rewrite Hsz, Z.eqb_refl. unfold CHECK at 1. rewrite (bind_eq _ _ s s tt) by reflexivity.
      rewrite (bind_eq _ _ s s1 tt) by (apply SetClass_Ok; eauto).
      assert (HS : SizeOf dummy_obj s1 = Ok (object_size dj, s1)).
      { unfold SizeOf.
        rewrite (bind_eq _ _ s1 s1 (set_klass (java_lang_Object s) o0))
          by (apply object_at_Ok; eexists; split; [apply lookup_insert_eq | reflexivity]).
        replace (klass (set_klass (java_lang_Object s) o0)) with (java_lang_Object s)
          by (destruct o0; reflexivity).
        rewrite (bind_eq _ _ s1 s1 dj).
        - rewrite Hjs. reflexivity.
        - eapply class_of_eq; [|exact Hdj]. simpl. rewrite lookup_insert_ne by congruence.
          exact Hoj. }
      rewrite (bind_eq _ _ s1 s1 (object_size dj)) by exact HS.
      rewrite Z.eqb_refl. reflexivity. }
    rewrite (bind_eq _ _ s s1 tt) by exact Hfill.
    unfold bind, gets, when, DCHECK, modify, ret, CHECK, fatal. simpl.
    destruct (kUseBakerReadBarrier E); simpl; [|eexists; split; reflexivity].
    change (is_gc_thread self s1) with (is_gc_thread self s).
    destruct (is_gc_thread self s); simpl; [|eexists; split; reflexivity].
    destruct enabled; simpl; [|eexists; split; reflexivity].
    destruct (kIsDebugBuild E); simpl; [|eexists; split; reflexivity].
    unfold bind, ret. simpl. rewrite Hen by reflexivity. eexists; split; reflexivity.
  - apply bind_Fatal.
    rewrite (bind_eq _ _ s s (java_lang_Object s)) by reflexivity.
    rewrite (bind_eq _ _ s s tt) by exact Haj.
    rewrite (bind_eq _ _ s s dj) by (eapply class_of_eq; eauto).
    rewrite Hsz. reflexivity.
Qed.

Lemma dummy_classes_ok_distinct (s : State) (dummy_obj : Z) (dj : ClassData) :
  dummy_classes_ok s dummy_obj dj -> java_lang_Object s <> int_array_class s.
Proof.
  intros (_ & _ & _ & _ & _ & (oc & d & Hoc & Hd & Hcs) & (oj & Hoj & Hdj & Hjs)) Heq.
  rewrite Heq in Hoj. rewrite Hoc in Hoj. injection Hoj as <-.
  rewrite Hd in Hdj. injection Hdj as <-. lia.
Qed.

Lemma FillWithDummyObject_run (fuel self : nat) (dummy_obj byte_size : Z) (s : State) :
  FillWithDummyObject fuel self dummy_obj byte_size s =
  match run_thread fuel self [FFillEntry dummy_obj byte_size] s with
  | Ok (_, s') => Ok (tt, s')
  | Fatal => Fatal
  | OutOfFuel => OutOfFuel
  | Unspecified => Unspecified
  end.
Proof. reflexivity. Qed.

Lemma run_thread_Goto (n self : nat) (f f' : Frame) (rest : list Frame) (s s1 : State) :
  frame_step self f s = Ok (Goto f', s1) ->
  run_thread (S n) self (f :: rest) s = run_thread n self (f' :: rest) s1.
Proof. intros H. rewrite run_thread_S, thread_step_cons, H. reflexivity. Qed.

Lemma run_thread_Call (n self : nat) (f c d : Frame) (rest : list Frame) (s s1 : State) :
  frame_step self f s = Ok (Call c d, s1) ->
  run_thread (S n) self (f :: rest) s = run_thread n self (d :: c :: rest) s1.
Proof. intros H. rewrite run_thread_S, thread_step_cons, H. reflexivity. Qed.

Lemma run_thread_Return (n self : nat) (f c : Frame) (rest : list Frame) (v : Z)
    (s s1 : State) :
  frame_step self f s = Ok (Return v, s1) ->
  run_thread (S n) self (f :: c :: rest) s = run_thread n self (resume c v :: rest) s1.
Proof. intros H. rewrite run_thread_S, thread_step_cons, H. reflexivity. Qed.

Lemma run_thread_Finish (n self : nat) (f : Frame) (v : Z) (s s1 : State) :
  frame_step self f s = Ok (Return v, s1) ->
  run_thread (S n) self [f] s = Ok (v, s1).
Proof. intros H. rewrite run_thread_S, thread_step_cons, H. reflexivity. Qed.

Lemma run_thread_Fatal (n self : nat) (f : Frame) (rest : list Frame) (s : State) :
  frame_step self f s = Fatal ->
  run_thread (S n) self (f :: rest) s = Fatal.
Proof. intros H. rewrite run_thread_S, thread_step_cons, H. reflexivity. Qed.

(** With the int-array class and java.lang.Object in the to-space,
    FillWithDummyObject on a block below the int-array data offset returns,
    the block then being a java.lang.Object, exactly when the size is
    object-aligned and equals the instance size of java.lang.Object, and
    aborts on a mandatory check otherwise. *)
Lemma FillWithDummyObject_small_block_runs (fuel self : nat) (dummy_obj byte_size : Z)
    (dj : ClassData) (s : State) :
  collector_type_is_CC E = true ->
  dummy_classes_ok s dummy_obj dj ->
  byte_size < Array_DataOffset E 4 ->
  (3 <= fuel)%nat ->
  if IsAligned byte_size (kObjectAlignment E) && (byte_size =? object_size dj)
  then exists s' o,
    FillWithDummyObject fuel self dummy_obj byte_size s = Ok (tt, s') /\
    heap s' !! dummy_obj = Some o /\
    klass o = java_lang_Object s /\ klass o <> int_array_class s
  else FillWithDummyObject fuel self dummy_obj byte_size s = Fatal.
Proof.
  intros Hcc Hok Hlt Hfuel.
  destruct fuel as [|[|[|fuel]]]; try lia. clear Hfuel.
  pose proof (dummy_classes_ok_distinct _ _ _ Hok) as Hne.
  pose proof (FillWithDummyObject_enter_eq self dummy_obj byte_size s) as Henter.
  cbv zeta in Henter.
  change (FillWithDummyObject_enter self dummy_obj byte_size s)
    with (frame_step self (FFillEntry dummy_obj byte_size) s) in Henter.
  destruct (IsAligned byte_size (kObjectAlignment E)).
  2:{ cbn [andb]. rewrite FillWithDummyObject_run.
      rewrite (run_thread_Fatal _ _ _ _ _ Henter). reflexivity. }
  cbn [andb].
  set (enabled := kUseBakerReadBarrier E && is_gc_thread self s
                  && negb (gc_grays_immune_objects s)) in *.
  set (s0 := if enabled then set_gc_grays_immune_objects true s else s) in *.
  set (s1 := set_heap (<[dummy_obj := zeroed_object]> (heap s0)) s0) in *.
  assert (Hheap : heap s0 = heap s) by (unfold s0; destruct enabled; reflexivity).
  assert (Hc1 : int_array_class s1 = int_array_class s)
    by (unfold s1, s0; destruct enabled; reflexivity).
  assert (Hj1 : java_lang_Object s1 = java_lang_Object s)
    by (unfold s1, s0; destruct enabled; reflexivity).
  assert (Hok1 : dummy_classes_ok s1 dummy_obj dj).
  { destruct Hok as (Hc0 & Hcd & Hjd & Hc & Hj & (oc & d & Hoc & Hd & Hcs)
                     & (oj & Hoj & Hdj & Hjs)).
    unfold dummy_classes_ok. rewrite Hc1, Hj1.
    change (heap s1) with (<[dummy_obj := zeroed_object]> (heap s0)). rewrite Hheap.
    rewrite !lookup_insert_ne by congruence.
    repeat split; try assumption; [exists oc, d | exists oj]; auto. }
  assert (Hz : heap s1 !! dummy_obj = Some zeroed_object) by apply lookup_insert_eq.
  assert (Hen : enabled = true -> gc_grays_immune_objects s1 = true).
  { intros He. unfold s1, s0. rewrite He. reflexivity. }
  assert (Hmark : frame_step self (FMark true (int_array_class s)) s1
                  = Ok (Return (int_array_class s), s1)).
  { apply Mark_step_to_space. destruct Hok as (_ & _ & _ & Hc & _). exact Hc. }
  pose proof (FillWithDummyObject_rest_object self dummy_obj byte_size enabled dj s1
                Hcc Hok1 Hz Hlt Hen) as Hrest.
  rewrite Hc1 in Hrest.
  change (FillWithDummyObject_rest self dummy_obj byte_size enabled (int_array_class s) s1)
    with (frame_step self (FFillRest dummy_obj byte_size enabled (int_array_class s)) s1)
    in Hrest.
  rewrite !FillWithDummyObject_run.
  rewrite !(run_thread_Call _ _ _ _ _ _ _ _ Henter).
  rewrite !(run_thread_Return _ _ _ _ _ _ _ _ Hmark).
  cbn [resume].
  destruct (byte_size =? object_size dj).
  - destruct Hrest as (s' & Hrest & Hs').
    rewrite (run_thread_Finish _ _ _ _ _ _ Hrest).
    exists s', (set_klass (java_lang_Object s1) zeroed_object).
    rewrite Hs', lookup_insert_eq. cbn [klass set_klass]. rewrite Hj1. auto.
  - rewrite (run_thread_Fatal _ _ _ _ _ Hrest). reflexivity.
Qed.

(** Whatever Mark does to the int-array class: when FillWithDummyObject returns
    from a block below the int-array data offset, the size was object-aligned,
    the block is a java.lang.Object, and its size is the instance size of that
    class. *)
Lemma FillWithDummyObject_small_block_sound (fuel self : nat) (dummy_obj byte_size : Z)
    (s s' : State) :
  byte_size < Array_DataOffset E 4 ->
  FillWithDummyObject fuel self dummy_obj byte_size s = Ok (tt, s') ->
  IsAligned byte_size (kObjectAlignment E) = true /\
  exists o, heap s' !! dummy_obj = Some o /\ klass o = java_lang_Object s' /\
    (dummy_obj <> java_lang_Object s' ->
     exists oj dj, heap s' !! java_lang_Object s' = Some oj /\ class_data oj = Some dj /\
                   byte_size = object_size dj).
Proof.
  intros Hlt H. rewrite FillWithDummyObject_run in H.
  destruct (run_thread fuel self [FFillEntry dummy_obj byte_size] s)
    as [[v s'']| | |] eqn:Hrun; try discriminate.
  injection H as ->.
  destruct fuel as [|fuel]; [discriminate|].
  rewrite run_thread_S, thread_step_cons in Hrun. cbn [frame_step] in Hrun.
  rewrite FillWithDummyObject_enter_eq in Hrun. cbv zeta in Hrun.
  destruct (IsAligned byte_size (kObjectAlignment E)); [|discriminate].
  split; [reflexivity|].
  match type of Hrun with run_thread _ _ [?m; ?c] ?s1 = _ =>
    destruct (run_thread_call fuel self [m] c [] s1 v s' ltac:(discriminate) Hrun)
      as (f1 & f2 & v1 & s2 & _ & H2 & _)
  end.
  cbn [resume] in H2.
  destruct f2 as [|f2]; [discriminate|].
  rewrite run_thread_S, thread_step_cons in H2. cbn [frame_step] in H2.
  destruct (FillWithDummyObject_rest self dummy_obj byte_size _ v1 s2)
    as [[r s3]| | |] eqn:Hrest; try discriminate.
  destruct (FillWithDummyObject_rest_small _ _ _ _ _ _ _ _ Hlt Hrest)
    as (-> & Hj & Hfr & o & oj & dj & Ho & Hk & Hoj & Hdj & Hsz).
  injection H2 as <- <-.
  exists o. rewrite Hj. split; [exact Ho|]. split; [exact Hk|].
  intros Hne. exists oj, dj. split; [|auto].
  rewrite Hfr by congruence. exact Hoj.
Qed.

(** Between the header of an object and the header of an array there is room
    for one object-aligned size only. *)
Lemma aligned_between (a x y : Z) :
  0 < a -> IsAligned x a = true -> IsAligned y a = true ->
  y <= x -> x < y + a -> x = y.
Proof.
  unfold IsAligned. intros Ha Hx Hy Hle Hlt.
  apply Z.eqb_eq in Hx, Hy.
  pose proof (Z.div_mod x a ltac:(lia)) as Dx.
  pose proof (Z.div_mod y a ltac:(lia)) as Dy.
  rewrite Hx in Dx. rewrite Hy in Dy. rewrite Z.add_0_r in Dx, Dy.
  assert (H1 : y / a <= x / a) by (apply (Z.mul_le_mono_pos_l _ _ a); lia).
  assert (H2 : x / a < y / a + 1) by (apply (Z.mul_lt_mono_pos_l a); lia).
  assert (H3 : x / a = y / a) by lia.
  rewrite Dx, Dy, H3. reflexivity.
Qed.


Lemma for_each_push_gc (l : list Z) (s : State) :
  for_each l (fun ref => modify (fun s => set_gc_mark_stack (PushBack ref (gc_mark_stack s)) s)) s
  = Ok (tt, set_gc_mark_stack
              {| elems := elems (gc_mark_stack s) ++ l; capacity := capacity (gc_mark_stack s) |} s).
Proof.
  revert s. induction l as [|x l IH]; intros s.
  - simpl. unfold ret. rewrite app_nil_r. destruct s as [? ? ? ? ? [? ?]]. reflexivity.
  - simpl for_each. rewrite (bind_eq _ _ s _ tt) by reflexivity.
    rewrite IH. cbn. rewrite <- app_assoc. reflexivity.
Qed.

Lemma thread_at_Ok (t : nat) (s : State) (r : Thread * State) :
  thread_at t s = Ok r <-> exists th, threads s !! t = Some th /\ r = (th, s).
Proof.
  unfold thread_at. destruct (threads s !! t) as [th|]; split; try discriminate.
  - intros [= <-]. eauto.
  - intros (th' & [= <-] & ->). reflexivity.
  - intros (th' & [=] & _).
Qed.

Lemma store_thread_Ok (t : nat) (th : Thread) (s : State) (r : unit * State) :
  store_thread t th s = Ok r <-> r = (tt, set_threads (<[t := th]> (threads s)) s).
Proof.
  unfold store_thread, modify. split; [intros [= <-]; reflexivity | intros ->; reflexivity].
Qed.

Ltac inv_prim H ::=
  lazymatch type of H with
  | class_of _ _ = Ok _ =>
      let o := fresh "oc" in let d := fresh "d" in
      let Ho := fresh "Hoc" in let Hd := fresh "Hd" in
      apply class_of_Ok in H; destruct H as (o & d & Ho & Hd & H);
      simplify_eq
  | store_object _ _ _ = Ok _ =>
      apply store_object_Ok in H; simplify_eq
  | SetClass _ _ _ = Ok _ =>
      let o := fresh "o" in let Ho := fresh "Ho" in
      apply SetClass_Ok in H; destruct H as (o & Ho & H); simplify_eq
  | GetReadBarrierPointer _ _ = Ok _ =>
      let o := fresh "o" in let Ho := fresh "Ho" in
      apply GetReadBarrierPointer_Ok in H; destruct H as (o & Ho & H);
      simplify_eq
  | GetLockWord _ _ = Ok _ =>
      let o := fresh "o" in let Ho := fresh "Ho" in
      apply GetLockWord_Ok in H; destruct H as (o & Ho & H);
      simplify_eq
  | thread_at _ _ = Ok _ =>
      let th := fresh "th" in let Hth := fresh "Hth" in
      apply thread_at_Ok in H; destruct H as (th & Hth & H);
      simplify_eq
  | store_thread _ _ _ = Ok _ =>
      apply store_thread_Ok in H; simplify_eq
  | AssertToSpaceInvariant _ _ ?s = Ok (_, ?s') =>
      let Hs := fresh "Hs" in
      pose proof (AssertToSpaceInvariant_state _ _ _ _ _ H) as Hs;
      first [subst s' | rewrite Hs in *; clear Hs];
      lazymatch type of H with ?c ?s1 = Ok (?u, _) => change (returns c s1 u) in H end
  | SizeOf _ ?s = Ok (_, ?s') =>
      let Hs := fresh "Hs" in
      pose proof (SizeOf_state _ _ _ _ H) as Hs;
      first [subst s' | rewrite Hs in *; clear Hs];
      lazymatch type of H with ?c ?s1 = Ok (?u, _) => change (returns c s1 u) in H end
  end.

(** Runs a hypothesis [c s = Ok r] to the end, splitting on every test. *)
Ltac inv_exec :=
  repeat match goal with
  | H : bind _ _ _ = Ok _ |- _ => inv_step H
  | H : ret _ _ = Ok _ |- _ => inv_step H
  | H : gets _ _ = Ok _ |- _ => inv_step H
  | H : modify _ _ = Ok _ |- _ => inv_step H
  | H : CHECK _ _ = Ok _ |- _ => inv_step H
  | H : object_at _ _ = Ok _ |- _ => inv_step H
  | H : fatal _ = Ok _ |- _ => discriminate H
  | H : unspecified _ = Ok _ |- _ => discriminate H
  | H : out_of_fuel _ = Ok _ |- _ => discriminate H
  | H : Fatal = Ok _ |- _ => discriminate H
  | H : Unspecified = Ok _ |- _ => discriminate H
  | H : OutOfFuel = Ok _ |- _ => discriminate H
  | H : Ok _ = Ok _ |- _ => simplify_eq
  | H : when _ _ _ = Ok _ |- _ => unfold when in H
  | H : DCHECK _ _ = Ok _ |- _ => unfold DCHECK in H
  | H : (if ?b then _ else _) _ = Ok _ |- _ => destruct b eqn:?
  | H : (if ?b then _ else _) = Ok _ |- _ => destruct b eqn:?
  | H : (match ?x with _ => _ end) _ = Ok _ |- _ => destruct x eqn:?
  | H : (match ?x with _ => _ end) = Ok _ |- _ => destruct x eqn:?
  | H : _ _ = Ok _ |- _ => progress inv_prim H
  end.

Lemma ExpandGcMarkStack_Ok (s s' : State) (u : unit) :
  ExpandGcMarkStack s = Ok (u, s') ->
  s' = set_gc_mark_stack
         {| elems := elems (gc_mark_stack s);
            capacity := (capacity (gc_mark_stack s) * 2)%nat |} s.
Proof.
  unfold ExpandGcMarkStack. intros H.
  inv_step H. inv_step H. inv_step H.
  rewrite (bind_eq _ _ _ _ tt (for_each_push_gc _ _)) in H.
  assert (Hs : s0 = s) by (clear H; inv_exec; reflexivity). subst s0.
  inv_exec; reflexivity.
Qed.

Lemma push_gc_mark_stack_Ok (x : Z) (s s' : State) (u : unit) :
  push_gc_mark_stack x s = Ok (u, s') ->
  exists cap, s' = set_gc_mark_stack
                     {| elems := elems (gc_mark_stack s) ++ [x]; capacity := cap |} s.
Proof.
  unfold push_gc_mark_stack. intros H. inv_step H.
  destruct (IsFull (gc_mark_stack s)).
  - unfold when in H. inv_step H. apply ExpandGcMarkStack_Ok in H0. subst.
    inv_exec. eexists. reflexivity.
  - inv_exec. eexists. reflexivity.
Qed.

Lemma PushOntoMarkStack_Ok (self : nat) (x : Z) (s s' : State) (u : unit) :
  PushOntoMarkStack self x s = Ok (u, s') ->
  without_mark_stacks s' = without_mark_stacks s /\ on_mark_stack self x s'.
Proof.
  unfold PushOntoMarkStack. intros H.
  repeat inv_step H.
  destruct (mark_stack_mode s) eqn:Hmode.
  - inv_exec; discriminate.
  - destruct (bool_decide (thread_running_gc s = Some self)).
    + repeat inv_step H.
      apply push_gc_mark_stack_Ok in H as [cap ->].
      split; [reflexivity|]. left. cbn. set_solver.
    + inv_exec; try discriminate; (split; [reflexivity|]); right; cbn;
        eexists _, _; (split; [apply lookup_insert_eq|]); cbn;
        (split; [reflexivity|]); cbn; set_solver.
  - apply push_gc_mark_stack_Ok in H as [cap ->].
    split; [reflexivity|]. left. cbn. set_solver.
  - repeat inv_step H. apply push_gc_mark_stack_Ok in H as [cap ->].
    split; [reflexivity|]. left. cbn. set_solver.
Qed.

(** A push leaves the threads as they are, the thread-local mark stack of the
    caller apart. *)
Lemma PushOntoMarkStack_threads (self : nat) (x : Z) (s s' : State) (u : unit) :
  PushOntoMarkStack self x s = Ok (u, s') ->
  (forall t, t <> self -> threads s' !! t = threads s !! t) /\
  (forall th, threads s !! self = Some th ->
     exists st, threads s' !! self = Some (SetThreadLocalMarkStack st th)) /\
  (threads s !! self = None -> threads s' !! self = None).
Proof.
  unfold PushOntoMarkStack. intros H.
  repeat inv_step H.
  assert (Hsame : forall s0, threads s0 = threads s ->
            (forall t, t <> self -> threads s0 !! t = threads s !! t) /\
            (forall th, threads s !! self = Some th ->
               exists st, threads s0 !! self = Some (SetThreadLocalMarkStack st th)) /\
            (threads s !! self = None -> threads s0 !! self = None)).
  { intros s0 ->. split; [reflexivity|]. split; [|tauto].
    intros th ->. exists (tl_mark_stack th). destruct th; reflexivity. }
  destruct (mark_stack_mode s) eqn:Hmode.
  - inv_exec; discriminate.
  - destruct (bool_decide (thread_running_gc s = Some self)).
    + repeat inv_step H.
      apply push_gc_mark_stack_Ok in H as [cap ->]. apply Hsame. reflexivity.
    + inv_exec; try discriminate; try (apply Hsame; reflexivity).
      all: cbn.
      all: (split; [intros t Ht; apply lookup_insert_ne; congruence|]).
      all: (split; [|congruence]).
      all: intros th' Hth'; eexists; rewrite lookup_insert_eq; f_equal;
        unfold SetThreadLocalMarkStack; simplify_eq; reflexivity.
  - apply push_gc_mark_stack_Ok in H as [cap ->]. apply Hsame. reflexivity.
  - repeat inv_step H. apply push_gc_mark_stack_Ok in H as [cap ->].
    apply Hsame. reflexivity.
Qed.

(** Where a push puts the reference: a mutator in the thread-local mode
    pushes on its own stack, every other push goes to the GC mark stack. *)
Lemma PushOntoMarkStack_where (self : nat) (x : Z) (s s' : State) (u : unit) :
  PushOntoMarkStack self x s = Ok (u, s') ->
  if bool_decide (mark_stack_mode s = kMarkStackModeThreadLocal) &&
     negb (bool_decide (thread_running_gc s = Some self))
  then gc_mark_stack s' = gc_mark_stack s /\
       exists th st, threads s' !! self = Some th /\ tl_mark_stack th = Some st /\
                     last (elems st) = Some x
  else elems (gc_mark_stack s') = elems (gc_mark_stack s) ++ [x] /\
       threads s' = threads s /\ revoked_mark_stacks s' = revoked_mark_stacks s /\
       pooled_mark_stacks s' = pooled_mark_stacks s.
Proof.
  unfold PushOntoMarkStack. intros H.
  repeat inv_step H.
  destruct (mark_stack_mode s) eqn:Hmode.
  - inv_exec; discriminate.
  - rewrite bool_decide_eq_true_2 by reflexivity.
    destruct (bool_decide (thread_running_gc s = Some self)).
    + repeat inv_step H.
      apply push_gc_mark_stack_Ok in H as [cap ->]. cbn. auto.
    + inv_exec; try discriminate; cbn.
      all: (split; [reflexivity|]).
      all: eexists _, _; (split; [apply lookup_insert_eq|]); cbn;
        (split; [reflexivity|]); cbn; first [reflexivity | apply last_snoc].
  - rewrite bool_decide_eq_false_2 by discriminate.
    apply push_gc_mark_stack_Ok in H as [cap ->]. cbn. auto.
  - rewrite bool_decide_eq_false_2 by discriminate.
    repeat inv_step H. apply push_gc_mark_stack_Ok in H as [cap ->]. cbn. auto.
Qed.

(** The small wrappers are unfolded before a run is split. *)
Ltac unfold_ops H :=
  progress unfold rb_is, rb_is_gray_or_white, GetFwdPtr, IsOnAllocStack,
    region_bitmap_Test, region_bitmap_AtomicTestAndSet,
    mark_bitmap_Test, mark_bitmap_AtomicTestAndSet, mark_bitmap_Clear,
    los_bitmap_Test, los_bitmap_AtomicTestAndSet, free_block,
    SetReadBarrierPointer, AtomicSetReadBarrierPointer, CasLockWordWeak, GetClass,
    PushOntoFalseGrayStack, next_weak_cas_fails, AllocNonvirtual, non_moving_space_Alloc in H.

Ltac inv_exec ::=
  repeat match goal with
  | H : bind _ _ _ = Ok _ |- _ => inv_step H
  | H : ret _ _ = Ok _ |- _ => inv_step H
  | H : gets _ _ = Ok _ |- _ => inv_step H
  | H : modify _ _ = Ok _ |- _ => inv_step H
  | H : CHECK _ _ = Ok _ |- _ => inv_step H
  | H : object_at _ _ = Ok _ |- _ => inv_step H
  | H : fatal _ = Ok _ |- _ => discriminate H
  | H : unspecified _ = Ok _ |- _ => discriminate H
  | H : out_of_fuel _ = Ok _ |- _ => discriminate H
  | H : Fatal = Ok _ |- _ => discriminate H
  | H : Unspecified = Ok _ |- _ => discriminate H
  | H : OutOfFuel = Ok _ |- _ => discriminate H
  | H : Ok _ = Ok _ |- _ => simplify_eq
  | H : when _ _ _ = Ok _ |- _ => unfold when in H
  | H : DCHECK _ _ = Ok _ |- _ => unfold DCHECK in H
  | H : (if ?b then _ else _) _ = Ok _ |- _ => destruct b eqn:?
  | H : (if ?b then _ else _) = Ok _ |- _ => destruct b eqn:?
  | H : (match ?x with _ => _ end) _ = Ok _ |- _ => destruct x eqn:?
  | H : (match ?x with _ => _ end) = Ok _ |- _ => destruct x eqn:?
  | H : (let '(_, _) := ?x in _) _ = Ok _ |- _ => destruct x eqn:?
  | H : PushOntoMarkStack _ _ _ = Ok _ |- _ => apply PushOntoMarkStack_Ok in H
  | H : _ _ = Ok _ |- _ => progress inv_prim H
  | H : _ = Ok _ |- _ => unfold_ops H
  end.

Lemma Copy_entry_allocation (l : CopyLocals) (s s1 : State) (r : FrameStep) :
  Copy_entry l s = Ok (r, s1) ->
  skipped_blocks_map s1 = skipped_blocks_map s /\
  non_moving_alloc s1 = non_moving_alloc s /\
  mark_bitmap s1 = mark_bitmap s /\
  match next_answer (region_alloc s) with
  | Some a =>
      exists l', r = Goto (FCopy CopyLoopHead l') /\ to_ref l' = a /\
                 fall_back_to_non_moving l' = fall_back_to_non_moving l
  | None => exists l', r = Goto (FCopy CopyTrySkipped l')
  end.
Proof.
  unfold Copy_entry. intros H. inv_exec.
  all: repeat split; try reflexivity.
  all: try (match goal with H : region_alloc _ = _ |- _ => rewrite H end; cbn [next_answer]).
  all: cbn [next_answer]; try (eexists; repeat split; reflexivity).
  all: exfalso; unfold fresh in *;
    repeat match goal with
    | H : (0 =? 0) = false |- _ => discriminate H
    | H : (?a =? 0) = true, H' : context [?a =? 0] |- _ => rewrite H in H'; discriminate H'
    end.
Qed.


Lemma Copy_try_skipped_allocation (l : CopyLocals) (s s1 : State) (r : FrameStep) :
  Copy_try_skipped l s = Ok (r, s1) ->
  region_alloc s1 = region_alloc s /\
  non_moving_alloc s1 = non_moving_alloc s /\
  mark_bitmap s1 = mark_bitmap s /\
  ((r = Goto (FCopy CopyNonMovingFallback l) /\ s1 = s) \/
   (exists addr size l',
      (size, addr) ∈ skipped_blocks_map s /\ region_space_alloc_size l <= size /\
      fall_back_to_non_moving l' = fall_back_to_non_moving l /\
      ((r = Goto (FCopy CopyLoopHead l') /\ to_ref l' = addr) \/
       (exists d n, r = Call (FCopy CopySkippedRemainder l') (FFillEntry d n) /\
                    skipped_addr l' = addr)))) /\
  ((lower_bound (region_space_alloc_size l) (skipped_blocks_map s) = None) ->
   r = Goto (FCopy CopyNonMovingFallback l)).
Proof.
  unfold Copy_try_skipped. intros H. inv_exec.
  all: repeat split; try reflexivity; try congruence.
  all: try (left; split; reflexivity).
  all: right;
    match goal with H : skipped_blocks_map _ !! _ = Some (?size, ?addr) |- _ =>
      exists addr, size; eexists; split; [eapply list_elem_of_lookup_2; exact H|]
    end;
    (split; [apply Z.leb_le; assumption|]);
    (split; [|first [left; split; reflexivity | right; eexists _, _; split; reflexivity]]);
    reflexivity.
Qed.

Lemma Copy_non_moving_fallback_eq (l : CopyLocals) (s : State) :
  match next_answer (non_moving_alloc s) with
  | None => Copy_non_moving_fallback l s = Fatal
  | Some (a, n) =>
      (fresh a s = true -> non_moving_HasAddress E a = true ->
       GetRegionType E a = kRegionTypeNone -> immune_ContainsObject E a = false ->
       obj_size l <= n ->
       if has_space_bitmap E a && negb (bool_decide (a ∈ mark_bitmap s))
       then exists s',
         Copy_non_moving_fallback l s
           = Ok (Goto (FCopy CopyLoopHead (with_fallback a n l)), s') /\
         (a ∉ mark_bitmap s) /\ mark_bitmap s' = {[a]} ∪ mark_bitmap s /\
         heap s' = <[a := zeroed_object]> (heap s)
       else Copy_non_moving_fallback l s = Fatal)
  end.
Proof.
  unfold Copy_non_moving_fallback, non_moving_space_Alloc, bind.
  destruct (non_moving_alloc s) as [|[[a n]|] rest] eqn:Hnm; cbn [next_answer];
    try reflexivity.
  intros Hf Hh Hr Hi Hn.
  rewrite Hf, Hh, Hi. rewrite (bool_decide_eq_true_2 _ Hr).
  apply Z.leb_le in Hn. rewrite Hn. cbn [andb negb].
  assert (Ha0 : negb (a =? 0) = true).
  { unfold fresh in Hf. apply andb_true_iff in Hf. tauto. }
  rewrite Ha0.
  destruct (has_space_bitmap E a); [|reflexivity].
  unfold CHECK, mark_bitmap_AtomicTestAndSet, mark_bitmap_Test, bind, gets, modify, ret, fatal.
  cbn.
  destruct (bool_decide (a ∈ mark_bitmap s)) eqn:Hbit; cbn; [reflexivity|].
  eexists. split; [reflexivity|].
  apply bool_decide_eq_false in Hbit. auto.
Qed.

Lemma Copy_step_mark_bitmap (self : nat) (pc : CopyPc) (l : CopyLocals) (s s1 : State)
    (r : FrameStep) :
  pc <> CopyNonMovingFallback ->
  Copy_step self pc l s = Ok (r, s1) ->
  mark_bitmap s1 ⊆ mark_bitmap s.
Proof.
  intros Hpc H. destruct pc; try congruence; clear Hpc; cbn [Copy_step] in H.
  - apply Copy_entry_allocation in H as (_ & _ & -> & _). done.
  - apply Copy_try_skipped_allocation in H as (_ & _ & -> & _). done.
  - unfold Copy_skipped_remainder in H. inv_exec. done.
  - unfold Copy_loop_head in H. inv_exec; done.
  - unfold Copy_lost_race in H. inv_exec; cbn; first [done | apply subseteq_difference_l; done].
  - unfold Copy_set_gray in H. inv_exec; done.
  - unfold Copy_cas in H. inv_exec; done.
  - unfold Copy_count_object in H. inv_exec; done.
  - unfold Copy_count_bytes in H. inv_exec; done.
  - unfold Copy_push in H. inv_exec;
      match goal with H : without_mark_stacks _ = without_mark_stacks _ /\ _ |- _ =>
        destruct H as [H _]; apply (f_equal mark_bitmap) in H; cbn in H; rewrite H end;
      done.
Qed.

Lemma Copy_step_order (self : nat) (pc pc' : CopyPc) (l l' : CopyLocals) (s s1 : State) :
  Copy_step self pc l s = Ok (Goto (FCopy pc' l'), s1) ->
  (pc' = CopyTrySkipped -> pc = CopyEntry) /\
  (pc' = CopyNonMovingFallback -> pc = CopyTrySkipped).
Proof.
  intros H.
  destruct pc; cbn [Copy_step] in H; split; intros ->; try reflexivity; exfalso;
    unfold Copy_entry, Copy_try_skipped, Copy_skipped_remainder, Copy_non_moving_fallback,
      Copy_loop_head, Copy_lost_race, Copy_set_gray, Copy_cas, Copy_count_object,
      Copy_count_bytes, Copy_push in H;
    inv_exec.
Qed.

(** *** The skipped blocks: a best fit *)

Lemma lower_bound_Some (k : Z) (m : list (Z * Z)) (i : nat) (e : Z * Z) :
  lower_bound k m = Some (i, e) ->
  m !! i = Some e /\ k <= e.1 /\
  forall j e', (j < i)%nat -> m !! j = Some e' -> e'.1 < k.
Proof.
  revert i. induction m as [|[size a] m IH]; intros i H; cbn in H; [discriminate|].
  destruct (k <=? size) eqn:Hk.
  - injection H as <- <-. apply Z.leb_le in Hk. split; [reflexivity|]. split; [exact Hk|].
    intros j e' Hj. lia.
  - apply Z.leb_gt in Hk.
    destruct (lower_bound k m) as [[i0 e0]|] eqn:Hl; [|discriminate].
    injection H as <- <-. destruct (IH i0 eq_refl) as (Hi & Hle & Hlt).
    split; [exact Hi|]. split; [exact Hle|].
    intros [|j] e' Hj He'; cbn in He'.
    + injection He' as <-. exact Hk.
    + apply (Hlt j e'); [lia | exact He'].
Qed.

Lemma lower_bound_None (k : Z) (m : list (Z * Z)) :
  lower_bound k m = None -> forall e, e ∈ m -> e.1 < k.
Proof.
  induction m as [|[size a] m IH]; intros H e He; [apply elem_of_nil in He; destruct He|].
  cbn in H. destruct (k <=? size) eqn:Hk; [discriminate|]. apply Z.leb_gt in Hk.
  destruct (lower_bound k m) as [[i0 e0]|] eqn:Hl; [discriminate|].
  apply elem_of_cons in He as [->|He]; [exact Hk | apply IH; [reflexivity | exact He]].
Qed.

Lemma sorted_by_size_lookup (m : list (Z * Z)) (i j : nat) (e e' : Z * Z) :
  sorted_by_size m -> (i < j)%nat -> m !! i = Some e -> m !! j = Some e' -> e.1 <= e'.1.
Proof.
  intros Hs. revert i j. induction Hs as [|e0 m Hs IH Hall]; intros i j Hij Hi Hj;
    [discriminate|].
  destruct j as [|j]; [lia|]. cbn in Hj. destruct i as [|i]; cbn in Hi.
  - injection Hi as <-. rewrite Forall_forall in Hall. apply Hall.
    eapply list_elem_of_lookup_2; exact Hj.
  - apply (IH i j); [lia | exact Hi | exact Hj].
Qed.

(** In a sorted map [lower_bound] finds a smallest block of at least [k] bytes. *)
Lemma lower_bound_least (k : Z) (m : list (Z * Z)) (i : nat) (e : Z * Z) :
  sorted_by_size m -> lower_bound k m = Some (i, e) ->
  forall e', e' ∈ m -> k <= e'.1 -> e.1 <= e'.1.
Proof.
  intros Hs H e' He' Hk. destruct (lower_bound_Some _ _ _ _ H) as (Hi & _ & Hlt).
  apply list_elem_of_lookup_1 in He' as [j Hj].
  destruct (lt_eq_lt_dec j i) as [[Hji| ->]|Hij].
  - pose proof (Hlt j e' Hji Hj). lia.
  - rewrite Hi in Hj. injection Hj as <-. lia.
  - exact (sorted_by_size_lookup m i j e e' Hs Hij Hi Hj).
Qed.

Lemma sorted_by_size_delete (m : list (Z * Z)) (k : nat) :
  sorted_by_size m -> sorted_by_size (delete k m).
Proof.
  intros Hs. revert k. induction Hs as [|e m Hs IH Hall]; intros k; [constructor|].
  destruct k as [|k]; cbn; [exact Hs|].
  constructor; [apply IH|]. apply Forall_delete. exact Hall.
Qed.

(** With the map sorted by size, AllocateInSkippedBlock takes a smallest block
    among those that fit the request exactly or leave room for a dummy
    object, and gives up exactly when no block fits. *)
Lemma Copy_try_skipped_best_fit (l : CopyLocals) (s s' : State) (r : FrameStep) :
  0 <= min_object_size ->
  sorted_by_size (skipped_blocks_map s) ->
  let alloc_size := region_space_alloc_size l in
  Copy_try_skipped l s = Ok (r, s') ->
  sorted_by_size (skipped_blocks_map s') /\
  ((r = Goto (FCopy CopyNonMovingFallback l) /\ s' = s /\
    forall size addr, (size, addr) ∈ skipped_blocks_map s -> ~ block_fits alloc_size size) \/
   (exists k size addr,
      skipped_blocks_map s !! k = Some (size, addr) /\ block_fits alloc_size size /\
      skipped_blocks_map s' = delete k (skipped_blocks_map s) /\
      (forall size' addr', (size', addr') ∈ skipped_blocks_map s ->
         block_fits alloc_size size' -> size <= size') /\
      r = if alloc_size <? size
          then Call (FCopy CopySkippedRemainder (with_skipped addr size l))
                    (FFillEntry (addr + alloc_size) (size - alloc_size))
          else Goto (FCopy CopyLoopHead (with_to_ref addr alloc_size l)))).
Proof.
  intros Hmin Hs alloc_size. unfold Copy_try_skipped. fold alloc_size. intros H.
  apply bind_Ok in H as ([] & s0 & Hal & H). apply CHECK_Ok in Hal as [_ [= ->]].
  apply bind_Ok in H as (m & s0 & Hm & H). apply gets_Ok in Hm as [= -> ->].
  set (m := skipped_blocks_map s) in *.
  assert (Hnone : forall k0, (forall e, e ∈ m -> e.1 < k0) ->
                  (k0 = alloc_size \/
                   (k0 = alloc_size + min_object_size /\
                    forall e, e ∈ m -> e.1 <> alloc_size)) ->
                  forall size addr, (size, addr) ∈ m -> ~ block_fits alloc_size size).
  { intros k0 Hlt Hk size addr Hin [Hf|Hf]; pose proof (Hlt _ Hin) as Hlt'; cbn in Hlt'.
    - destruct Hk as [->|[-> Hno]]; [lia | apply (Hno _ Hin); exact Hf].
    - destruct Hk as [->|[-> _]]; lia. }
  destruct (lower_bound alloc_size m) as [[i [byte_size a0]]|] eqn:Hlb.
  + apply bind_Ok in H as ([] & s0 & Hge & H). apply CHECK_Ok in Hge as [Hge [= ->]].
    apply Z.leb_le in Hge.
    pose proof (lower_bound_Some _ _ _ _ Hlb) as (Hi & _ & Hbefore).
    pose proof (lower_bound_least _ _ _ _ Hs Hlb) as Hleast. cbn in Hleast.
    apply bind_Ok in H as (found & s0 & Hfound & H).
    assert (Hchoice :
      s0 = s /\
      match found with
      | None => forall size addr, (size, addr) ∈ m -> ~ block_fits alloc_size size
      | Some k => exists size addr, m !! k = Some (size, addr) /\
                    block_fits alloc_size size /\
                    forall size' addr', (size', addr') ∈ m ->
                      block_fits alloc_size size' -> size <= size'
      end).
    { destruct ((alloc_size <? byte_size) && (byte_size - alloc_size <? min_object_size))
        eqn:Hsmall.
      - apply andb_true_iff in Hsmall as [Hgt Hrem].
        apply Z.ltb_lt in Hgt. apply Z.ltb_lt in Hrem.
        assert (Hexact : forall e, e ∈ m -> e.1 <> alloc_size).
        { intros e He Heq. apply list_elem_of_lookup_1 in He as [j Hj].
          destruct (lt_eq_lt_dec j i) as [[Hji| ->]|Hij].
          - pose proof (Hbefore j e Hji Hj). lia.
          - rewrite Hi in Hj. injection Hj as <-. cbn in Heq. lia.
          - pose proof (sorted_by_size_lookup m i j _ _ Hs Hij Hi Hj). cbn in *. lia. }
        destruct (lower_bound (alloc_size + min_object_size) m) as [[j [size_j addr_j]]|]
          eqn:Hlb2.
        + apply bind_Ok in Hfound as ([] & s1 & Hc1 & Hfound).
          apply CHECK_Ok in Hc1 as [_ [= ->]].
          apply bind_Ok in Hfound as ([] & s1 & Hc2 & Hfound).
          apply CHECK_Ok in Hc2 as [Hc2 [= ->]]. apply Z.leb_le in Hc2.
          apply ret_Ok in Hfound. injection Hfound as -> ->.
          split; [reflexivity|].
          pose proof (lower_bound_Some _ _ _ _ Hlb2) as (Hj & _ & _).
          pose proof (lower_bound_least _ _ _ _ Hs Hlb2) as Hleast2. cbn in Hleast2.
          exists size_j, addr_j. split; [exact Hj|]. split; [right; lia|].
          intros size' addr' Hin [Hf|Hf].
          * exfalso. apply (Hexact _ Hin). exact Hf.
          * apply (Hleast2 _ Hin). exact Hf.
        + apply ret_Ok in Hfound. injection Hfound as -> ->.
          split; [reflexivity|].
          apply (Hnone (alloc_size + min_object_size)).
          * apply lower_bound_None. exact Hlb2.
          * right. split; [reflexivity | exact Hexact].
      - apply ret_Ok in Hfound. injection Hfound as -> ->.
        split; [reflexivity|].
        exists byte_size, a0. split; [exact Hi|].
        apply andb_false_iff in Hsmall.
        split.
        + destruct Hsmall as [Hgt|Hrem].
          * apply Z.ltb_ge in Hgt. left. lia.
          * apply Z.ltb_ge in Hrem. right. lia.
        + intros size' addr' Hin Hf. apply (Hleast _ Hin). cbn.
          destruct Hf as [->|Hf]; lia. }
    destruct Hchoice as [-> Hchoice].
    destruct found as [k|].
    * destruct Hchoice as (size & addr & Hk & Hfits & Hsmallest).
      fold m in H. rewrite Hk in H.
      apply bind_Ok in H as ([] & s0 & Hc & H). apply CHECK_Ok in Hc as [_ [= ->]].
      apply bind_Ok in H as ([] & s0 & Hc & H). apply CHECK_Ok in Hc as [_ [= ->]].
      apply bind_Ok in H as ([] & s0 & Hc & H). apply CHECK_Ok in Hc as [_ [= ->]].
      apply bind_Ok in H as ([] & s0 & Hc & H). apply modify_Ok in Hc as [= ->].
      apply bind_Ok in H as ([] & s0 & Hc & H). apply store_object_Ok in Hc as [= ->].
      assert (Hmap : forall s2, skipped_blocks_map s2 = delete k m ->
                sorted_by_size (skipped_blocks_map s2)).
      { intros s2 ->. apply sorted_by_size_delete. exact Hs. }
      destruct (alloc_size <? size) eqn:Hlt.
      -- apply bind_Ok in H as ([] & s0 & Hc & H). apply CHECK_Ok in Hc as [_ [= ->]].
         apply bind_Ok in H as ([] & s0 & Hc & H). apply CHECK_Ok in Hc as [_ [= ->]].
         apply bind_Ok in H as (inside & s0 & Hc & H). apply gets_Ok in Hc as [= -> ->].
         destruct (_ && _) in H; [|discriminate].
         apply bind_Ok in H as ([] & s0 & Hc & H). apply store_object_Ok in Hc as [= ->].
         apply ret_Ok in H. injection H as -> ->.
         split; [apply Hmap; reflexivity|]. right.
         exists k, size, addr. repeat (split; [first [assumption | reflexivity]|]).
         rewrite Hlt. reflexivity.
      -- apply ret_Ok in H. injection H as -> ->.
         split; [apply Hmap; reflexivity|]. right.
         exists k, size, addr. repeat (split; [first [assumption | reflexivity]|]).
         rewrite Hlt. reflexivity.
    * apply ret_Ok in H. injection H as -> ->.
      split; [exact Hs|]. left. split; [reflexivity|]. split; [reflexivity | exact Hchoice].
  + apply ret_Ok in H. injection H as -> ->.
    split; [exact Hs|]. left. split; [reflexivity|]. split; [reflexivity|].
    apply (Hnone alloc_size); [apply lower_bound_None; exact Hlb | left; reflexivity].
Qed.


(** *** Footprints: what a computation leaves alone *)

Section Keeps.

Context {A : Type} (proj : State -> A).

Lemma keeps_ret {B : Type} (b : B) : keeps proj (ret b).
Proof. intros s b' s' H. inv_step H. reflexivity. Qed.

Lemma keeps_bind {B C : Type} (c : M B) (k : B -> M C) :
  keeps proj c -> (forall b, keeps proj (k b)) -> keeps proj (bind c k).
Proof.
  intros Hc Hk s r s' H. apply bind_Ok in H as (b & s1 & H1 & H2).
  rewrite (Hk _ _ _ _ H2). eapply Hc; eauto.
Qed.

Lemma keeps_gets {B : Type} (f : State -> B) : keeps proj (gets f).
Proof. intros s b' s' H. inv_step H. reflexivity. Qed.

Lemma keeps_modify (f : State -> State) :
  (forall s, proj (f s) = proj s) -> keeps proj (modify f).
Proof. intros Hf s b' s' H. inv_step H. apply Hf. Qed.

Lemma keeps_fatal {B : Type} : keeps proj (@fatal B).
Proof. intros s b s' H. discriminate. Qed.

Lemma keeps_unspecified {B : Type} : keeps proj (@unspecified B).
Proof. intros s b s' H. discriminate. Qed.

Lemma keeps_out_of_fuel {B : Type} : keeps proj (@out_of_fuel B).
Proof. intros s b s' H. discriminate. Qed.

Lemma keeps_CHECK (c : bool) : keeps proj (CHECK c).
Proof. intros s b s' H. inv_step H. reflexivity. Qed.

Lemma keeps_when (b : bool) (c : M unit) : keeps proj c -> keeps proj (when b c).
Proof. intros Hc. destruct b; [exact Hc | apply keeps_ret]. Qed.

Lemma keeps_DCHECK (c : M bool) : keeps proj c -> keeps proj (DCHECK c).
Proof.
  intros Hc. unfold DCHECK. destruct (kIsDebugBuild E); [|apply keeps_ret].
  apply keeps_bind; [exact Hc | intros b; apply keeps_CHECK].
Qed.

Lemma keeps_for_each {B : Type} (l : list B) (body : B -> M unit) :
  (forall x, keeps proj (body x)) -> keeps proj (for_each l body).
Proof.
  intros Hb. induction l as [|x l IH]; [apply keeps_ret|].
  apply keeps_bind; [apply Hb | intros _; exact IH].
Qed.

Lemma keeps_object_at (a : Z) : keeps proj (object_at a).
Proof. intros s b s' H. inv_step H. reflexivity. Qed.

Lemma keeps_thread_at (t : nat) : keeps proj (thread_at t).
Proof. intros s b s' H. inv_step H. reflexivity. Qed.

Lemma keeps_next_weak_cas_fails :
  (forall v s, proj (set_weak_cas_fails v s) = proj s) -> keeps proj next_weak_cas_fails.
Proof.
  intros Hp s b s' H. unfold next_weak_cas_fails in H.
  destruct (weak_cas_fails s); simplify_eq; [reflexivity | apply Hp].
Qed.

Lemma keeps_AllocNonvirtual (n : Z) :
  (forall v s, proj (set_region_alloc v s) = proj s) ->
  (forall v s, proj (set_heap v s) = proj s) ->
  keeps proj (AllocNonvirtual n).
Proof.
  intros Hr Hh s b s' H. unfold AllocNonvirtual in H.
  destruct (region_alloc s) as [|[a|] r]; simplify_eq; [reflexivity| |apply Hr].
  destruct (_ && _); simplify_eq. rewrite Hh. apply Hr.
Qed.

Lemma keeps_non_moving_space_Alloc (n : Z) :
  (forall v s, proj (set_non_moving_alloc v s) = proj s) ->
  (forall v s, proj (set_heap v s) = proj s) ->
  keeps proj (non_moving_space_Alloc n).
Proof.
  intros Hr Hh s b s' H. unfold non_moving_space_Alloc in H.
  destruct (non_moving_alloc s) as [|[[a m]|] r]; simplify_eq; [reflexivity| |apply Hr].
  destruct (_ && _); simplify_eq. rewrite Hh. apply Hr.
Qed.

(** A run keeps what every step keeps. *)
Lemma keeps_run_thread (fuel self : nat) (stack : list Frame) :
  (forall f, keeps proj (frame_step self f)) -> keeps proj (run_thread fuel self stack).
Proof.
  intros Hf. revert stack. induction fuel as [|fuel IH]; intros stack s v s' H.
  - discriminate.
  - rewrite run_thread_S in H. destruct stack as [|f rest]; [discriminate|].
    rewrite thread_step_cons in H.
    destruct (frame_step self f s) as [[[f'|c d|v0] s1]| | |] eqn:Hs; try discriminate.
    + rewrite (IH _ _ _ _ H). eapply Hf; eauto.
    + rewrite (IH _ _ _ _ H). eapply Hf; eauto.
    + destruct rest as [|c rest'].
      * simplify_eq. eapply Hf; eauto.
      * rewrite (IH _ _ _ _ H). eapply Hf; eauto.
Qed.

End Keeps.

Create HintDb collector_ops.
Create HintDb keeps_db.

#[local] Hint Unfold rb_is rb_is_gray_or_white GetFwdPtr IsOnAllocStack
  region_bitmap_Test region_bitmap_AtomicTestAndSet
  mark_bitmap_Test mark_bitmap_AtomicTestAndSet mark_bitmap_Clear
  los_bitmap_Test los_bitmap_AtomicTestAndSet free_block
  GetReadBarrierPointer SetReadBarrierPointer AtomicSetReadBarrierPointer CasLockWordWeak
  GetLockWord GetClass SetClass class_of SizeOf store_object store_thread
  PushOntoFalseGrayStack ExpandGcMarkStack push_gc_mark_stack PushOntoMarkStack
  AssertToSpaceInvariantInNonMovingSpace AssertToSpaceInvariant MarkNonMoving
  MarkUnevacFromSpaceRegion MarkImmuneSpace
  FillWithDummyObject_enter FillWithDummyObject_rest
  Copy_entry Copy_try_skipped Copy_skipped_remainder Copy_non_moving_fallback
  Copy_loop_head Copy_lost_race Copy_set_gray Copy_cas Copy_count_object Copy_count_bytes
  Copy_push Copy_step Mark_step frame_step
  IsMarked collector_IsInToSpace slot_load slot_store slot_cas_weak IsMarkedHeapReference
  update_step DelayReferenceReferent IsTypeOfReferenceClass VisitReferences
  AssertToSpaceInvariantObject reference_with_unmarked_referent : collector_ops.

(** Proves [keeps proj c] along the structure of [c], for a component that no
    [modify] of [c] writes. *)
Ltac keeps_step :=
  first
    [ assumption
    | solve [eauto 3 with keeps_db]
    | apply keeps_ret | apply keeps_gets | apply keeps_CHECK
    | apply keeps_fatal | apply keeps_unspecified | apply keeps_out_of_fuel
    | apply keeps_object_at | apply keeps_thread_at
    | apply keeps_bind; [|intros ?]
    | apply keeps_when | apply keeps_DCHECK
    | apply keeps_for_each; intros ?
    | apply keeps_modify; intros ?; reflexivity
    | apply keeps_next_weak_cas_fails; intros ? ?; reflexivity
    | apply keeps_AllocNonvirtual; intros ? ?; reflexivity
    | apply keeps_non_moving_space_Alloc; intros ? ?; reflexivity
    | match goal with
      | |- keeps _ (if ?b then _ else _) => destruct b
      | |- keeps _ (match ?x with _ => _ end) => destruct x
      | |- keeps _ (let '(_, _) := ?x in _) => destruct x
      end
    | progress autounfold with collector_ops
    | progress cbv beta ].
Ltac keeps_tac := repeat keeps_step.

Lemma frame_step_processed (self : nat) (f : Frame) : keeps processed (frame_step self f).
Proof. destruct f as [g ref|pc l|d n|d n en|d n en c]; [| destruct pc | | |]; keeps_tac. Qed.

Lemma keeps_update_loop {A : Type} (proj : State -> A) (fuel : nat) (sl : Slot)
    (expected_ref new_ref : Z) (pc : UpdatePc) :
  (forall pc', keeps proj (update_step sl expected_ref new_ref pc')) ->
  keeps proj (update_loop fuel sl expected_ref new_ref pc).
Proof.
  intros Hstep. revert pc. induction fuel as [|fuel IH]; intros pc.
  - destruct pc; cbn [update_loop]; first [apply keeps_out_of_fuel | apply keeps_ret].
  - destruct pc; cbn [update_loop]; try apply keeps_ret;
      (apply keeps_bind; [apply Hstep | intros pc'; apply IH]).
Qed.

Lemma keeps_Mark {A : Type} (proj : State -> A) (fuel self : nat) (g : bool) (ref : Z) :
  (forall f, keeps proj (frame_step self f)) -> keeps proj (Mark fuel self g ref).
Proof. intros Hf. apply keeps_run_thread. exact Hf. Qed.

#[local] Hint Resolve keeps_Mark keeps_update_loop frame_step_processed : keeps_db.

Lemma update_step_processed (sl : Slot) (expected_ref new_ref : Z) (pc : UpdatePc) :
  keeps processed (update_step sl expected_ref new_ref pc).
Proof. destruct pc, sl; keeps_tac. Qed.

#[local] Hint Resolve update_step_processed : keeps_db.

Lemma Process_processed (fuel self : nat) (obj : Z) (offset : nat) :
  keeps processed (Process fuel self obj offset).
Proof. unfold Process. keeps_tac. Qed.

Lemma MarkRoot_processed (fuel self : nat) (g : bool) (root : Slot) :
  keeps processed (MarkRoot fuel self g root).
Proof. unfold MarkRoot. destruct root; keeps_tac. Qed.

#[local] Hint Resolve Process_processed MarkRoot_processed : keeps_db.

Lemma Scan_processed (fuel self : nat) (to_ref : Z) : keeps processed (Scan fuel self to_ref).
Proof. unfold Scan. keeps_tac. Qed.

#[local] Hint Resolve Scan_processed : keeps_db.

(** *** Draining the mark stacks *)

Lemma ProcessMarkStackRef_processed (fuel self : nat) (to_ref : Z) (s s' : State) (u : unit) :
  ProcessMarkStackRef fuel self to_ref s = Ok (u, s') ->
  processed s' = to_ref :: processed s.
Proof.
  unfold ProcessMarkStackRef. intros H. apply bind_Ok in H as (a & s1 & H1 & H).
  inv_step H1.
  match type of H with ?c _ = Ok _ => assert (K : keeps processed c) by keeps_tac end.
  rewrite (K _ _ _ H). reflexivity.
Qed.

Lemma for_each_ProcessMarkStackRef (fuel self : nat) (l : list Z) (s s' : State) (u : unit) :
  for_each l (ProcessMarkStackRef fuel self) s = Ok (u, s') ->
  processed s' = rev l ++ processed s.
Proof.
  revert s. induction l as [|x l IH]; intros s H.
  - cbn [for_each] in H. inv_step H. reflexivity.
  - cbn [for_each] in H. apply bind_Ok in H as (a & s1 & H1 & H).
    apply ProcessMarkStackRef_processed in H1. rewrite (IH _ H), H1.
    cbn [rev]. rewrite <- app_assoc. reflexivity.
Qed.

Lemma wrap64_range (x : Z) : 0 <= wrap64 x < 2 ^ kBitsPerWord.
Proof. unfold wrap64. apply Z.mod_pos_bound. reflexivity. Qed.

Lemma wrap64_small (x : Z) : 0 <= x < 2 ^ kBitsPerWord -> wrap64 x = x.
Proof. intros H. unfold wrap64. apply Z.mod_small. exact H. Qed.

Lemma wrap64_add_l (x y : Z) : wrap64 (wrap64 x + y) = wrap64 (x + y).
Proof. unfold wrap64. apply Zplus_mod_idemp_l. Qed.

Lemma process_revoked_stacks_count (fuel self : nat) (stacks : list ObjectStack) (count : Z)
    (s s' : State) (count' : Z) :
  process_revoked_stacks fuel self stacks count s = Ok (count', s') ->
  exists refs, processed s' = refs ++ processed s /\
    wrap64 count' = wrap64 (count + Z.of_nat (List.length refs)) /\
    (0 <= count < 2 ^ kBitsPerWord -> 0 <= count' < 2 ^ kBitsPerWord).
Proof.
  revert count s. induction stacks as [|st stacks IH]; intros count s H.
  - cbn [process_revoked_stacks] in H. inv_step H. exists []. rewrite Z.add_0_r. auto.
  - cbn [process_revoked_stacks] in H. apply bind_Ok in H as (a & s1 & H1 & H).
    apply for_each_ProcessMarkStackRef in H1.
    apply bind_Ok in H as (pooled & s2 & H2 & H). inv_step H2.
    apply bind_Ok in H as (a2 & s3 & H3 & H).
    assert (Hp : processed s3 = processed s1).
    { revert H3. match goal with |- ?c _ = Ok _ -> _ => assert (K : keeps processed c) by keeps_tac end.
      apply K. }
    destruct (IH _ _ H) as (refs & Hrefs & Hk & Hr).
    exists (refs ++ rev (elems st)). split; [|split].
    + rewrite Hrefs, Hp, H1. apply app_assoc.
    + rewrite Hk, wrap64_add_l. f_equal.
      rewrite length_app, length_rev, Nat2Z.inj_add. lia.
    + intros _. apply Hr. apply wrap64_range.
Qed.

Lemma PopBack_None (st : ObjectStack) : PopBack st = None -> IsEmpty st = true.
Proof.
  unfold PopBack, IsEmpty. destruct (rev (elems st)) as [|x r] eqn:Hrev; [|discriminate].
  intros _. apply (f_equal (@rev Z)) in Hrev. rewrite rev_involutive in Hrev.
  rewrite Hrev. reflexivity.
Qed.

Lemma drain_gc_mark_stack_count (fuel self : nat) (count : Z) (s s' : State) (count' : Z) :
  drain_gc_mark_stack fuel self count s = Ok (count', s') ->
  IsEmpty (gc_mark_stack s') = true /\
  exists refs, processed s' = refs ++ processed s /\
    wrap64 count' = wrap64 (count + Z.of_nat (List.length refs)) /\
    (0 <= count < 2 ^ kBitsPerWord -> 0 <= count' < 2 ^ kBitsPerWord).
Proof.
  revert count s. induction fuel as [|fuel IH]; intros count s H.
  - cbn [drain_gc_mark_stack] in H. apply bind_Ok in H as (st & s1 & H1 & H). inv_step H1.
    destruct (PopBack (gc_mark_stack s)) as [[x st']|] eqn:Hpop; [discriminate|].
    inv_step H. split; [apply PopBack_None; exact Hpop|].
    exists []. rewrite Z.add_0_r. auto.
  - cbn [drain_gc_mark_stack] in H. apply bind_Ok in H as (st & s1 & H1 & H). inv_step H1.
    destruct (PopBack (gc_mark_stack s)) as [[x st']|] eqn:Hpop.
    + apply bind_Ok in H as (a1 & s1 & H1 & H). inv_step H1.
      apply bind_Ok in H as (a2 & s2 & H2 & H).
      apply ProcessMarkStackRef_processed in H2. cbn in H2.
      destruct (IH _ _ H) as (Hempty & refs & Hrefs & Hk & Hr).
      split; [exact Hempty|].
      exists (refs ++ [x]). split; [|split].
      * rewrite Hrefs, H2, <- app_assoc. reflexivity.
      * rewrite Hk, wrap64_add_l. f_equal. rewrite length_app, Nat2Z.inj_add. cbn. lia.
      * intros _. apply Hr. apply wrap64_range.
    + inv_step H. split; [apply PopBack_None; exact Hpop|].
      exists []. rewrite Z.add_0_r. auto.
Qed.

Lemma drain_shared_mark_stack_count (fuel self : nat) (count : Z) (s s' : State) (count' : Z) :
  drain_shared_mark_stack fuel self count s = Ok (count', s') ->
  IsEmpty (gc_mark_stack s') = true /\
  exists refs, processed s' = refs ++ processed s /\
    wrap64 count' = wrap64 (count + Z.of_nat (List.length refs)) /\
    (0 <= count < 2 ^ kBitsPerWord -> 0 <= count' < 2 ^ kBitsPerWord).
Proof.
  revert count s. induction fuel as [|fuel IH]; intros count s H.
  - cbn [drain_shared_mark_stack] in H. apply bind_Ok in H as (st & s1 & H1 & H). inv_step H1.
    destruct (IsEmpty (gc_mark_stack s)) eqn:Hempty; [|discriminate].
    inv_step H. split; [exact Hempty|]. exists []. rewrite Z.add_0_r. auto.
  - cbn [drain_shared_mark_stack] in H. apply bind_Ok in H as (st & s1 & H1 & H). inv_step H1.
    destruct (IsEmpty (gc_mark_stack s)) eqn:Hempty.
    + inv_step H. split; [exact Hempty|]. exists []. rewrite Z.add_0_r. auto.
    + apply bind_Ok in H as (a1 & s1 & H1 & H). inv_step H1.
      apply bind_Ok in H as (a2 & s2 & H2 & H).
      apply for_each_ProcessMarkStackRef in H2. cbn in H2.
      destruct (IH _ _ H) as (Hempty' & refs & Hrefs & Hk & Hr).
      split; [exact Hempty'|].
      exists (refs ++ rev (elems (gc_mark_stack s))). split; [|split].
      * rewrite Hrefs, H2. apply app_assoc.
      * rewrite Hk, wrap64_add_l. f_equal.
        rewrite length_app, length_rev, Nat2Z.inj_add. lia.
      * intros _. apply Hr. apply wrap64_range.
Qed.

Lemma RevokeThreadLocalMarkStacks_processed (b : bool) :
  keeps processed (RevokeThreadLocalMarkStacks b).
Proof. unfold RevokeThreadLocalMarkStacks. keeps_tac. Qed.

Lemma ProcessMarkStackOnce_count_processed (fuel self : nat) (s s' : State) (count : Z) :
  ProcessMarkStackOnce_count fuel self s = Ok (count, s') ->
  IsEmpty (gc_mark_stack s') = true /\
  exists refs, processed s' = refs ++ processed s /\
    count = wrap64 (Z.of_nat (List.length refs)).
Proof.
  unfold ProcessMarkStackOnce_count. intros H. repeat inv_step H.
  assert (H0 : 0 <= 0 < 2 ^ kBitsPerWord) by (split; [lia | reflexivity]).
  destruct (mark_stack_mode s).
  - exfalso. repeat inv_step H. all: try discriminate.
  - apply bind_Ok in H as (c1 & s1 & H1 & H).
    unfold ProcessThreadLocalMarkStacks in H1.
    apply bind_Ok in H1 as (a0 & s0 & Hrev & H1).
    apply RevokeThreadLocalMarkStacks_processed in Hrev.
    apply bind_Ok in H1 as (stacks & s2 & H2 & H1). inv_step H2.
    apply bind_Ok in H1 as (a3 & s3 & H3 & H1). inv_step H3.
    apply process_revoked_stacks_count in H1 as (refs1 & Hrefs1 & Hk1 & Hr1).
    cbn in Hrefs1. rewrite Hrev in Hrefs1.
    apply bind_Ok in H as (c2 & s2 & H2 & H).
    apply drain_gc_mark_stack_count in H2 as (_ & refs2 & Hrefs2 & Hk2 & Hr2).
    repeat inv_step H. split; [reflexivity|].
    exists (refs2 ++ refs1). cbn. split.
    + rewrite Hrefs2, Hrefs1. apply app_assoc.
    + rewrite <- (wrap64_small c2) by (apply Hr2, Hr1, H0).
      rewrite Hk2, <- wrap64_add_l, Hk1, wrap64_add_l. f_equal.
      rewrite length_app, Nat2Z.inj_add. lia.
  - repeat inv_step H.
    match goal with Hd : drain_shared_mark_stack _ _ _ _ = Ok _ |- _ =>
      apply drain_shared_mark_stack_count in Hd as (Hempty & refs & Hrefs & Hk & Hr) end.
    split; [exact Hempty|]. exists refs. split; [exact Hrefs|].
    rewrite Z.add_0_l in Hk. rewrite <- Hk. symmetry. apply wrap64_small, Hr, H0.
  - repeat inv_step H.
    match goal with Hd : drain_gc_mark_stack _ _ _ _ = Ok _ |- _ =>
      apply drain_gc_mark_stack_count in Hd as (_ & refs & Hrefs & Hk & Hr) end.
    split; [reflexivity|]. exists refs. split; [exact Hrefs|].
    rewrite Z.add_0_l in Hk. rewrite <- Hk. symmetry. apply wrap64_small, Hr, H0.
Qed.

Lemma ProcessMarkStack_loop_drains (rounds fuel self : nat) (empty_prev : bool)
    (s s' : State) :
  ProcessMarkStack_loop rounds fuel self empty_prev s = Ok (tt, s') <->
  (empty_prev = true /\ (1 <= rounds)%nat /\
   ProcessMarkStackOnce fuel self s = Ok (true, s')) \/
  (exists reports,
     drains fuel self s (reports ++ [true; true]) s' /\
     seen_empty_twice empty_prev (reports ++ [true]) = false /\
     (List.length reports + 2 <= rounds)%nat).
Proof.
  revert empty_prev s. induction rounds as [|n IH]; intros empty_prev s.
  - split; [discriminate|]. intros [(_ & Hn & _)|(reports & _ & _ & Hn)]; lia.
  - cbn [ProcessMarkStack_loop]. split.
    + intros H. apply bind_Ok in H as (empty & s1 & H1 & H).
      destruct (empty_prev && empty) eqn:Hboth.
      * inv_step H. apply andb_true_iff in Hboth as [-> ->].
        left. split; [reflexivity|]. split; [lia | exact H1].
      * apply IH in H as [(-> & Hn & H)|(reports & Hd & Hseen & Hn)]; right.
        -- exists []. cbn. rewrite andb_true_r in Hboth. rewrite Hboth.
           split; [|split; [reflexivity | lia]].
           eapply drains_cons; [exact H1|]. eapply drains_cons; [exact H | constructor].
        -- exists (empty :: reports). cbn. rewrite Hboth, Hseen.
           split; [|split; [reflexivity | lia]].
           eapply drains_cons; [exact H1 | exact Hd].
    + intros [(-> & Hn & H)|(reports & Hd & Hseen & Hn)].
      * rewrite (bind_eq _ _ _ _ _ H). reflexivity.
      * destruct reports as [|empty reports]; cbn in Hd, Hseen.
        -- inversion Hd as [|? s1 ? ? ? H1 Hd1]; subst.
           inversion Hd1 as [|? s2 ? ? ? H2 Hd2]; subst.
           inversion Hd2; subst.
           rewrite (bind_eq _ _ _ _ _ H1).
           apply orb_false_iff in Hseen as [Hseen _]. rewrite Hseen.
           apply IH. left. split; [reflexivity|]. split; [cbn in Hn; lia | exact H2].
        -- inversion Hd as [|? s1 ? ? ? H1 Hd1]; subst.
           rewrite (bind_eq _ _ _ _ _ H1).
           apply orb_false_iff in Hseen as [Hboth Hseen]. rewrite Hboth.
           apply IH. right. exists reports. split; [exact Hd1|].
           split; [exact Hseen | cbn in Hn; lia].
Qed.

(** C5.  ProcessMarkStack returns exactly when the successive calls of
    ProcessMarkStackOnce end, within the rounds given, in two reports of an
    empty mark stack in succession, no two successive reports before having
    both been empty; it returns in the state the second of them leaves.  A call
    of ProcessMarkStackOnce that returns leaves the GC mark stack empty and has
    passed some references to ProcessMarkStackRef; it reports empty exactly
    when their number is 0 as a [size_t], so, for fewer than 2^64 references,
    exactly when it processed no reference. *)
Theorem ProcessMarkStack_two_empty_drains (rounds fuel self : nat) (s s' : State) :
  (ProcessMarkStack rounds fuel self s = Ok (tt, s') <->
   exists reports,
     drains fuel self s (reports ++ [true; true]) s' /\
     seen_empty_twice false (reports ++ [true]) = false /\
     (List.length reports + 2 <= rounds)%nat) /\
  (forall empty s1,
     ProcessMarkStackOnce fuel self s = Ok (empty, s1) ->
     IsEmpty (gc_mark_stack s1) = true /\
     exists refs,
       processed s1 = refs ++ processed s /\
       empty = (wrap64 (Z.of_nat (List.length refs)) =? 0) /\
       (Z.of_nat (List.length refs) < 2 ^ kBitsPerWord -> (empty = true <-> refs = []))).
Proof.
  split.
  - unfold ProcessMarkStack. rewrite ProcessMarkStack_loop_drains.
    split; [intros [(Hf & _)|H]; [discriminate | exact H] | intros H; right; exact H].
  - intros empty s1 H. unfold ProcessMarkStackOnce in H.
    apply bind_Ok in H as (count & s2 & H1 & H). inv_step H.
    apply ProcessMarkStackOnce_count_processed in H1 as (Hempty & refs & Hrefs & ->).
    split; [exact Hempty|]. exists refs. split; [exact Hrefs|]. split; [reflexivity|].
    intros Hlt. rewrite wrap64_small by lia. rewrite Z.eqb_eq.
    split; [intros H0; destruct refs; [reflexivity | cbn in H0; lia] | intros ->; reflexivity].
Qed.

(** *** Forwarding a slot *)

Lemma slot_load_state (sl : Slot) (s s' : State) (v : Z) :
  slot_load sl s = Ok (v, s') -> s' = s.
Proof. destruct sl; unfold slot_load; intros H; inv_exec; reflexivity. Qed.

(** What a slot holds depends on the heap and the roots only. *)
Lemma slot_holds_ext (sl : Slot) (s s1 : State) (v : Z) :
  heap s1 = heap s -> roots s1 = roots s -> slot_holds sl s v -> slot_holds sl s1 v.
Proof.
  unfold slot_holds. intros Hh Hr H.
  destruct sl; unfold slot_load, bind, object_at, gets, ret in *; rewrite ?Hh, ?Hr;
    repeat match goal with
    | H : match ?x with _ => _ end = Ok _ |- _ => destruct x eqn:?; try discriminate H
    | H : (match ?x with _ => _ end) _ = Ok _ |- _ => destruct x eqn:?; try discriminate H
    end; simplify_eq;
    repeat (cbv beta iota; match goal with H : ?x = Some _ |- context [?x] => rewrite H end);
    reflexivity.
Qed.

Lemma slot_store_holds (sl : Slot) (s : State) (v0 v : Z) :
  slot_holds sl s v0 ->
  exists s', slot_store sl v s = Ok (tt, s') /\ slot_holds sl s' v.
Proof.
  unfold slot_holds.
  destruct sl; unfold slot_load, slot_store, bind, object_at, store_object, modify, gets, ret;
    intros H;
    repeat match goal with
    | H : match ?x with _ => _ end = Ok _ |- _ => destruct x eqn:?; try discriminate H
    | H : (match ?x with _ => _ end) _ = Ok _ |- _ => destruct x eqn:?; try discriminate H
    end; simplify_eq; (eexists; split; [reflexivity|]); cbn.
  - rewrite lookup_insert_eq. cbn.
    rewrite list_lookup_insert_eq by (eapply lookup_lt_Some; eassumption). reflexivity.
  - rewrite lookup_insert_eq. reflexivity.
  - rewrite lookup_insert_eq. cbn.
    rewrite list_lookup_insert_eq by (eapply lookup_lt_Some; eassumption). reflexivity.
  - rewrite list_lookup_insert_eq by (eapply lookup_lt_Some; eassumption). reflexivity.
Qed.

Lemma next_weak_cas_fails_Ok (s s1 : State) (b : bool) :
  next_weak_cas_fails s = Ok (b, s1) ->
  heap s1 = heap s /\ roots s1 = roots s /\
  (b = true -> exists r, weak_cas_fails s = true :: r).
Proof.
  unfold next_weak_cas_fails. destruct (weak_cas_fails s) as [|b' r]; intros H; simplify_eq.
  - repeat split. discriminate.
  - repeat split. intros ->. eauto.
Qed.

Lemma next_weak_cas_fails_total (s : State) :
  exists b s1, next_weak_cas_fails s = Ok (b, s1).
Proof. unfold next_weak_cas_fails. destruct (weak_cas_fails s); eauto. Qed.

(** One step of the loop writes the slot only by the compare-and-swap that
    finds the expected reference in it. *)
Lemma update_step_slot (sl : Slot) (expected_ref new_ref : Z) (pc pc' : UpdatePc)
    (s s' : State) (v : Z) :
  slot_holds sl s v ->
  update_step sl expected_ref new_ref pc s = Ok (pc', s') ->
  (slot_holds sl s' v /\ heap s' = heap s /\ roots s' = roots s) \/
  (v = expected_ref /\ pc = UpdateCas /\ pc' = UpdateDone /\ slot_holds sl s' new_ref).
Proof.
  intros Hv H. destruct pc; cbn [update_step] in H.
  - apply bind_Ok in H as (a & s1 & H1 & H). rewrite Hv in H1. simplify_eq.
    destruct (negb (expected_ref =? a)); inv_step H; left; auto.
  - unfold slot_cas_weak in H.
    apply bind_Ok in H as (ok & s3 & H0 & H).
    apply bind_Ok in H0 as (spurious & s1 & H1 & H0).
    apply next_weak_cas_fails_Ok in H1 as (Hh & Hr & _).
    pose proof (slot_holds_ext _ _ _ _ Hh Hr Hv) as Hv1.
    apply bind_Ok in H0 as (a & s2 & H2 & H0). rewrite Hv1 in H2. simplify_eq.
    destruct (negb spurious && (a =? expected_ref)) eqn:Hcas.
    + apply andb_true_iff in Hcas as [_ Heq]. apply Z.eqb_eq in Heq. subst a.
      apply bind_Ok in H0 as (u & s4 & H4 & H0). inv_step H0. inv_step H.
      destruct (slot_store_holds _ _ _ new_ref Hv1) as (s5 & Hst & Hn).
      rewrite Hst in H4. simplify_eq. right. auto.
    + inv_step H0. inv_step H. left. auto.
  - inv_step H. left. auto.
Qed.

Lemma update_step_total (sl : Slot) (expected_ref new_ref : Z) (pc : UpdatePc)
    (s : State) (v : Z) :
  slot_holds sl s v ->
  exists pc' s', update_step sl expected_ref new_ref pc s = Ok (pc', s').
Proof.
  intros Hv. destruct pc; cbn [update_step].
  - rewrite (bind_eq _ _ _ _ _ Hv). destruct (negb _); eexists _, _; reflexivity.
  - unfold slot_cas_weak.
    destruct (next_weak_cas_fails_total s) as (b & s1 & H1).
    pose proof (next_weak_cas_fails_Ok _ _ _ H1) as (Hh & Hr & _).
    pose proof (slot_holds_ext _ _ _ _ Hh Hr Hv) as Hv1.
    unfold bind at 1. unfold bind at 1. rewrite H1.
    rewrite (bind_eq _ _ _ _ _ Hv1).
    destruct (negb b && (v =? expected_ref)).
    + destruct (slot_store_holds _ _ _ new_ref Hv1) as (s5 & Hst & Hn).
      rewrite (bind_eq _ _ _ _ _ Hst). eexists _, _; reflexivity.
    + eexists _, _; reflexivity.
  - eexists _, _; reflexivity.
Qed.

(** Any schedule runs, and the slot exists all along. *)
Lemma run_update_total (sl : Slot) (expected_ref new_ref : Z) (events : list UpdateEvent)
    (pc : UpdatePc) (s : State) (v : Z) :
  slot_holds sl s v ->
  exists pc' s' v', run_update sl expected_ref new_ref events pc s = Ok (pc', s') /\
                    slot_holds sl s' v'.
Proof.
  revert pc s v. induction events as [|[|w] events IH]; intros pc s v Hv; cbn [run_update].
  - eexists _, _, _. split; [reflexivity | exact Hv].
  - destruct (update_step_total sl expected_ref new_ref pc s v Hv) as (pc1 & s1 & H1).
    rewrite (bind_eq _ _ _ _ _ H1).
    destruct (update_step_slot _ _ _ _ _ _ _ _ Hv H1) as [(Hv1 & _)|(_ & _ & _ & Hv1)];
      eapply IH; eassumption.
  - destruct (slot_store_holds _ _ _ w Hv) as (s1 & H1 & Hv1).
    rewrite (bind_eq _ _ _ _ _ H1). eapply IH; eassumption.
Qed.

(** Steps of the collector alone leave a value other than the expected one. *)
Lemma run_update_collector_only (sl : Slot) (expected_ref new_ref : Z)
    (events : list UpdateEvent) (pc : UpdatePc) (s : State) (v : Z) :
  Forall (fun ev => ev = CollectorStep) events ->
  v <> expected_ref ->
  slot_holds sl s v ->
  exists pc' s', run_update sl expected_ref new_ref events pc s = Ok (pc', s') /\
                 slot_holds sl s' v /\ heap s' = heap s /\ roots s' = roots s.
Proof.
  intros Hall Hne. revert pc s. induction Hall as [|ev events -> _ IH]; intros pc s Hv.
  - cbn [run_update]. eexists _, _. split; [reflexivity | auto].
  - cbn [run_update].
    destruct (update_step_total sl expected_ref new_ref pc s v Hv) as (pc1 & s1 & H1).
    rewrite (bind_eq _ _ _ _ _ H1).
    destruct (update_step_slot _ _ _ _ _ _ _ _ Hv H1) as [(Hv1 & Hh & Hr)|(Heq & _)];
      [|congruence].
    destruct (IH pc1 s1 Hv1) as (pc' & s' & Hrun & Hv' & Hh' & Hr').
    exists pc', s'. split; [exact Hrun|]. split; [exact Hv'|]. split; congruence.
Qed.

Lemma bind_assoc {A B C : Type} (c : M A) (k : A -> M B) (k' : B -> M C) (s : State) :
  bind (bind c k) k' s = bind c (fun a => bind (k a) k') s.
Proof. unfold bind. destruct (c s) as [[a s1]| | |]; reflexivity. Qed.

Lemma bind_ext {A B : Type} (c : M A) (k k' : A -> M B) (s : State) :
  (forall a s1, k a s1 = k' a s1) -> bind c k s = bind c k' s.
Proof. intros H. unfold bind. destruct (c s) as [[a s1]| | |]; [apply H | | |]; reflexivity. Qed.

Lemma run_update_app (sl : Slot) (expected_ref new_ref : Z) (ev1 ev2 : list UpdateEvent)
    (pc : UpdatePc) (s : State) :
  run_update sl expected_ref new_ref (ev1 ++ ev2) pc s =
  bind (run_update sl expected_ref new_ref ev1 pc)
       (fun pc1 => run_update sl expected_ref new_ref ev2 pc1) s.
Proof.
  revert pc s. induction ev1 as [|[|w] ev1 IH]; intros pc s; cbn [run_update app].
  - reflexivity.
  - rewrite bind_assoc. apply bind_ext. intros pc1 s1. apply IH.
  - rewrite bind_assoc. apply bind_ext. intros u s1. apply IH.
Qed.

Lemma keeps_slot_load {A : Type} (proj : State -> A) (sl : Slot) : keeps proj (slot_load sl).
Proof. intros s v s' H. apply slot_load_state in H. subst. reflexivity. Qed.

#[local] Hint Resolve keeps_slot_load : keeps_db.

Lemma update_loop_schedule (fuel : nat) (sl : Slot) (expected_ref new_ref : Z) (pc : UpdatePc)
    (s s' : State) :
  update_loop fuel sl expected_ref new_ref pc s = Ok (tt, s') ->
  exists n, run_update sl expected_ref new_ref (repeat CollectorStep n) pc s
            = Ok (UpdateDone, s').
Proof.
  revert pc s. induction fuel as [|fuel IH]; intros pc s H.
  - destruct pc; cbn [update_loop] in H; try discriminate.
    inv_step H. exists 0%nat. reflexivity.
  - assert (Hstep : (pc' <- update_step sl expected_ref new_ref pc ;;
                     update_loop fuel sl expected_ref new_ref pc') s = Ok (tt, s') ->
                    exists n, run_update sl expected_ref new_ref (repeat CollectorStep n) pc s
                              = Ok (UpdateDone, s')).
    { intros H'. apply bind_Ok in H' as (pc1 & s1 & H1 & H').
      destruct (IH _ _ H') as (n & Hn). exists (S n). cbn [repeat run_update].
      rewrite (bind_eq _ _ _ _ _ H1). exact Hn. }
    destruct pc; cbn [update_loop] in H; try (apply Hstep; exact H).
    inv_step H. exists 0%nat. reflexivity.
Qed.

Lemma Process_update (fuel self : nat) (obj : Z) (offset : nat) (s s' : State) :
  Process fuel self obj offset s = Ok (tt, s') ->
  exists ref to_ref s1,
    slot_holds (FieldSlot obj offset) s ref /\
    Mark fuel self false ref s = Ok (to_ref, s1) /\
    if to_ref =? ref then s' = s1
    else update_loop fuel (FieldSlot obj offset) ref to_ref UpdateLoad s1 = Ok (tt, s').
Proof.
  unfold Process. intros H. apply bind_Ok in H as (u & s0 & H0 & H).
  assert (K : keeps (fun s => s) (DCHECK (gets (is_gc_thread self)))) by keeps_tac.
  apply K in H0. subst s0.
  apply bind_Ok in H as (ref & s1 & H1 & H).
  pose proof (slot_load_state _ _ _ _ H1). subst s1.
  apply bind_Ok in H as (to_ref & s1 & H2 & H).
  exists ref, to_ref, s1. split; [exact H1|]. split; [exact H2|].
  destruct (to_ref =? ref); [inv_step H; reflexivity | exact H].
Qed.

Lemma MarkRoot_update (fuel self : nat) (g : bool) (root : Slot) (s s' : State) :
  MarkRoot fuel self g root s = Ok (tt, s') ->
  exists ref to_ref s1,
    slot_holds root s ref /\
    Mark fuel self g ref s = Ok (to_ref, s1) /\
    if to_ref =? ref then s' = s1
    else update_loop fuel root ref to_ref UpdateLoad s1 = Ok (tt, s').
Proof.
  unfold MarkRoot. intros H. apply bind_Ok in H as (u & s0 & H0 & H).
  assert (K : keeps (fun s => s) (DCHECK (v <- slot_load root ;; ret (negb (v =? 0)))))
    by keeps_tac.
  apply K in H0. subst s0.
  apply bind_Ok in H as (ref & s1 & H1 & H).
  pose proof (slot_load_state _ _ _ _ H1). subst s1.
  apply bind_Ok in H as (to_ref & s1 & H2 & H).
  exists ref, to_ref, s1. split; [exact H1|]. split; [exact H2|].
  destruct (to_ref =? ref); cbn [negb] in H; [inv_step H; reflexivity | exact H].
Qed.

Lemma VisitRoots_update (fuel self : nat) (i : nat) (later : list nat) (s s' : State) :
  VisitRoots fuel self (i :: later) s = Ok (tt, s') ->
  exists ref to_ref s1 s2,
    slot_holds (RootSlot i) s ref /\
    Mark fuel self true ref s = Ok (to_ref, s1) /\
    (if to_ref =? ref then s2 = s1
     else update_loop fuel (RootSlot i) ref to_ref UpdateLoad s1 = Ok (tt, s2)) /\
    VisitRoots fuel self later s2 = Ok (tt, s').
Proof.
  unfold VisitRoots. cbn [for_each]. intros H.
  apply bind_Ok in H as ([] & s2 & H0 & H).
  apply bind_Ok in H0 as (ref & s1 & H1 & H0).
  pose proof (slot_load_state _ _ _ _ H1). subst s1.
  apply bind_Ok in H0 as (to_ref & s1 & H2 & H0).
  exists ref, to_ref, s1, s2. split; [exact H1|]. split; [exact H2|]. split; [|exact H].
  destruct (to_ref =? ref); [inv_step H0; reflexivity | exact H0].
Qed.

(** C10.  The forwarding update of a slot.  (1) Process, MarkRoot and
    VisitRoots read the reference in the slot, Mark it, and when Mark gives
    another reference run the update loop with the reference read as the
    expected one.  (2) The loop alone is a schedule of collector steps.
    (3) A step of the loop leaves the slot, the heap and the roots as they are
    unless it is the compare-and-swap finding the expected reference in the
    slot, which then holds the new reference.  (4) Whatever the schedule of
    collector steps and mutator stores, once a mutator has stored a reference
    other than the expected one the steps of the collector that follow leave
    it in the slot. *)
Theorem forwarding_update_keeps_mutator_store (sl : Slot) :
  ((forall fuel self obj offset s s',
      sl = FieldSlot obj offset ->
      Process fuel self obj offset s = Ok (tt, s') ->
      exists ref to_ref s1,
        slot_holds sl s ref /\
        Mark fuel self false ref s = Ok (to_ref, s1) /\
        if to_ref =? ref then s' = s1
        else update_loop fuel sl ref to_ref UpdateLoad s1 = Ok (tt, s')) /\
   (forall fuel self g s s',
      MarkRoot fuel self g sl s = Ok (tt, s') ->
      exists ref to_ref s1,
        slot_holds sl s ref /\
        Mark fuel self g ref s = Ok (to_ref, s1) /\
        if to_ref =? ref then s' = s1
        else update_loop fuel sl ref to_ref UpdateLoad s1 = Ok (tt, s')) /\
   (forall fuel self i later s s',
      sl = RootSlot i ->
      VisitRoots fuel self (i :: later) s = Ok (tt, s') ->
      exists ref to_ref s1 s2,
        slot_holds sl s ref /\
        Mark fuel self true ref s = Ok (to_ref, s1) /\
        (if to_ref =? ref then s2 = s1
         else update_loop fuel sl ref to_ref UpdateLoad s1 = Ok (tt, s2)) /\
        VisitRoots fuel self later s2 = Ok (tt, s'))) /\
  (forall fuel expected_ref new_ref pc s s',
     update_loop fuel sl expected_ref new_ref pc s = Ok (tt, s') ->
     exists n, run_update sl expected_ref new_ref (repeat CollectorStep n) pc s
               = Ok (UpdateDone, s')) /\
  (forall expected_ref new_ref pc pc' s s' v,
     slot_holds sl s v ->
     update_step sl expected_ref new_ref pc s = Ok (pc', s') ->
     (slot_holds sl s' v /\ heap s' = heap s /\ roots s' = roots s) \/
     (v = expected_ref /\ pc = UpdateCas /\ pc' = UpdateDone /\ slot_holds sl s' new_ref)) /\
  (forall expected_ref new_ref before after pc s v0 v,
     slot_holds sl s v0 ->
     Forall (fun ev => ev = CollectorStep) after ->
     v <> expected_ref ->
     exists pc' s',
       run_update sl expected_ref new_ref (before ++ MutatorStore v :: after) pc s
       = Ok (pc', s') /\
       slot_holds sl s' v).
Proof.
  split; [split; [|split]|split; [|split]].
  - intros fuel self obj offset s s' ->. apply Process_update.
  - intros fuel self g s s'. apply MarkRoot_update.
  - intros fuel self i later s s' ->. apply VisitRoots_update.
  - intros fuel expected_ref new_ref pc s s'. apply update_loop_schedule.
  - intros expected_ref new_ref pc pc' s s' v. apply update_step_slot.
  - intros expected_ref new_ref before after pc s v0 v Hv0 Hafter Hne.
    rewrite run_update_app.
    destruct (run_update_total sl expected_ref new_ref before pc s v0 Hv0)
      as (pc1 & s1 & v1 & Hrun1 & Hv1).
    rewrite (bind_eq _ _ _ _ _ Hrun1). cbn [run_update].
    destruct (slot_store_holds _ _ _ v Hv1) as (s2 & Hst & Hv2).
    rewrite (bind_eq _ _ _ _ _ Hst).
    destruct (run_update_collector_only sl expected_ref new_ref after pc1 s2 v Hafter Hne Hv2)
      as (pc' & s' & Hrun & Hv' & _).
    exists pc', s'. split; [exact Hrun | exact Hv'].
Qed.

(** *** Processing a reference of the mark stack *)

Lemma DCHECK_rb_is (a : Z) (p : RbPtr) (s s' : State) (u : unit) :
  DCHECK (rb_is a p) s = Ok (u, s') ->
  s' = s /\
  (kIsDebugBuild E = true -> exists o, heap s !! a = Some o /\ rb_ptr o = p).
Proof.
  unfold DCHECK, rb_is. intros H. destruct (kIsDebugBuild E).
  - inv_exec. split; [reflexivity|]. intros _.
    match goal with Hb : bool_decide _ = true |- _ => apply bool_decide_eq_true in Hb end.
    eauto.
  - inv_step H. split; [reflexivity | discriminate].
Qed.

Lemma AtomicSetReadBarrierPointer_Ok (a : Z) (expected new : RbPtr) (s s' : State)
    (b : bool) :
  AtomicSetReadBarrierPointer a expected new s = Ok (b, s') ->
  exists o, heap s !! a = Some o /\
    if decide (rb_ptr o = expected)
    then b = true /\ s' = set_heap (<[a := set_rb_ptr new o]> (heap s)) s
    else b = false /\ s' = s.
Proof.
  unfold AtomicSetReadBarrierPointer. intros H. inv_step H. exists o. split; [assumption|].
  destruct (decide (rb_ptr o = expected)); repeat inv_step H; auto.
Qed.

Lemma reference_with_unmarked_referent_state (to_ref : Z) :
  keeps (fun s => s) (reference_with_unmarked_referent to_ref).
Proof. keeps_tac. Qed.

Lemma AssertToSpaceInvariantObject_state (self : nat) (obj : Z) :
  keeps (fun s => s) (AssertToSpaceInvariantObject self obj).
Proof. keeps_tac. Qed.

Lemma Scan_fields (fuel self : nat) (to_ref : Z) (s s' : State) :
  Scan fuel self to_ref s = Ok (tt, s') ->
  exists o s1,
    heap s !! to_ref = Some o /\
    for_each (seq 0 (List.length (ref_fields o))) (Process fuel self to_ref) s = Ok (tt, s1).
Proof.
  unfold Scan. intros H.
  apply bind_Ok in H as (u0 & s0 & H0 & H).
  assert (K0 : keeps (fun s => s) (DCHECK (ret (negb (IsInFromSpace to_ref))))) by keeps_tac.
  apply K0 in H0. subst s0.
  apply bind_Ok in H as (u1 & s1 & H1 & H).
  assert (K1 : keeps (fun s => s) (DCHECK (gets (is_gc_thread self)))) by keeps_tac.
  apply K1 in H1. subst s1.
  unfold VisitReferences in H. inv_step H.
  apply bind_Ok in H as ([] & s2 & H2 & H).
  eauto.
Qed.

Lemma reference_with_unmarked_referent_Ok (to_ref : Z) (s s1 : State) (leave_gray : bool) :
  reference_with_unmarked_referent to_ref s = Ok (leave_gray, s1) ->
  s1 = s /\
  exists o oc d,
    heap s !! to_ref = Some o /\ heap s !! klass o = Some oc /\ class_data oc = Some d /\
    if leave_gray
    then reference_class d = true /\ referent o <> 0 /\
         collector_IsInToSpace (referent o) s = Ok (false, s)
    else reference_class d = false \/ referent o = 0 \/
         collector_IsInToSpace (referent o) s = Ok (true, s).
Proof.
  intros H. pose proof (reference_with_unmarked_referent_state _ _ _ _ H) as Hs.
  cbv beta in Hs. subst s1. split; [reflexivity|].
  unfold reference_with_unmarked_referent, IsTypeOfReferenceClass in H.
  inv_exec; eexists _, _, _; (split; [eassumption|]); (split; [eassumption|]);
    (split; [eassumption|]).
  - match goal with Hr : negb (_ =? 0) = true |- _ =>
      apply negb_true_iff, Z.eqb_neq in Hr end.
    match goal with Hc : collector_IsInToSpace _ _ = Ok (?a, _) |- _ => destruct a end;
      cbn [negb]; auto.
  - match goal with Hr : negb (_ =? 0) = false |- _ =>
      apply negb_false_iff, Z.eqb_eq in Hr end.
    auto.
  - auto.
Qed.

(** C6.  ProcessMarkStackRef in a build with the Baker read barrier.  When it
    returns: (1) in a debug build the reference was gray; (2) Scan has run on
    it, which passes every reference field, in order, to Process, and Process
    forwards the field through Mark; (3) in a debug build the reference is
    still gray after Scan; (4) with [leave_gray] the test of the source,
    evaluated after Scan (the object is of a Reference class, its referent is
    not null and not in the to-space), the object keeps its color when
    [leave_gray] holds, and else is changed from gray to white; nothing else
    in the heap changes after Scan. *)
Theorem ProcessMarkStackRef_gray_to_white (fuel self : nat) (to_ref : Z) (s s' : State) :
  kUseBakerReadBarrier E = true ->
  ProcessMarkStackRef fuel self to_ref s = Ok (tt, s') ->
  let s0 := set_processed (to_ref :: processed s) s in
  (kIsDebugBuild E = true -> exists o, heap s !! to_ref = Some o /\ rb_ptr o = GrayPtr) /\
  (exists o s1,
     heap s !! to_ref = Some o /\
     for_each (seq 0 (List.length (ref_fields o))) (Process fuel self to_ref) s0
     = Ok (tt, s1)) /\
  (forall offset sa sb,
     Process fuel self to_ref offset sa = Ok (tt, sb) ->
     exists ref ref' s1,
       slot_holds (FieldSlot to_ref offset) sa ref /\
       Mark fuel self false ref sa = Ok (ref', s1) /\
       if ref' =? ref then sb = s1
       else update_loop fuel (FieldSlot to_ref offset) ref ref' UpdateLoad s1 = Ok (tt, sb)) /\
  exists s2 o2 leave_gray,
    Scan fuel self to_ref s0 = Ok (tt, s2) /\
    heap s2 !! to_ref = Some o2 /\
    (kIsDebugBuild E = true -> rb_ptr o2 = GrayPtr) /\
    reference_with_unmarked_referent to_ref s2 = Ok (leave_gray, s2) /\
    (exists oc d,
       heap s2 !! klass o2 = Some oc /\ class_data oc = Some d /\
       if leave_gray
       then reference_class d = true /\ referent o2 <> 0 /\
            collector_IsInToSpace (referent o2) s2 = Ok (false, s2)
       else reference_class d = false \/ referent o2 = 0 \/
            collector_IsInToSpace (referent o2) s2 = Ok (true, s2)) /\
    heap s' =
      (if leave_gray then heap s2
       else if decide (rb_ptr o2 = GrayPtr)
            then <[to_ref := set_rb_ptr WhitePtr o2]> (heap s2)
            else heap s2) /\
    exists o', heap s' !! to_ref = Some o' /\
      rb_ptr o' = (if leave_gray then rb_ptr o2
                   else if decide (rb_ptr o2 = GrayPtr) then WhitePtr else rb_ptr o2).
Proof.
  intros Hbaker H s0. unfold ProcessMarkStackRef in H. rewrite Hbaker in H.
  apply bind_Ok in H as (u0 & s1 & H0 & H). inv_step H0. fold s0 in H.
  apply bind_Ok in H as (u1 & s1 & H1 & H).
  assert (K1 : keeps (fun s => s) (DCHECK (ret (negb (IsInFromSpace to_ref))))) by keeps_tac.
  apply K1 in H1. cbv beta in H1. subst s1.
  apply bind_Ok in H as (u2 & s1 & H2 & H). unfold when in H2.
  apply DCHECK_rb_is in H2 as [-> Hgray].
  apply bind_Ok in H as (u3 & s2 & Hscan & H). destruct u3.
  apply bind_Ok in H as (u4 & s3 & H4 & H). unfold when in H4.
  apply DCHECK_rb_is in H4 as [-> Hgray2].
  apply bind_Ok in H as (u5 & s3 & H5 & H).
  apply bind_Ok in H5 as (leave_gray & s4 & Hleave & H5).
  pose proof (reference_with_unmarked_referent_Ok _ _ _ _ Hleave)
    as (-> & o2 & oc & d & Ho2 & Hoc & Hd & Hcond).
  assert (Hrest : heap s' = heap s3).
  { revert H. match goal with |- ?c _ = Ok _ -> _ => assert (K : keeps heap c) by keeps_tac end.
    apply K. }
  split; [exact Hgray|].
  split; [apply Scan_fields in Hscan as (o & s1 & Ho & Hf); eauto|].
  split; [intros offset sa sb; apply Process_update|].
  exists s2, o2, leave_gray.
  split; [exact Hscan|]. split; [exact Ho2|].
  split; [intros Hdebug; destruct (Hgray2 Hdebug) as (o & Ho & Hrb); congruence|].
  split; [exact Hleave|].
  split; [exists oc, d; auto|].
  rewrite Hrest. destruct leave_gray.
  - assert (Hs3 : s3 = s2).
    { revert H5. match goal with |- ?c _ = Ok _ -> _ =>
        assert (K : keeps (fun s => s) c) by keeps_tac end.
      apply K. }
    subst s3. split; [reflexivity|]. exists o2. auto.
  - apply bind_Ok in H5 as (success & s5 & Hcas & H5).
    assert (Hs3 : s3 = s5).
    { revert H5. match goal with |- ?c _ = Ok _ -> _ =>
        assert (K : keeps (fun s => s) c) by keeps_tac end.
      apply K. }
    subst s5.
    apply AtomicSetReadBarrierPointer_Ok in Hcas as (o & Ho & Hcas).
    rewrite Ho2 in Ho. simplify_eq.
    destruct (decide (rb_ptr o = GrayPtr)); destruct Hcas as [_ ->].
    + split; [reflexivity|]. cbn [heap set_heap]. rewrite lookup_insert_eq.
      eexists. split; reflexivity.
    + split; [reflexivity|]. exists o. auto.
Qed.

(** *** The steps of the frames, one by one *)

Lemma without_mark_stacks_view (s s' : State) :
  without_mark_stacks s' = without_mark_stacks s -> view s' = view s.
Proof.
  intros H. unfold view.
  pose proof (f_equal heap H) as H1. pose proof (f_equal mark_bitmap H) as H2.
  pose proof (f_equal skipped_blocks_map H) as H3. pose proof (f_equal objects_moved H) as H4.
  pose proof (f_equal bytes_moved H) as H5. cbn in *. congruence.
Qed.

(** Turns what is known of the mark-stack pushes into equations on the view. *)
Ltac use_masks :=
  repeat match goal with
  | H : without_mark_stacks _ = without_mark_stacks _ /\ _ |- _ =>
      let Hv := fresh "Hview" in
      destruct H as [Hv _]; apply without_mark_stacks_view in Hv; unfold view in Hv; cbn in Hv;
      let H1 := fresh "Hheap" in let H2 := fresh "Hbitmap" in let H3 := fresh "Hmap" in
      let H4 := fresh "Hom" in let H5 := fresh "Hbm" in
      injection Hv as H1 H2 H3 H4 H5;
      rewrite ?H1, ?H2, ?H3, ?H4, ?H5 in *
  end.

Lemma Mark_step_spec (t : nat) (g : bool) (ref : Z) (s s' : State) (r : FrameStep) :
  Mark_step t g ref s = Ok (r, s') ->
  skipped_blocks_map s' = skipped_blocks_map s /\
  objects_moved s' = objects_moved s /\ bytes_moved s' = bytes_moved s /\
  mark_bitmap s ⊆ mark_bitmap s' /\
  (heap s' = heap s \/
   exists o, heap s !! ref = Some o /\ heap s' = <[ref := set_rb_ptr GrayPtr o]> (heap s)) /\
  ((r = Return ref /\ (ref = 0 \/ IsInFromSpace ref = false)) \/
   (ref <> 0 /\ IsInFromSpace ref = true /\ heap s' = heap s /\
    exists o, heap s !! ref = Some o /\
      (r = Goto (FCopy CopyEntry (entry_locals ref)) \/
       exists v, monitor o = LwForwardingAddress v /\ v <> 0 /\ r = Return v))).
Proof.
  unfold Mark_step. intros H.
  destruct (ref =? 0) eqn:Hz.
  { inv_step H. apply Z.eqb_eq in Hz. subst. repeat split; auto. }
  apply Z.eqb_neq in Hz.
  destruct (GetRegionType E ref) eqn:Hreg.
  - unfold GetFwdPtr in H. inv_exec.
    all: repeat (split; [reflexivity || done|]).
    all: (split; [left; reflexivity|]); right.
    all: unfold IsInFromSpace; rewrite Hreg, bool_decide_eq_true_2 by reflexivity.
    all: repeat (split; [done|]); eexists; (split; [eassumption|]).
    all: try (left; reflexivity).
    right. destruct (monitor o) as [| | | |v] eqn:Hm; try discriminate.
    exists v. cbn in *. split; [reflexivity|]. split; [|reflexivity].
    apply Z.eqb_neq. assumption.
  - assert (Hnf : IsInFromSpace ref = false)
      by (unfold IsInFromSpace; rewrite Hreg; apply bool_decide_eq_false_2; discriminate).
    unfold MarkUnevacFromSpaceRegion in H. inv_exec; use_masks; cbn; repeat split.
    all: first [ reflexivity | done | left; reflexivity | left; split; [reflexivity | auto]
               | right; eexists; split; [eassumption | reflexivity] ].
  - assert (Hnf : IsInFromSpace ref = false)
      by (unfold IsInFromSpace; rewrite Hreg; apply bool_decide_eq_false_2; discriminate).
    inv_exec; repeat split.
    all: first [ reflexivity | done | left; reflexivity | left; split; [reflexivity | auto] ].
  - assert (Hnf : IsInFromSpace ref = false)
      by (unfold IsInFromSpace; rewrite Hreg; apply bool_decide_eq_false_2; discriminate).
    destruct (immune_ContainsObject E ref).
    + unfold MarkImmuneSpace in H. inv_exec; use_masks; cbn; repeat split.
      all: first [ reflexivity | done | left; reflexivity | left; split; [reflexivity | auto]
                 | right; eexists; split; [eassumption | reflexivity] ].
    + unfold MarkNonMoving in H. inv_exec; use_masks; cbn; repeat split.
      all: first [ reflexivity | done | apply union_subseteq_r
                 | left; reflexivity | left; split; [reflexivity | auto]
                 | right; eexists; split; [eassumption | reflexivity] ].
Qed.

Lemma fresh_true (a : Z) (s : State) : fresh a s = true -> a <> 0 /\ heap s !! a = None.
Proof.
  unfold fresh. intros H. apply andb_true_iff in H as [H1 H2].
  apply negb_true_iff, Z.eqb_neq in H1. apply bool_decide_eq_true in H2. auto.
Qed.

Lemma Copy_entry_spec (l : CopyLocals) (s s' : State) (r : FrameStep) :
  Copy_entry l s = Ok (r, s') ->
  mark_bitmap s' = mark_bitmap s /\ skipped_blocks_map s' = skipped_blocks_map s /\
  objects_moved s' = objects_moved s /\ bytes_moved s' = bytes_moved s /\
  exists size,
    returns (SizeOf (from_ref l)) s size /\
    let l1 := with_sizes size (RoundUp size (kAlignment E)) l in
    (r = Goto (FCopy CopyTrySkipped l1) /\ heap s' = heap s) \/
    (exists a, heap s !! a = None /\ a <> 0 /\ IsInToSpace a = true /\
       heap s' = <[a := zeroed_object]> (heap s) /\
       r = Goto (FCopy CopyLoopHead (with_to_ref a (RoundUp size (kAlignment E)) l1))).
Proof.
  unfold Copy_entry. intros H. inv_exec.
  all: repeat (split; [reflexivity|]); eexists; (split; [eassumption|]); cbv zeta.
  all: try (left; split; reflexivity).
  all: try match goal with Hf : fresh _ _ && IsInToSpace _ = true |- _ =>
         apply andb_true_iff in Hf as [Hf ?]; apply fresh_true in Hf as [? ?] end.
  all: try (right; eexists; repeat split; eauto; fail).
  all: exfalso; unfold fresh in *;
    repeat match goal with
    | H : (0 =? 0) = false |- _ => discriminate H
    | H : (?a =? 0) = true |- _ => apply Z.eqb_eq in H; subst
    end; cbn in *; try discriminate; try congruence.
Qed.

Lemma Copy_try_skipped_spec (l : CopyLocals) (s s' : State) (r : FrameStep) :
  Copy_try_skipped l s = Ok (r, s') ->
  mark_bitmap s' = mark_bitmap s /\
  objects_moved s' = objects_moved s /\ bytes_moved s' = bytes_moved s /\
  let alloc_size := region_space_alloc_size l in
  (r = Goto (FCopy CopyNonMovingFallback l) /\ heap s' = heap s /\
   skipped_blocks_map s' = skipped_blocks_map s) \/
  (exists k size addr,
     skipped_blocks_map s !! k = Some (size, addr) /\ IsInToSpace addr = true /\
     skipped_blocks_map s' = delete k (skipped_blocks_map s) /\
     ((heap s' = <[addr := zeroed_object]> (heap s) /\
       r = Goto (FCopy CopyLoopHead (with_to_ref addr alloc_size l))) \/
      (addr + alloc_size <> addr /\ heap s !! (addr + alloc_size) = None /\
       IsInToSpace (addr + alloc_size) = true /\
       heap s' = <[addr + alloc_size := zeroed_object]> (<[addr := zeroed_object]> (heap s)) /\
       r = Call (FCopy CopySkippedRemainder (with_skipped addr size l))
                (FFillEntry (addr + alloc_size) (size - alloc_size))))).
Proof.
  unfold Copy_try_skipped. intros H. inv_exec.
  all: repeat (split; [reflexivity|]); cbv zeta.
  all: try (left; repeat split; reflexivity).
  all: right; eexists _, _, _; (split; [eassumption|]); (split; [assumption|]);
    (split; [reflexivity|]).
  all: try (left; split; reflexivity).
  all: right;
    match goal with Hf : fresh _ _ && IsInToSpace _ = true |- _ =>
      apply andb_true_iff in Hf as [Hf ?]; apply fresh_true in Hf as [? Hf]; cbn in Hf end.
  all: match goal with Hf : <[?a := _]> _ !! ?b = None |- _ =>
         apply lookup_insert_None in Hf as [? ?] end.
  all: repeat split; auto.
Qed.

Lemma multimap_insert_Permutation (e : Z * Z) (m : list (Z * Z)) :
  multimap_insert e m ≡ₚ e :: m.
Proof.
  induction m as [|e' m IH]; cbn; [reflexivity|].
  destruct (fst e' <=? fst e); [|reflexivity].
  rewrite IH. apply Permutation_swap.
Qed.

Lemma Copy_skipped_remainder_spec (l : CopyLocals) (s s' : State) (r : FrameStep) :
  Copy_skipped_remainder l s = Ok (r, s') ->
  heap s' = heap s /\ mark_bitmap s' = mark_bitmap s /\
  objects_moved s' = objects_moved s /\ bytes_moved s' = bytes_moved s /\
  IsInToSpace (skipped_addr l + region_space_alloc_size l) = true /\
  skipped_blocks_map s' =
    multimap_insert (skipped_byte_size l - region_space_alloc_size l,
                     skipped_addr l + region_space_alloc_size l) (skipped_blocks_map s) /\
  r = Goto (FCopy CopyLoopHead (with_to_ref (skipped_addr l) (region_space_alloc_size l) l)).
Proof. unfold Copy_skipped_remainder. intros H. inv_exec. repeat split; auto. Qed.

Lemma Copy_non_moving_fallback_spec (l : CopyLocals) (s s' : State) (r : FrameStep) :
  Copy_non_moving_fallback l s = Ok (r, s') ->
  skipped_blocks_map s' = skipped_blocks_map s /\
  objects_moved s' = objects_moved s /\ bytes_moved s' = bytes_moved s /\
  exists a n,
    heap s !! a = None /\ a <> 0 /\
    GetRegionType E a = kRegionTypeNone /\ immune_ContainsObject E a = false /\
    has_space_bitmap E a = true /\ non_moving_HasAddress E a = true /\
    heap s' = <[a := zeroed_object]> (heap s) /\
    mark_bitmap s' = {[a]} ∪ mark_bitmap s /\
    r = Goto (FCopy CopyLoopHead (with_fallback a n l)).
Proof.
  unfold Copy_non_moving_fallback. intros H. inv_exec.
  all: repeat (split; [reflexivity|]).
  all: try match goal with Hc : negb (0 =? 0) = true |- _ => discriminate Hc end.
  eexists _, _.
  repeat match goal with
  | Hf : _ && _ = true |- _ => apply andb_true_iff in Hf as [Hf ?]
  end.
  match goal with Hf : fresh _ _ = true |- _ => apply fresh_true in Hf as [? ?] end.
  match goal with Hf : bool_decide (_ = kRegionTypeNone) = true |- _ =>
    apply bool_decide_eq_true in Hf end.
  match goal with Hf : negb (immune_ContainsObject _ _) = true |- _ =>
    apply negb_true_iff in Hf end.
  repeat split; eauto.
Qed.

Lemma Copy_loop_head_spec (l : CopyLocals) (s s' : State) (r : FrameStep) :
  Copy_loop_head l s = Ok (r, s') ->
  mark_bitmap s' = mark_bitmap s /\ skipped_blocks_map s' = skipped_blocks_map s /\
  objects_moved s' = objects_moved s /\ bytes_moved s' = bytes_moved s /\
  exists o,
    heap s !! from_ref l = Some o /\ heap s' = <[to_ref l := o]> (heap s) /\
    r = if is_forwarding (monitor o)
        then Call (FCopy CopyLostRace (with_old_lock_word (monitor o) l))
                  (FFillEntry (to_ref l) (bytes_allocated l))
        else Goto (FCopy CopySetGray (with_old_lock_word (monitor o) l)).
Proof.
  unfold Copy_loop_head. intros H. apply bind_Ok in H as (o & s1 & H1 & H).
  inv_step H1. apply bind_Ok in H as (u & s2 & H2 & H). inv_step H2.
  apply bind_Ok in H as (lw & s3 & H3 & H). inv_step H3.
  match goal with Hl : heap (set_heap _ _) !! _ = Some _ |- _ =>
    cbn in Hl; rewrite lookup_insert_eq in Hl; simplify_eq end.
  destruct (monitor o) eqn:Hm; cbn in H; inv_step H.
  all: repeat (split; [reflexivity|]); exists o; rewrite Hm; repeat split; assumption.
Qed.

Lemma Copy_lost_race_spec (l : CopyLocals) (s s' : State) (r : FrameStep) :
  Copy_lost_race l s = Ok (r, s') ->
  objects_moved s' = objects_moved s /\ bytes_moved s' = bytes_moved s /\
  r = Return (ForwardingAddress (old_lock_word l)) /\
  ForwardingAddress (old_lock_word l) <> 0 /\
  ForwardingAddress (old_lock_word l) <> to_ref l /\
  ((fall_back_to_non_moving l = false /\ kRegionSize E < bytes_allocated l /\
    heap s' = delete (to_ref l) (heap s) /\
    mark_bitmap s' = mark_bitmap s /\ skipped_blocks_map s' = skipped_blocks_map s) \/
   (fall_back_to_non_moving l = false /\ bytes_allocated l <= kRegionSize E /\
    heap s' = heap s /\ mark_bitmap s' = mark_bitmap s /\
    skipped_blocks_map s' =
      multimap_insert (bytes_allocated l, to_ref l) (skipped_blocks_map s)) \/
   (fall_back_to_non_moving l = true /\ has_space_bitmap E (to_ref l) = true /\
    to_ref l ∈ mark_bitmap s /\
    heap s' = delete (to_ref l) (heap s) /\
    mark_bitmap s' = mark_bitmap s ∖ {[to_ref l]} /\
    skipped_blocks_map s' = skipped_blocks_map s)).
Proof.
  unfold Copy_lost_race. intros H. inv_exec.
  all: repeat (split; [reflexivity|]).
  all: repeat match goal with
       | Hc : negb (_ =? _) = true |- _ => apply negb_true_iff, Z.eqb_neq in Hc
       | Hc : (_ <? _) = true |- _ => apply Z.ltb_lt in Hc
       | Hc : (_ <? _) = false |- _ => apply Z.ltb_ge in Hc
       | Hc : negb ?b = true |- _ => apply negb_true_iff in Hc
       | Hc : negb ?b = false |- _ => apply negb_false_iff in Hc
       | Hc : true = bool_decide _ |- _ => symmetry in Hc; apply bool_decide_eq_true in Hc
       end.
  all: (split; [assumption|]); (split; [assumption|]); cbn.
  all: first [ left; repeat split; auto; fail
             | right; left; repeat split; auto; fail
             | right; right; repeat split; auto; fail ].
Qed.

Lemma Copy_set_gray_spec (l : CopyLocals) (s s' : State) (r : FrameStep) :
  Copy_set_gray l s = Ok (r, s') ->
  mark_bitmap s' = mark_bitmap s /\ skipped_blocks_map s' = skipped_blocks_map s /\
  objects_moved s' = objects_moved s /\ bytes_moved s' = bytes_moved s /\
  r = Goto (FCopy CopyCas l) /\
  ((kUseBakerReadBarrier E = true /\
    exists o, heap s !! to_ref l = Some o /\
              heap s' = <[to_ref l := set_rb_ptr GrayPtr o]> (heap s)) \/
   (kUseBakerReadBarrier E = false /\ heap s' = heap s)).
Proof.
  unfold Copy_set_gray. intros H. inv_exec.
  all: repeat (split; [reflexivity|]).
  - left. split; [first [assumption | reflexivity]|].
    eexists. split; [eassumption | reflexivity].
  - right. split; [first [assumption | reflexivity] | reflexivity].
Qed.

Lemma Copy_cas_spec (l : CopyLocals) (s s' : State) (r : FrameStep) :
  Copy_cas l s = Ok (r, s') ->
  mark_bitmap s' = mark_bitmap s /\ skipped_blocks_map s' = skipped_blocks_map s /\
  objects_moved s' = objects_moved s /\ bytes_moved s' = bytes_moved s /\
  exists o,
    heap s !! from_ref l = Some o /\
    ((monitor o = old_lock_word l /\
      heap s' = <[from_ref l := set_monitor (LwForwardingAddress (to_ref l)) o]> (heap s) /\
      r = Goto (FCopy CopyCountObject l)) \/
     (heap s' = heap s /\ r = Goto (FCopy CopyLoopHead l))).
Proof.
  unfold Copy_cas. intros H. inv_exec.
  all: repeat (split; [reflexivity|]); eexists; (split; [eassumption|]).
  all: try (right; split; reflexivity).
  all: left;
    match goal with Hc : _ && bool_decide _ = true |- _ =>
      apply andb_true_iff in Hc as [_ Hc]; apply bool_decide_eq_true in Hc end;
    repeat split; auto.
Qed.

Lemma Copy_count_object_spec (l : CopyLocals) (s s' : State) (r : FrameStep) :
  Copy_count_object l s = Ok (r, s') ->
  heap s' = heap s /\ mark_bitmap s' = mark_bitmap s /\
  skipped_blocks_map s' = skipped_blocks_map s /\
  objects_moved s' = wrap64 (objects_moved s + 1) /\ bytes_moved s' = bytes_moved s /\
  r = Goto (FCopy CopyCountBytes l).
Proof. unfold Copy_count_object. intros H. inv_exec. repeat split. Qed.

Lemma Copy_count_bytes_spec (l : CopyLocals) (s s' : State) (r : FrameStep) :
  Copy_count_bytes l s = Ok (r, s') ->
  heap s' = heap s /\ mark_bitmap s' = mark_bitmap s /\
  skipped_blocks_map s' = skipped_blocks_map s /\
  objects_moved s' = objects_moved s /\
  bytes_moved s' = wrap64 (bytes_moved s + region_space_alloc_size l) /\
  r = Goto (FCopy CopyPush l).
Proof. unfold Copy_count_bytes. intros H. inv_exec. repeat split. Qed.

Lemma Copy_push_spec (t : nat) (l : CopyLocals) (s s' : State) (r : FrameStep) :
  Copy_push t l s = Ok (r, s') ->
  view s' = view s /\ r = Return (to_ref l) /\ on_mark_stack t (to_ref l) s'.
Proof.
  unfold Copy_push. intros H. inv_exec.
  all: match goal with Hm : without_mark_stacks _ = without_mark_stacks _ /\ _ |- _ =>
         destruct Hm as [Hm Hon]; apply without_mark_stacks_view in Hm end.
  all: repeat split; assumption.
Qed.

Lemma FillWithDummyObject_enter_spec (t : nat) (d n : Z) (s s' : State) (r : FrameStep) :
  FillWithDummyObject_enter t d n s = Ok (r, s') ->
  heap s' = <[d := zeroed_object]> (heap s) /\ mark_bitmap s' = mark_bitmap s /\
  skipped_blocks_map s' = skipped_blocks_map s /\
  objects_moved s' = objects_moved s /\ bytes_moved s' = bytes_moved s /\
  exists en, r = Call (FFillAwait d n en) (FMark true (int_array_class s)).
Proof.
  unfold FillWithDummyObject_enter. intros H. inv_exec.
  all: repeat (split; [reflexivity|]); eexists; reflexivity.
Qed.

Lemma FillWithDummyObject_rest_spec (t : nat) (d n : Z) (en : bool) (c : Z) (s s' : State)
    (r : FrameStep) :
  FillWithDummyObject_rest t d n en c s = Ok (r, s') ->
  mark_bitmap s' = mark_bitmap s /\ skipped_blocks_map s' = skipped_blocks_map s /\
  objects_moved s' = objects_moved s /\ bytes_moved s' = bytes_moved s /\
  r = Return 0 /\
  exists o o', heap s !! d = Some o /\ heap s' = <[d := o']> (heap s).
Proof.
  unfold FillWithDummyObject_rest. intros H. inv_exec.
  all: cbn in *; rewrite ?insert_insert_eq.
  all: repeat (split; [reflexivity|]); eexists _, _; split; [eassumption | reflexivity].
Qed.

(** *** Ownership *)

Lemma IsInToSpace_not_from (a : Z) : IsInToSpace a = true -> IsInFromSpace a = false.
Proof.
  unfold IsInToSpace, IsInFromSpace. intros H. apply bool_decide_eq_true in H.
  apply bool_decide_eq_false_2. congruence.
Qed.

Lemma region_none_not_from (a : Z) :
  GetRegionType E a = kRegionTypeNone -> IsInFromSpace a = false.
Proof. unfold IsInFromSpace. intros H. apply bool_decide_eq_false_2. congruence. Qed.

Lemma good_target_not_from (s : State) (t : Z) : good_target s t -> IsInFromSpace t = false.
Proof.
  intros [H|(H & _)]; [apply IsInToSpace_not_from | apply region_none_not_from]; exact H.
Qed.

Lemma target_ok_good (s : State) (l : CopyLocals) : target_ok s l -> good_target s (to_ref l).
Proof. unfold target_ok, good_target. destruct (fall_back_to_non_moving l); auto. Qed.

Lemma submseteq_NoDup {A : Type} (l k : list A) : l ⊆+ k -> NoDup k -> NoDup l.
Proof.
  intros Hs Hk. apply submseteq_Permutation in Hs as [k' Hk'].
  rewrite Hk' in Hk. apply NoDup_app in Hk. tauto.
Qed.

Lemma obj_change_is_Some (pub : option (Z * Z)) (a : Z) (x y : option Object) :
  obj_change pub a x y -> is_Some x -> is_Some y.
Proof. intros Hc Hx. destruct Hc; eauto. Qed.

Lemma obj_change_forwarding (pub : option (Z * Z)) (a : Z) (x y : option Object)
    (lw : LockWord) :
  obj_change pub a x y -> monitor <$> x = Some lw -> is_forwarding lw = true ->
  monitor <$> y = Some lw.
Proof.
  intros Hc Hx Hf. destruct Hc; cbn in *; simplify_eq; try reflexivity; congruence.
Qed.

Lemma obj_change_gray (pub : option (Z * Z)) (a : Z) (x y : option Object) :
  obj_change pub a x y -> rb_ptr <$> x = Some GrayPtr -> rb_ptr <$> y = Some GrayPtr.
Proof. intros Hc Hx. destruct Hc; cbn in *; simplify_eq; try reflexivity; congruence. Qed.

Lemma obj_change_not_black (pub : option (Z * Z)) (a : Z) (x y : option Object) :
  obj_change pub a x y -> is_Some x -> rb_ptr <$> x <> Some BlackPtr ->
  rb_ptr <$> y <> Some BlackPtr.
Proof.
  intros Hc [o0 Ho] Hx. destruct Hc; cbn in *; simplify_eq; try assumption; discriminate.
Qed.

(** What stays of the forwarding addresses of the from-space objects. *)
Lemma obj_change_forwarded (pub : option (Z * Z)) (a : Z) (x : option Object) (o' : Object)
    (t : Z) :
  obj_change pub a x (Some o') -> IsInFromSpace a = true ->
  monitor o' = LwForwardingAddress t ->
  (exists o, x = Some o /\ monitor o = LwForwardingAddress t) \/ pub = Some (a, t).
Proof.
  intros H Hfrom Hm. inversion H; subst; cbn in *.
  - left. eauto.
  - left. eauto.
  - rewrite Hm in *. discriminate.
  - right. simplify_eq. first [assumption | reflexivity].
  - congruence.
Qed.

Lemma owned_frame_resume (caller : Frame) (v : Z) :
  owned_frame (resume caller v) = owned_frame caller.
Proof. destruct caller as [| [] | | |]; reflexivity. Qed.

Lemma owned_after_return (v : Z) (rest : list Frame) :
  owned_activity (after_step (Return v) rest) = rest ≫= owned_frame.
Proof.
  destruct rest as [|caller rest']; cbn; [reflexivity|].
  rewrite owned_frame_resume. reflexivity.
Qed.

Lemma stack_ok_resume (caller : Frame) (v : Z) (rest : list Frame) :
  stack_ok (caller :: rest) -> stack_ok (resume caller v :: rest).
Proof. destruct caller as [| [] | | |]; cbn; auto. Qed.

Lemma stack_ok_tail (f : Frame) (rest : list Frame) : stack_ok (f :: rest) -> stack_ok rest.
Proof. cbn. tauto. Qed.

Lemma stack_ok_waiting (f : Frame) (rest : list Frame) :
  stack_ok (f :: rest) -> Forall waiting rest.
Proof.
  revert f. induction rest as [|f' rest IH]; intros f H; [constructor|].
  constructor; [|eapply IH, stack_ok_tail; exact H].
  destruct H as [H _].
  destruct f as [| | | |]; destruct f' as [| [] | | |]; cbn in *; tauto.
Qed.

Lemma frame_ok_resume (s : State) (caller : Frame) (v : Z) :
  frame_ok s caller -> frame_ok s (resume caller v).
Proof. destruct caller as [| [] | | |]; cbn; auto. Qed.

Lemma activity_ok_return (s : State) (f : Frame) (rest : list Frame) (v : Z) :
  Forall (frame_ok s) rest -> stack_ok (f :: rest) ->
  activity_ok s (after_step (Return v) rest).
Proof.
  intros Hok Hst. destruct rest as [|caller rest']; cbn; [exact I|].
  apply stack_ok_tail in Hst. inversion Hok; subst.
  split; [constructor; [apply frame_ok_resume|]; assumption|].
  apply stack_ok_resume. exact Hst.
Qed.

(** A frame keeps its facts over a step of another frame. *)
Lemma frame_ok_preserved (pub : option (Z * Z)) (W Wb : list Z) (s s' : State) (f : Frame) :
  (forall a, a ∉ W -> obj_change pub a (heap s !! a) (heap s' !! a)) ->
  (forall a, a ∉ Wb -> a ∈ mark_bitmap s -> a ∈ mark_bitmap s') ->
  (forall a, a ∈ W -> IsInFromSpace a = false) ->
  (forall a, a ∈ owned_frame f -> a ∉ Wb) ->
  match f with FCopy CopyCas l => to_ref l ∉ W | _ => True end ->
  frame_ok s f -> frame_ok s' f.
Proof.
  intros Hheap Hbit HW HWb Hcas Hok.
  destruct f as [g ref|pc l|d n|d n en|d n en c]; try exact I.
  destruct Hok as [Hfrom Hok]. split; [exact Hfrom|].
  assert (HfW : from_ref l ∉ W) by (intros Hin; apply HW in Hin; congruence).
  assert (Htarget : to_ref l ∉ Wb -> target_ok s l -> target_ok s' l).
  { intros Hnb. unfold target_ok, non_moving_target.
    destruct (fall_back_to_non_moving l); [|auto].
    intros (? & ? & ? & ? & ?). repeat split; auto. }
  assert (Hlock : forall lw, is_forwarding lw = true ->
            lock_word_at s (from_ref l) = Some lw -> lock_word_at s' (from_ref l) = Some lw).
  { intros lw Hlw Hl. unfold lock_word_at in *.
    eapply obj_change_forwarding; [apply Hheap, HfW | exact Hl | exact Hlw]. }
  destruct pc; cbn in *.
  - exact Hok.
  - exact Hok.
  - exact Hok.
  - exact Hok.
  - apply Htarget; [apply HWb; set_solver | exact Hok].
  - destruct Hok as (Ht & Hf & Hl). split; [apply Htarget; [apply HWb; set_solver | exact Ht]|].
    split; [exact Hf|]. apply Hlock; assumption.
  - destruct Hok as (Ht & Hf). split; [apply Htarget; [apply HWb; set_solver | exact Ht]|].
    exact Hf.
  - destruct Hok as (Ht & Hf & Hrb).
    split; [apply Htarget; [apply HWb; set_solver | exact Ht]|]. split; [exact Hf|].
    intros Hb. unfold rb_at in *.
    eapply obj_change_gray; [apply Hheap, Hcas | apply Hrb, Hb].
  - apply Hlock; [reflexivity | exact Hok].
  - apply Hlock; [reflexivity | exact Hok].
  - apply Hlock; [reflexivity | exact Hok].
Qed.

Lemma rest_ok_preserved (pub : option (Z * Z)) (W Wb : list Z) (s s' : State)
    (rest : list Frame) :
  (forall a, a ∉ W -> obj_change pub a (heap s !! a) (heap s' !! a)) ->
  (forall a, a ∉ Wb -> a ∈ mark_bitmap s -> a ∈ mark_bitmap s') ->
  (forall a, a ∈ W -> IsInFromSpace a = false) ->
  (forall a, a ∈ rest ≫= owned_frame -> a ∉ Wb) ->
  Forall waiting rest ->
  Forall (frame_ok s) rest -> Forall (frame_ok s') rest.
Proof.
  intros Hheap Hbit HW HWb Hwait Hok.
  induction rest as [|f rest IH]; [constructor|].
  inversion Hwait; subst. inversion Hok; subst.
  constructor.
  - eapply frame_ok_preserved; eauto.
    + intros a Ha. apply HWb. cbn. apply elem_of_app. left. exact Ha.
    + destruct f as [| [] | | |]; cbn in *; tauto.
  - apply IH; auto. intros a Ha. apply HWb. cbn. apply elem_of_app. right. exact Ha.
Qed.

Lemma obj_change_same_heap (pub : option (Z * Z)) (h h' : gmap Z Object) :
  h' = h -> forall a, obj_change pub a (h !! a) (h' !! a).
Proof. intros -> a. constructor. Qed.

Lemma obj_change_insert_gray (pub : option (Z * Z)) (h h' : gmap Z Object) (x : Z)
    (o : Object) :
  h !! x = Some o -> h' = <[x := set_rb_ptr GrayPtr o]> h ->
  forall a, obj_change pub a (h !! a) (h' !! a).
Proof.
  intros Hx -> a. destruct (decide (a = x)) as [->|Hne].
  - rewrite lookup_insert_eq, Hx. constructor.
  - rewrite lookup_insert_ne by congruence. constructor.
Qed.

Lemma obj_change_insert_fresh (pub : option (Z * Z)) (h h' : gmap Z Object) (x : Z)
    (o : Object) :
  h !! x = None -> IsInFromSpace x = false -> h' = <[x := o]> h ->
  forall a, obj_change pub a (h !! a) (h' !! a).
Proof.
  intros Hx Hnf -> a. destruct (decide (a = x)) as [->|Hne].
  - rewrite lookup_insert_eq, Hx. constructor. exact Hnf.
  - rewrite lookup_insert_ne by congruence. constructor.
Qed.

Lemma obj_change_insert_owned (pub : option (Z * Z)) (h h' : gmap Z Object) (w : Z)
    (o : Object) :
  h' = <[w := o]> h -> forall a, a ∉ [w] -> obj_change pub a (h !! a) (h' !! a).
Proof.
  intros -> a Ha. rewrite lookup_insert_ne by (intros ->; apply Ha; set_solver). constructor.
Qed.

Lemma obj_change_delete_owned (pub : option (Z * Z)) (h h' : gmap Z Object) (w : Z) :
  h' = delete w h -> forall a, a ∉ [w] -> obj_change pub a (h !! a) (h' !! a).
Proof.
  intros -> a Ha. rewrite lookup_delete_ne by (intros ->; apply Ha; set_solver). constructor.
Qed.

(** A step that writes nothing of its own, allocates nothing and publishes
    nothing. *)
Lemma step_own_public (s s' : State) (mine : list Z) (act' : Activity) :
  (forall a, obj_change None a (heap s !! a) (heap s' !! a)) ->
  mark_bitmap s ⊆ mark_bitmap s' ->
  skipped_blocks_map s' = skipped_blocks_map s ->
  owned_activity act' = mine ->
  (forall a, a ∈ mine ++ (skipped_blocks_map s).*2 ->
     is_Some (heap s !! a) /\ IsInFromSpace a = false) ->
  activity_ok s' act' ->
  step_own None s s' mine act'.
Proof.
  intros Hheap Hbit Hmap Hown Hin Hok.
  exists [], [], []. rewrite Hmap, Hown.
  split; [intros a _; apply Hheap|].
  split; [intros a _ Ha; apply Hbit, Ha|].
  split; [intros a Ha; cbn in Ha; set_solver|].
  split; [constructor|].
  split; [intros a Ha; set_solver|].
  split; [reflexivity|].
  split; [|split; [exact Hok | exact I]].
  intros a Ha. destruct (Hin a Ha) as [Hs Hf]. split; [|exact Hf].
  eapply obj_change_is_Some; [apply Hheap | exact Hs].
Qed.

Lemma stack_ok_replace_top (f f' : Frame) (rest : list Frame) :
  match f with FMark _ _ | FCopy _ _ => True | _ => False end ->
  match f' with FMark _ _ | FCopy _ _ => True | _ => False end ->
  stack_ok (f :: rest) -> stack_ok (f' :: rest).
Proof. destruct f, f'; cbn; tauto. Qed.

Lemma Mark_step_own (t : nat) (g : bool) (ref : Z) (rest : list Frame) (s s' : State)
    (r : FrameStep) :
  Mark_step t g ref s = Ok (r, s') ->
  Forall (frame_ok s) rest -> stack_ok (FMark g ref :: rest) ->
  (forall a, a ∈ (rest ≫= owned_frame) ++ (skipped_blocks_map s).*2 ->
     is_Some (heap s !! a) /\ IsInFromSpace a = false) ->
  step_own None s s' (rest ≫= owned_frame) (after_step r rest).
Proof.
  intros H Hrest Hst Hin.
  apply Mark_step_spec in H as (Hmap & _ & _ & Hbit & Hheap & Hr).
  assert (Hch : forall a, obj_change None a (heap s !! a) (heap s' !! a)).
  { destruct Hheap as [Hheap|(o & Ho & Hheap)];
      [apply obj_change_same_heap | eapply obj_change_insert_gray]; eauto. }
  assert (Hrest' : Forall (frame_ok s') rest).
  { eapply (rest_ok_preserved None [] []); eauto.
    - intros a Ha. set_solver.
    - intros a _. set_solver.
    - eapply stack_ok_waiting; eauto. }
  apply step_own_public; auto.
  - destruct Hr as [[-> _]|(_ & _ & _ & o & _ & [->|(v & _ & _ & ->)])];
      first [apply owned_after_return | reflexivity].
  - destruct Hr as [[-> _]|(_ & Hfrom & _ & o & _ & [->|(v & _ & _ & ->)])].
    + eapply activity_ok_return; eauto.
    + cbn. split; [constructor; [cbn; auto | exact Hrest']|].
      split; [apply Hst | eapply stack_ok_tail; eauto].
    + eapply activity_ok_return; eauto.
Qed.

Lemma step_own_general (s s' : State) (mine : list Z) (act' : Activity)
    (W Wb N : list Z) (pub : option (Z * Z)) :
  (forall a, a ∉ W -> obj_change pub a (heap s !! a) (heap s' !! a)) ->
  (forall a, a ∉ Wb -> a ∈ mark_bitmap s -> a ∈ mark_bitmap s') ->
  (forall a, a ∈ W ++ Wb -> a ∈ mine ++ (skipped_blocks_map s).*2) ->
  NoDup N -> (forall a, a ∈ N -> heap s !! a = None /\ IsInFromSpace a = false) ->
  owned_activity act' ++ (skipped_blocks_map s').*2
    ⊆+ N ++ mine ++ (skipped_blocks_map s).*2 ->
  (forall a, a ∈ N -> is_Some (heap s' !! a)) ->
  (forall a, a ∈ owned_activity act' ++ (skipped_blocks_map s').*2 ->
     is_Some (heap s !! a) -> is_Some (heap s' !! a)) ->
  (forall a, a ∈ mine ++ (skipped_blocks_map s).*2 ->
     is_Some (heap s !! a) /\ IsInFromSpace a = false) ->
  activity_ok s' act' ->
  match pub with
  | Some (x, t) =>
      t ∈ mine /\ (t ∉ owned_activity act' ++ (skipped_blocks_map s').*2) /\
      good_target s' t /\ is_Some (heap s' !! t) /\
      (kUseBakerReadBarrier E = true -> rb_at s' t = Some GrayPtr)
  | None => True
  end ->
  step_own pub s s' mine act'.
Proof.
  intros Hheap Hbit HW HN HNf Hsub HsomeN Hsome Hin Hok Hpub.
  exists W, Wb, N.
  split; [exact Hheap|]. split; [exact Hbit|]. split; [exact HW|]. split; [exact HN|].
  split; [intros a Ha; apply HNf, Ha|]. split; [exact Hsub|].
  split; [|split; [exact Hok | exact Hpub]].
  intros a Ha. pose proof Ha as Ha'.
  eapply elem_of_submseteq in Ha; [|exact Hsub].
  apply elem_of_app in Ha as [Ha|Ha].
  - split; [apply HsomeN, Ha | apply HNf, Ha].
  - split; [apply Hsome; [exact Ha' | apply Hin, Ha] | apply Hin, Ha].
Qed.

Lemma stack_ok_call_fill (d n : Z) (f : Frame) (rest : list Frame) :
  match f with
  | FCopy CopyLostRace l => to_ref l = d
  | FCopy CopySkippedRemainder l => skipped_addr l + region_space_alloc_size l = d
  | _ => False
  end ->
  stack_ok (f :: rest) -> stack_ok (FFillEntry d n :: f :: rest).
Proof. intros Hf Hst. cbn. split; [|exact Hst]. destruct f as [| [] | | |]; auto. Qed.

Lemma elem_of_skipped_addr (m : list (Z * Z)) (k : nat) (size addr : Z) :
  m !! k = Some (size, addr) -> addr ∈ m.*2.
Proof.
  intros H. apply list_elem_of_fmap. exists (size, addr). split; [reflexivity|].
  eapply list_elem_of_lookup_2; eauto.
Qed.

Lemma skipped_delete_Permutation (m : list (Z * Z)) (k : nat) (size addr : Z) :
  m !! k = Some (size, addr) -> m.*2 ≡ₚ addr :: (delete k m).*2.
Proof. intros H. rewrite (delete_Permutation m k _ H) at 1. reflexivity. Qed.

Lemma multimap_insert_addrs (e : Z * Z) (m : list (Z * Z)) :
  (multimap_insert e m).*2 ≡ₚ e.2 :: m.*2.
Proof. rewrite multimap_insert_Permutation. reflexivity. Qed.

Lemma rest_ok_public (pub : option (Z * Z)) (s s' : State) (f : Frame) (rest : list Frame) :
  (forall a, obj_change pub a (heap s !! a) (heap s' !! a)) ->
  (forall a, a ∈ mark_bitmap s -> a ∈ mark_bitmap s') ->
  stack_ok (f :: rest) ->
  Forall (frame_ok s) rest -> Forall (frame_ok s') rest.
Proof.
  intros Hheap Hbit Hst Hok.
  eapply (rest_ok_preserved pub [] []); eauto.
  - intros a Ha. apply elem_of_nil in Ha. destruct Ha.
  - intros a _. apply not_elem_of_nil.
  - eapply stack_ok_waiting; eauto.
Qed.

Lemma Copy_entry_own (l : CopyLocals) (rest : list Frame) (s s' : State) (r : FrameStep) :
  Copy_entry l s = Ok (r, s') ->
  Forall (frame_ok s) (FCopy CopyEntry l :: rest) -> stack_ok (FCopy CopyEntry l :: rest) ->
  (forall a, a ∈ (rest ≫= owned_frame) ++ (skipped_blocks_map s).*2 ->
     is_Some (heap s !! a) /\ IsInFromSpace a = false) ->
  step_own None s s' (rest ≫= owned_frame) (after_step r rest).
Proof.
  intros H Hok Hst Hin. inversion Hok as [|? ? Hf Hrest]; subst. destruct Hf as [Hfrom Hfb].
  apply Copy_entry_spec in H as (Hbit & Hmap & _ & _ & size & _ & Hr). cbv zeta in Hr.
  assert (Hb : forall x, x ∈ mark_bitmap s -> x ∈ mark_bitmap s')
    by (intros x Hx; rewrite Hbit; exact Hx).
  destruct Hr as [[-> Hheap]|(a & Ha & Ha0 & Hato & Hheap & ->)].
  - assert (Hch := obj_change_same_heap None _ _ Hheap).
    apply step_own_public; auto.
    cbn [after_step activity_ok]. split; [|eapply stack_ok_replace_top; [| |exact Hst]; exact I].
    constructor; [cbn; auto|]. eapply rest_ok_public; eauto.
  - pose proof (IsInToSpace_not_from _ Hato) as Hnf.
    assert (Hch := obj_change_insert_fresh None _ _ _ _ Ha Hnf Hheap).
    apply (step_own_general _ _ _ _ [] [] [a] None); auto.
    + intros x Hx. apply elem_of_nil in Hx. destruct Hx.
    + apply NoDup_singleton.
    + intros x Hx. apply list_elem_of_singleton in Hx. subst. auto.
    + rewrite Hmap. cbn. reflexivity.
    + intros x Hx. apply list_elem_of_singleton in Hx. subst.
      rewrite Hheap, lookup_insert_eq. eauto.
    + intros x _ Hx. rewrite Hheap. apply lookup_insert_is_Some'. right. exact Hx.
    + cbn [after_step activity_ok].
      split; [|eapply stack_ok_replace_top; [| |exact Hst]; exact I].
      constructor; [|eapply rest_ok_public; eauto].
      split; [exact Hfrom|]. unfold target_ok. cbn. rewrite Hfb. exact Hato.
Qed.

Lemma Copy_try_skipped_own (l : CopyLocals) (rest : list Frame) (s s' : State)
    (r : FrameStep) :
  Copy_try_skipped l s = Ok (r, s') ->
  Forall (frame_ok s) (FCopy CopyTrySkipped l :: rest) ->
  stack_ok (FCopy CopyTrySkipped l :: rest) ->
  (forall a, a ∈ (rest ≫= owned_frame) ++ (skipped_blocks_map s).*2 ->
     is_Some (heap s !! a) /\ IsInFromSpace a = false) ->
  step_own None s s' (rest ≫= owned_frame) (after_step r rest).
Proof.
  intros H Hok Hst Hin. inversion Hok as [|? ? Hf Hrest]; subst. destruct Hf as [Hfrom Hfb].
  apply Copy_try_skipped_spec in H as (Hbit & _ & _ & Hr). cbv zeta in Hr.
  assert (Hb : forall x, x ∈ mark_bitmap s -> x ∈ mark_bitmap s')
    by (intros x Hx; rewrite Hbit; exact Hx).
  destruct Hr as [(-> & Hheap & Hmap)|(k & size & addr & Hk & Hato & Hmap & Hr)].
  - assert (Hch := obj_change_same_heap None _ _ Hheap).
    apply step_own_public; auto.
    cbn [after_step activity_ok]. split; [|eapply stack_ok_replace_top; [| |exact Hst]; exact I].
    constructor; [cbn; auto|]. eapply rest_ok_public; eauto.
  - pose proof (IsInToSpace_not_from _ Hato) as Hnf.
    pose proof (elem_of_skipped_addr _ _ _ _ Hk) as Hmem.
    pose proof (skipped_delete_Permutation _ _ _ _ Hk) as Hperm.
    assert (HW : forall a, a ∈ [addr] ++ [] ->
                   a ∈ (rest ≫= owned_frame) ++ (skipped_blocks_map s).*2).
    { intros a Ha. cbn in Ha. apply list_elem_of_singleton in Ha. subst.
      apply elem_of_app. right. exact Hmem. }
    assert (HWf : forall a, a ∈ [addr] -> IsInFromSpace a = false).
    { intros a Ha. apply list_elem_of_singleton in Ha. subst. exact Hnf. }
    assert (Hnb : forall a, a ∉ @nil Z -> a ∈ mark_bitmap s -> a ∈ mark_bitmap s')
      by (intros a _; apply Hb).
    destruct Hr as [(Hheap & ->)|(Hne & Hrem & Hremto & Hheap & ->)].
    + assert (Hch := obj_change_insert_owned None _ _ _ _ Hheap).
      apply (step_own_general _ _ _ _ [addr] [] [] None); auto.
      * constructor.
      * intros a Ha. apply elem_of_nil in Ha. destruct Ha.
      * rewrite Hmap. cbn. rewrite Hperm. solve_submseteq.
      * intros a Ha. apply elem_of_nil in Ha. destruct Ha.
      * intros x _ Hx. rewrite Hheap. apply lookup_insert_is_Some'. right. exact Hx.
      * cbn [after_step activity_ok].
        split; [|eapply stack_ok_replace_top; [| |exact Hst]; exact I].
        constructor.
        -- split; [exact Hfrom|]. unfold target_ok. cbn. rewrite Hfb. exact Hato.
        -- eapply (rest_ok_preserved None [addr] []); eauto.
           ++ intros a _. apply not_elem_of_nil.
           ++ eapply stack_ok_waiting; eauto.
    + pose proof (IsInToSpace_not_from _ Hremto) as Hremnf.
      assert (Hch : forall a, a ∉ [addr] -> obj_change None a (heap s !! a) (heap s' !! a)).
      { intros a Ha. rewrite Hheap.
        destruct (decide (a = addr + region_space_alloc_size l)) as [->|Hane].
        - rewrite lookup_insert_eq, Hrem. constructor. exact Hremnf.
        - rewrite lookup_insert_ne by congruence.
          rewrite lookup_insert_ne by (intros ->; apply Ha; apply list_elem_of_singleton;
                                       reflexivity).
          constructor. }
      apply (step_own_general _ _ _ _ [addr] [] [addr + region_space_alloc_size l] None); auto.
      * apply NoDup_singleton.
      * intros a Ha. apply list_elem_of_singleton in Ha. subst. auto.
      * rewrite Hmap. cbn. rewrite Hperm. solve_submseteq.
      * intros a Ha. apply list_elem_of_singleton in Ha. subst.
        rewrite Hheap, lookup_insert_eq. eauto.
      * intros x _ Hx. rewrite Hheap. apply lookup_insert_is_Some'. right.
        apply lookup_insert_is_Some'. right. exact Hx.
      * cbn [after_step activity_ok]. split.
        -- constructor; [exact I|]. constructor.
           ++ split; [exact Hfrom|]. cbn. auto.
           ++ eapply (rest_ok_preserved None [addr] []); eauto.
              ** intros a _. apply not_elem_of_nil.
              ** eapply stack_ok_waiting; eauto.
        -- apply stack_ok_call_fill; [reflexivity|].
           eapply stack_ok_replace_top; [| |exact Hst]; exact I.
Qed.

Lemma Copy_skipped_remainder_own (l : CopyLocals) (rest : list Frame) (s s' : State)
    (r : FrameStep) :
  Copy_skipped_remainder l s = Ok (r, s') ->
  Forall (frame_ok s) (FCopy CopySkippedRemainder l :: rest) ->
  stack_ok (FCopy CopySkippedRemainder l :: rest) ->
  (forall a, a ∈ ((FCopy CopySkippedRemainder l :: rest) ≫= owned_frame)
             ++ (skipped_blocks_map s).*2 ->
     is_Some (heap s !! a) /\ IsInFromSpace a = false) ->
  step_own None s s' ((FCopy CopySkippedRemainder l :: rest) ≫= owned_frame) (after_step r rest).
Proof.
  intros H Hok Hst Hin. inversion Hok as [|? ? Hf Hrest]; subst.
  destruct Hf as (Hfrom & Hfb & Hato).
  apply Copy_skipped_remainder_spec in H as (Hheap & Hbit & _ & _ & _ & Hmap & ->).
  assert (Hb : forall x, x ∈ mark_bitmap s -> x ∈ mark_bitmap s')
    by (intros x Hx; rewrite Hbit; exact Hx).
  assert (Hch := obj_change_same_heap None _ _ Hheap).
  apply (step_own_general _ _ _ _ [] [] [] None); auto.
  - intros a Ha. apply elem_of_nil in Ha. destruct Ha.
  - constructor.
  - intros a Ha. apply elem_of_nil in Ha. destruct Ha.
  - rewrite Hmap, multimap_insert_addrs. cbn. solve_submseteq.
  - intros a Ha. apply elem_of_nil in Ha. destruct Ha.
  - intros x _ Hx. rewrite Hheap. exact Hx.
  - cbn [after_step activity_ok].
    split; [|eapply stack_ok_replace_top; [| |exact Hst]; exact I].
    constructor; [|eapply rest_ok_public; eauto].
    split; [exact Hfrom|]. unfold target_ok. cbn. rewrite Hfb. exact Hato.
Qed.

Lemma Copy_non_moving_fallback_own (l : CopyLocals) (rest : list Frame) (s s' : State)
    (r : FrameStep) :
  Copy_non_moving_fallback l s = Ok (r, s') ->
  Forall (frame_ok s) (FCopy CopyNonMovingFallback l :: rest) ->
  stack_ok (FCopy CopyNonMovingFallback l :: rest) ->
  (forall a, a ∈ (rest ≫= owned_frame) ++ (skipped_blocks_map s).*2 ->
     is_Some (heap s !! a) /\ IsInFromSpace a = false) ->
  step_own None s s' (rest ≫= owned_frame) (after_step r rest).
Proof.
  intros H Hok Hst Hin. inversion Hok as [|? ? Hf Hrest]; subst. destruct Hf as [Hfrom Hfb].
  apply Copy_non_moving_fallback_spec in H
    as (Hmap & _ & _ & a & n & Ha & Ha0 & Hreg & Him & Hsb & Hnm & Hheap & Hbit & ->).
  assert (Hb : forall x, x ∈ mark_bitmap s -> x ∈ mark_bitmap s')
    by (intros x Hx; rewrite Hbit; apply elem_of_union; right; exact Hx).
  pose proof (region_none_not_from _ Hreg) as Hnf.
  assert (Hch := obj_change_insert_fresh None _ _ _ _ Ha Hnf Hheap).
  apply (step_own_general _ _ _ _ [] [] [a] None); auto.
  - intros x Hx. apply elem_of_nil in Hx. destruct Hx.
  - apply NoDup_singleton.
  - intros x Hx. apply list_elem_of_singleton in Hx. subst. auto.
  - rewrite Hmap. cbn. reflexivity.
  - intros x Hx. apply list_elem_of_singleton in Hx. subst.
    rewrite Hheap, lookup_insert_eq. eauto.
  - intros x _ Hx. rewrite Hheap. apply lookup_insert_is_Some'. right. exact Hx.
  - cbn [after_step activity_ok].
    split; [|eapply stack_ok_replace_top; [| |exact Hst]; exact I].
    constructor; [|eapply rest_ok_public; eauto].
    split; [exact Hfrom|]. unfold target_ok, non_moving_target. cbn.
    repeat split; auto. rewrite Hbit. apply elem_of_union. left.
    apply elem_of_singleton. reflexivity.
Qed.

Lemma NoDup_head_not_in {A : Type} (x : A) (l k : list A) :
  NoDup ((x :: l) ++ k) -> x ∉ l ++ k.
Proof. cbn. intros H. apply NoDup_cons in H. tauto. Qed.

Lemma Copy_loop_head_own (l : CopyLocals) (rest : list Frame) (s s' : State)
    (r : FrameStep) :
  Copy_loop_head l s = Ok (r, s') ->
  Forall (frame_ok s) (FCopy CopyLoopHead l :: rest) ->
  stack_ok (FCopy CopyLoopHead l :: rest) ->
  (forall a, a ∈ ((FCopy CopyLoopHead l :: rest) ≫= owned_frame)
             ++ (skipped_blocks_map s).*2 ->
     is_Some (heap s !! a) /\ IsInFromSpace a = false) ->
  step_own None s s' ((FCopy CopyLoopHead l :: rest) ≫= owned_frame) (after_step r rest).
Proof.
  intros H Hok Hst Hin. inversion Hok as [|? ? Hf Hrest]; subst.
  destruct Hf as (Hfrom & Htarget).
  apply Copy_loop_head_spec in H as (Hbit & Hmap & _ & _ & o & Ho & Hheap & ->).
  assert (Hb : forall x, x ∈ mark_bitmap s -> x ∈ mark_bitmap s')
    by (intros x Hx; rewrite Hbit; exact Hx).
  assert (Hnb : forall a, a ∉ @nil Z -> a ∈ mark_bitmap s -> a ∈ mark_bitmap s')
    by (intros a _; apply Hb).
  assert (Hto : is_Some (heap s !! to_ref l) /\ IsInFromSpace (to_ref l) = false).
  { apply Hin. cbn. apply elem_of_cons. left. reflexivity. }
  assert (Hne : from_ref l <> to_ref l) by (intros Heq; rewrite Heq in Hfrom; destruct Hto; congruence).
  assert (Hch := obj_change_insert_owned None _ _ _ _ Hheap).
  assert (Htarget' : target_ok s' (with_old_lock_word (monitor o) l)).
  { revert Htarget. unfold target_ok, non_moving_target. cbn. rewrite Hbit. auto. }
  assert (Hrest' : Forall (frame_ok s') rest).
  { eapply (rest_ok_preserved None [to_ref l] []); eauto.
    - intros a Ha. apply list_elem_of_singleton in Ha. subst. apply Hto.
    - intros a _. apply not_elem_of_nil.
    - eapply stack_ok_waiting; eauto. }
  apply (step_own_general _ _ _ _ [to_ref l] [] [] None); auto.
  - intros a Ha. rewrite app_nil_r in Ha. apply list_elem_of_singleton in Ha. subst.
    cbn. apply elem_of_cons. left. reflexivity.
  - constructor.
  - intros a Ha. apply elem_of_nil in Ha. destruct Ha.
  - rewrite Hmap. destruct (is_forwarding (monitor o)); cbn; reflexivity.
  - intros a Ha. apply elem_of_nil in Ha. destruct Ha.
  - intros x _ Hx. rewrite Hheap. apply lookup_insert_is_Some'. right. exact Hx.
  - destruct (is_forwarding (monitor o)) eqn:Hfw; cbn [after_step activity_ok].
    + split.
      * constructor; [exact I|]. constructor; [|exact Hrest'].
        split; [exact Hfrom|]. split; [exact Htarget'|]. split; [exact Hfw|].
        unfold lock_word_at. cbn [from_ref with_old_lock_word old_lock_word].
        rewrite Hheap, lookup_insert_ne by congruence.
        rewrite Ho. reflexivity.
      * apply stack_ok_call_fill; [reflexivity|].
        eapply stack_ok_replace_top; [| |exact Hst]; exact I.
    + split; [|eapply stack_ok_replace_top; [| |exact Hst]; exact I].
      constructor; [|exact Hrest'].
      split; [exact Hfrom|]. split; [exact Htarget' | exact Hfw].
Qed.

Lemma Copy_lost_race_own (l : CopyLocals) (rest : list Frame) (s s' : State)
    (r : FrameStep) :
  Copy_lost_race l s = Ok (r, s') ->
  Forall (frame_ok s) (FCopy CopyLostRace l :: rest) ->
  stack_ok (FCopy CopyLostRace l :: rest) ->
  NoDup (((FCopy CopyLostRace l :: rest) ≫= owned_frame) ++ (skipped_blocks_map s).*2) ->
  (forall a, a ∈ ((FCopy CopyLostRace l :: rest) ≫= owned_frame)
             ++ (skipped_blocks_map s).*2 ->
     is_Some (heap s !! a) /\ IsInFromSpace a = false) ->
  step_own None s s' ((FCopy CopyLostRace l :: rest) ≫= owned_frame) (after_step r rest).
Proof.
  intros H Hok Hst Hnd Hin. inversion Hok as [|? ? Hf Hrest]; subst.
  destruct Hf as (Hfrom & Htarget & Hfw & Hlock).
  apply Copy_lost_race_spec in H as (_ & _ & -> & _ & _ & Hr).
  assert (Hto : is_Some (heap s !! to_ref l) /\ IsInFromSpace (to_ref l) = false).
  { apply Hin. cbn. apply elem_of_cons. left. reflexivity. }
  assert (Hnot : to_ref l ∉ (rest ≫= owned_frame) ++ (skipped_blocks_map s).*2)
    by exact (NoDup_head_not_in _ _ _ Hnd).
  assert (HW : forall a, a ∈ [to_ref l] -> IsInFromSpace a = false).
  { intros a Ha. apply list_elem_of_singleton in Ha. subst. apply Hto. }
  assert (Hmem : forall W : list Z, (forall a, a ∈ W -> a = to_ref l) ->
            forall a, a ∈ W -> a ∈ ((FCopy CopyLostRace l :: rest) ≫= owned_frame)
                                   ++ (skipped_blocks_map s).*2).
  { intros W HW' a Ha. apply HW' in Ha. subst. cbn. apply elem_of_cons. left. reflexivity. }
  assert (Hrest_not : forall a, a ∈ rest ≫= owned_frame -> a ∉ [to_ref l]).
  { intros a Ha Heq. apply list_elem_of_singleton in Heq. subst.
    apply Hnot. apply elem_of_app. left. exact Ha. }
  destruct Hr as [(Hfb & _ & Hheap & Hbit & Hmap)|[(Hfb & _ & Hheap & Hbit & Hmap)
                 |(Hfb & _ & _ & Hheap & Hbit & Hmap)]].
  - assert (Hch := obj_change_delete_owned None _ _ _ Hheap).
    assert (Hb : forall a, a ∉ @nil Z -> a ∈ mark_bitmap s -> a ∈ mark_bitmap s')
      by (intros a _ Ha; rewrite Hbit; exact Ha).
    assert (Hrest' : Forall (frame_ok s') rest).
    { eapply (rest_ok_preserved None [to_ref l] []); eauto.
      - intros a _. apply not_elem_of_nil.
      - eapply stack_ok_waiting; eauto. }
    apply (step_own_general _ _ _ _ [to_ref l] [] [] None); auto.
    + apply Hmem. intros a Ha. rewrite app_nil_r in Ha.
      apply list_elem_of_singleton in Ha. exact Ha.
    + constructor.
    + intros a Ha. apply elem_of_nil in Ha. destruct Ha.
    + rewrite Hmap, owned_after_return. cbn. apply submseteq_cons. reflexivity.
    + intros a Ha. apply elem_of_nil in Ha. destruct Ha.
    + intros x Hx Hs. rewrite Hheap, lookup_delete_ne; [exact Hs|].
      intros <-. apply Hnot. rewrite Hmap, owned_after_return in Hx. exact Hx.
    + eapply activity_ok_return; eauto.
  - assert (Hch := obj_change_same_heap None _ _ Hheap).
    assert (Hb : forall a, a ∈ mark_bitmap s -> a ∈ mark_bitmap s')
      by (intros a Ha; rewrite Hbit; exact Ha).
    apply (step_own_general _ _ _ _ [] [] [] None); auto.
    + intros a Ha. apply elem_of_nil in Ha. destruct Ha.
    + constructor.
    + intros a Ha. apply elem_of_nil in Ha. destruct Ha.
    + rewrite Hmap, owned_after_return, multimap_insert_addrs. cbn. solve_submseteq.
    + intros a Ha. apply elem_of_nil in Ha. destruct Ha.
    + intros x _ Hs. rewrite Hheap. exact Hs.
    + eapply activity_ok_return; eauto. eapply rest_ok_public; eauto.
  - assert (Hch := obj_change_delete_owned None _ _ _ Hheap).
    assert (Hb : forall a, a ∉ [to_ref l] -> a ∈ mark_bitmap s -> a ∈ mark_bitmap s').
    { intros a Hna Ha. rewrite Hbit. apply elem_of_difference. split; [exact Ha|].
      intros Heq. apply elem_of_singleton in Heq. subst. apply Hna.
      apply list_elem_of_singleton. reflexivity. }
    assert (Hrest' : Forall (frame_ok s') rest).
    { eapply (rest_ok_preserved None [to_ref l] [to_ref l]); eauto.
      eapply stack_ok_waiting; eauto. }
    apply (step_own_general _ _ _ _ [to_ref l] [to_ref l] [] None); auto.
    + apply Hmem. intros a Ha. apply elem_of_app in Ha as [Ha|Ha];
        apply list_elem_of_singleton in Ha; exact Ha.
    + constructor.
    + intros a Ha. apply elem_of_nil in Ha. destruct Ha.
    + rewrite Hmap, owned_after_return. cbn. apply submseteq_cons. reflexivity.
    + intros a Ha. apply elem_of_nil in Ha. destruct Ha.
    + intros x Hx Hs. rewrite Hheap, lookup_delete_ne; [exact Hs|].
      intros <-. apply Hnot. rewrite Hmap, owned_after_return in Hx. exact Hx.
    + eapply activity_ok_return; eauto.
Qed.

Lemma Copy_set_gray_own (l : CopyLocals) (rest : list Frame) (s s' : State)
    (r : FrameStep) :
  Copy_set_gray l s = Ok (r, s') ->
  Forall (frame_ok s) (FCopy CopySetGray l :: rest) ->
  stack_ok (FCopy CopySetGray l :: rest) ->
  (forall a, a ∈ ((FCopy CopySetGray l :: rest) ≫= owned_frame)
             ++ (skipped_blocks_map s).*2 ->
     is_Some (heap s !! a) /\ IsInFromSpace a = false) ->
  step_own None s s' ((FCopy CopySetGray l :: rest) ≫= owned_frame) (after_step r rest).
Proof.
  intros H Hok Hst Hin. inversion Hok as [|? ? Hf Hrest]; subst.
  destruct Hf as (Hfrom & Htarget & Hfw).
  apply Copy_set_gray_spec in H as (Hbit & Hmap & _ & _ & -> & Hr).
  assert (Hb : forall x, x ∈ mark_bitmap s -> x ∈ mark_bitmap s')
    by (intros x Hx; rewrite Hbit; exact Hx).
  assert (Htarget' : target_ok s' l).
  { revert Htarget. unfold target_ok, non_moving_target. rewrite Hbit. auto. }
  assert (Hch : forall a, obj_change None a (heap s !! a) (heap s' !! a)).
  { destruct Hr as [(_ & o & Ho & Hheap)|(_ & Hheap)];
      [eapply obj_change_insert_gray | apply obj_change_same_heap]; eauto. }
  apply step_own_public; auto.
  cbn [after_step activity_ok].
  split; [|eapply stack_ok_replace_top; [| |exact Hst]; exact I].
  constructor; [|eapply rest_ok_public; eauto].
  split; [exact Hfrom|]. split; [exact Htarget'|]. split; [exact Hfw|].
  intros Hbaker. destruct Hr as [(_ & o & Ho & Hheap)|(Hnb & _)]; [|congruence].
  unfold rb_at. rewrite Hheap, lookup_insert_eq. reflexivity.
Qed.

Lemma Copy_cas_own (l : CopyLocals) (rest : list Frame) (s s' : State) (r : FrameStep) :
  Copy_cas l s = Ok (r, s') ->
  Forall (frame_ok s) (FCopy CopyCas l :: rest) ->
  stack_ok (FCopy CopyCas l :: rest) ->
  NoDup (((FCopy CopyCas l :: rest) ≫= owned_frame) ++ (skipped_blocks_map s).*2) ->
  (forall a, a ∈ ((FCopy CopyCas l :: rest) ≫= owned_frame)
             ++ (skipped_blocks_map s).*2 ->
     is_Some (heap s !! a) /\ IsInFromSpace a = false) ->
  step_own (published (FCopy CopyCas l) r) s s'
    ((FCopy CopyCas l :: rest) ≫= owned_frame) (after_step r rest).
Proof.
  intros H Hok Hst Hnd Hin. inversion Hok as [|? ? Hf Hrest]; subst.
  destruct Hf as (Hfrom & Htarget & Hfw & Hgray).
  apply Copy_cas_spec in H as (Hbit & Hmap & _ & _ & o & Ho & Hr).
  assert (Hb : forall x, x ∈ mark_bitmap s -> x ∈ mark_bitmap s')
    by (intros x Hx; rewrite Hbit; exact Hx).
  assert (Htarget' : target_ok s' l).
  { revert Htarget. unfold target_ok, non_moving_target. rewrite Hbit. auto. }
  assert (Hto : is_Some (heap s !! to_ref l) /\ IsInFromSpace (to_ref l) = false).
  { apply Hin. cbn. apply elem_of_cons. left. reflexivity. }
  assert (Hne : from_ref l <> to_ref l)
    by (intros Heq; rewrite Heq in Hfrom; destruct Hto; congruence).
  assert (Hnot : to_ref l ∉ (rest ≫= owned_frame) ++ (skipped_blocks_map s).*2)
    by exact (NoDup_head_not_in _ _ _ Hnd).
  destruct Hr as [(Hm & Hheap & ->)|(Hheap & ->)]; cbn [published].
  - assert (Hch : forall a, obj_change (Some (from_ref l, to_ref l)) a
                              (heap s !! a) (heap s' !! a)).
    { intros a. rewrite Hheap. destruct (decide (a = from_ref l)) as [->|Hane].
      - rewrite lookup_insert_eq, Ho. apply oc_forward; [reflexivity | congruence].
      - rewrite lookup_insert_ne by congruence. constructor. }
    apply (step_own_general _ _ _ _ [] [] [] (Some (from_ref l, to_ref l))); auto.
    + intros a Ha. apply elem_of_nil in Ha. destruct Ha.
    + constructor.
    + intros a Ha. apply elem_of_nil in Ha. destruct Ha.
    + rewrite Hmap. cbn. apply submseteq_cons. reflexivity.
    + intros a Ha. apply elem_of_nil in Ha. destruct Ha.
    + intros x _ Hs. eapply obj_change_is_Some; [apply Hch | exact Hs].
    + cbn [after_step activity_ok].
      split; [|eapply stack_ok_replace_top; [| |exact Hst]; exact I].
      constructor; [|eapply rest_ok_public; eauto].
      split; [exact Hfrom|]. cbn. unfold lock_word_at.
      rewrite Hheap, lookup_insert_eq. reflexivity.
    + split; [cbn; apply elem_of_cons; left; reflexivity|].
      split; [rewrite Hmap; exact Hnot|].
      split; [apply target_ok_good; exact Htarget'|].
      split; [eapply obj_change_is_Some; [apply Hch | apply Hto]|].
      intros Hbaker. unfold rb_at. rewrite Hheap, lookup_insert_ne by congruence.
      apply Hgray, Hbaker.
  - assert (Hch := obj_change_same_heap None _ _ Hheap).
    apply step_own_public; auto.
    cbn [after_step activity_ok].
    split; [|eapply stack_ok_replace_top; [| |exact Hst]; exact I].
    constructor; [|eapply rest_ok_public; eauto].
    split; [exact Hfrom | exact Htarget'].
Qed.

(** A step of a published copy: the view is as it was but for the counters. *)
Lemma published_step_own (pc pc' : CopyPc) (l : CopyLocals) (rest : list Frame)
    (s s' : State) :
  heap s' = heap s -> mark_bitmap s' = mark_bitmap s ->
  skipped_blocks_map s' = skipped_blocks_map s ->
  frame_ok s (FCopy pc l) = frame_ok s (FCopy pc' l) ->
  frame_ok s' (FCopy pc' l) = frame_ok s (FCopy pc' l) ->
  owned_frame (FCopy pc l) = [] -> owned_frame (FCopy pc' l) = [] ->
  Forall (frame_ok s) (FCopy pc l :: rest) ->
  stack_ok (FCopy pc l :: rest) ->
  (forall a, a ∈ (rest ≫= owned_frame) ++ (skipped_blocks_map s).*2 ->
     is_Some (heap s !! a) /\ IsInFromSpace a = false) ->
  step_own None s s' (rest ≫= owned_frame) (after_step (Goto (FCopy pc' l)) rest).
Proof.
  intros Hheap Hbit Hmap Hf Hf' Ho Ho' Hok Hst Hin.
  inversion Hok as [|? ? Hfr Hrest]; subst.
  assert (Hb : forall x, x ∈ mark_bitmap s -> x ∈ mark_bitmap s')
    by (intros x Hx; rewrite Hbit; exact Hx).
  assert (Hch := obj_change_same_heap None _ _ Hheap).
  apply step_own_public; auto.
  - cbn [after_step owned_activity]. rewrite bind_cons, Ho'. reflexivity.
  - cbn [after_step activity_ok].
    split; [|eapply stack_ok_replace_top; [| |exact Hst]; exact I].
    constructor; [|eapply rest_ok_public; eauto].
    rewrite Hf', <- Hf. exact Hfr.
Qed.

Lemma lock_word_at_heap (s s' : State) (a : Z) :
  heap s' = heap s -> lock_word_at s' a = lock_word_at s a.
Proof. unfold lock_word_at. intros ->. reflexivity. Qed.

Lemma Copy_count_object_own (l : CopyLocals) (rest : list Frame) (s s' : State)
    (r : FrameStep) :
  Copy_count_object l s = Ok (r, s') ->
  Forall (frame_ok s) (FCopy CopyCountObject l :: rest) ->
  stack_ok (FCopy CopyCountObject l :: rest) ->
  (forall a, a ∈ (rest ≫= owned_frame) ++ (skipped_blocks_map s).*2 ->
     is_Some (heap s !! a) /\ IsInFromSpace a = false) ->
  step_own None s s' (rest ≫= owned_frame) (after_step r rest).
Proof.
  intros H Hok Hst Hin.
  apply Copy_count_object_spec in H as (Hheap & Hbit & Hmap & _ & _ & ->).
  eapply (published_step_own CopyCountObject CopyCountBytes); eauto; try reflexivity.
  cbn. rewrite (lock_word_at_heap _ _ _ Hheap). reflexivity.
Qed.

Lemma Copy_count_bytes_own (l : CopyLocals) (rest : list Frame) (s s' : State)
    (r : FrameStep) :
  Copy_count_bytes l s = Ok (r, s') ->
  Forall (frame_ok s) (FCopy CopyCountBytes l :: rest) ->
  stack_ok (FCopy CopyCountBytes l :: rest) ->
  (forall a, a ∈ (rest ≫= owned_frame) ++ (skipped_blocks_map s).*2 ->
     is_Some (heap s !! a) /\ IsInFromSpace a = false) ->
  step_own None s s' (rest ≫= owned_frame) (after_step r rest).
Proof.
  intros H Hok Hst Hin.
  apply Copy_count_bytes_spec in H as (Hheap & Hbit & Hmap & _ & _ & ->).
  eapply (published_step_own CopyCountBytes CopyPush); eauto; try reflexivity.
  cbn. rewrite (lock_word_at_heap _ _ _ Hheap). reflexivity.
Qed.

Lemma view_eq (s s' : State) :
  view s' = view s ->
  heap s' = heap s /\ mark_bitmap s' = mark_bitmap s /\
  skipped_blocks_map s' = skipped_blocks_map s /\
  objects_moved s' = objects_moved s /\ bytes_moved s' = bytes_moved s.
Proof. unfold view. intros H. injection H as -> -> -> -> ->. auto. Qed.

Lemma Copy_push_own (t : nat) (l : CopyLocals) (rest : list Frame) (s s' : State)
    (r : FrameStep) :
  Copy_push t l s = Ok (r, s') ->
  Forall (frame_ok s) (FCopy CopyPush l :: rest) ->
  stack_ok (FCopy CopyPush l :: rest) ->
  (forall a, a ∈ (rest ≫= owned_frame) ++ (skipped_blocks_map s).*2 ->
     is_Some (heap s !! a) /\ IsInFromSpace a = false) ->
  step_own None s s' (rest ≫= owned_frame) (after_step r rest).
Proof.
  intros H Hok Hst Hin. inversion Hok as [|? ? Hfr Hrest]; subst.
  apply Copy_push_spec in H as (Hview & -> & _).
  apply view_eq in Hview as (Hheap & Hbit & Hmap & _ & _).
  assert (Hb : forall x, x ∈ mark_bitmap s -> x ∈ mark_bitmap s')
    by (intros x Hx; rewrite Hbit; exact Hx).
  assert (Hch := obj_change_same_heap None _ _ Hheap).
  apply step_own_public; auto.
  - apply owned_after_return.
  - eapply activity_ok_return; eauto. eapply rest_ok_public; eauto.
Qed.

(** The block FillWithDummyObject fills is its caller's. *)
Lemma fill_block_owned (f : Frame) (d : Z) (rest : list Frame) :
  match f with
  | FFillEntry d' _ | FFillAwait d' _ _ | FFillRest d' _ _ _ => d' = d
  | _ => False
  end ->
  stack_ok (f :: rest) -> d ∈ rest ≫= owned_frame.
Proof.
  intros Hf [Hst _].
  destruct f as [| |d' n|d' n en|d' n en c]; try destruct Hf; subst;
    destruct rest as [|[| [] | | |] rest']; try destruct Hst; cbn.
  all: repeat first [apply elem_of_cons; left; reflexivity | apply elem_of_cons; right].
Qed.

Lemma FillWithDummyObject_enter_own (t : nat) (d n : Z) (rest : list Frame) (s s' : State)
    (r : FrameStep) :
  FillWithDummyObject_enter t d n s = Ok (r, s') ->
  Forall (frame_ok s) rest -> stack_ok (FFillEntry d n :: rest) ->
  (forall a, a ∈ (rest ≫= owned_frame) ++ (skipped_blocks_map s).*2 ->
     is_Some (heap s !! a) /\ IsInFromSpace a = false) ->
  step_own None s s' (rest ≫= owned_frame) (after_step r rest).
Proof.
  intros H Hrest Hst Hin.
  apply FillWithDummyObject_enter_spec in H as (Hheap & Hbit & Hmap & _ & _ & en & ->).
  pose proof (fill_block_owned (FFillEntry d n) d rest eq_refl Hst) as Hd.
  assert (Hdin : d ∈ (rest ≫= owned_frame) ++ (skipped_blocks_map s).*2)
    by (apply elem_of_app; left; exact Hd).
  assert (Hb : forall a, a ∉ @nil Z -> a ∈ mark_bitmap s -> a ∈ mark_bitmap s')
    by (intros x _ Hx; rewrite Hbit; exact Hx).
  assert (Hch := obj_change_insert_owned None _ _ _ _ Hheap).
  apply (step_own_general _ _ _ _ [d] [] [] None); auto.
  - intros a Ha. rewrite app_nil_r in Ha. apply list_elem_of_singleton in Ha. subst.
    exact Hdin.
  - constructor.
  - intros a Ha. apply elem_of_nil in Ha. destruct Ha.
  - rewrite Hmap. cbn. reflexivity.
  - intros a Ha. apply elem_of_nil in Ha. destruct Ha.
  - intros x _ Hx. rewrite Hheap. apply lookup_insert_is_Some'. right. exact Hx.
  - cbn [after_step activity_ok]. split.
    + constructor; [exact I|]. constructor; [exact I|].
      eapply (rest_ok_preserved None [d] []); eauto.
      * intros a Ha. apply list_elem_of_singleton in Ha. subst. apply Hin, Hdin.
      * intros a _. apply not_elem_of_nil.
      * eapply stack_ok_waiting; eauto.
    + cbn. cbn in Hst. tauto.
Qed.

Lemma FillWithDummyObject_rest_own (t : nat) (d n : Z) (en : bool) (c : Z)
    (rest : list Frame) (s s' : State) (r : FrameStep) :
  FillWithDummyObject_rest t d n en c s = Ok (r, s') ->
  Forall (frame_ok s) rest -> stack_ok (FFillRest d n en c :: rest) ->
  (forall a, a ∈ (rest ≫= owned_frame) ++ (skipped_blocks_map s).*2 ->
     is_Some (heap s !! a) /\ IsInFromSpace a = false) ->
  step_own None s s' (rest ≫= owned_frame) (after_step r rest).
Proof.
  intros H Hrest Hst Hin.
  apply FillWithDummyObject_rest_spec in H
    as (Hbit & Hmap & _ & _ & -> & o & o' & Ho & Hheap).
  pose proof (fill_block_owned (FFillRest d n en c) d rest eq_refl Hst) as Hd.
  assert (Hdin : d ∈ (rest ≫= owned_frame) ++ (skipped_blocks_map s).*2)
    by (apply elem_of_app; left; exact Hd).
  assert (Hb : forall a, a ∉ @nil Z -> a ∈ mark_bitmap s -> a ∈ mark_bitmap s')
    by (intros x _ Hx; rewrite Hbit; exact Hx).
  assert (Hch := obj_change_insert_owned None _ _ _ _ Hheap).
  assert (Hrest' : Forall (frame_ok s') rest).
  { eapply (rest_ok_preserved None [d] []); eauto.
    - intros a Ha. apply list_elem_of_singleton in Ha. subst. apply Hin, Hdin.
    - intros a _. apply not_elem_of_nil.
    - eapply stack_ok_waiting; eauto. }
  apply (step_own_general _ _ _ _ [d] [] [] None); auto.
  - intros a Ha. rewrite app_nil_r in Ha. apply list_elem_of_singleton in Ha. subst.
    exact Hdin.
  - constructor.
  - intros a Ha. apply elem_of_nil in Ha. destruct Ha.
  - rewrite Hmap, owned_after_return. reflexivity.
  - intros a Ha. apply elem_of_nil in Ha. destruct Ha.
  - intros x _ Hx. rewrite Hheap. apply lookup_insert_is_Some'. right. exact Hx.
  - eapply activity_ok_return; eauto.
Qed.

(** Every step of a frame respects ownership. *)
Lemma frame_step_own (t : nat) (f : Frame) (rest : list Frame) (s s' : State)
    (r : FrameStep) :
  frame_step t f s = Ok (r, s') ->
  Forall (frame_ok s) (f :: rest) -> stack_ok (f :: rest) ->
  NoDup (((f :: rest) ≫= owned_frame) ++ (skipped_blocks_map s).*2) ->
  (forall a, a ∈ ((f :: rest) ≫= owned_frame) ++ (skipped_blocks_map s).*2 ->
     is_Some (heap s !! a) /\ IsInFromSpace a = false) ->
  step_own (published f r) s s' ((f :: rest) ≫= owned_frame) (after_step r rest).
Proof.
  intros H Hok Hst Hnd Hin.
  destruct f as [g ref|pc l|d n|d n en|d n en c]; cbn [frame_step] in H.
  - inversion Hok; subst. rewrite bind_cons in Hin |- *. eapply Mark_step_own; eauto.
  - destruct pc; cbn [Copy_step] in H.
    + rewrite bind_cons in Hin |- *. eapply Copy_entry_own; eauto.
    + rewrite bind_cons in Hin |- *. eapply Copy_try_skipped_own; eauto.
    + eapply Copy_skipped_remainder_own; eauto.
    + rewrite bind_cons in Hin |- *. eapply Copy_non_moving_fallback_own; eauto.
    + eapply Copy_loop_head_own; eauto.
    + eapply Copy_lost_race_own; eauto.
    + eapply Copy_set_gray_own; eauto.
    + eapply Copy_cas_own; eauto.
    + rewrite bind_cons in Hin |- *. eapply Copy_count_object_own; eauto.
    + rewrite bind_cons in Hin |- *. eapply Copy_count_bytes_own; eauto.
    + rewrite bind_cons in Hin |- *. eapply Copy_push_own; eauto.
  - inversion Hok; subst. rewrite bind_cons in Hin |- *.
    eapply FillWithDummyObject_enter_own; eauto.
  - discriminate.
  - inversion Hok; subst. rewrite bind_cons in Hin |- *.
    eapply FillWithDummyObject_rest_own; eauto.
Qed.

(** *** The ownership invariant is kept *)

Lemma activity_ok_preserved (pub : option (Z * Z)) (W Wb : list Z) (s s' : State)
    (act : Activity) :
  (forall a, a ∉ W -> obj_change pub a (heap s !! a) (heap s' !! a)) ->
  (forall a, a ∉ Wb -> a ∈ mark_bitmap s -> a ∈ mark_bitmap s') ->
  (forall a, a ∈ W -> IsInFromSpace a = false) ->
  (forall a, a ∈ owned_activity act -> (a ∉ W) /\ (a ∉ Wb)) ->
  activity_ok s act -> activity_ok s' act.
Proof.
  intros Hheap Hbit HW Hdis Hok. destruct act as [stack|v]; [|exact I].
  destruct Hok as [Hok Hst]. split; [|exact Hst]. clear Hst.
  cbn in Hdis. induction stack as [|f stack IH]; [constructor|].
  inversion Hok; subst. rewrite bind_cons in Hdis.
  constructor.
  - eapply frame_ok_preserved; eauto.
    + intros a Ha. apply Hdis. apply elem_of_app. left. exact Ha.
    + destruct f as [| [] | | |]; try exact I.
      apply Hdis. cbn. apply elem_of_cons. left. reflexivity.
  - apply IH; [|assumption]. intros a Ha. apply Hdis. apply elem_of_app. right. exact Ha.
Qed.

Lemma good_target_preserved (Wb : list Z) (s s' : State) (t : Z) :
  (forall a, a ∉ Wb -> a ∈ mark_bitmap s -> a ∈ mark_bitmap s') ->
  t ∉ Wb -> good_target s t -> good_target s' t.
Proof.
  intros Hbit Ht [H|(H1 & H2 & H3 & H4 & H5)]; [left; exact H|].
  right. repeat split; auto.
Qed.

Lemma elem_of_pool_owned (p1 p2 : list Activity) (act : Activity) (a : Z) :
  a ∈ (p1 ++ act :: p2) ≫= owned_activity <->
  a ∈ owned_activity act \/ a ∈ (p1 ≫= owned_activity) ++ (p2 ≫= owned_activity).
Proof.
  rewrite bind_app, bind_cons, !elem_of_app. tauto.
Qed.

Lemma pool_owned_Permutation (p1 p2 : list Activity) (act : Activity) :
  (p1 ++ act :: p2) ≫= owned_activity
  ≡ₚ owned_activity act ++ (p1 ≫= owned_activity) ++ (p2 ≫= owned_activity).
Proof. rewrite bind_app, bind_cons. solve_Permutation. Qed.

Lemma pool_ok_preserved (pub : option (Z * Z)) (W Wb : list Z) (s s' : State)
    (p : list Activity) :
  (forall a, a ∉ W -> obj_change pub a (heap s !! a) (heap s' !! a)) ->
  (forall a, a ∉ Wb -> a ∈ mark_bitmap s -> a ∈ mark_bitmap s') ->
  (forall a, a ∈ W -> IsInFromSpace a = false) ->
  (forall a, a ∈ p ≫= owned_activity -> (a ∉ W) /\ (a ∉ Wb)) ->
  Forall (activity_ok s) p -> Forall (activity_ok s') p.
Proof.
  intros Hheap Hbit HW Hdis Hok. induction p as [|act p IH]; [constructor|].
  inversion Hok; subst. rewrite bind_cons in Hdis. constructor.
  - eapply activity_ok_preserved; eauto.
    intros a Ha. apply Hdis. apply elem_of_app. left. exact Ha.
  - apply IH; [|assumption]. intros a Ha. apply Hdis. apply elem_of_app. right. exact Ha.
Qed.

(** A published copy stays one. *)
Lemma published_ok_preserved (pub : option (Z * Z)) (W Wb N : list Z) (c c' : Config)
    (t : Z) :
  (forall a, a ∉ W -> obj_change pub a (heap (state_of c) !! a) (heap (state_of c') !! a)) ->
  (forall a, a ∉ Wb -> a ∈ mark_bitmap (state_of c) -> a ∈ mark_bitmap (state_of c')) ->
  (forall a, a ∈ W ++ Wb -> a ∈ owned_all c) ->
  (forall a, a ∈ N -> heap (state_of c) !! a = None) ->
  (forall a, a ∈ owned_all c' -> a ∈ N \/ a ∈ owned_all c) ->
  published_ok c t -> published_ok c' t.
Proof.
  intros Hheap Hbit HW HN Hnew (Hgood & Hsome & Hnot & Hrb).
  assert (HtW : t ∉ W) by (intros H; apply Hnot, HW, elem_of_app; left; exact H).
  assert (HtWb : t ∉ Wb) by (intros H; apply Hnot, HW, elem_of_app; right; exact H).
  split; [eapply good_target_preserved; eauto|].
  split; [eapply obj_change_is_Some; [apply Hheap, HtW | exact Hsome]|].
  split.
  - intros Hin. apply Hnew in Hin as [Hin|Hin]; [|exact (Hnot Hin)].
    apply HN in Hin. destruct Hsome as [o Ho]. congruence.
  - intros Hb. unfold rb_at in *.
    eapply obj_change_not_black; [apply Hheap, HtW | exact Hsome | exact (Hrb Hb)].
Qed.

Lemma inv_own_step (pub : option (Z * Z)) (c c' : Config) (p1 p2 : list Activity)
    (act act' : Activity) :
  pool c = p1 ++ act :: p2 -> pool c' = p1 ++ act' :: p2 ->
  step_own pub (state_of c) (state_of c') (owned_activity act) act' ->
  inv_own c -> inv_own c'.
Proof.
  intros Hp Hp' Hstep (Hnd & Hin & Hok & Hfwd).
  destruct Hstep as (W & Wb & N & Hheap & Hbit & HW & HN & HNf & Hsub & Hnew & Hact & Hpub).
  set (s := state_of c) in *. set (s' := state_of c') in *.
  set (mine := owned_activity act) in *.
  set (others := (p1 ≫= owned_activity) ++ (p2 ≫= owned_activity)).
  set (m := (skipped_blocks_map s).*2) in *. set (m' := (skipped_blocks_map s').*2) in *.
  assert (Hall : owned_all c ≡ₚ (mine ++ m) ++ others).
  { unfold owned_all. rewrite Hp, pool_owned_Permutation. fold mine others m.
    solve_Permutation. }
  assert (Hall' : owned_all c' ≡ₚ (owned_activity act' ++ m') ++ others).
  { unfold owned_all. rewrite Hp', pool_owned_Permutation. fold others m'.
    solve_Permutation. }
  rewrite Hall in Hnd.
  apply NoDup_app in Hnd as (Hnd_mine & Hdis & Hnd_others).
  assert (Hin' : forall a, a ∈ (mine ++ m) ++ others ->
                   is_Some (heap s !! a) /\ IsInFromSpace a = false).
  { intros a Ha. apply Hin. rewrite Hall. exact Ha. }
  assert (HWf : forall a, a ∈ W -> IsInFromSpace a = false).
  { intros a Ha. apply Hin'. apply elem_of_app. left. apply HW.
    apply elem_of_app. left. exact Ha. }
  assert (Hothers : forall a, a ∈ others -> (a ∉ W) /\ (a ∉ Wb)).
  { intros a Ha. split; intros Hw; apply (Hdis a); try exact Ha; apply HW;
      apply elem_of_app; [left | right]; exact Hw. }
  assert (Hsub' : (owned_activity act' ++ m') ++ others ⊆+ N ++ (mine ++ m) ++ others).
  { rewrite (app_assoc N). apply submseteq_app; [exact Hsub | reflexivity]. }
  assert (HNdis : forall a, a ∈ N -> a ∉ (mine ++ m) ++ others).
  { intros a Ha Hold. apply Hin' in Hold as [[o Ho] _]. rewrite (HNf a Ha) in Ho.
    discriminate. }
  assert (Hold_nd : NoDup (N ++ (mine ++ m) ++ others)).
  { apply NoDup_app. split; [exact HN|]. split; [exact HNdis|].
    apply NoDup_app. auto. }
  assert (HWall : forall a, a ∈ W ++ Wb -> a ∈ owned_all c).
  { intros a Ha. rewrite Hall. apply elem_of_app. left. apply HW, Ha. }
  assert (Hnew_old : forall a, a ∈ owned_all c' -> a ∈ N \/ a ∈ owned_all c).
  { intros a Ha. rewrite Hall' in Ha. eapply elem_of_submseteq in Ha; [|exact Hsub'].
    apply elem_of_app in Ha as [Ha|Ha]; [left; exact Ha|]. right. rewrite Hall. exact Ha. }
  split; [rewrite Hall'; eapply submseteq_NoDup; eauto|].
  split.
  { intros a Ha. rewrite Hall' in Ha. apply elem_of_app in Ha as [Ha|Ha].
    - apply Hnew, Ha.
    - split; [|apply Hin'; apply elem_of_app; right; exact Ha].
      eapply obj_change_is_Some; [apply Hheap, Hothers, Ha|].
      apply Hin'. apply elem_of_app. right. exact Ha. }
  split.
  { rewrite Hp'. rewrite Hp in Hok. apply Forall_app in Hok as [Hok1 Hok2].
    inversion Hok2 as [|? ? _ Hok3]; subst.
    apply Forall_app. split; [|constructor; [exact Hact|]].
    - eapply pool_ok_preserved; eauto.
      intros a Ha. apply Hothers. apply elem_of_app. left. exact Ha.
    - eapply pool_ok_preserved; eauto.
      intros a Ha. apply Hothers. apply elem_of_app. right. exact Ha. }
  intros x o' t Hx Hfrom Hm.
  assert (HxW : x ∉ W) by (intros H; apply HWf in H; congruence).
  pose proof (Hheap x HxW) as Hcx. fold s' in Hx. rewrite Hx in Hcx.
  destruct (obj_change_forwarded _ _ _ _ _ Hcx Hfrom Hm) as [(o & Ho & Hmo)|Heq].
  - eapply published_ok_preserved; eauto.
  - rewrite Heq in Hpub. destruct Hpub as (Htm & Htn & Hgood & Hsome & Hgray).
    split; [exact Hgood|]. split; [exact Hsome|]. split.
    + rewrite Hall'. intros Hin0. apply elem_of_app in Hin0 as [Hin0|Hin0]; [exact (Htn Hin0)|].
      apply (Hdis t); [apply elem_of_app; left; exact Htm | exact Hin0].
    + intros Hb Hblack. pose proof (Hgray Hb) as Hg. fold s' in Hblack.
      rewrite Hg in Hblack. discriminate.
Qed.

(** A change of public objects only: nothing is allocated, owned or published. *)
Lemma inv_own_public (c c' : Config) :
  pool c' = pool c ->
  skipped_blocks_map (state_of c') = skipped_blocks_map (state_of c) ->
  (forall a, obj_change None a (heap (state_of c) !! a) (heap (state_of c') !! a)) ->
  (forall a, a ∈ mark_bitmap (state_of c) -> a ∈ mark_bitmap (state_of c')) ->
  inv_own c -> inv_own c'.
Proof.
  intros Hp Hm Hheap Hbit (Hnd & Hin & Hok & Hfwd).
  assert (Hall : owned_all c' = owned_all c) by (unfold owned_all; rewrite Hp, Hm; reflexivity).
  split; [rewrite Hall; exact Hnd|].
  split.
  { intros a Ha. rewrite Hall in Ha. destruct (Hin a Ha) as [Hs Hf]. split; [|exact Hf].
    eapply obj_change_is_Some; [apply Hheap | exact Hs]. }
  split.
  { rewrite Hp. eapply (pool_ok_preserved None [] []); eauto.
    - intros a Ha. apply elem_of_nil in Ha. contradiction.
    - intros a _. split; apply not_elem_of_nil. }
  intros x o' t Hx Hfrom Hmon.
  pose proof (Hheap x) as Hcx. rewrite Hx in Hcx.
  destruct (obj_change_forwarded _ _ _ _ _ Hcx Hfrom Hmon) as [(o & Ho & Hmo)|Heq];
    [|discriminate].
  eapply (published_ok_preserved None [] [] []); eauto.
  - intros a Ha. apply elem_of_nil in Ha. contradiction.
  - intros a Ha. apply elem_of_nil in Ha. contradiction.
  - intros a Ha. right. rewrite <- Hall. exact Ha.
Qed.

Lemma pool_lookup_split (p : list Activity) (t : nat) (act act' : Activity) :
  p !! t = Some act ->
  p = take t p ++ act :: drop (S t) p /\
  <[t := act']> p = take t p ++ act' :: drop (S t) p.
Proof.
  intros H. split.
  - symmetry. apply take_drop_middle, H.
  - apply insert_take_drop. eapply lookup_lt_Some, H.
Qed.

Lemma inv_own_running (c : Config) (t : nat) (stack : list Frame) :
  inv_own c -> pool c !! t = Some (Running stack) ->
  Forall (frame_ok (state_of c)) stack /\ stack_ok stack /\
  NoDup ((stack ≫= owned_frame) ++ (skipped_blocks_map (state_of c)).*2) /\
  (forall a, a ∈ (stack ≫= owned_frame) ++ (skipped_blocks_map (state_of c)).*2 ->
     is_Some (heap (state_of c) !! a) /\ IsInFromSpace a = false).
Proof.
  intros (Hnd & Hin & Hok & _) Ht.
  destruct (pool_lookup_split _ _ _ (Finished 0) Ht) as [Hp _].
  assert (Hsub : (stack ≫= owned_frame) ++ (skipped_blocks_map (state_of c)).*2
                 ⊆+ owned_all c).
  { unfold owned_all. rewrite Hp. rewrite pool_owned_Permutation.
    cbn [owned_activity]. solve_submseteq. }
  pose proof (proj1 (Forall_forall _ _) Hok (Running stack)) as Hact.
  destruct Hact as [Hf Hs]; [eapply list_elem_of_lookup_2, Ht|].
  split; [exact Hf|]. split; [exact Hs|]. split.
  - eapply submseteq_NoDup; eauto.
  - intros a Ha. apply Hin. eapply elem_of_submseteq; eauto.
Qed.

(** Every action keeps the ownership invariant. *)
Lemma inv_own_config_step (a : Action) (c c' : Config) :
  config_step a c = Ok c' -> inv_own c -> inv_own c'.
Proof.
  intros H Hinv. destruct a as [t g ref|t|x lw]; cbn [config_step] in H.
  - destruct (pool c !! t) as [[stack|v]|] eqn:Ht; try discriminate.
    injection H as <-.
    destruct (pool_lookup_split _ _ _ (Running [FMark g ref]) Ht) as [Hp Hp'].
    eapply inv_own_step; [exact Hp | exact Hp' | | exact Hinv].
    cbn [state_of owned_activity]. apply step_own_public.
    + intros a. constructor.
    + reflexivity.
    + reflexivity.
    + reflexivity.
    + intros a Ha. destruct Hinv as (_ & Hin & _). apply Hin. unfold owned_all.
      apply elem_of_app. right. exact Ha.
    + split; [constructor; [exact I | constructor] | cbn; auto].
  - destruct (pool c !! t) as [[[|f rest]|v]|] eqn:Ht; try discriminate.
    destruct (frame_step t f (state_of c)) as [[r s']| | |] eqn:Hstep; try discriminate.
    injection H as <-.
    destruct (pool_lookup_split _ _ _ (after_step r rest) Ht) as [Hp Hp'].
    destruct (inv_own_running _ _ _ Hinv Ht) as (Hf & Hs & Hnd & Hin).
    eapply inv_own_step; [exact Hp | exact Hp' | | exact Hinv].
    cbn [state_of owned_activity]. eapply frame_step_own; eauto.
  - destruct (mutator_sets_lock_word x lw (state_of c)) as [[[] s']| | |] eqn:Hstep;
      try discriminate.
    injection H as <-.
    unfold mutator_sets_lock_word in Hstep. inv_exec.
    apply andb_prop in Heqb as [Hf1 Hf2]. apply negb_true_iff in Hf1, Hf2.
    eapply (inv_own_public c); [reflexivity | reflexivity | | | exact Hinv]; cbn.
    + intros a. destruct (decide (a = x)) as [->|Hne].
      * rewrite lookup_insert_eq, Ho. constructor; assumption.
      * rewrite lookup_insert_ne by congruence. constructor.
    + auto.
Qed.

(** So does every schedule. *)
Lemma inv_own_run_actions (schedule : list Action) (c c' : Config) :
  run_actions schedule c = Ok c' -> inv_own c -> inv_own c'.
Proof.
  revert c. induction schedule as [|a later IH]; intros c H Hinv; cbn [run_actions] in H.
  - injection H as <-. exact Hinv.
  - destruct (config_step a c) as [c1| | |] eqn:Hstep; try discriminate.
    eapply IH; [exact H|]. eapply inv_own_config_step; eauto.
Qed.

(** *** The history is kept *)

(** The control flow of the frames. *)
Lemma frame_step_flow (t : nat) (f : Frame) (s s' : State) (r : FrameStep) :
  frame_step t f s = Ok (r, s') ->
  match r with
  | Goto (FCopy pc' l') =>
      match pc' with
      | CopyEntry => exists g, f = FMark g (from_ref l') /\ l' = entry_locals (from_ref l')
      | CopyTrySkipped =>
          exists l size, f = FCopy CopyEntry l /\ returns (SizeOf (from_ref l)) s size /\
            from_ref l' = from_ref l /\ obj_size l' = size /\
            region_space_alloc_size l' = RoundUp size (kAlignment E)
      | CopyNonMovingFallback => f = FCopy CopyTrySkipped l'
      | CopyLoopHead =>
          (exists l size, f = FCopy CopyEntry l /\ returns (SizeOf (from_ref l)) s size /\
             from_ref l' = from_ref l /\ obj_size l' = size /\
             region_space_alloc_size l' = RoundUp size (kAlignment E)) \/
          (exists pc l, f = FCopy pc l /\ pc <> CopyEntry /\ same_call l l')
      | CopySetGray => exists l, f = FCopy CopyLoopHead l /\ same_call l l'
      | CopyCas => f = FCopy CopySetGray l'
      | CopyCountObject => f = FCopy CopyCas l'
      | CopyCountBytes => f = FCopy CopyCountObject l'
      | CopyPush => f = FCopy CopyCountBytes l'
      | CopyLostRace | CopySkippedRemainder => False
      end
  | Goto _ => False
  | Call (FCopy pc' l') (FFillEntry _ _) =>
      exists pc l, f = FCopy pc l /\ pc <> CopyEntry /\ same_call l l' /\
        (pc' = CopyLostRace \/ pc' = CopySkippedRemainder)
  | Call (FFillAwait d n _) (FMark _ _) => f = FFillEntry d n
  | Call _ _ => False
  | Return v =>
      match f with
      | FMark _ _ | FFillRest _ _ _ _ => True
      | FCopy CopyPush l => v = to_ref l
      | FCopy CopyLostRace l => v = ForwardingAddress (old_lock_word l)
      | _ => False
      end
  end.
Proof.
  intros H. destruct f as [g ref|pc l|d n|d n en|d n en c]; cbn [frame_step] in H.
  - apply Mark_step_spec in H as (_ & _ & _ & _ & _ & [(-> & _)|(_ & _ & _ & o & _ & [->|(v & _ & _ & ->)])]).
    + exact I.
    + exists g. split; reflexivity.
    + exact I.
  - destruct pc; cbn [Copy_step] in H.
    + apply Copy_entry_spec in H as (_ & _ & _ & _ & size & Hsize & Hr). cbv zeta in Hr.
      destruct Hr as [(-> & _)|(a & _ & _ & _ & _ & ->)].
      * exists l, size. repeat split; auto.
      * left. exists l, size. repeat split; auto.
    + apply Copy_try_skipped_spec in H as (_ & _ & _ & Hr). cbv zeta in Hr.
      destruct Hr as [(-> & _)|(k & size & addr & _ & _ & _ & [(_ & ->)|(_ & _ & _ & _ & ->)])].
      * reflexivity.
      * right. exists CopyTrySkipped, l. repeat split; auto; discriminate.
      * exists CopyTrySkipped, l. repeat split; auto; discriminate.
    + apply Copy_skipped_remainder_spec in H as (_ & _ & _ & _ & _ & _ & ->).
      right. exists CopySkippedRemainder, l. repeat split; auto; discriminate.
    + apply Copy_non_moving_fallback_spec in H as (_ & _ & _ & a & n & _ & _ & _ & _ & _ & _ & _ & _ & ->).
      right. exists CopyNonMovingFallback, l. repeat split; auto; discriminate.
    + apply Copy_loop_head_spec in H as (_ & _ & _ & _ & o & _ & _ & ->).
      destruct (is_forwarding (monitor o)).
      * exists CopyLoopHead, l. repeat split; auto; discriminate.
      * exists l. repeat split; auto.
    + apply Copy_lost_race_spec in H as (_ & _ & -> & _). reflexivity.
    + apply Copy_set_gray_spec in H as (_ & _ & _ & _ & -> & _). reflexivity.
    + apply Copy_cas_spec in H as (_ & _ & _ & _ & o & _ & [(_ & _ & ->)|(_ & ->)]).
      * reflexivity.
      * right. exists CopyCas, l. repeat split; auto; discriminate.
    + apply Copy_count_object_spec in H as (_ & _ & _ & _ & _ & ->). reflexivity.
    + apply Copy_count_bytes_spec in H as (_ & _ & _ & _ & _ & ->). reflexivity.
    + apply Copy_push_spec in H as (_ & -> & _). reflexivity.
  - apply FillWithDummyObject_enter_spec in H as (_ & _ & _ & _ & _ & en & ->). reflexivity.
  - discriminate.
  - apply FillWithDummyObject_rest_spec in H as (_ & _ & _ & _ & -> & _). exact I.
Qed.

Lemma pending_resume (p : Frame -> list Z) (caller : Frame) (v : Z) :
  p = pending_count \/ p = pending_bytes -> p (resume caller v) = p caller.
Proof. intros [->| ->]; destruct caller; reflexivity. Qed.

Lemma pending_after_return (p : Frame -> list Z) (v : Z) (rest : list Frame) :
  p = pending_count \/ p = pending_bytes ->
  pending p (after_step (Return v) rest) = pending p (Running rest).
Proof.
  intros Hp. destruct rest as [|caller rest]; [reflexivity|].
  cbn [after_step pending]. rewrite !bind_cons, pending_resume by exact Hp. reflexivity.
Qed.

Lemma is_forwarding_address (lw : LockWord) :
  is_forwarding lw = true -> lw = LwForwardingAddress (ForwardingAddress lw).
Proof. destruct lw; try discriminate. reflexivity. Qed.

Ltac log_counter :=
  first [ left; split; [reflexivity | assumption]
        | right; cbn; rewrite ?Z.add_0_r; assumption ].
Ltac log_parts := split; [|split; [|split; [|split; [|split]]]].
Ltac log_perm := let rest := fresh in
  intros rest; cbn [after_step pending]; rewrite ?bind_cons;
  cbn [pending_count pending_bytes app fmap list_fmap fst]; rewrite ?app_nil_r;
  first [reflexivity | solve_Permutation].
Ltac no_entry := let x := fresh in let v := fresh in let Hin := fresh in
  intros x v Hin; cbn in Hin; apply elem_of_nil in Hin; destruct Hin.

(** What one step of a frame adds to the history. *)
Lemma frame_step_log (t : nat) (f : Frame) (s s' : State) (r : FrameStep) :
  frame_step t f s = Ok (r, s') -> frame_ok s f ->
  (forall rest,
     pending pending_count (after_step r rest) ++ (log_counted f).*1
     ≡ₚ (log_installed f r s').*1.*1 ++ pending pending_count (Running (f :: rest))) /\
  (forall rest,
     pending pending_bytes (after_step r rest) ++ (log_counted_bytes f).*1
     ≡ₚ (log_installed f r s').*1.*1 ++ pending pending_bytes (Running (f :: rest))) /\
  ((log_counted f = [] /\ objects_moved s' = objects_moved s) \/
   objects_moved s' = wrap64 (objects_moved s + Z.of_nat (length (log_counted f)))) /\
  ((log_counted_bytes f = [] /\ bytes_moved s' = bytes_moved s) \/
   bytes_moved s' = wrap64 (bytes_moved s + sum_sizes (log_counted_bytes f))) /\
  log_installed f r s' = match published f r with
                         | Some (x, t) => [(x, t, rb_at s' t)]
                         | None => []
                         end /\
  (forall x v, (x, v) ∈ log_returned f r -> forwarded_to s' x v).
Proof.
  intros H Hok.
  assert (Hret : forall v f0 rest p, p = pending_count \/ p = pending_bytes -> p f0 = [] ->
            pending p (after_step (Return v) rest) ++ []
            ≡ₚ [] ++ pending p (Running (f0 :: rest))).
  { intros v f0 rest p Hp Hf. rewrite pending_after_return, app_nil_r by exact Hp.
    cbn [pending]. rewrite bind_cons, Hf. reflexivity. }
  destruct f as [g ref|pc l|d n|d n en|d n en c]; cbn [frame_step] in H.
  - apply Mark_step_spec in H as (_ & Hn & Hb & _ & _ & Hr).
    destruct Hr as [(-> & Hz)|(Hz & Hfrom & Hheap & o & Ho & [->|(v & Hm & Hv & ->)])];
      cbn [log_counted log_counted_bytes log_installed published fmap list_fmap];
      log_parts; try log_counter; try reflexivity; try log_perm;
      try (intros rest; apply Hret; auto; fail).
    + intros x v Hin. cbn [log_returned] in Hin.
      destruct Hz as [->|Hz]; [cbn in Hin; apply elem_of_nil in Hin; destruct Hin|].
      rewrite Hz, andb_false_r in Hin. apply elem_of_nil in Hin. destruct Hin.
    + no_entry.
    + intros x v' Hin. cbn [log_returned] in Hin.
      rewrite Hfrom in Hin. destruct (ref =? 0); cbn in Hin;
        [apply elem_of_nil in Hin; destruct Hin|].
      apply list_elem_of_singleton in Hin. injection Hin as -> ->.
      split; [exact Hfrom|]. unfold lock_word_at. rewrite Hheap, Ho. cbn. rewrite Hm.
      reflexivity.
  - destruct Hok as [Hfrom Hok]. destruct pc; cbn [Copy_step] in H.
    + apply Copy_entry_spec in H as (_ & _ & Hn & Hb & size & Hsize & Hr). cbv zeta in Hr.
      destruct Hr as [(-> & _)|(a & _ & _ & _ & _ & ->)];
        cbn [log_counted log_counted_bytes log_installed published fmap list_fmap];
        log_parts; try log_counter; try reflexivity; try log_perm; no_entry.
    + apply Copy_try_skipped_spec in H as (_ & Hn & Hb & Hr). cbv zeta in Hr.
      destruct Hr as [(-> & _)|(k & size & addr & _ & _ & _ & [(_ & ->)|(_ & _ & _ & _ & ->)])];
        cbn [log_counted log_counted_bytes log_installed published fmap list_fmap];
        log_parts; try log_counter; try reflexivity; try log_perm; no_entry.
    + apply Copy_skipped_remainder_spec in H as (_ & _ & Hn & Hb & _ & _ & ->).
      cbn [log_counted log_counted_bytes log_installed published fmap list_fmap];
        log_parts; try log_counter; try reflexivity; try log_perm; no_entry.
    + apply Copy_non_moving_fallback_spec in H
        as (_ & Hn & Hb & a & n & _ & _ & _ & _ & _ & _ & _ & _ & ->).
      cbn [log_counted log_counted_bytes log_installed published fmap list_fmap];
        log_parts; try log_counter; try reflexivity; try log_perm; no_entry.
    + apply Copy_loop_head_spec in H as (_ & _ & Hn & Hb & o & _ & _ & ->).
      destruct (is_forwarding (monitor o));
        cbn [log_counted log_counted_bytes log_installed published fmap list_fmap];
        log_parts; try log_counter; try reflexivity; try log_perm; no_entry.
    + destruct Hok as (Htarget & Hfw & Hlw).
      apply Copy_lost_race_spec in H as (Hn & Hb & -> & _ & Hne & Hheap).
      cbn [log_counted log_counted_bytes log_installed published fmap list_fmap];
        log_parts; try log_counter; try reflexivity; try log_perm;
        try (intros rest; apply Hret; auto; fail).
      intros x v Hin. cbn [log_returned] in Hin.
      apply list_elem_of_singleton in Hin. injection Hin as -> ->.
      split; [exact Hfrom|].
      assert (Hto : from_ref l <> to_ref l).
      { intros Heq. apply target_ok_good, good_target_not_from in Htarget.
        rewrite Heq in Hfrom. congruence. }
      rewrite <- (is_forwarding_address _ Hfw).
      unfold lock_word_at in *.
      destruct Hheap as [(_ & _ & -> & _)|[(_ & _ & -> & _)|(_ & _ & _ & -> & _)]];
        rewrite ?lookup_delete_ne by congruence; exact Hlw.
    + apply Copy_set_gray_spec in H as (_ & _ & Hn & Hb & -> & _).
      cbn [log_counted log_counted_bytes log_installed published fmap list_fmap];
        log_parts; try log_counter; try reflexivity; try log_perm; no_entry.
    + apply Copy_cas_spec in H as (_ & _ & Hn & Hb & o & _ & [(_ & _ & ->)|(_ & ->)]);
        cbn [log_counted log_counted_bytes log_installed published fmap list_fmap];
        log_parts; try log_counter; try reflexivity; try log_perm; no_entry.
    + apply Copy_count_object_spec in H as (_ & _ & _ & Hn & Hb & ->).
      cbn [log_counted log_counted_bytes log_installed published fmap list_fmap];
        log_parts; try log_counter; try reflexivity; try log_perm; try no_entry.
    + apply Copy_count_bytes_spec in H as (_ & _ & _ & Hn & Hb & ->).
      cbn [log_counted log_counted_bytes log_installed published fmap list_fmap];
        log_parts; try log_counter; try reflexivity; try log_perm; try no_entry.
    + apply Copy_push_spec in H as (Hv & -> & _).
      unfold view in Hv. injection Hv as Hheap _ _ Hn Hb.
      cbn [log_counted log_counted_bytes log_installed published fmap list_fmap];
        log_parts; try log_counter; try reflexivity; try log_perm;
        try (intros rest; apply Hret; auto; fail).
      intros x v Hin. cbn [log_returned] in Hin.
      apply list_elem_of_singleton in Hin. injection Hin as -> ->.
      split; [exact Hfrom|]. unfold lock_word_at in *. rewrite Hheap. exact Hok.
  - apply FillWithDummyObject_enter_spec in H as (_ & _ & _ & Hn & Hb & en & ->).
    cbn [log_counted log_counted_bytes log_installed published fmap list_fmap];
      log_parts; try log_counter; try reflexivity; try log_perm; no_entry.
  - discriminate.
  - apply FillWithDummyObject_rest_spec in H as (_ & _ & Hn & Hb & -> & _).
    cbn [log_counted log_counted_bytes log_installed published fmap list_fmap];
      log_parts; try log_counter; try reflexivity; try log_perm;
      try (intros rest; apply Hret; auto; fail).
    no_entry.
Qed.

(** What a step of a frame does to the from-space: nothing but a change of
    lock word or color, and the forwarding address the step publishes. *)
Lemma frame_step_from_space (t : nat) (f : Frame) (rest : list Frame) (s s' : State)
    (r : FrameStep) :
  frame_step t f s = Ok (r, s') ->
  Forall (frame_ok s) (f :: rest) -> stack_ok (f :: rest) ->
  NoDup (((f :: rest) ≫= owned_frame) ++ (skipped_blocks_map s).*2) ->
  (forall a, a ∈ ((f :: rest) ≫= owned_frame) ++ (skipped_blocks_map s).*2 ->
     is_Some (heap s !! a) /\ IsInFromSpace a = false) ->
  (forall x, IsInFromSpace x = true ->
     obj_change (published f r) x (heap s !! x) (heap s' !! x)) /\
  (forall x t0, published f r = Some (x, t0) ->
     IsInFromSpace x = true /\
     (exists o, heap s !! x = Some o /\ is_forwarding (monitor o) = false) /\
     lock_word_at s' x = Some (LwForwardingAddress t0) /\
     (kUseBakerReadBarrier E = true -> rb_at s' t0 = Some GrayPtr)).
Proof.
  intros H Hok Hst Hnd Hin.
  pose proof (frame_step_own _ _ _ _ _ _ H Hok Hst Hnd Hin)
    as (W & Wb & N & Hheap & _ & HW & _ & _ & _ & _ & _ & Hpub).
  split.
  - intros x Hx. apply Hheap. intros HxW.
    assert (Hown : x ∈ ((f :: rest) ≫= owned_frame) ++ (skipped_blocks_map s).*2)
      by (apply HW, elem_of_app; left; exact HxW).
    apply Hin in Hown as [_ Hown]. congruence.
  - intros x t0 Hp. rewrite Hp in Hpub. destruct Hpub as (_ & _ & _ & _ & Hgray).
    destruct f as [| [] l | | |]; try discriminate.
    destruct r as [[| [] l' | | |]| |]; try discriminate.
    cbn in Hp. injection Hp as <- <-.
    inversion Hok as [|? ? Hf _]; subst. destruct Hf as (Hfrom & _ & Hfw & _).
    cbn [frame_step Copy_step] in H.
    apply Copy_cas_spec in H as (_ & _ & _ & _ & o & Ho & [(Hm & Hh & _)|(_ & Hr)]);
      [|discriminate].
    split; [exact Hfrom|]. split; [exists o; split; [exact Ho | congruence]|].
    split; [|exact Hgray]. unfold lock_word_at. rewrite Hh, lookup_insert_eq. reflexivity.
Qed.

Lemma sum_sizes_app (l1 l2 : list (Z * Z)) : sum_sizes (l1 ++ l2) = sum_sizes l1 + sum_sizes l2.
Proof.
  unfold sum_sizes. induction l1 as [|e l1 IH]; cbn [app foldr]; [reflexivity|].
  rewrite IH. lia.
Qed.

Lemma forwarded_to_kept (pub : option (Z * Z)) (s s' : State) (x t0 : Z) :
  obj_change pub x (heap s !! x) (heap s' !! x) ->
  forwarded_to s x t0 -> forwarded_to s' x t0.
Proof.
  intros Hc [Hfrom Hlw]. split; [exact Hfrom|].
  unfold lock_word_at in *. eapply obj_change_forwarding; eauto.
Qed.

(** The history invariant across a change of the configuration that adds
    [li], [lc], [lb] and [lr] to the logs. *)
Lemma inv_log_step (n0 b0 : Z) (pub : option (Z * Z)) (c c' : Config)
    (li : list (Z * Z * option RbPtr)) (lc lb lr : list (Z * Z)) :
  installed c' = li ++ installed c -> counted c' = lc ++ counted c ->
  counted_bytes c' = lb ++ counted_bytes c -> returned c' = lr ++ returned c ->
  (forall x, IsInFromSpace x = true ->
     obj_change pub x (heap (state_of c) !! x) (heap (state_of c') !! x)) ->
  (forall x t0, pub = Some (x, t0) ->
     IsInFromSpace x = true /\
     (exists o, heap (state_of c) !! x = Some o /\ is_forwarding (monitor o) = false) /\
     lock_word_at (state_of c') x = Some (LwForwardingAddress t0) /\
     (kUseBakerReadBarrier E = true -> rb_at (state_of c') t0 = Some GrayPtr)) ->
  li = match pub with
       | Some (x, t0) => [(x, t0, rb_at (state_of c') t0)]
       | None => []
       end ->
  (pool c' ≫= pending pending_count) ++ lc.*1
    ≡ₚ li.*1.*1 ++ (pool c ≫= pending pending_count) ->
  (pool c' ≫= pending pending_bytes) ++ lb.*1
    ≡ₚ li.*1.*1 ++ (pool c ≫= pending pending_bytes) ->
  ((lc = [] /\ objects_moved (state_of c') = objects_moved (state_of c)) \/
   objects_moved (state_of c')
   = wrap64 (objects_moved (state_of c) + Z.of_nat (length lc))) ->
  ((lb = [] /\ bytes_moved (state_of c') = bytes_moved (state_of c)) \/
   bytes_moved (state_of c') = wrap64 (bytes_moved (state_of c) + sum_sizes lb)) ->
  (forall x v, (x, v) ∈ lr -> forwarded_to (state_of c') x v) ->
  inv_log n0 b0 c -> inv_log n0 b0 c'.
Proof.
  intros Hi Hc Hb Hr Hheap Hpub Hli Hpc Hpb Hn Hbm Hlr
    (Hnd & Hcount & Hbytes & Hinst & Hall & Hret & Hon & Hob).
  unfold inv_log. cbv zeta. rewrite Hi, Hc, Hb, Hr, !fmap_app.
  assert (Hkept : forall x t0, forwarded_to (state_of c) x t0 -> forwarded_to (state_of c') x t0).
  { intros x t0 Hf. eapply forwarded_to_kept; [|exact Hf]. apply Hheap. apply Hf. }
  split.
  { destruct pub as [[x t0]|]; subst li; cbn; [|exact Hnd].
    apply NoDup_cons. split; [|exact Hnd].
    intros Hx. apply list_elem_of_fmap in Hx as ([x0 t1] & Hx1 & Hx).
    apply list_elem_of_fmap in Hx as ([[x1 t2] col] & Hx2 & Hx). cbn in *. simplify_eq.
    destruct (Hinst _ _ _ Hx) as [[_ Hlw] _].
    destruct (Hpub _ _ eq_refl) as (_ & (o & Ho & Hfw) & _).
    unfold lock_word_at in Hlw. rewrite Ho in Hlw. cbn in Hlw.
    injection Hlw as Hlw. rewrite Hlw in Hfw. discriminate. }
  split.
  { rewrite Hcount, (app_assoc (li.*1.*1)), <- Hpc. solve_Permutation. }
  split.
  { rewrite Hbytes, (app_assoc (li.*1.*1)), <- Hpb. solve_Permutation. }
  split.
  { intros x t0 col Hin. apply elem_of_app in Hin as [Hin|Hin].
    - destruct pub as [[x1 t1]|]; subst li; [|apply elem_of_nil in Hin; destruct Hin].
      apply list_elem_of_singleton in Hin. simplify_eq.
      destruct (Hpub _ _ eq_refl) as (Hfrom & _ & Hlw & Hgray).
      split; [split; assumption | exact Hgray].
    - destruct (Hinst _ _ _ Hin) as [Hf Hg]. split; [apply Hkept, Hf | exact Hg]. }
  split.
  { intros x o' Hx Hfrom Hfw.
    pose proof (Hheap x Hfrom) as Hcx. rewrite Hx in Hcx.
    destruct (monitor o') as [| | | |t0] eqn:Hm; try discriminate.
    destruct (obj_change_forwarded _ _ _ _ _ Hcx Hfrom Hm) as [(o & Ho & Hmo)|Heq].
    - apply elem_of_app. right. eapply Hall; eauto. rewrite Hmo. reflexivity.
    - subst pub li. apply elem_of_app. left. cbn. apply elem_of_cons. left. reflexivity. }
  split.
  { intros x v Hin. apply elem_of_app in Hin as [Hin|Hin]; [apply Hlr, Hin|].
    apply Hkept, Hret, Hin. }
  split.
  { rewrite length_app, Nat2Z.inj_add.
    destruct Hn as [(-> & ->)| ->]; rewrite Hon.
    - cbn. reflexivity.
    - rewrite wrap64_add_l. f_equal. lia. }
  rewrite sum_sizes_app.
  destruct Hbm as [(-> & ->)| ->]; rewrite Hob.
  - cbn. reflexivity.
  - rewrite wrap64_add_l. f_equal. lia.
Qed.

Lemma pool_bind_Permutation {A : Type} (g : Activity -> list A) (p1 p2 : list Activity)
    (act : Activity) :
  (p1 ++ act :: p2) ≫= g ≡ₚ g act ++ (p1 ≫= g) ++ (p2 ≫= g).
Proof. rewrite bind_app, bind_cons. solve_Permutation. Qed.

Lemma pool_pending_step {A : Type} (g : Activity -> list A) (p : list Activity) (t : nat)
    (act act' : Activity) (new old : list A) :
  p !! t = Some act -> g act' ++ new ≡ₚ old ++ g act ->
  ((<[t := act']> p) ≫= g) ++ new ≡ₚ old ++ (p ≫= g).
Proof.
  intros Ht Hg.
  pose proof (take_drop_middle p t act Ht) as Hmid.
  assert (Hp' : <[t := act']> p = take t p ++ act' :: drop (S t) p)
    by (apply insert_take_drop; eapply lookup_lt_Some, Ht).
  rewrite Hp'. remember (take t p) as p1. remember (drop (S t) p) as p2.
  rewrite <- Hmid, !pool_bind_Permutation.
  set (others := (p1 ≫= g) ++ (p2 ≫= g)).
  transitivity ((g act' ++ new) ++ others); [solve_Permutation|].
  rewrite Hg. solve_Permutation.
Qed.

(** Every action keeps the history invariant. *)
Lemma inv_log_config_step (n0 b0 : Z) (a : Action) (c c' : Config) :
  config_step a c = Ok c' -> inv_own c -> inv_log n0 b0 c -> inv_log n0 b0 c'.
Proof.
  intros H Hinv Hlog. destruct a as [t g ref|t|x lw]; cbn [config_step] in H.
  - destruct (pool c !! t) as [[stack|v]|] eqn:Ht; try discriminate.
    injection H as <-.
    eapply (inv_log_step n0 b0 None c _ [] [] [] []); cbn [state_of installed counted
      counted_bytes returned pool]; try reflexivity; try exact Hlog.
    + intros x _. constructor.
    + intros x t0 Hp. discriminate.
    + apply (pool_pending_step _ _ _ (Finished v)); [exact Ht | reflexivity].
    + apply (pool_pending_step _ _ _ (Finished v)); [exact Ht | reflexivity].
    + left. split; reflexivity.
    + left. split; reflexivity.
    + intros x v0 Hin. apply elem_of_nil in Hin. destruct Hin.
  - destruct (pool c !! t) as [[[|f rest]|v]|] eqn:Ht; try discriminate.
    destruct (frame_step t f (state_of c)) as [[r s']| | |] eqn:Hstep; try discriminate.
    injection H as <-.
    destruct (inv_own_running _ _ _ Hinv Ht) as (Hf & Hs & Hnd & Hin).
    destruct (frame_step_from_space _ _ _ _ _ _ Hstep Hf Hs Hnd Hin) as [Hheap Hpub].
    inversion Hf as [|? ? Hf0 _]; subst.
    destruct (frame_step_log _ _ _ _ _ Hstep Hf0) as (Hpc & Hpb & Hn & Hb & Hli & Hlr).
    eapply (inv_log_step n0 b0 (published f r) c _ (log_installed f r s') (log_counted f)
              (log_counted_bytes f) (log_returned f r));
      cbn [state_of installed counted counted_bytes returned pool];
      try reflexivity; try exact Hlog; try assumption.
    + apply (pool_pending_step _ _ _ (Running (f :: rest))); [exact Ht | apply Hpc].
    + apply (pool_pending_step _ _ _ (Running (f :: rest))); [exact Ht | apply Hpb].
  - destruct (mutator_sets_lock_word x lw (state_of c)) as [[[] s']| | |] eqn:Hstep;
      try discriminate.
    injection H as <-.
    unfold mutator_sets_lock_word in Hstep. inv_exec.
    apply andb_prop in Heqb as [Hf1 Hf2]. apply negb_true_iff in Hf1, Hf2.
    eapply (inv_log_step n0 b0 None c _ [] [] [] []); cbn [state_of installed counted
      counted_bytes returned pool]; try reflexivity; try exact Hlog.
    + intros a _. cbn. destruct (decide (a = x)) as [->|Hne].
      * rewrite lookup_insert_eq, Ho. constructor; assumption.
      * rewrite lookup_insert_ne by congruence. constructor.
    + intros x0 t0 Hp. discriminate.
    + cbn. rewrite app_nil_r. reflexivity.
    + cbn. rewrite app_nil_r. reflexivity.
    + left. split; reflexivity.
    + left. split; reflexivity.
    + intros x0 v0 Hin. apply elem_of_nil in Hin. destruct Hin.
Qed.

Lemma inv_log_run_actions (n0 b0 : Z) (schedule : list Action) (c c' : Config) :
  run_actions schedule c = Ok c' -> inv_own c -> inv_log n0 b0 c ->
  inv_own c' /\ inv_log n0 b0 c'.
Proof.
  revert c. induction schedule as [|a later IH]; intros c H Hinv Hlog; cbn [run_actions] in H.
  - injection H as <-. split; assumption.
  - destruct (config_step a c) as [c1| | |] eqn:Hstep; try discriminate.
    eapply IH; [exact H | |].
    + eapply inv_own_config_step; eauto.
    + eapply inv_log_config_step; eauto.
Qed.

(** *** From the flip *)

Lemma at_flip_pool (c : Config) {A : Type} (g : Activity -> list A) :
  Forall (fun a => match a with Finished _ => True | Running _ => False end) (pool c) ->
  (forall v, g (Finished v) = []) -> pool c ≫= g = [].
Proof.
  intros Hp Hg. induction Hp as [|a p Ha _ IH]; [reflexivity|].
  rewrite bind_cons, IH. destruct a as [stack|v]; [destruct Ha|]. rewrite Hg. reflexivity.
Qed.

Lemma at_flip_inv (c : Config) : at_flip c -> inv_own c /\ inv_log 0 0 c.
Proof.
  intros (Hp & Hc & Hb & Hi & Hr & Hn & Hbm & Hnd & Hin & Hobj).
  assert (Hown : owned_all c = (skipped_blocks_map (state_of c)).*2).
  { unfold owned_all. rewrite (at_flip_pool c owned_activity Hp); reflexivity. }
  split.
  - split; [rewrite Hown; exact Hnd|]. split; [rewrite Hown; exact Hin|]. split.
    + eapply Forall_impl; [exact Hp|]. intros [stack|v] Ha; [destruct Ha | exact I].
    + intros x o t0 Hx Hfrom Hm. destruct (Hobj x o Hx Hfrom) as [Hfw _].
      rewrite Hm in Hfw. discriminate.
  - unfold inv_log. cbv zeta. rewrite Hc, Hb, Hi, Hr, Hn, Hbm.
    rewrite !(at_flip_pool c (pending _) Hp) by reflexivity. cbn.
    split; [constructor|]. split; [reflexivity|]. split; [reflexivity|].
    split; [intros x t0 col Hx; apply elem_of_nil in Hx; destruct Hx|].
    split.
    { intros x o Hx Hfrom Hfw. destruct (Hobj x o Hx Hfrom) as [Hfw' _]. congruence. }
    split; [intros x v Hx; apply elem_of_nil in Hx; destruct Hx|].
    split; reflexivity.
Qed.

Lemma at_flip_run (schedule : list Action) (c c' : Config) :
  at_flip c -> run_actions schedule c = Ok c' -> inv_own c' /\ inv_log 0 0 c'.
Proof.
  intros Hflip Hrun. destruct (at_flip_inv c Hflip) as [Hown Hlog].
  eapply inv_log_run_actions; eauto.
Qed.

(** C3.  In Baker mode [Copy] grays its copy before it tries to install the
    forwarding address.  (1) The step that sets the read-barrier pointer
    leaves the copy gray and leads to the compare-and-swap, and (2) the
    compare-and-swap is reached from that step only.  (3) Under every
    schedule of calls of [Mark], steps of the threads and changes of lock
    words by mutators, from the flip on, every forwarding address that was
    installed was installed with a gray copy, and is the forwarding address of
    its object.  (4) The compare-and-swap either installs the forwarding
    address and leads to the increments, or changes nothing and leads back to
    the head of the loop; (5) the increments add one to [objects_moved_] and
    the allocation size to [bytes_moved_]; (6) the last step pushes the copy
    onto a mark stack and returns it. *)
Theorem Copy_gray_before_forwarding :
  kUseBakerReadBarrier E = true ->
  (forall l s r s', Copy_set_gray l s = Ok (r, s') ->
     r = Goto (FCopy CopyCas l) /\ rb_at s' (to_ref l) = Some GrayPtr) /\
  (forall t f s s' l,
     frame_step t f s = Ok (Goto (FCopy CopyCas l), s') -> f = FCopy CopySetGray l) /\
  (forall schedule c c',
     at_flip c -> run_actions schedule c = Ok c' ->
     forall x t col, (x, t, col) ∈ installed c' ->
       col = Some GrayPtr /\ forwarded_to (state_of c') x t) /\
  (forall l s r s', Copy_cas l s = Ok (r, s') ->
     (r = Goto (FCopy CopyCountObject l) /\
      lock_word_at s' (from_ref l) = Some (LwForwardingAddress (to_ref l))) \/
     (r = Goto (FCopy CopyLoopHead l) /\ heap s' = heap s)) /\
  (forall l s,
     Copy_count_object l s
     = Ok (Goto (FCopy CopyCountBytes l), set_objects_moved (wrap64 (objects_moved s + 1)) s) /\
     Copy_count_bytes l s
     = Ok (Goto (FCopy CopyPush l),
           set_bytes_moved (wrap64 (bytes_moved s + region_space_alloc_size l)) s)) /\
  (forall t l s r s', Copy_push t l s = Ok (r, s') ->
     r = Return (to_ref l) /\ on_mark_stack t (to_ref l) s' /\ view s' = view s).
Proof.
  intros Hbaker.
  split.
  { intros l s r s' H. apply Copy_set_gray_spec in H as (_ & _ & _ & _ & -> & Hh).
    split; [reflexivity|]. destruct Hh as [(_ & o & Ho & Hh)|(Hb & _)]; [|congruence].
    unfold rb_at. rewrite Hh, lookup_insert_eq. reflexivity. }
  split.
  { intros t f s s' l H. exact (frame_step_flow _ _ _ _ _ H). }
  split.
  { intros schedule c c' Hflip Hrun x t col Hin.
    destruct (at_flip_run _ _ _ Hflip Hrun) as [_ (_ & _ & _ & Hinst & _)].
    destruct (Hinst _ _ _ Hin) as [Hf Hg]. split; [exact (Hg Hbaker) | exact Hf]. }
  split.
  { intros l s r s' H.
    apply Copy_cas_spec in H as (_ & _ & _ & _ & o & Ho & [(_ & Hh & ->)|(Hh & ->)]).
    - left. split; [reflexivity|]. unfold lock_word_at. rewrite Hh, lookup_insert_eq.
      reflexivity.
    - right. split; [reflexivity | exact Hh]. }
  split.
  { intros l s. split; reflexivity. }
  intros t l s r s' H. apply Copy_push_spec in H as (Hv & -> & Hon). auto.
Qed.

Lemma SizeOf_size_in (a : Z) (s : State) (n : Z) :
  returns (SizeOf a) s n -> size_in (heap s) a = Some n.
Proof.
  unfold returns, SizeOf, class_of, size_in. intros H. inv_exec.
  all: repeat match goal with Hx : heap _ !! _ = Some _ |- _ => rewrite Hx; clear Hx end.
  all: repeat match goal with Hx : class_data _ = Some _ |- _ => rewrite Hx end.
  all: match goal with Hx : (component_size _ =? 0) = _ |- _ => rewrite Hx end.
  all: reflexivity.
Qed.

(** *** What FillWithDummyObject leaves in the block *)

(** The guard's destructor leaves the heap as it is. *)
Lemma fill_guard_heap (self : nat) (enabled : bool) (s s' : State) (r : FrameStep) :
  (by_gc <- gets (is_gc_thread self) ;;
   when (kUseBakerReadBarrier E && by_gc && enabled)
     (DCHECK (gets gc_grays_immune_objects) ;; modify (set_gc_grays_immune_objects false)) ;;
   ret (Return 0)) s = Ok (r, s') ->
  r = Return 0 /\ heap s' = heap s /\ java_lang_Object s' = java_lang_Object s.
Proof.
  intros H.
  assert (K : keeps (fun s => (heap s, java_lang_Object s))
                (by_gc <- gets (is_gc_thread self) ;;
                 when (kUseBakerReadBarrier E && by_gc && enabled)
                   (DCHECK (gets gc_grays_immune_objects) ;;
                    modify (set_gc_grays_immune_objects false)) ;;
                 ret (Return 0))) by keeps_tac.
  pose proof (K _ _ _ H) as Hk. cbv beta in Hk. injection Hk as Hh Hj.
  split; [|auto].
  apply bind_Ok in H as (by_gc & s0 & _ & H). apply bind_Ok in H as ([] & s1 & _ & H).
  apply ret_Ok in H. injection H as -> _. reflexivity.
Qed.

(** The last step of FillWithDummyObject writes the header: on a block
    below the int-array data offset the class java.lang.Object, on any other
    block the int-array class that [Mark] returned and the length that fills
    the block.  The block then has the size asked for, and no other object has
    changed. *)
Lemma FillWithDummyObject_rest_header (self : nat) (d n : Z) (en : bool) (c : Z)
    (s s' : State) (r : FrameStep) :
  FillWithDummyObject_rest self d n en c s = Ok (r, s') ->
  r = Return 0 /\ c <> 0 /\
  (exists oc dc, heap s !! c = Some oc /\ class_data oc = Some dc /\ component_size dc = 4) /\
  (forall a, a <> d -> heap s' !! a = heap s !! a) /\
  exists o0 o,
    heap s !! d = Some o0 /\ heap s' !! d = Some o /\
    size_in (heap s') d = Some n /\
    o = if n <? Array_DataOffset E 4
        then set_klass (java_lang_Object s) o0
        else SetLength (to_int32 ((n - Array_DataOffset E 4) / 4)) (set_klass c o0).
Proof.
  unfold FillWithDummyObject_rest. intros H.
  apply bind_Ok in H as ([] & s0 & Hc & H). apply CHECK_Ok in Hc as [Hnz [= ->]].
  apply negb_true_iff in Hnz. apply Z.eqb_neq in Hnz.
  apply bind_Ok in H as ([] & s0 & Ha & H).
  apply AssertToSpaceInvariant_state in Ha. subst s0.
  apply bind_Ok in H as (dc & s0 & Hcls & H).
  apply class_of_Ok in Hcls as (oc & dc' & Hoc & Hdc & [= <- ->]).
  apply bind_Ok in H as ([] & s0 & Hc & H). apply CHECK_Ok in Hc as [Hcs [= ->]].
  apply Z.eqb_eq in Hcs. rewrite Hcs in H.
  apply bind_Ok in H as ([] & s1 & Hfill & H).
  destruct (fill_guard_heap _ _ _ _ _ H) as (-> & Hheap & _).
  split; [reflexivity|]. split; [exact Hnz|]. split; [eauto|].
  rewrite Hheap. clear H Hheap.
  destruct (n <? Array_DataOffset E 4).
  - apply bind_Ok in Hfill as (jlo & s0 & Hg & Hfill). apply gets_Ok in Hg as [= -> ->].
    apply bind_Ok in Hfill as ([] & s0 & Ha & Hfill).
    apply AssertToSpaceInvariant_state in Ha. subst s0.
    apply bind_Ok in Hfill as (dj & s0 & Hcls & Hfill).
    apply class_of_Ok in Hcls as (oj & dj' & Hoj & Hdj & [= <- ->]).
    apply bind_Ok in Hfill as ([] & s0 & Hc & Hfill). apply CHECK_Ok in Hc as [_ [= ->]].
    apply bind_Ok in Hfill as ([] & s0 & Hset & Hfill).
    apply SetClass_Ok in Hset as (o0 & Ho0 & [= ->]).
    apply bind_Ok in Hfill as (size & s0 & Hsize & Hfill).
    pose proof (SizeOf_state _ _ _ _ Hsize). subst s0.
    apply CHECK_Ok in Hfill as [Heq [= ->]]. apply Z.eqb_eq in Heq. subst size.
    apply SizeOf_size_in in Hsize. cbn [heap set_heap] in *.
    split; [intros a Ha; apply lookup_insert_ne; congruence|].
    exists o0, (set_klass (java_lang_Object s) o0).
    split; [exact Ho0|]. split; [apply lookup_insert_eq|]. split; [exact Hsize | reflexivity].
  - apply bind_Ok in Hfill as ([] & s0 & Hset & Hfill).
    apply SetClass_Ok in Hset as (o0 & Ho0 & [= ->]).
    apply bind_Ok in Hfill as ([] & s0 & Hc & Hfill). apply CHECK_Ok in Hc as [_ [= ->]].
    apply bind_Ok in Hfill as (o1 & s0 & Ho1 & Hfill).
    apply object_at_Ok in Ho1 as (o1' & Ho1 & [= <- ->]).
    cbn [heap set_heap] in Ho1. rewrite lookup_insert_eq in Ho1. injection Ho1 as <-.
    apply bind_Ok in Hfill as ([] & s0 & Hst & Hfill).
    apply store_object_Ok in Hst as [= ->].
    apply bind_Ok in Hfill as (size & s0 & Hsize & Hfill).
    pose proof (SizeOf_state _ _ _ _ Hsize). subst s0.
    apply CHECK_Ok in Hfill as [Heq [= ->]]. apply Z.eqb_eq in Heq. subst size.
    apply SizeOf_size_in in Hsize. cbn [heap set_heap] in *.
    rewrite insert_insert_eq in *.
    split; [intros a Ha; apply lookup_insert_ne; congruence|].
    eexists o0, _. split; [exact Ho0|]. split; [apply lookup_insert_eq|].
    split; [exact Hsize | reflexivity].
Qed.

(** A whole call of FillWithDummyObject, whatever [Mark] does in between:
    when it returns, the size was object-aligned and the block holds a dummy
    object of exactly that size, a java.lang.Object below the int-array data
    offset and an int array of the length that fills the block otherwise. *)
Lemma FillWithDummyObject_header (fuel self : nat) (d n : Z) (s s' : State) :
  FillWithDummyObject fuel self d n s = Ok (tt, s') ->
  IsAligned n (kObjectAlignment E) = true /\
  exists o,
    heap s' !! d = Some o /\ size_in (heap s') d = Some n /\
    if n <? Array_DataOffset E 4
    then klass o = java_lang_Object s'
    else klass o <> 0 /\
         array_length o = to_int32 ((n - Array_DataOffset E 4) / 4) /\
         exists oc dc, heap s' !! klass o = Some oc /\ class_data oc = Some dc /\
                       component_size dc = 4.
Proof.
  intros H. rewrite FillWithDummyObject_run in H.
  destruct (run_thread fuel self [FFillEntry d n] s) as [[v s'']| | |] eqn:Hrun;
    try discriminate.
  injection H as ->.
  destruct fuel as [|fuel]; [discriminate|].
  rewrite run_thread_S, thread_step_cons in Hrun. cbn [frame_step] in Hrun.
  rewrite FillWithDummyObject_enter_eq in Hrun. cbv zeta in Hrun.
  destruct (IsAligned n (kObjectAlignment E)); [|discriminate].
  split; [reflexivity|].
  match type of Hrun with run_thread _ _ [?m; ?c] ?s1 = _ =>
    destruct (run_thread_call fuel self [m] c [] s1 v s' ltac:(discriminate) Hrun)
      as (f1 & f2 & v1 & s2 & _ & H2 & _)
  end.
  cbn [resume] in H2.
  destruct f2 as [|f2]; [discriminate|].
  rewrite run_thread_S, thread_step_cons in H2. cbn [frame_step] in H2.
  destruct (FillWithDummyObject_rest self d n _ v1 s2) as [[r s3]| | |] eqn:Hrest;
    try discriminate.
  pose proof Hrest as Hguard.
  destruct (FillWithDummyObject_rest_header _ _ _ _ _ _ _ _ Hrest)
    as (-> & Hnz & (oc & dc & Hoc & Hdc & Hcs) & Hframe & o0 & o & Ho0 & Ho & Hsize & Heq).
  injection H2 as <- <-.
  assert (Hj : java_lang_Object s3 = java_lang_Object s2).
  { assert (K : keeps java_lang_Object
                  (FillWithDummyObject_rest self d n
                     (kUseBakerReadBarrier E && is_gc_thread self s
                      && negb (gc_grays_immune_objects s)) v1)) by keeps_tac.
    exact (K _ _ _ Hguard). }
  exists o. split; [exact Ho|]. split; [exact Hsize|].
  destruct (n <? Array_DataOffset E 4); subst o.
  - rewrite Hj. reflexivity.
  - cbn [klass array_length SetLength set_klass].
    split; [exact Hnz|]. split; [reflexivity|].
    destruct (decide (v1 = d)) as [->|Hne].
    + unfold size_in in Hsize. rewrite Ho in Hsize.
      cbn [klass SetLength set_klass] in Hsize. rewrite Ho in Hsize.
      cbn [class_data SetLength set_klass] in Hsize.
      rewrite Ho0 in Hoc. injection Hoc as <-. rewrite Hdc in Hsize.
      eexists _, dc. split; [exact Ho|]. split; [exact Hdc | exact Hcs].
    + exists oc, dc. rewrite (Hframe v1 Hne). auto.
Qed.

(** The fill and the recycling together: the block that the lost race puts
    into the skipped-blocks map holds a dummy object of the size under which
    it is entered. *)
Lemma lost_race_block_walkable (self : nat) (l : CopyLocals) (en : bool) (c : Z)
    (s s1 s2 : State) (r r' : FrameStep) :
  FillWithDummyObject_rest self (to_ref l) (bytes_allocated l) en c s = Ok (r, s1) ->
  Copy_lost_race l s1 = Ok (r', s2) ->
  fall_back_to_non_moving l = false -> bytes_allocated l <= kRegionSize E ->
  (bytes_allocated l, to_ref l) ∈ skipped_blocks_map s2 /\
  size_in (heap s2) (to_ref l) = Some (bytes_allocated l).
Proof.
  intros Hfill Hlost Hfb Hsmall.
  destruct (FillWithDummyObject_rest_header _ _ _ _ _ _ _ _ Hfill)
    as (_ & _ & _ & _ & o0 & o & _ & _ & Hsize & _).
  destruct (Copy_lost_race_spec _ _ _ _ Hlost)
    as (_ & _ & _ & _ & _ & [(_ & Hbig & _)|[(_ & _ & Hheap & _ & Hmap)|(Hfb' & _)]]).
  - lia.
  - rewrite Hheap, Hmap. split; [|exact Hsize].
    rewrite multimap_insert_Permutation. apply elem_of_cons. left. reflexivity.
  - congruence.
Qed.

(** C2.  Losing the forwarding race.  (1) When the copy loop finds a
    forwarding address in the lock word it has just copied, it calls
    FillWithDummyObject on its own block, with the bytes it allocated, and
    goes on to the lost-race step; the counters stay.  (2) That step leaves
    [objects_moved_] and [bytes_moved_] as they are and returns the forwarding
    address it found, which is neither null nor its own block; the block goes
    out of the heap when it is larger than a region, into the skipped-blocks
    map when not, and out of the heap and the mark bitmap on the non-moving
    fallback.  (3) The steps of FillWithDummyObject leave the counters as they
    are.  (4) Its first step checks that the size is object-aligned, zeroes
    the block and calls [Mark] on the int-array class.  (5) Its last step
    writes the header: the class java.lang.Object on a block below the
    int-array data offset, else the int-array class that [Mark] returned, a
    class of 4-byte components, and the length that fills the block; the block
    then has the size asked for, and no other object has changed.  (6) So a
    call of FillWithDummyObject that returns, whatever [Mark] did in between,
    leaves in the block a dummy object of exactly the size of the block.
    (7) The block that the lost race puts into the skipped-blocks map holds
    the dummy object, of the size under which the block is entered.
    (8) Under every schedule from the flip on: no object is counted
    twice; the objects with a forwarding address installed are those counted
    or with the increment pending, each once; [objects_moved_] is the number
    of objects counted; every forwarded from-space object had its forwarding
    address installed by a compare-and-swap of Copy; and a call for a
    from-space object returned the installed forwarding address of the
    object, so that two calls for one object returned the same reference. *)
Theorem Copy_lost_race_returns_winner :
  (forall l s r s' o,
     Copy_loop_head l s = Ok (r, s') -> heap s !! from_ref l = Some o ->
     is_forwarding (monitor o) = true ->
     r = Call (FCopy CopyLostRace (with_old_lock_word (monitor o) l))
              (FFillEntry (to_ref l) (bytes_allocated l)) /\
     objects_moved s' = objects_moved s /\ bytes_moved s' = bytes_moved s) /\
  (forall l s r s', Copy_lost_race l s = Ok (r, s') ->
     objects_moved s' = objects_moved s /\ bytes_moved s' = bytes_moved s /\
     r = Return (ForwardingAddress (old_lock_word l)) /\
     ForwardingAddress (old_lock_word l) <> 0 /\
     ForwardingAddress (old_lock_word l) <> to_ref l /\
     ((fall_back_to_non_moving l = false /\ kRegionSize E < bytes_allocated l /\
       heap s' = delete (to_ref l) (heap s) /\
       mark_bitmap s' = mark_bitmap s /\ skipped_blocks_map s' = skipped_blocks_map s) \/
      (fall_back_to_non_moving l = false /\ bytes_allocated l <= kRegionSize E /\
       heap s' = heap s /\ mark_bitmap s' = mark_bitmap s /\
       skipped_blocks_map s' =
         multimap_insert (bytes_allocated l, to_ref l) (skipped_blocks_map s)) \/
      (fall_back_to_non_moving l = true /\ has_space_bitmap E (to_ref l) = true /\
       to_ref l ∈ mark_bitmap s /\
       heap s' = delete (to_ref l) (heap s) /\
       mark_bitmap s' = mark_bitmap s ∖ {[to_ref l]} /\
       skipped_blocks_map s' = skipped_blocks_map s))) /\
  (forall t f s r s',
     match f with FFillEntry _ _ | FFillRest _ _ _ _ => True | _ => False end ->
     frame_step t f s = Ok (r, s') ->
     objects_moved s' = objects_moved s /\ bytes_moved s' = bytes_moved s) /\
  (forall t d n s r s',
     FillWithDummyObject_enter t d n s = Ok (r, s') ->
     IsAligned n (kObjectAlignment E) = true /\
     heap s' = <[d := zeroed_object]> (heap s) /\
     exists en, r = Call (FFillAwait d n en) (FMark true (int_array_class s))) /\
  (forall t d n en c s r s',
     FillWithDummyObject_rest t d n en c s = Ok (r, s') ->
     r = Return 0 /\ c <> 0 /\
     (exists oc dc, heap s !! c = Some oc /\ class_data oc = Some dc /\
                    component_size dc = 4) /\
     (forall a, a <> d -> heap s' !! a = heap s !! a) /\
     exists o0 o,
       heap s !! d = Some o0 /\ heap s' !! d = Some o /\
       size_in (heap s') d = Some n /\
       o = if n <? Array_DataOffset E 4
           then set_klass (java_lang_Object s) o0
           else SetLength (to_int32 ((n - Array_DataOffset E 4) / 4)) (set_klass c o0)) /\
  (forall fuel t d n s s',
     FillWithDummyObject fuel t d n s = Ok (tt, s') ->
     IsAligned n (kObjectAlignment E) = true /\
     exists o,
       heap s' !! d = Some o /\ size_in (heap s') d = Some n /\
       if n <? Array_DataOffset E 4
       then klass o = java_lang_Object s'
       else klass o <> 0 /\
            array_length o = to_int32 ((n - Array_DataOffset E 4) / 4) /\
            exists oc dc, heap s' !! klass o = Some oc /\ class_data oc = Some dc /\
                          component_size dc = 4) /\
  (forall t l en c s s1 s2 r r',
     FillWithDummyObject_rest t (to_ref l) (bytes_allocated l) en c s = Ok (r, s1) ->
     Copy_lost_race l s1 = Ok (r', s2) ->
     fall_back_to_non_moving l = false -> bytes_allocated l <= kRegionSize E ->
     (bytes_allocated l, to_ref l) ∈ skipped_blocks_map s2 /\
     size_in (heap s2) (to_ref l) = Some (bytes_allocated l)) /\
  (forall schedule c c',
     at_flip c -> run_actions schedule c = Ok c' ->
     NoDup (counted c').*1 /\
     (installed c').*1.*1 ≡ₚ (pool c' ≫= pending pending_count) ++ (counted c').*1 /\
     objects_moved (state_of c') = wrap64 (Z.of_nat (length (counted c'))) /\
     (forall x o, heap (state_of c') !! x = Some o -> IsInFromSpace x = true ->
        is_forwarding (monitor o) = true -> x ∈ (installed c').*1.*1) /\
     (forall x v, (x, v) ∈ returned c' ->
        forwarded_to (state_of c') x v /\ exists col, (x, v, col) ∈ installed c') /\
     (forall x v v', (x, v) ∈ returned c' -> (x, v') ∈ returned c' -> v = v')).
Proof.
  split.
  { intros l s r s' o H Ho Hfw.
    apply Copy_loop_head_spec in H as (_ & _ & Hn & Hb & o' & Ho' & _ & ->).
    rewrite Ho in Ho'. injection Ho' as <-. rewrite Hfw. auto. }
  split; [intros l s r s' H; exact (Copy_lost_race_spec _ _ _ _ H)|].
  split.
  { intros t f s r s' Hf H. destruct f as [| |d n| |d n en c]; try destruct Hf;
      cbn [frame_step] in H.
    - apply FillWithDummyObject_enter_spec in H as (_ & _ & _ & Hn & Hb & _). auto.
    - apply FillWithDummyObject_rest_spec in H as (_ & _ & Hn & Hb & _). auto. }
  split.
  { intros t d n s r s' H. pose proof H as H0.
    apply FillWithDummyObject_enter_spec in H as (Hh & _ & _ & _ & _ & Hr).
    rewrite FillWithDummyObject_enter_eq in H0. cbv zeta in H0.
    destruct (IsAligned n (kObjectAlignment E)); [auto | discriminate]. }
  split; [intros t d n en c s r s'; apply FillWithDummyObject_rest_header|].
  split; [intros fuel t d n s s'; apply FillWithDummyObject_header|].
  split; [intros t l en c s s1 s2 r r'; apply lost_race_block_walkable|].
  intros schedule c c' Hflip Hrun.
  destruct (at_flip_run _ _ _ Hflip Hrun)
    as [_ (Hnd & Hcount & _ & Hinst & Hall & Hret & Hn & _)].
  assert (Hfwd : forall x v v', forwarded_to (state_of c') x v ->
            forwarded_to (state_of c') x v' -> v = v').
  { intros x v v' [_ H1] [_ H2]. rewrite H1 in H2. congruence. }
  split.
  { rewrite Hcount in Hnd. apply NoDup_app in Hnd as (_ & _ & Hnd). exact Hnd. }
  split; [exact Hcount|]. split; [exact Hn|]. split; [exact Hall|].
  split.
  - intros x v Hin. pose proof (Hret _ _ Hin) as Hf. split; [exact Hf|].
    destruct Hf as [Hfrom Hlw]. unfold lock_word_at in Hlw.
    destruct (heap (state_of c') !! x) as [o|] eqn:Ho; [|discriminate].
    cbn in Hlw. injection Hlw as Hlw.
    assert (Hx : x ∈ (installed c').*1.*1)
      by (eapply Hall; eauto; rewrite Hlw; reflexivity).
    apply list_elem_of_fmap in Hx as ([x0 t1] & Hx1 & Hx).
    apply list_elem_of_fmap in Hx as ([[x1 t2] col] & Hx2 & Hx). cbn in *. simplify_eq.
    exists col. destruct (Hinst _ _ _ Hx) as [Hf' _].
    assert (t2 = v); [|subst; exact Hx].
    eapply Hfwd; [exact Hf'|]. split; [exact Hfrom|]. unfold lock_word_at.
    rewrite Ho. cbn. rewrite Hlw. reflexivity.
  - intros x v v' H1 H2. eapply Hfwd; apply Hret; eassumption.
Qed.

(** *** Mark again *)

(** An object of the non-moving space that is marked comes back as it is. *)
Lemma MarkNonMoving_marked (self : nat) (x : Z) (s : State) :
  (kIsDebugBuild E = true ->
   GetRegionType E x = kRegionTypeNone /\ immune_ContainsObject E x = false) ->
  (if has_space_bitmap E x then x ∈ mark_bitmap s else x ∈ los_bitmap s) ->
  (kIsDebugBuild E = true -> kUseBakerReadBarrier E = true ->
   exists o, heap s !! x = Some o /\ rb_ptr o <> BlackPtr) ->
  MarkNonMoving self x s = Ok (x, s).
Proof.
  intros Hregion Hmarked Hrb.
  assert (Hcolor : when (kUseBakerReadBarrier E) (DCHECK (rb_is_gray_or_white x)) s
                   = Ok (tt, s)).
  { unfold when, DCHECK. destruct (kUseBakerReadBarrier E); [|reflexivity].
    destruct (kIsDebugBuild E); [|reflexivity].
    destruct (Hrb eq_refl eq_refl) as (o & Ho & Hc).
    unfold rb_is_gray_or_white, GetReadBarrierPointer, object_at, bind, ret, CHECK.
    rewrite Ho. destruct (rb_ptr o); try congruence; reflexivity. }
  assert (Hd1 : DCHECK (ret (bool_decide (GetRegionType E x = kRegionTypeNone))) s
                = Ok (tt, s)).
  { unfold DCHECK. destruct (kIsDebugBuild E); [|reflexivity].
    destruct (Hregion eq_refl) as [Hr Hi]. unfold bind, ret, CHECK.
    rewrite bool_decide_eq_true_2 by exact Hr. reflexivity. }
  assert (Hd2 : DCHECK (ret (negb (immune_ContainsObject E x))) s = Ok (tt, s)).
  { unfold DCHECK. destruct (kIsDebugBuild E); [|reflexivity].
    destruct (Hregion eq_refl) as [Hr Hi]. unfold bind, ret, CHECK.
    rewrite Hi. reflexivity. }
  unfold MarkNonMoving. cbv zeta.
  rewrite (bind_eq _ _ _ _ _ Hd1), (bind_eq _ _ _ _ _ Hd2).
  destruct (has_space_bitmap E x); cbn [negb].
  - assert (Ht : mark_bitmap_Test x s = Ok (true, s)).
    { unfold mark_bitmap_Test, gets. rewrite bool_decide_eq_true_2 by exact Hmarked.
      reflexivity. }
    rewrite (bind_eq _ _ _ _ _ Ht), (bind_eq _ _ _ _ _ Hcolor). reflexivity.
  - assert (Ht : los_bitmap_Test x s = Ok (true, s)).
    { unfold los_bitmap_Test, gets. rewrite bool_decide_eq_true_2 by exact Hmarked.
      reflexivity. }
    rewrite (bind_eq _ _ s s false) by reflexivity.
    rewrite (bind_eq _ _ _ _ _ Ht), (bind_eq _ _ _ _ _ Hcolor). reflexivity.
Qed.
Lemma MarkNonMoving_Ok (self : nat) (x : Z) (s s' : State) (y : Z) :
  MarkNonMoving self x s = Ok (y, s') ->
  y = x /\
  (kIsDebugBuild E = true ->
   GetRegionType E x = kRegionTypeNone /\ immune_ContainsObject E x = false) /\
  (s' = s \/
   ((if has_space_bitmap E x then x ∈ mark_bitmap s' else x ∈ los_bitmap s') /\
    (kIsDebugBuild E = true -> kUseBakerReadBarrier E = true ->
     exists o, heap s' !! x = Some o /\ rb_ptr o = GrayPtr))).
Proof.
  unfold MarkNonMoving. cbv zeta. intros H.
  inv_exec.
  all: split; [reflexivity|].
  all: try (split; [intros; repeat match goal with
              | Hb : bool_decide _ = true |- _ => apply bool_decide_eq_true in Hb
              | Hb : negb _ = true |- _ => apply negb_true_iff in Hb
              end; first [split; assumption | discriminate | congruence]|]).
  all: try (left; reflexivity).
  all: try (exfalso; cbn in *; congruence).
  all: right.
  all: match goal with
       | Hp : without_mark_stacks ?s2 = without_mark_stacks _ /\ _ |- _ =>
           destruct Hp as [Hw _];
           pose proof (f_equal heap Hw) as Hh; pose proof (f_equal mark_bitmap Hw) as Hmb;
           pose proof (f_equal los_bitmap Hw) as Hlb; cbn in Hh, Hmb, Hlb
       end.
  all: split;
    [ destruct (has_space_bitmap E x); try discriminate; rewrite ?Hmb, ?Hlb;
      apply elem_of_union; left; apply elem_of_singleton; reflexivity
    | intros Hd Hb; try discriminate ].
  all: match goal with
       | Ho : heap _ !! _ = Some ?o, Hg : true = bool_decide (rb_ptr ?o = GrayPtr) |- _ =>
           exists o; rewrite Hh; split;
           [exact Ho | symmetry in Hg; apply bool_decide_eq_true in Hg; exact Hg]
       end.
Qed.

Lemma MarkNonMoving_again (self : nat) (x : Z) (s s' : State) (y : Z) :
  MarkNonMoving self x s = Ok (y, s') ->
  y = x /\ exists s'', MarkNonMoving self x s' = Ok (x, s'').
Proof.
  intros H. pose proof H as H1.
  apply MarkNonMoving_Ok in H1 as (-> & Hregion & [->|[Hmarked Hgray]]).
  - split; [reflexivity|]. exists s. exact H.
  - split; [reflexivity|]. exists s'. apply MarkNonMoving_marked; try assumption.
    intros Hd Hb. destruct (Hgray Hd Hb) as (o & Ho & Hc). exists o.
    split; [exact Ho|]. rewrite Hc. discriminate.
Qed.

Lemma MarkUnevacFromSpaceRegion_again (self : nat) (x : Z) (s s' : State) (y : Z) :
  MarkUnevacFromSpaceRegion self x s = Ok (y, s') ->
  y = x /\ exists s'', MarkUnevacFromSpaceRegion self x s' = Ok (x, s'').
Proof.
  unfold MarkUnevacFromSpaceRegion. intros H.
  assert (Hset : y = x /\ x ∈ region_space_bitmap s').
  { unfold region_bitmap_AtomicTestAndSet, region_bitmap_Test in H. inv_exec.
    all: split; [reflexivity|].
    all: try match goal with
         | Hp : without_mark_stacks _ = without_mark_stacks _ /\ _ |- _ =>
             destruct Hp as [Hw _]; apply (f_equal region_space_bitmap) in Hw; cbn in Hw;
             rewrite Hw
         end.
    all: cbn; apply elem_of_union; left; apply elem_of_singleton; reflexivity. }
  destruct Hset as [-> Hin]. split; [reflexivity|].
  eexists. unfold region_bitmap_AtomicTestAndSet, region_bitmap_Test, bind, gets, modify, ret.
  rewrite bool_decide_eq_true_2 by exact Hin. reflexivity.
Qed.

Lemma MarkImmuneSpace_again (g : bool) (x : Z) (s s' : State) (y : Z) :
  MarkImmuneSpace g x s = Ok (y, s') ->
  y = x /\ exists s'', MarkImmuneSpace g x s' = Ok (x, s'').
Proof.
  intros H. pose proof H as H1. unfold MarkImmuneSpace in H1.
  assert (Hcase : y = x /\
            (s' = s \/
             (kUseBakerReadBarrier E = true /\
              updated_all_immune_objects s' = updated_all_immune_objects s /\
              exists o, heap s' !! x = Some o /\ rb_ptr o = GrayPtr))).
  { unfold AtomicSetReadBarrierPointer in H1. inv_exec.
    all: split; [reflexivity|]; try (left; reflexivity).
    right. split; [reflexivity|]. split; [reflexivity|]. cbn.
    eexists. rewrite lookup_insert_eq. split; reflexivity. }
  destruct Hcase as [-> [->|(Hb & Hu & o & Ho & Hc)]]; (split; [reflexivity|]).
  - exists s. exact H.
  - exists s'. unfold MarkImmuneSpace. rewrite Hb.
    unfold bind at 1. unfold bind at 1. unfold gets at 1.
    destruct (negb g || updated_all_immune_objects s'); [reflexivity|].
    unfold AtomicSetReadBarrierPointer, object_at, bind. rewrite Ho.
    destruct (decide (rb_ptr o = WhitePtr)) as [Hw|Hw]; [congruence|]. reflexivity.
Qed.

(** Outside the from-space [Mark] returns its argument, and marks it again
    without fail. *)
Lemma Mark_step_again (self : nat) (g : bool) (x : Z) (s s' : State) (r : FrameStep) :
  Mark_step self g x s = Ok (r, s') -> IsInFromSpace x = false ->
  r = Return x /\ exists s'', Mark_step self g x s' = Ok (Return x, s'').
Proof.
  unfold Mark_step. intros H Hfrom.
  destruct (x =? 0) eqn:Hz.
  { apply Z.eqb_eq in Hz. subst. inv_exec. split; [reflexivity|]. eexists. reflexivity. }
  unfold IsInFromSpace in Hfrom. apply bool_decide_eq_false in Hfrom.
  destruct (GetRegionType E x) eqn:Hregion; try congruence.
  - apply bind_Ok in H as (y & s1 & H & Hr). apply ret_Ok in Hr. injection Hr as -> ->.
    apply MarkUnevacFromSpaceRegion_again in H as [-> [s'' H]].
    split; [reflexivity|]. exists s''. rewrite (bind_eq _ _ _ _ _ H). reflexivity.
  - inv_exec. split; [reflexivity|]. eexists. reflexivity.
  - destruct (immune_ContainsObject E x).
    + apply bind_Ok in H as (y & s1 & H & Hr). apply ret_Ok in Hr. injection Hr as -> ->.
      apply MarkImmuneSpace_again in H as [-> [s'' H]].
      split; [reflexivity|]. exists s''. rewrite (bind_eq _ _ _ _ _ H). reflexivity.
    + apply bind_Ok in H as (y & s1 & H & Hr). apply ret_Ok in Hr. injection Hr as -> ->.
      apply MarkNonMoving_again in H as [-> [s'' H]].
      split; [reflexivity|]. exists s''. rewrite (bind_eq _ _ _ _ _ H). reflexivity.
Qed.

(** A step of one thread keeps the ownership invariant, whichever thread it is. *)
Lemma inv_own_thread_step (self : nat) (c : Config) (p1 p2 : list Activity) (f : Frame)
    (rest : list Frame) (r : FrameStep) (s1 : State) :
  pool c = p1 ++ Running (f :: rest) :: p2 ->
  frame_step self f (state_of c) = Ok (r, s1) -> inv_own c ->
  frame_ok (state_of c) f /\
  inv_own {| state_of := s1; pool := p1 ++ after_step r rest :: p2;
             counted := counted c; counted_bytes := counted_bytes c;
             installed := installed c; returned := returned c |}.
Proof.
  intros Hp Hstep Hinv.
  assert (Ht : pool c !! length p1 = Some (Running (f :: rest))).
  { rewrite Hp. apply list_lookup_middle. reflexivity. }
  destruct (inv_own_running _ _ _ Hinv Ht) as (Hf & Hs & Hnd & Hin).
  split; [inversion Hf; assumption|].
  eapply inv_own_step; [exact Hp | reflexivity | | exact Hinv].
  cbn [state_of owned_activity]. eapply frame_step_own; eauto.
Qed.

Lemma bottom_for_step (self : nat) (f : Frame) (rest : list Frame) (s s1 : State)
    (r : FrameStep) (x : Z) :
  frame_step self f s = Ok (r, s1) -> bottom_for x (f :: rest) ->
  match after_step r rest with
  | Running stack => bottom_for x stack
  | Finished _ => rest = []
  end.
Proof.
  intros H Hb. pose proof (frame_step_flow _ _ _ _ _ H) as Hflow.
  unfold bottom_for in *. destruct rest as [|c rest].
  - cbn [last] in Hb. destruct r as [f'|caller callee|v]; cbn [after_step last].
    + destruct f' as [|pc' l'| | |]; cbn in Hflow; try contradiction.
      destruct pc'; cbn in Hflow;
        repeat match goal with
        | Hx : exists _, _ |- _ => destruct Hx
        | Hx : _ /\ _ |- _ => destruct Hx
        | Hx : _ \/ _ |- _ => destruct Hx
        | Hx : same_call _ _ |- _ => destruct Hx as (? & ? & ?)
        | Hx : False |- _ => destruct Hx
        end; subst; cbn in *; congruence.
    + destruct caller as [|pc' l'| |d n en|]; cbn in Hflow; try contradiction.
      * destruct callee; cbn in Hflow; try contradiction.
        destruct Hflow as (pc & l & -> & _ & (Hfrom & _) & _). congruence.
      * destruct callee; cbn in Hflow; try contradiction. subst. destruct Hb.
    + reflexivity.
  - destruct r as [f'|caller callee|v]; cbn [after_step]; try exact Hb.
    change (last (f :: c :: rest)) with (last (c :: rest)) in Hb.
    destruct rest as [|c' rest]; [|exact Hb].
    cbn [last] in *. destruct c; try contradiction; cbn [resume]; exact Hb.
Qed.

(** A call for a from-space object, run on its own among other threads, keeps
    the ownership invariant and returns what the object is forwarded to. *)
Lemma run_thread_from_space (self : nat) (x : Z) (fuel : nat) :
  forall (stack : list Frame) (c : Config) (p1 p2 : list Activity) (y : Z) (s' : State),
    run_thread fuel self stack (state_of c) = Ok (y, s') ->
    pool c = p1 ++ Running stack :: p2 -> inv_own c ->
    bottom_for x stack -> IsInFromSpace x = true -> x <> 0 ->
    forwarded_to s' x y /\
    inv_own {| state_of := s'; pool := p1 ++ Finished y :: p2;
               counted := counted c; counted_bytes := counted_bytes c;
               installed := installed c; returned := returned c |}.
Proof.
  induction fuel as [|fuel IH]; intros stack c p1 p2 y s' Hrun Hp Hinv Hb Hfrom Hx.
  - discriminate.
  - rewrite run_thread_S in Hrun. destruct stack as [|f rest]; [discriminate|].
    rewrite thread_step_cons in Hrun.
    destruct (frame_step self f (state_of c)) as [[r s1]| | |] eqn:Hstep; try discriminate.
    destruct (inv_own_thread_step _ _ _ _ _ _ _ _ Hp Hstep Hinv) as [Hf Hinv1].
    pose proof (bottom_for_step _ _ _ _ _ _ _ Hstep Hb) as Hb1.
    set (c1 := {| state_of := s1; pool := p1 ++ after_step r rest :: p2;
                  counted := counted c; counted_bytes := counted_bytes c;
                  installed := installed c; returned := returned c |}) in *.
    destruct r as [f'|caller callee|v]; cbn [after_step] in *.
    + exact (IH _ c1 p1 p2 y s' Hrun eq_refl Hinv1 Hb1 Hfrom Hx).
    + exact (IH _ c1 p1 p2 y s' Hrun eq_refl Hinv1 Hb1 Hfrom Hx).
    + destruct rest as [|caller rest].
      * injection Hrun as <- <-. split; [|exact Hinv1].
        destruct (frame_step_log _ _ _ _ _ Hstep Hf) as (_ & _ & _ & _ & _ & Hret).
        apply Hret. unfold bottom_for in Hb. cbn [last] in Hb.
        destruct f as [g ref|pc l| | |]; try contradiction; subst x; cbn [log_returned].
        -- rewrite Hfrom. destruct (ref =? 0) eqn:Hz; [apply Z.eqb_eq in Hz; congruence|].
           cbn. apply list_elem_of_singleton. reflexivity.
        -- apply list_elem_of_singleton. reflexivity.
      * exact (IH _ c1 p1 p2 y s' Hrun eq_refl Hinv1 Hb1 Hfrom Hx).
Qed.

Lemma quiescent_call (s : State) (act : Activity) :
  owned_activity act = [] -> activity_ok s act ->
  quiescent s <->
  inv_own {| state_of := s; pool := [act]; counted := []; counted_bytes := [];
             installed := []; returned := [] |}.
Proof.
  intros Hown Hact. unfold quiescent, inv_own, forwarded_ok, published_ok, owned_all, idle.
  cbn [state_of pool]. rewrite bind_cons, Hown. cbn [mbind list_bind app].
  split; intros (H1 & H2 & H3 & H4);
    (split; [exact H1|]; split; [exact H2|]; split; [|exact H4]).
  - constructor; [exact Hact | constructor].
  - constructor.
Qed.

(** A published copy comes back from [Mark] as it is. *)
Lemma Mark_step_published (self : nat) (g : bool) (y : Z) (c : Config) :
  published_ok c y -> Mark_step self g y (state_of c) = Ok (Return y, state_of c).
Proof.
  intros ([Hto|(Hr & Hi & Hb & Hn & Hm)] & [o Ho] & _ & Hcolor).
  - apply Mark_step_to_space, Hto.
  - unfold Mark_step. destruct (y =? 0) eqn:Hz.
    { apply Z.eqb_eq in Hz. subst. reflexivity. }
    rewrite Hr, Hi.
    assert (Hnm : MarkNonMoving self y (state_of c) = Ok (y, state_of c)).
    { apply MarkNonMoving_marked.
      - intros _. split; assumption.
      - rewrite Hb. exact Hm.
      - intros _ Hbaker. exists o. split; [exact Ho|]. intros Hblack.
        apply (Hcolor Hbaker). unfold rb_at. rewrite Ho. cbn. rewrite Hblack. reflexivity. }
    rewrite (bind_eq _ _ _ _ _ Hnm). reflexivity.
Qed.

Lemma at_flip_quiescent (c : Config) : at_flip c -> quiescent (state_of c).
Proof.
  intros Hflip. destruct (at_flip_inv c Hflip) as [(Hnd & Hin & _ & Hfwd) _].
  destruct Hflip as (Hp & _).
  assert (Hown : owned_all c = owned_all (idle (state_of c))).
  { unfold owned_all. rewrite (at_flip_pool c owned_activity Hp); reflexivity. }
  unfold quiescent, inv_own, forwarded_ok, published_ok in *. rewrite <- Hown.
  split; [exact Hnd|]. split; [exact Hin|]. split; [constructor | exact Hfwd].
Qed.

Lemma Mark_step_forwarded (self : nat) (g : bool) (x t : Z) (s : State) :
  x <> 0 -> forwarded_to s x t -> t <> 0 -> Mark_step self g x s = Ok (Return t, s).
Proof.
  intros Hx [Hfrom Hlw] Ht. unfold Mark_step.
  apply Z.eqb_neq in Hx. rewrite Hx.
  unfold IsInFromSpace in Hfrom. apply bool_decide_eq_true in Hfrom. rewrite Hfrom.
  unfold lock_word_at in Hlw. destruct (heap s !! x) as [o|] eqn:Ho; [|discriminate].
  cbn in Hlw. injection Hlw as Hlw.
  unfold GetFwdPtr, GetLockWord, object_at, bind. rewrite Ho. unfold ret at 1.
  rewrite Hlw. cbn [GetState ForwardingAddress]. unfold ret at 1.
  apply Z.eqb_neq in Ht. rewrite Ht. reflexivity.
Qed.

(** C8.  [Mark] is idempotent.  From a state between calls, when [Mark]
    returns [y] for a reference [x] that is not null, a second [Mark], of [y],
    returns [y] within one step.  A to-space reference comes back as it is and
    the state is unchanged; a from-space reference comes back as the
    forwarding address its object then has, which for an object copied
    before is the forwarding address it had, the state unchanged; a reference
    into the unevacuated from-space, an immune space or the non-moving space
    comes back as it is. *)
Theorem Mark_idempotent (fuel self : nat) (g : bool) (x : Z) (s s' : State) (y : Z) :
  quiescent s -> x <> 0 -> Mark fuel self g x s = Ok (y, s') ->
  (exists s'', Mark 1 self g y s' = Ok (y, s'')) /\
  match GetRegionType E x with
  | kRegionTypeToSpace => y = x /\ s' = s
  | kRegionTypeFromSpace =>
      forwarded_to s' x y /\ quiescent s' /\
      (forall t, lock_word_at s x = Some (LwForwardingAddress t) -> t <> 0 ->
         y = t /\ s' = s)
  | _ => y = x
  end.
Proof.
  intros Hq Hx Hrun. unfold Mark in *.
  destruct (IsInFromSpace x) eqn:Hfrom.
  - set (c := {| state_of := s; pool := [Running [FMark g x]]; counted := [];
                 counted_bytes := []; installed := []; returned := [] |}).
    assert (Hinv : inv_own c).
    { apply (quiescent_call s (Running [FMark g x])); [reflexivity | | exact Hq].
      split; [repeat constructor | cbn; auto]. }
    destruct (run_thread_from_space self x fuel [FMark g x] c [] [] y s' Hrun eq_refl Hinv
                eq_refl Hfrom Hx) as [Hfwd Hinv'].
    cbn [app counted counted_bytes installed returned] in Hinv'.
    assert (Hpub : published_ok
              {| state_of := s'; pool := [Finished y]; counted := []; counted_bytes := [];
                 installed := []; returned := [] |} y).
    { destruct Hinv' as (_ & _ & _ & Hf). destruct Hfwd as [_ Hlw].
      unfold lock_word_at in Hlw. cbn [state_of] in Hf.
      destruct (heap s' !! x) as [o|] eqn:Ho; [|discriminate].
      cbn in Hlw. injection Hlw as Hlw. exact (Hf x o y Ho Hfrom Hlw). }
    split.
    + exists s'. apply run_thread_Finish. exact (Mark_step_published self g y _ Hpub).
    + pose proof Hfrom as Hregion. unfold IsInFromSpace in Hregion.
      apply bool_decide_eq_true in Hregion. rewrite Hregion.
      split; [exact Hfwd|]. split.
      * apply (quiescent_call s' (Finished y)); [reflexivity | exact I | exact Hinv'].
      * intros t Hlw Ht. destruct fuel as [|fuel]; [discriminate|].
        rewrite (run_thread_Finish fuel self _ t s s) in Hrun.
        -- injection Hrun as <- <-. split; reflexivity.
        -- apply Mark_step_forwarded; [exact Hx | split; assumption | exact Ht].
  - destruct fuel as [|fuel]; [discriminate|].
    rewrite run_thread_S, thread_step_cons in Hrun. cbn [frame_step] in Hrun.
    destruct (Mark_step self g x s) as [[r s1]| | |] eqn:Hstep; try discriminate.
    pose proof Hstep as Hstep0.
    apply Mark_step_again in Hstep as [-> [s'' Hagain]]; [|exact Hfrom].
    injection Hrun as <- <-. split.
    + exists s''. apply run_thread_Finish. exact Hagain.
    + destruct (GetRegionType E x) eqn:Hregion; try reflexivity.
      * unfold IsInFromSpace in Hfrom. rewrite Hregion in Hfrom.
        rewrite bool_decide_eq_true_2 in Hfrom by reflexivity. discriminate.
      * split; [reflexivity|].
        rewrite Mark_step_to_space in Hstep0.
        -- injection Hstep0 as <-. reflexivity.
        -- unfold IsInToSpace. rewrite Hregion. apply bool_decide_eq_true_2. reflexivity.
Qed.

(** *** Sizes are kept *)

Lemma obj_change_shape (pub : option (Z * Z)) (a : Z) (o : Object) (y : option Object) :
  obj_change pub a (Some o) y ->
  exists o', y = Some o' /\ klass o' = klass o /\ array_length o' = array_length o /\
             class_data o' = class_data o.
Proof.
  intros H. inversion H; subst; eexists; (split; [reflexivity|]); repeat split.
Qed.

Lemma obj_change_from_space (pub : option (Z * Z)) (a : Z) (x : option Object) (o' : Object) :
  obj_change pub a x (Some o') -> IsInFromSpace a = true -> is_Some x.
Proof. intros H Hfrom. inversion H; subst; eauto. congruence. Qed.

(** What a step of one activity does outside the owned addresses. *)
Lemma step_own_outside (pub : option (Z * Z)) (c c' : Config) (p1 p2 : list Activity)
    (act act' : Activity) :
  pool c = p1 ++ act :: p2 -> pool c' = p1 ++ act' :: p2 ->
  step_own pub (state_of c) (state_of c') (owned_activity act) act' ->
  (forall a, a ∉ owned_all c ->
     obj_change pub a (heap (state_of c) !! a) (heap (state_of c') !! a)) /\
  (forall a, a ∈ owned_all c' -> a ∈ owned_all c \/ heap (state_of c) !! a = None).
Proof.
  intros Hp Hp' (W & Wb & N & Hheap & _ & HW & _ & HNf & Hsub & _).
  assert (Hall : forall a, a ∈ owned_all c <->
            a ∈ owned_activity act ++ (skipped_blocks_map (state_of c)).*2 \/
            a ∈ (p1 ≫= owned_activity) ++ (p2 ≫= owned_activity)).
  { intros a. unfold owned_all. rewrite Hp, !elem_of_app, elem_of_pool_owned, !elem_of_app.
    tauto. }
  assert (Hall' : forall a, a ∈ owned_all c' <->
            a ∈ owned_activity act' ++ (skipped_blocks_map (state_of c')).*2 \/
            a ∈ (p1 ≫= owned_activity) ++ (p2 ≫= owned_activity)).
  { intros a. unfold owned_all. rewrite Hp', !elem_of_app, elem_of_pool_owned, !elem_of_app.
    tauto. }
  split.
  - intros a Ha. apply Hheap. intros HaW. apply Ha, Hall. left.
    apply HW, elem_of_app. left. exact HaW.
  - intros a Ha. apply Hall' in Ha as [Ha|Ha].
    + eapply elem_of_submseteq in Ha; [|exact Hsub].
      apply elem_of_app in Ha as [Ha|Ha]; [right; apply HNf, Ha|].
      left. apply Hall. left. exact Ha.
    + left. apply Hall. right. exact Ha.
Qed.

(** Every action leaves the objects that no thread owns as they are, up to
    lock word and color, and owns nothing that was a public object. *)
Lemma config_step_outside (a : Action) (c c' : Config) :
  config_step a c = Ok c' -> inv_own c ->
  exists pub,
    (forall x, x ∉ owned_all c ->
       obj_change pub x (heap (state_of c) !! x) (heap (state_of c') !! x)) /\
    (forall x, x ∈ owned_all c' -> x ∈ owned_all c \/ heap (state_of c) !! x = None).
Proof.
  intros H Hinv. destruct a as [t g ref|t|x lw]; cbn [config_step] in H.
  - destruct (pool c !! t) as [[stack|v]|] eqn:Ht; try discriminate.
    injection H as <-.
    destruct (pool_lookup_split _ _ _ (Running [FMark g ref]) Ht) as [Hp Hp'].
    exists None. eapply step_own_outside; [exact Hp | exact Hp' |].
    cbn [state_of owned_activity]. apply step_own_public.
    + intros a. constructor.
    + reflexivity.
    + reflexivity.
    + reflexivity.
    + intros a Ha. destruct Hinv as (_ & Hin & _). apply Hin. unfold owned_all.
      apply elem_of_app. right. exact Ha.
    + split; [constructor; [exact I | constructor] | cbn; auto].
  - destruct (pool c !! t) as [[[|f rest]|v]|] eqn:Ht; try discriminate.
    destruct (frame_step t f (state_of c)) as [[r s']| | |] eqn:Hstep; try discriminate.
    injection H as <-.
    destruct (pool_lookup_split _ _ _ (after_step r rest) Ht) as [Hp Hp'].
    destruct (inv_own_running _ _ _ Hinv Ht) as (Hf & Hs & Hnd & Hin).
    exists (published f r). eapply step_own_outside; [exact Hp | exact Hp' |].
    cbn [state_of owned_activity]. eapply frame_step_own; eauto.
  - destruct (mutator_sets_lock_word x lw (state_of c)) as [[[] s']| | |] eqn:Hstep;
      try discriminate.
    injection H as <-.
    unfold mutator_sets_lock_word in Hstep. inv_exec.
    apply andb_prop in Heqb as [Hf1 Hf2]. apply negb_true_iff in Hf1, Hf2.
    exists None. split.
    + intros a _. cbn. destruct (decide (a = x)) as [->|Hne].
      * rewrite lookup_insert_eq, Ho. constructor; assumption.
      * rewrite lookup_insert_ne by congruence. constructor.
    + intros a Ha. left. exact Ha.
Qed.

(** The size of a from-space object whose class no thread owns stays. *)
Lemma size_in_kept (pub : option (Z * Z)) (h h' : gmap Z Object) (owned : list Z) (x : Z)
    (o : Object) (n : Z) :
  (forall a, a ∉ owned -> obj_change pub a (h !! a) (h' !! a)) ->
  (x ∉ owned) -> h !! x = Some o -> (klass o ∉ owned) -> size_in h x = Some n ->
  size_in h' x = Some n.
Proof.
  intros Hheap Hx Ho Hk Hsize. unfold size_in in *. rewrite Ho in Hsize.
  pose proof (Hheap x Hx) as Hcx. rewrite Ho in Hcx.
  apply obj_change_shape in Hcx as (o' & -> & Hk' & Hl' & _). rewrite Hk', Hl'.
  destruct (h !! klass o) as [oc|] eqn:Hoc; [|discriminate].
  pose proof (Hheap (klass o) Hk) as Hcc. rewrite Hoc in Hcc.
  apply obj_change_shape in Hcc as (oc' & -> & _ & _ & Hd'). rewrite Hd'. exact Hsize.
Qed.

Lemma sized_same_call (s : State) (pc pc' : CopyPc) (l l' : CopyLocals) :
  pc <> CopyEntry -> frame_sized s (FCopy pc l) -> same_call l l' ->
  frame_sized s (FCopy pc' l').
Proof.
  intros Hpc Hs (Hf & Ho & Ha).
  assert (H : size_in (heap s) (from_ref l) = Some (obj_size l) /\
              region_space_alloc_size l = RoundUp (obj_size l) (kAlignment E))
    by (destruct pc; try congruence; exact Hs).
  destruct H as [H1 H2]. destruct pc'; cbn; try exact I; rewrite Hf, Ho, Ha; auto.
Qed.

Lemma sized_entry (s : State) (pc' : CopyPc) (l l' : CopyLocals) (size : Z) :
  returns (SizeOf (from_ref l)) s size -> from_ref l' = from_ref l -> obj_size l' = size ->
  region_space_alloc_size l' = RoundUp size (kAlignment E) ->
  frame_sized s (FCopy pc' l').
Proof.
  intros Hsize Hf Ho Ha. apply SizeOf_size_in in Hsize.
  destruct pc'; cbn; try exact I; rewrite Hf, Ho, Ha; auto.
Qed.

Lemma frame_sized_resume (s : State) (caller : Frame) (v : Z) :
  frame_sized s (resume caller v) = frame_sized s caller.
Proof. destruct caller; reflexivity. Qed.

(** A step leaves the thread with frames that know their sizes. *)
Lemma frame_step_sized (t : nat) (f : Frame) (rest : list Frame) (s s' : State)
    (r : FrameStep) :
  frame_step t f s = Ok (r, s') -> Forall (frame_sized s) (f :: rest) ->
  activity_sized s (after_step r rest).
Proof.
  intros H Hs. pose proof (frame_step_flow _ _ _ _ _ H) as Hflow.
  inversion Hs as [|? ? Hf Hrest]; subst.
  destruct r as [f'|caller callee|v]; cbn [after_step activity_sized].
  - constructor; [|exact Hrest].
    destruct f' as [|pc' l'| | |]; cbn in Hflow; try contradiction.
    destruct pc'; cbn in Hflow; try contradiction; try exact I;
      repeat match goal with
      | Hx : exists _, _ |- _ => destruct Hx
      | Hx : _ /\ _ |- _ => destruct Hx
      | Hx : _ \/ _ |- _ => destruct Hx
      end; subst;
      first [ exact Hf
            | eapply sized_entry; first [eassumption | reflexivity]
            | refine (sized_same_call _ _ _ _ _ _ Hf _);
              [first [eassumption | discriminate] | eassumption] ].
  - destruct caller as [|pc' l'| |d n en|]; cbn in Hflow; try contradiction;
      destruct callee; cbn in Hflow; try contradiction.
    + destruct Hflow as (pc & l & -> & Hpc & Hsame & _).
      constructor; [exact I|]. constructor; [|exact Hrest].
      refine (sized_same_call _ _ _ _ _ _ Hf _); assumption.
    + repeat (constructor; [exact I|]). exact Hrest.
  - destruct rest as [|caller rest]; [exact I|].
    inversion Hrest; subst. constructor; [|assumption].
    rewrite frame_sized_resume. assumption.
Qed.

Lemma size_in_is_Some (h : gmap Z Object) (x n : Z) :
  size_in h x = Some n -> exists o oc, h !! x = Some o /\ h !! klass o = Some oc.
Proof.
  unfold size_in. intros H. destruct (h !! x) as [o|]; [|discriminate].
  destruct (h !! klass o) as [oc|] eqn:Hoc; [|discriminate]. eauto.
Qed.

Lemma activity_from_space (s : State) (act : Activity) :
  activity_ok s act ->
  match act with
  | Running stack =>
      Forall (fun f => match f with
                       | FCopy _ l => IsInFromSpace (from_ref l) = true
                       | _ => True
                       end) stack
  | Finished _ => True
  end.
Proof.
  destruct act as [stack|v]; [|auto]. intros [Hok _].
  eapply Forall_impl; [exact Hok|]. intros [|pc l| | |] Hf; try exact I. apply Hf.
Qed.

(** The size invariant across a change of the configuration. *)
Lemma inv_size_step (pub : option (Z * Z)) (c c' : Config) (lb : list (Z * Z)) :
  counted_bytes c' = lb ++ counted_bytes c ->
  (forall x, x ∉ owned_all c ->
     obj_change pub x (heap (state_of c) !! x) (heap (state_of c') !! x)) ->
  (forall x, x ∈ owned_all c' -> x ∈ owned_all c \/ heap (state_of c) !! x = None) ->
  inv_own c -> inv_own c' ->
  Forall (activity_sized (state_of c)) (pool c') ->
  (forall x n, (x, n) ∈ lb ->
     IsInFromSpace x = true /\ is_Some (heap (state_of c) !! x) /\
     n = copy_size (heap (state_of c)) x) ->
  inv_size c ->
  inv_size c' /\
  (forall x, IsInFromSpace x = true ->
     (is_Some (heap (state_of c') !! x) <-> is_Some (heap (state_of c) !! x)) /\
     copy_size (heap (state_of c')) x = copy_size (heap (state_of c)) x).
Proof.
  intros Hb Hout Hnew Hinv Hinv' Hpool Hlb (Hobj & _ & Hlog).
  set (s := state_of c) in *. set (s' := state_of c') in *.
  assert (Hpublic : forall x, IsInFromSpace x = true -> x ∉ owned_all c).
  { intros x Hfrom Hx. destruct Hinv as (_ & Hin & _). apply Hin in Hx as [_ Hx]. congruence. }
  assert (Hstable : forall x o, heap s !! x = Some o -> IsInFromSpace x = true ->
            size_in (heap s') x = size_in (heap s) x).
  { intros x o Ho Hfrom. destruct (Hobj x o Ho Hfrom) as (Hk & n & Hn & _).
    rewrite Hn. eapply size_in_kept; eauto. }
  assert (Hdom : forall x, IsInFromSpace x = true ->
            (is_Some (heap s' !! x) <-> is_Some (heap s !! x))).
  { intros x Hfrom. pose proof (Hout x (Hpublic x Hfrom)) as Hcx. split.
    - intros [o' Ho']. rewrite Ho' in Hcx. eapply obj_change_from_space; eauto.
    - intros Hs. eapply obj_change_is_Some; eauto. }
  assert (Hcopy : forall x, IsInFromSpace x = true ->
            copy_size (heap s') x = copy_size (heap s) x).
  { intros x Hfrom. unfold copy_size.
    destruct (heap s !! x) as [o|] eqn:Ho.
    - rewrite (Hstable x o Ho Hfrom). reflexivity.
    - assert (Hn : heap s' !! x = None).
      { destruct (heap s' !! x) eqn:Ho'; [|reflexivity].
        assert (Hs : is_Some (heap s !! x)) by (apply Hdom; eauto).
        rewrite Ho in Hs. destruct Hs; discriminate. }
      unfold size_in. rewrite Ho, Hn. reflexivity. }
  split; [|intros x Hfrom; split; auto].
  unfold inv_size. cbv zeta. fold s'.
  split.
  { intros x o' Ho' Hfrom.
    pose proof (Hout x (Hpublic x Hfrom)) as Hcx. rewrite Ho' in Hcx.
    destruct (obj_change_from_space _ _ _ _ Hcx Hfrom) as [o Ho]. rewrite Ho in Hcx.
    apply obj_change_shape in Hcx as (o2 & Heq & Hk & _). injection Heq as <-.
    destruct (Hobj x o Ho Hfrom) as (Hkn & n & Hn & Hpos). rewrite Hk.
    split.
    - intros Hown. apply Hnew in Hown as [Hown|Hown]; [exact (Hkn Hown)|].
      apply size_in_is_Some in Hn as (o1 & oc & Ho1 & Hoc).
      rewrite Ho in Ho1. injection Ho1 as <-. rewrite Hoc in Hown. discriminate.
    - exists n. split; [|exact Hpos]. rewrite (Hstable x o Ho Hfrom). exact Hn. }
  split.
  { destruct Hinv' as (_ & _ & Hok' & _).
    apply Forall_forall. intros act Hact.
    pose proof (proj1 (Forall_forall _ _) Hpool act Hact) as Hsz.
    pose proof (activity_from_space _ _ (proj1 (Forall_forall _ _) Hok' act Hact)) as Hfs.
    destruct act as [stack|v]; [|exact I]. cbn [activity_sized] in *.
    apply Forall_forall. intros f Hf.
    pose proof (proj1 (Forall_forall _ _) Hsz f Hf) as Hsf.
    pose proof (proj1 (Forall_forall _ _) Hfs f Hf) as Hff.
    destruct f as [|pc l| | |]; try exact I.
    destruct pc; try exact I; cbn in Hsf |- *; destruct Hsf as [Hsize Ha];
      (split; [|exact Ha]);
      pose proof Hsize as Hsome; apply size_in_is_Some in Hsome as (o & _ & Ho & _);
      rewrite (Hstable _ o Ho Hff); exact Hsize. }
  intros x n Hin. rewrite Hb in Hin. apply elem_of_app in Hin as [Hin|Hin].
  - destruct (Hlb x n Hin) as (Hfrom & Hs & Hn).
    split; [exact Hfrom|]. split; [apply Hdom; assumption|]. rewrite Hcopy; assumption.
  - destruct (Hlog x n Hin) as (Hfrom & Hs & Hn).
    split; [exact Hfrom|]. split; [apply Hdom; assumption|]. rewrite Hcopy; assumption.
Qed.

Lemma inv_size_running (c : Config) (t : nat) (stack : list Frame) :
  inv_size c -> pool c !! t = Some (Running stack) ->
  Forall (frame_sized (state_of c)) stack.
Proof.
  intros (_ & Hpool & _) Ht.
  exact (proj1 (Forall_forall _ _) Hpool (Running stack) (list_elem_of_lookup_2 _ _ _ Ht)).
Qed.

(** Every action keeps the size invariant, the from-space objects and the
    bytes their copies take. *)
Lemma inv_size_config_step (a : Action) (c c' : Config) :
  config_step a c = Ok c' -> inv_own c -> inv_size c ->
  inv_size c' /\
  (forall x, IsInFromSpace x = true ->
     (is_Some (heap (state_of c') !! x) <-> is_Some (heap (state_of c) !! x)) /\
     copy_size (heap (state_of c')) x = copy_size (heap (state_of c)) x).
Proof.
  intros H Hinv Hsize.
  pose proof (inv_own_config_step _ _ _ H Hinv) as Hinv'.
  destruct (config_step_outside _ _ _ H Hinv) as (pub & Hout & Hnew).
  destruct a as [t g ref|t|x lw]; cbn [config_step] in H.
  - destruct (pool c !! t) as [[stack|v]|] eqn:Ht; try discriminate.
    injection H as <-.
    eapply (inv_size_step pub c _ []); eauto.
    + cbn [pool]. apply Forall_insert; [apply Hsize|]. repeat constructor.
    + intros x n Hin. apply elem_of_nil in Hin. destruct Hin.
  - destruct (pool c !! t) as [[[|f rest]|v]|] eqn:Ht; try discriminate.
    destruct (frame_step t f (state_of c)) as [[r s']| | |] eqn:Hstep; try discriminate.
    injection H as <-.
    pose proof (inv_size_running _ _ _ Hsize Ht) as Hsized.
    destruct (inv_own_running _ _ _ Hinv Ht) as (Hf & _).
    eapply (inv_size_step pub c _ (log_counted_bytes f)); eauto.
    + cbn [pool]. apply Forall_insert; [apply Hsize|].
      eapply frame_step_sized; eauto.
    + intros x n Hin. destruct f as [|pc l| | |]; [|destruct pc|..];
        cbn [log_counted_bytes] in Hin; try (apply elem_of_nil in Hin; destruct Hin).
      apply list_elem_of_singleton in Hin. injection Hin as -> ->.
      inversion Hf as [|? ? Hf0 _]; subst. destruct Hf0 as [Hfrom _].
      inversion Hsized as [|? ? Hs0 _]; subst. destruct Hs0 as [Hs Ha].
      split; [exact Hfrom|]. pose proof Hs as Hsome.
      apply size_in_is_Some in Hsome as (o & _ & Ho & _).
      split; [eauto|]. unfold copy_size. rewrite Hs. exact Ha.
  - destruct (mutator_sets_lock_word x lw (state_of c)) as [[[] s']| | |] eqn:Hstep;
      try discriminate.
    injection H as <-.
    eapply (inv_size_step pub c _ []); eauto.
    + apply Hsize.
    + intros x0 n Hin. apply elem_of_nil in Hin. destruct Hin.
Qed.

Lemma at_flip_inv_size (c : Config) : at_flip c -> inv_size c.
Proof.
  intros (Hp & _ & Hb & _ & _ & _ & _ & _ & _ & Hobj).
  assert (Hown : owned_all c = (skipped_blocks_map (state_of c)).*2).
  { unfold owned_all. rewrite (at_flip_pool c owned_activity Hp); reflexivity. }
  unfold inv_size. cbv zeta. rewrite Hown, Hb.
  split; [intros x o Hx Hfrom; apply (Hobj x o Hx Hfrom)|]. split.
  - eapply Forall_impl; [exact Hp|]. intros [stack|v] Ha; [destruct Ha | exact I].
  - intros x n Hin. apply elem_of_nil in Hin. destruct Hin.
Qed.

(** From the flip on all three invariants hold, and the from-space holds the
    same objects, of the same sizes. *)
Lemma at_flip_run_all (schedule : list Action) (c c' : Config) :
  inv_own c -> inv_log 0 0 c -> inv_size c -> run_actions schedule c = Ok c' ->
  inv_own c' /\ inv_log 0 0 c' /\ inv_size c' /\
  (forall x, IsInFromSpace x = true ->
     (is_Some (heap (state_of c') !! x) <-> is_Some (heap (state_of c) !! x)) /\
     copy_size (heap (state_of c')) x = copy_size (heap (state_of c)) x).
Proof.
  revert c. induction schedule as [|a later IH]; intros c Hown Hlog Hsize H;
    cbn [run_actions] in H.
  - injection H as <-. split; [exact Hown|]. split; [exact Hlog|]. split; [exact Hsize|].
    intros x _. split; reflexivity.
  - destruct (config_step a c) as [c1| | |] eqn:Hstep; try discriminate.
    destruct (inv_size_config_step _ _ _ Hstep Hown Hsize) as [Hsize1 Hkept1].
    destruct (IH c1 (inv_own_config_step _ _ _ Hstep Hown)
                (inv_log_config_step _ _ _ _ _ Hstep Hown Hlog) Hsize1 H)
      as (Hown' & Hlog' & Hsize' & Hkept).
    split; [exact Hown'|]. split; [exact Hlog'|]. split; [exact Hsize'|].
    intros x Hfrom. destruct (Hkept x Hfrom) as [Hd Hc].
    destruct (Hkept1 x Hfrom) as [Hd1 Hc1]. split; [tauto | congruence].
Qed.

Lemma elem_of_from_space_objects (s : State) (x : Z) :
  x ∈ from_space_objects s <-> IsInFromSpace x = true /\ is_Some (heap s !! x).
Proof.
  unfold from_space_objects. rewrite list_elem_of_filter. split.
  - intros [Hf Hx]. split; [exact Hf|].
    apply list_elem_of_fmap in Hx as ([x0 o] & -> & Hx). apply elem_of_map_to_list in Hx.
    eauto.
  - intros [Hf [o Ho]]. split; [exact Hf|].
    apply list_elem_of_fmap. exists (x, o). split; [reflexivity|].
    apply elem_of_map_to_list. exact Ho.
Qed.

Lemma NoDup_from_space_objects (s : State) : NoDup (from_space_objects s).
Proof. unfold from_space_objects. apply NoDup_filter, NoDup_fst_map_to_list. Qed.

Lemma sum_Permutation (f : Z -> Z) (l k : list Z) :
  l ≡ₚ k -> foldr (fun a n => f a + n) 0 l = foldr (fun a n => f a + n) 0 k.
Proof. intros H. induction H; cbn [foldr]; lia. Qed.

Lemma sum_ext (f g : Z -> Z) (l : list Z) :
  (forall a, a ∈ l -> f a = g a) ->
  foldr (fun a n => f a + n) 0 l = foldr (fun a n => g a + n) 0 l.
Proof.
  induction l as [|a l IH]; intros H; cbn [foldr]; [reflexivity|].
  rewrite (H a), IH; [reflexivity | |apply elem_of_cons; left; reflexivity].
  intros b Hb. apply H. apply elem_of_cons. right. exact Hb.
Qed.

Lemma sum_submseteq (f : Z -> Z) (l k : list Z) :
  (forall a, a ∈ k -> 0 <= f a) -> l ⊆+ k ->
  foldr (fun a n => f a + n) 0 l <= foldr (fun a n => f a + n) 0 k.
Proof.
  intros Hpos H. induction H as [|x l1 l2 _ IH|x y l1|x l1 l2 _ IH|l1 l2 l3 H12 IH1 H23 IH2];
    cbn [foldr].
  - lia.
  - assert (foldr (fun a n => f a + n) 0 l1 <= foldr (fun a n => f a + n) 0 l2); [|lia].
    apply IH. intros a Ha. apply Hpos. apply elem_of_cons. right. exact Ha.
  - lia.
  - assert (foldr (fun a n => f a + n) 0 l1 <= foldr (fun a n => f a + n) 0 l2).
    { apply IH. intros a Ha. apply Hpos. apply elem_of_cons. right. exact Ha. }
    assert (0 <= f x) by (apply Hpos, elem_of_cons; left; reflexivity). lia.
  - assert (Hp2 : forall a, a ∈ l2 -> 0 <= f a).
    { intros a Ha. apply Hpos. eapply elem_of_submseteq; [exact Ha | exact H23]. }
    specialize (IH1 Hp2). specialize (IH2 Hpos). lia.
Qed.

Lemma RoundUp_nonneg (x n : Z) : 0 <= x -> 0 < n -> 0 <= RoundUp x n.
Proof.
  intros Hx Hn. unfold RoundUp. apply Z.mul_nonneg_nonneg; [|lia].
  apply Z.div_pos; lia.
Qed.

Lemma wrap64_le (x : Z) : 0 <= x -> 0 <= wrap64 x <= x.
Proof.
  intros Hx. unfold wrap64. split.
  - apply Z.mod_pos_bound. apply Z.pow_pos_nonneg; [lia | unfold kBitsPerWord; lia].
  - apply Z.mod_le; [exact Hx|]. apply Z.pow_pos_nonneg; [lia | unfold kBitsPerWord; lia].
Qed.

Lemma to_int64_small (x : Z) : 0 <= x < 2 ^ (kBitsPerWord - 1) -> to_int64 x = x.
Proof.
  intros Hx. unfold to_int64. cbv zeta.
  assert (Hp : 2 ^ (kBitsPerWord - 1) < 2 ^ kBitsPerWord)
    by (apply Z.pow_lt_mono_r; unfold kBitsPerWord; lia).
  rewrite wrap64_small by lia.
  destruct (x <? 2 ^ (kBitsPerWord - 1)) eqn:Hlt; [reflexivity|].
  apply Z.ltb_ge in Hlt. lia.
Qed.

Lemma sum_sizes_copy_size (h : gmap Z Object) (log : list (Z * Z)) :
  (forall x n, (x, n) ∈ log -> n = copy_size h x) ->
  sum_sizes log = foldr (fun a n => copy_size h a + n) 0 log.*1.
Proof.
  unfold sum_sizes. induction log as [|[x n] log IH]; intros H; cbn; [reflexivity|].
  rewrite (H x n) by (apply elem_of_cons; left; reflexivity).
  cbn in IH. rewrite IH; [reflexivity|].
  intros y m Hin. apply H. apply elem_of_cons. right. exact Hin.
Qed.

(** The from-space totals depend on the from-space objects and their sizes only. *)
Lemma from_space_totals_kept (s s' : State) :
  (forall x, IsInFromSpace x = true ->
     (is_Some (heap s' !! x) <-> is_Some (heap s !! x)) /\
     copy_size (heap s') x = copy_size (heap s) x) ->
  from_objects_of s' = from_objects_of s /\ from_bytes_of s' = from_bytes_of s.
Proof.
  intros Hkept.
  assert (Hperm : from_space_objects s' ≡ₚ from_space_objects s).
  { apply NoDup_Permutation; try apply NoDup_from_space_objects.
    intros x. rewrite !elem_of_from_space_objects. split; intros [Hf Hs];
      (split; [exact Hf|]); apply (Hkept x Hf); exact Hs. }
  split.
  - unfold from_objects_of. rewrite Hperm. reflexivity.
  - unfold from_bytes_of. rewrite (sum_Permutation _ _ _ Hperm).
    apply sum_ext. intros a Ha. apply elem_of_from_space_objects in Ha as [Hf _].
    apply Hkept, Hf.
Qed.

(** The counters stay within the from-space. *)
Lemma counters_within_from_space (c : Config) :
  0 < kAlignment E -> inv_own c -> inv_log 0 0 c -> inv_size c ->
  0 <= objects_moved (state_of c) <= from_objects_of (state_of c) /\
  0 <= bytes_moved (state_of c) <= from_bytes_of (state_of c).
Proof.
  intros Hk Hown (Hnd & Hcount & Hbytes & Hinst & _ & _ & Hn & Hb) (Hobj & _ & Hlog).
  set (s := state_of c) in *.
  assert (Hin : forall x, x ∈ (installed c).*1.*1 -> x ∈ from_space_objects s).
  { intros x Hx. apply list_elem_of_fmap in Hx as ([x0 t1] & Hx1 & Hx).
    apply list_elem_of_fmap in Hx as ([[x1 t2] col] & Hx2 & Hx). cbn in *. simplify_eq.
    destruct (Hinst _ _ _ Hx) as [[Hfrom Hlw] _].
    apply elem_of_from_space_objects. split; [exact Hfrom|].
    unfold lock_word_at in Hlw. destruct (heap s !! x1); [eauto | discriminate]. }
  assert (Hpos : forall a, a ∈ from_space_objects s -> 0 <= copy_size (heap s) a).
  { intros a Ha. apply elem_of_from_space_objects in Ha as [Hfrom [o Ho]].
    destruct (Hobj a o Ho Hfrom) as (_ & n & Hsize & Hn0).
    unfold copy_size. rewrite Hsize. apply RoundUp_nonneg; assumption. }
  split.
  - assert (Hsub : (counted c).*1 ⊆+ from_space_objects s).
    { apply NoDup_submseteq.
      - rewrite Hcount in Hnd. apply NoDup_app in Hnd as (_ & _ & Hnd). exact Hnd.
      - intros x Hx. apply Hin. rewrite Hcount. apply elem_of_app. right. exact Hx. }
    apply submseteq_length in Hsub. rewrite length_fmap in Hsub.
    rewrite Hn, Z.add_0_l. unfold from_objects_of.
    pose proof (wrap64_le (Z.of_nat (length (counted c))) ltac:(lia)). lia.
  - assert (Hsub : (counted_bytes c).*1 ⊆+ from_space_objects s).
    { apply NoDup_submseteq.
      - rewrite Hbytes in Hnd. apply NoDup_app in Hnd as (_ & _ & Hnd). exact Hnd.
      - intros x Hx. apply Hin. rewrite Hbytes. apply elem_of_app. right. exact Hx. }
    pose proof (sum_submseteq (copy_size (heap s)) _ _ Hpos Hsub) as Hle.
    rewrite <- (sum_sizes_copy_size (heap s) (counted_bytes c)) in Hle
      by (intros x n Hx; apply (Hlog x n Hx)).
    assert (H0 : 0 <= sum_sizes (counted_bytes c)).
    { rewrite (sum_sizes_copy_size (heap s)) by (intros x n Hx; apply (Hlog x n Hx)).
      apply (sum_submseteq (copy_size (heap s)) [] _).
      - intros a Ha. apply Hpos. eapply elem_of_submseteq; eauto.
      - apply submseteq_nil_l. }
    rewrite Hb, Z.add_0_l. unfold from_bytes_of. fold s.
    pose proof (wrap64_le _ H0). lia.
Qed.

(** C7.  The reclaim phase and the counters.  (1) The record of the freed
    objects returns exactly when the accounting check, if enabled, finds the
    counts of the first pause equal to the from-space and unevacuated
    from-space counts, [objects_moved_] is at most the objects and
    [bytes_moved_] at most the bytes allocated in the from-space; the state is
    then unchanged and the pair passed to RecordFree holds the differences,
    converted to [int64_t].  (2) Otherwise the collector aborts.  (3) For
    counts below 2^63 the pair is the objects and the bytes of the from-space
    minus those moved.  (4) Under every schedule from the flip on, the
    from-space holds the objects and bytes it held at the flip, and
    [objects_moved_] and [bytes_moved_] are at most these. *)
Theorem ReclaimPhase_freed_counts :
  0 < kAlignment E ->
  (forall region_space first_objects first_bytes s r s',
     ReclaimPhase_RecordFree region_space first_objects first_bytes s = Ok (r, s') <->
     (kEnableFromSpaceAccountingCheck E = true ->
      first_objects = wrap64 (GetObjectsAllocatedInFromSpace region_space
                              + GetObjectsAllocatedInUnevacFromSpace region_space) /\
      first_bytes = wrap64 (GetBytesAllocatedInFromSpace region_space
                            + GetBytesAllocatedInUnevacFromSpace region_space)) /\
     objects_moved s <= GetObjectsAllocatedInFromSpace region_space /\
     bytes_moved s <= GetBytesAllocatedInFromSpace region_space /\
     s' = s /\
     r = (to_int64 (GetObjectsAllocatedInFromSpace region_space - objects_moved s),
          to_int64 (GetBytesAllocatedInFromSpace region_space - bytes_moved s))) /\
  (forall region_space first_objects first_bytes s,
     ReclaimPhase_RecordFree region_space first_objects first_bytes s = Fatal \/
     exists r, ReclaimPhase_RecordFree region_space first_objects first_bytes s = Ok (r, s)) /\
  (forall region_space first_objects first_bytes s r s',
     ReclaimPhase_RecordFree region_space first_objects first_bytes s = Ok (r, s') ->
     0 <= objects_moved s -> 0 <= bytes_moved s ->
     GetObjectsAllocatedInFromSpace region_space < 2 ^ (kBitsPerWord - 1) ->
     GetBytesAllocatedInFromSpace region_space < 2 ^ (kBitsPerWord - 1) ->
     r = (GetObjectsAllocatedInFromSpace region_space - objects_moved s,
          GetBytesAllocatedInFromSpace region_space - bytes_moved s)) /\
  (forall schedule c c',
     at_flip c -> run_actions schedule c = Ok c' ->
     from_objects_of (state_of c') = from_objects_of (state_of c) /\
     from_bytes_of (state_of c') = from_bytes_of (state_of c) /\
     0 <= objects_moved (state_of c') <= from_objects_of (state_of c) /\
     0 <= bytes_moved (state_of c') <= from_bytes_of (state_of c)).
Proof.
  intros Hk.
  assert (Hiff : forall region_space first_objects first_bytes s r s',
     ReclaimPhase_RecordFree region_space first_objects first_bytes s = Ok (r, s') <->
     (kEnableFromSpaceAccountingCheck E = true ->
      first_objects = wrap64 (GetObjectsAllocatedInFromSpace region_space
                              + GetObjectsAllocatedInUnevacFromSpace region_space) /\
      first_bytes = wrap64 (GetBytesAllocatedInFromSpace region_space
                            + GetBytesAllocatedInUnevacFromSpace region_space)) /\
     objects_moved s <= GetObjectsAllocatedInFromSpace region_space /\
     bytes_moved s <= GetBytesAllocatedInFromSpace region_space /\
     s' = s /\
     r = (to_int64 (GetObjectsAllocatedInFromSpace region_space - objects_moved s),
          to_int64 (GetBytesAllocatedInFromSpace region_space - bytes_moved s))).
  { intros rs fo fb s r s'. unfold ReclaimPhase_RecordFree. cbv zeta.
    unfold bind, gets, when, CHECK, ret, fatal.
    destruct (kEnableFromSpaceAccountingCheck E);
      repeat match goal with
      | |- context [?a =? ?b] => destruct (Z.eqb_spec a b)
      | |- context [?a <=? ?b] => destruct (Z.leb_spec a b)
      end; split;
      try (intros [= <- <-]; repeat split; auto; lia);
      try (intros (Hc & ? & ? & -> & ->); try reflexivity;
           try (destruct (Hc eq_refl)); try congruence; try lia; fail);
      try discriminate. }
  split; [exact Hiff|]. split.
  { intros rs fo fb s. unfold ReclaimPhase_RecordFree. cbv zeta.
    unfold bind, gets, when, CHECK, ret, fatal.
    destruct (kEnableFromSpaceAccountingCheck E);
      repeat match goal with
      | |- context [?a =? ?b] => destruct (Z.eqb_spec a b)
      | |- context [?a <=? ?b] => destruct (Z.leb_spec a b)
      end; first [left; reflexivity | right; eexists; reflexivity]. }
  split.
  { intros rs fo fb s r s' H Ho Hb Hfo Hfb.
    apply Hiff in H as (_ & Hlo & Hlb & _ & ->).
    rewrite !to_int64_small by lia. reflexivity. }
  intros schedule c c' Hflip Hrun.
  destruct (at_flip_inv c Hflip) as [Hown Hlog].
  destruct (at_flip_run_all _ _ _ Hown Hlog (at_flip_inv_size c Hflip) Hrun)
    as (Hown' & Hlog' & Hsize' & Hkept).
  destruct (from_space_totals_kept _ _ Hkept) as [Ho Hb].
  split; [exact Ho|]. split; [exact Hb|]. rewrite <- Ho, <- Hb.
  apply counters_within_from_space; assumption.
Qed.

(** *** Beyond the claims: the mark stacks *)

Lemma PushOntoMarkStack_aborts (self : nat) (x : Z) (s : State) :
  is_mark_stack_push_disallowed s <> 0 \/ thread_running_gc s = None ->
  PushOntoMarkStack self x s = Fatal.
Proof.
  intros H. unfold PushOntoMarkStack, bind, gets, CHECK, fatal, ret.
  destruct (Z.eqb_spec (is_mark_stack_push_disallowed s) 0) as [Hz|Hz]; [|reflexivity].
  destruct H as [H|H]; [contradiction|].
  rewrite H. rewrite bool_decide_eq_false_2 by (intros Hn; apply Hn; reflexivity).
  reflexivity.
Qed.

Lemma on_some_gc_push (y x : Z) (cap : nat) (s : State) :
  on_some_mark_stack y s ->
  on_some_mark_stack y
    (set_gc_mark_stack {| elems := elems (gc_mark_stack s) ++ [x]; capacity := cap |} s).
Proof.
  intros [H|[H|H]]; [left | right; left | right; right]; cbn; try exact H.
  apply elem_of_app. left. exact H.
Qed.

Lemma PushOntoMarkStack_keeps (self : nat) (x y : Z) (s s' : State) (u : unit) :
  PushOntoMarkStack self x s = Ok (u, s') ->
  on_some_mark_stack y s -> on_some_mark_stack y s'.
Proof.
  unfold PushOntoMarkStack. intros H Hy.
  repeat inv_step H.
  destruct (mark_stack_mode s) eqn:Hmode.
  - inv_exec; discriminate.
  - destruct (bool_decide (thread_running_gc s = Some self)).
    + repeat inv_step H.
      apply push_gc_mark_stack_Ok in H as [cap ->]. apply on_some_gc_push, Hy.
    + inv_exec; try discriminate.
      all: unfold on_some_mark_stack in *; cbn.
      all: destruct Hy as [Hy|[(st & Hst & Hy)|(t & th0 & st & Ht & Htl & Hy)]];
        [ left; exact Hy
        | right; left; exists st; split; [rewrite ?elem_of_app; auto | exact Hy]
        | ].
      all: destruct (decide (t = self)) as [->|Hne];
        [| right; right; exists t, th0, st; rewrite lookup_insert_ne by congruence; auto].
      all: rewrite Hth in Ht; injection Ht as <-.
      all: rewrite Heqo in Htl; try discriminate; injection Htl as <-.
      all: first
        [ right; left; eexists; split;
          [apply elem_of_app; right; apply list_elem_of_singleton; reflexivity | exact Hy]
        | right; right; eexists self, _, _; rewrite lookup_insert_eq;
          split; [reflexivity|]; split; [reflexivity|];
          cbn; apply elem_of_app; left; exact Hy ].
  - apply push_gc_mark_stack_Ok in H as [cap ->]. apply on_some_gc_push, Hy.
  - repeat inv_step H. apply push_gc_mark_stack_Ok in H as [cap ->].
    apply on_some_gc_push, Hy.
Qed.

(** X1.  PushOntoMarkStack (lines 832-897).  A push aborts while pushes are
    disallowed or no thread runs the collector.  A push that returns has
    touched the mark stacks and the thread-local stack pointer of the caller
    only: every other thread is as it was, the caller keeps its flags, and no
    thread appears or disappears.  A mutator in the thread-local mode finds
    the reference on top of its own stack and the GC mark stack untouched;
    every other push appends the reference to the GC mark stack and leaves the
    threads, the revoked stacks and the pool alone.  Every reference that was
    on a mark stack is still on one: a full thread-local stack goes to the
    revoked stacks, a full GC mark stack is expanded. *)
Theorem PushOntoMarkStack_loses_nothing (self : nat) (x : Z) :
  (forall s, is_mark_stack_push_disallowed s <> 0 \/ thread_running_gc s = None ->
     PushOntoMarkStack self x s = Fatal) /\
  (forall s s', PushOntoMarkStack self x s = Ok (tt, s') ->
     without_mark_stacks s' = without_mark_stacks s /\
     (forall t, t <> self -> threads s' !! t = threads s !! t) /\
     (forall th, threads s !! self = Some th ->
        exists st, threads s' !! self = Some (SetThreadLocalMarkStack st th)) /\
     (threads s !! self = None -> threads s' !! self = None) /\
     (if bool_decide (mark_stack_mode s = kMarkStackModeThreadLocal) &&
         negb (bool_decide (thread_running_gc s = Some self))
      then gc_mark_stack s' = gc_mark_stack s /\
           exists th st, threads s' !! self = Some th /\ tl_mark_stack th = Some st /\
                         last (elems st) = Some x
      else elems (gc_mark_stack s') = elems (gc_mark_stack s) ++ [x] /\
           threads s' = threads s /\ revoked_mark_stacks s' = revoked_mark_stacks s /\
           pooled_mark_stacks s' = pooled_mark_stacks s) /\
     on_mark_stack self x s' /\
     forall y, on_some_mark_stack y s -> on_some_mark_stack y s').
Proof.
  split; [intros s H; apply PushOntoMarkStack_aborts, H|].
  intros s s' H. destruct (PushOntoMarkStack_Ok _ _ _ _ _ H) as [Hw Hon].
  destruct (PushOntoMarkStack_threads _ _ _ _ _ H) as (Hothers & Hself & Hnone).
  split; [exact Hw|]. split; [exact Hothers|]. split; [exact Hself|].
  split; [exact Hnone|]. split; [exact (PushOntoMarkStack_where _ _ _ _ _ H)|].
  split; [exact Hon|].
  intros y Hy. eapply PushOntoMarkStack_keeps; eauto.
Qed.

(** X2.  ExpandGcMarkStack (lines 820-830) and the push onto the GC mark
    stack.  Expanding doubles the capacity and keeps the references in their
    order; in a debug build it aborts unless the stack was full and is not
    full afterwards, which fails for a stack of capacity zero.  A push onto
    the GC mark stack appends the reference, and changes the capacity only
    when the stack was full. *)
Theorem ExpandGcMarkStack_doubles (s : State) :
  (forall s', ExpandGcMarkStack s = Ok (tt, s') <->
     s' = set_gc_mark_stack
            {| elems := elems (gc_mark_stack s);
               capacity := (capacity (gc_mark_stack s) * 2)%nat |} s /\
     (kIsDebugBuild E = true ->
      IsFull (gc_mark_stack s) = true /\ capacity (gc_mark_stack s) <> O)) /\
  (kIsDebugBuild E = true ->
   IsFull (gc_mark_stack s) = false \/ capacity (gc_mark_stack s) = O ->
   ExpandGcMarkStack s = Fatal) /\
  (forall x s', push_gc_mark_stack x s = Ok (tt, s') ->
     elems (gc_mark_stack s') = elems (gc_mark_stack s) ++ [x] /\
     capacity (gc_mark_stack s')
     = (if IsFull (gc_mark_stack s) then capacity (gc_mark_stack s) * 2
        else capacity (gc_mark_stack s))%nat /\
     without_mark_stacks s' = without_mark_stacks s).
Proof.
  assert (Hrun : ExpandGcMarkStack s =
            if kIsDebugBuild E then
              if IsFull (gc_mark_stack s) then
                if negb (Nat.eqb (length (elems (gc_mark_stack s)))
                                 (capacity (gc_mark_stack s) * 2))
                then Ok (tt, set_gc_mark_stack
                               {| elems := elems (gc_mark_stack s);
                                  capacity := (capacity (gc_mark_stack s) * 2)%nat |} s)
                else Fatal
              else Fatal
            else Ok (tt, set_gc_mark_stack
                           {| elems := elems (gc_mark_stack s);
                              capacity := (capacity (gc_mark_stack s) * 2)%nat |} s)).
  { unfold ExpandGcMarkStack, DCHECK. destruct (kIsDebugBuild E).
    - unfold bind at 1. unfold bind at 1. unfold gets at 1. unfold CHECK at 1.
      destruct (IsFull (gc_mark_stack s)); [|reflexivity]. unfold ret at 1.
      unfold bind at 1. unfold gets at 1. unfold bind at 1. unfold modify at 1.
      rewrite (bind_eq _ _ _ _ tt (for_each_push_gc _ _)).
      unfold bind, gets, CHECK, IsFull. cbn.
      destruct (Nat.eqb _ _); reflexivity.
    - unfold bind at 1. unfold ret at 1. unfold bind at 1. unfold gets at 1.
      unfold bind at 1. unfold modify at 1.
      rewrite (bind_eq _ _ _ _ tt (for_each_push_gc _ _)). reflexivity. }
  assert (Hfull : IsFull (gc_mark_stack s) = true ->
            (negb (Nat.eqb (length (elems (gc_mark_stack s)))
                           (capacity (gc_mark_stack s) * 2)) = true
             <-> capacity (gc_mark_stack s) <> O)).
  { unfold IsFull. intros Hf. apply Nat.eqb_eq in Hf. rewrite Hf.
    rewrite negb_true_iff, Nat.eqb_neq. lia. }
  split; [|split].
  - intros s'. rewrite Hrun. destruct (kIsDebugBuild E).
    + destruct (IsFull (gc_mark_stack s)) eqn:Hf.
      * specialize (Hfull eq_refl).
        destruct (negb _) eqn:Hn.
        -- split; [intros [= <-]; split; [reflexivity|]; intros _; split; [reflexivity|];
                   apply Hfull; reflexivity
                  | intros [-> _]; reflexivity].
        -- split; [discriminate|]. intros [_ H]. destruct (H eq_refl) as [_ Hc].
           apply Hfull in Hc. discriminate.
      * split; [discriminate|]. intros [_ H]. destruct (H eq_refl) as [Hc _]. discriminate.
    + split; [intros [= <-]; split; [reflexivity | discriminate] | intros [-> _]; reflexivity].
  - intros Hd H. rewrite Hrun, Hd.
    destruct (IsFull (gc_mark_stack s)) eqn:Hf; [|reflexivity].
    destruct H as [H|H]; [discriminate|].
    pose proof (Hfull eq_refl) as Hx.
    destruct (negb _) eqn:Hn; [|reflexivity]. exfalso. apply (proj1 Hx eq_refl), H.
  - intros x s' H. unfold push_gc_mark_stack in H. inv_step H.
    destruct (IsFull (gc_mark_stack s)) eqn:Hf.
    + unfold when in H. inv_step H. apply ExpandGcMarkStack_Ok in H0. subst.
      inv_exec. cbn. repeat split.
    + inv_exec. cbn. repeat split.
Qed.

Lemma MarkNonMoving_cases (self : nat) (x : Z) (s s' : State) (y : Z) :
  MarkNonMoving self x s = Ok (y, s') ->
  let marked st := if has_space_bitmap E x then x ∈ mark_bitmap st else x ∈ los_bitmap st in
  (s' = s /\ (marked s \/ x ∈ allocation_stack s)) \/
  (~ marked s /\ (x ∉ allocation_stack s) /\ marked s' /\ on_mark_stack self x s' /\
   mark_bitmap s' = (if has_space_bitmap E x then {[x]} ∪ mark_bitmap s else mark_bitmap s) /\
   los_bitmap s' = (if has_space_bitmap E x then los_bitmap s else {[x]} ∪ los_bitmap s) /\
   false_gray_stack s' = false_gray_stack s /\
   if kUseBakerReadBarrier E
   then exists o, heap s !! x = Some o /\
          heap s' = (if decide (rb_ptr o = WhitePtr)
                     then <[x := set_rb_ptr GrayPtr o]> (heap s) else heap s) /\
          (kIsDebugBuild E = true -> rb_at s' x = Some GrayPtr)
   else heap s' = heap s).
Proof.
  unfold MarkNonMoving. cbv zeta. intros H.
  inv_exec.
  all: repeat match goal with
       | Hb : true = bool_decide _ |- _ => symmetry in Hb; apply bool_decide_eq_true in Hb
       | Hb : false = bool_decide _ |- _ => symmetry in Hb; apply bool_decide_eq_false in Hb
       | Hb : negb _ = true |- _ => apply negb_true_iff in Hb
       | Hb : negb _ = false |- _ => apply negb_false_iff in Hb
       end.
  all: repeat match goal with
       | Hb : has_space_bitmap _ _ = _ |- _ => rewrite Hb in *
       end.
  all: try (left; split; [reflexivity|]; first [left; assumption | right; assumption]).
  all: try (exfalso; cbn in *; contradiction).
  all: right.
  all: match goal with
       | Hp : without_mark_stacks ?s2 = without_mark_stacks _ /\ _ |- _ =>
           destruct Hp as [Hw Hon];
           pose proof (f_equal heap Hw) as Hh; pose proof (f_equal mark_bitmap Hw) as Hmb;
           pose proof (f_equal los_bitmap Hw) as Hlb;
           pose proof (f_equal false_gray_stack Hw) as Hfg; cbn in Hh, Hmb, Hlb, Hfg
       end.
  all: split; [assumption|]; split; [assumption|].
  all: split; [rewrite ?Hmb, ?Hlb; apply elem_of_union; left; apply elem_of_singleton;
               reflexivity|].
  all: split; [exact Hon|].
  all: split; [exact Hmb|]; split; [exact Hlb|]; split; [exact Hfg|].
  all: repeat match goal with
       | Hb : kUseBakerReadBarrier _ = _ |- _ => rewrite Hb in *
       end.
  all: try exact Hh.
  all: match goal with
       | Hd : decide (rb_ptr ?o' = WhitePtr) = _, Ho' : heap _ !! _ = Some ?o' |- _ =>
           exists o'; split; [exact Ho'|]
       end.
  all: unfold rb_at; rewrite Hh.
  all: split; [match goal with Hd : decide _ = _ |- _ => rewrite Hd; reflexivity end|].
  all: intros Hdbg; try discriminate Hdbg.
  all: match goal with
       | Ho' : heap _ !! _ = Some ?o', Hg : rb_ptr ?o' = GrayPtr |- _ =>
           cbn in Ho'; rewrite Ho'; cbn; rewrite Hg; reflexivity
       end.
Qed.


(** *** Beyond the claims: IsMarked *)

Lemma IsMarked_answer (x : Z) (s s' : State) (t : Z) :
  IsMarked x s = Ok (t, s') ->
  s' = s /\
  match GetRegionType E x with
  | kRegionTypeToSpace => t = x
  | kRegionTypeFromSpace =>
      exists o, heap s !! x = Some o /\
                t = match monitor o with LwForwardingAddress a => a | _ => 0 end
  | kRegionTypeUnevacFromSpace => t = if bool_decide (x ∈ region_space_bitmap s) then x else 0
  | kRegionTypeNone =>
      t = if immune_ContainsObject E x
             || (if has_space_bitmap E x then bool_decide (x ∈ mark_bitmap s)
                 else bool_decide (x ∈ los_bitmap s))
             || bool_decide (x ∈ allocation_stack s)
          then x else 0
  end.
Proof.
  unfold IsMarked, GetFwdPtr. intros H.
  destruct (GetRegionType E x) eqn:Hregion; [| | |destruct (immune_ContainsObject E x) eqn:Hi].
  all: inv_exec.
  all: split; [reflexivity|].
  all: try reflexivity.
  all: try (eexists; split; [eassumption|];
            match goal with Hm : GetState (monitor ?o) = _ |- _ =>
              destruct (monitor o); try discriminate Hm; reflexivity end).
  all: repeat match goal with
       | Hb : negb _ = true |- _ => apply negb_true_iff in Hb
       | Hb : negb _ = false |- _ => apply negb_false_iff in Hb
       | Hb : true = bool_decide _ |- _ => symmetry in Hb
       | Hb : false = bool_decide _ |- _ => symmetry in Hb
       end.
  all: repeat match goal with
       | Hb : has_space_bitmap _ _ = _ |- _ => rewrite Hb; clear Hb
       | Hb : bool_decide _ = _ |- _ => rewrite Hb; clear Hb
       end.
  all: reflexivity.
Qed.

(** X4.  IsMarked (lines 2085-2136) reads the state and leaves it as it is.
    A to-space reference and an immune object are reported as themselves, a
    from-space object as the forwarding address in its lock word or as null, an
    object of the unevacuated from-space or of the non-moving space as itself
    when its mark bit is set (or, in the non-moving space, when it lies on the
    allocation stack) and as null otherwise.  When IsMarked reports a
    reference that is not null, [Mark] of the same reference, if it returns,
    returns that reference: a marked object is not copied or marked again. *)
Theorem IsMarked_agrees_with_Mark (self : nat) (g : bool) (x : Z) (s s1 : State) (t : Z) :
  IsMarked x s = Ok (t, s1) ->
  s1 = s /\
  match GetRegionType E x with
  | kRegionTypeToSpace => t = x
  | kRegionTypeFromSpace =>
      exists o, heap s !! x = Some o /\
                t = match monitor o with LwForwardingAddress a => a | _ => 0 end
  | kRegionTypeUnevacFromSpace => t = if bool_decide (x ∈ region_space_bitmap s) then x else 0
  | kRegionTypeNone =>
      t = if immune_ContainsObject E x
             || (if has_space_bitmap E x then bool_decide (x ∈ mark_bitmap s)
                 else bool_decide (x ∈ los_bitmap s))
             || bool_decide (x ∈ allocation_stack s)
          then x else 0
  end /\
  (x <> 0 -> t <> 0 -> forall r s', Mark_step self g x s = Ok (r, s') -> r = Return t).
Proof.
  intros H. destruct (IsMarked_answer _ _ _ _ H) as [-> Hanswer].
  split; [reflexivity|]. split; [exact Hanswer|].
  intros Hx Ht r s' Hmark.
  destruct (IsInFromSpace x) eqn:Hfrom.
  - pose proof Hfrom as Hregion. unfold IsInFromSpace in Hregion.
    apply bool_decide_eq_true in Hregion. rewrite Hregion in Hanswer.
    destruct Hanswer as (o & Ho & ->).
    destruct (monitor o) as [| | | |a] eqn:Hm; try congruence.
    rewrite (Mark_step_forwarded self g x a s) in Hmark; try assumption.
    + congruence.
    + split; [exact Hfrom|]. unfold lock_word_at. rewrite Ho. cbn. rewrite Hm. reflexivity.
  - destruct (Mark_step_again _ _ _ _ _ _ Hmark Hfrom) as [-> _].
    unfold IsInFromSpace in Hfrom. apply bool_decide_eq_false in Hfrom.
    destruct (GetRegionType E x); try congruence; subst t.
    + destruct (bool_decide _); congruence.
    + destruct (_ || _); congruence.
Qed.

(** *** Beyond the claims: IsMarkedHeapReference *)

(** A store to a slot leaves the other slots, the lock words and the
    read-barrier pointers as they are. *)
Lemma slot_store_frame (sl : Slot) (v : Z) (s s' : State) :
  slot_store sl v s = Ok (tt, s') ->
  (forall other w, other <> sl -> slot_holds other s w -> slot_holds other s' w) /\
  (forall a, lock_word_at s' a = lock_word_at s a /\ rb_at s' a = rb_at s a).
Proof.
  intros H. split.
  - intros other w Hne Hw. unfold slot_holds in *.
    destruct sl, other; unfold slot_load, slot_store, bind, object_at, store_object, modify,
      gets, ret in *;
      repeat match goal with
      | H : match ?x with _ => _ end = Ok _ |- _ => destruct x eqn:?; try discriminate H
      | H : (match ?x with _ => _ end) _ = Ok _ |- _ => destruct x eqn:?; try discriminate H
      end; simplify_eq; cbn;
      try match goal with
      | |- context [<[?a := _]> _ !! ?b] =>
          destruct (decide (a = b)) as [->|Hab];
            [rewrite lookup_insert_eq | rewrite lookup_insert_ne by exact Hab]
      end; simplify_eq; cbn;
      repeat match goal with H : ?x = Some _ |- context [?x] => rewrite H end;
      try reflexivity.
    + destruct (decide (i = i0)) as [->|Hi]; [congruence|].
      rewrite list_lookup_insert_ne by exact Hi.
      match goal with H : ?x = Some _ |- context [?x] => rewrite H end. reflexivity.
    + destruct (decide (i = i0)) as [->|Hi]; [congruence|].
      rewrite list_lookup_insert_ne by exact Hi.
      match goal with H : ?x = Some _ |- context [?x] => rewrite H end. reflexivity.
    + destruct (decide (i = i0)) as [->|Hi]; [congruence|].
      rewrite list_lookup_insert_ne by exact Hi.
      match goal with H : ?x = Some _ |- context [?x] => rewrite H end. reflexivity.
  - intros a. unfold lock_word_at, rb_at.
    destruct sl; unfold slot_store, bind, object_at, store_object, modify, gets, ret in H;
      repeat match goal with
      | H : match ?x with _ => _ end = Ok _ |- _ => destruct x eqn:?; try discriminate H
      | H : (match ?x with _ => _ end) _ = Ok _ |- _ => destruct x eqn:?; try discriminate H
      end; simplify_eq; cbn; try (split; reflexivity);
      match goal with
      | |- context [<[?b := _]> _ !! a] =>
          destruct (decide (b = a)) as [->|Hab];
            [rewrite lookup_insert_eq | rewrite lookup_insert_ne by exact Hab]
      end; try (split; reflexivity);
      match goal with H : ?x = Some _ |- context [?x] => rewrite H end;
      split; reflexivity.
Qed.

(** X5.  IsMarkedHeapReference (lines 2269-2281) asks IsMarked about the
    reference the field holds.  It answers false exactly when IsMarked reports
    null, and then, as when IsMarked reports the reference itself, the state
    is as before.  Otherwise the field holds what IsMarked reported, and the
    other slots, the lock words and the read-barrier pointers are as before. *)
Theorem IsMarkedHeapReference_forwards (field : Slot) (s s' : State) (b : bool) :
  IsMarkedHeapReference field s = Ok (b, s') ->
  exists from_ref to_ref,
    slot_holds field s from_ref /\ IsMarked from_ref s = Ok (to_ref, s) /\
    b = negb (to_ref =? 0) /\
    (to_ref = 0 \/ to_ref = from_ref -> s' = s) /\
    (to_ref <> 0 -> slot_holds field s' to_ref) /\
    (forall other w, other <> field -> slot_holds other s w -> slot_holds other s' w) /\
    (forall a, lock_word_at s' a = lock_word_at s a /\ rb_at s' a = rb_at s a).
Proof.
  unfold IsMarkedHeapReference. intros H.
  apply bind_Ok in H as (from_ref & s1 & Hload & H).
  pose proof (slot_load_state _ _ _ _ Hload). subst s1.
  apply bind_Ok in H as (to_ref & s1 & Hmarked & H).
  destruct (IsMarked_answer _ _ _ _ Hmarked) as [-> _].
  exists from_ref, to_ref. split; [exact Hload|]. split; [exact Hmarked|].
  destruct (to_ref =? 0) eqn:Hz.
  - apply ret_Ok in H. injection H as -> ->.
    split; [reflexivity|]. split; [reflexivity|].
    split; [intros Hne; apply Z.eqb_eq in Hz; contradiction|]. auto.
  - apply Z.eqb_neq in Hz.
    apply bind_Ok in H as (u & s2 & Hstore & H). apply ret_Ok in H. injection H as -> ->.
    split; [reflexivity|]. unfold when in Hstore.
    destruct (from_ref =? to_ref) eqn:Heq; cbn [negb] in Hstore.
    + apply ret_Ok in Hstore. injection Hstore as _ ->. apply Z.eqb_eq in Heq. subst to_ref.
      split; [reflexivity|]. split; [intros _; exact Hload|]. auto.
    + apply Z.eqb_neq in Heq. destruct u.
      split; [intros [?|?]; congruence|].
      split.
      * intros _. destruct (slot_store_holds field s from_ref to_ref Hload) as (s3 & H3 & Hh).
        rewrite Hstore in H3. injection H3 as <-. exact Hh.
      * apply (slot_store_frame field to_ref s s2 Hstore).
Qed.

(** *** Beyond the claims: the to-space invariant assertion *)

(** X6.  AssertToSpaceInvariant (lines 1532-1552, with
    AssertToSpaceInvariantInNonMovingSpace, lines 1662-1697) leaves the state
    as it is.  It aborts when the collector of the heap is not the concurrent
    copying collector; with that collector it passes whenever the invariant
    is not being asserted.  While it is asserted: a from-space reference
    aborts; a reference outside the from-space and the immune spaces passes
    exactly when IsMarked reports the reference itself; an immune object
    passes exactly when the build has no Baker barrier, or the caller is the
    collector thread while it does not gray immune objects, or all immune
    objects have been updated, or the object is gray. *)
Theorem AssertToSpaceInvariant_accepts_marked (self : nat) (ref : Z) (s : State) :
  (forall u s', AssertToSpaceInvariant self ref s = Ok (u, s') ->
     s' = s /\ collector_type_is_CC E = true) /\
  (collector_type_is_CC E = false -> AssertToSpaceInvariant self ref s = Fatal) /\
  (collector_type_is_CC E = true -> is_asserting_to_space_invariant s = false ->
   AssertToSpaceInvariant self ref s = Ok (tt, s)) /\
  (is_asserting_to_space_invariant s = true -> IsInFromSpace ref = true ->
   AssertToSpaceInvariant self ref s = Fatal) /\
  (collector_type_is_CC E = true -> is_asserting_to_space_invariant s = true -> ref <> 0 ->
   IsInFromSpace ref = false -> immune_ContainsObject E ref = false ->
   (AssertToSpaceInvariant self ref s = Ok (tt, s) <-> IsMarked ref s = Ok (ref, s))) /\
  (collector_type_is_CC E = true -> is_asserting_to_space_invariant s = true ->
   GetRegionType E ref = kRegionTypeNone -> immune_ContainsObject E ref = true ->
   (AssertToSpaceInvariant self ref s = Ok (tt, s) <->
    kUseBakerReadBarrier E = false \/
    (is_gc_thread self s = true /\ gc_grays_immune_objects s = false) \/
    updated_all_immune_objects s = true \/
    rb_at s ref = Some GrayPtr)).
Proof.
  split.
  { intros u s' H. split; [exact (AssertToSpaceInvariant_state _ _ _ _ _ H)|].
    unfold AssertToSpaceInvariant in H. apply bind_Ok in H as ([] & s0 & Hc & _).
    apply CHECK_Ok in Hc as [Hc _]. exact Hc. }
  unfold AssertToSpaceInvariant, AssertToSpaceInvariantInNonMovingSpace, IsMarked,
    IsInToSpace, IsInUnevacFromSpace, IsInFromSpace, region_bitmap_Test, los_bitmap_Test,
    mark_bitmap_Test, IsOnAllocStack, GetReadBarrierPointer, object_at, DCHECK, CHECK,
    rb_at, bind, gets, ret, fatal.
  split; [intros ->; reflexivity|].
  split; [intros Hcc Ha; rewrite Hcc; cbv beta iota; rewrite Ha; reflexivity|].
  split.
  { intros Ha Hfrom. destruct (collector_type_is_CC E); [|reflexivity].
    cbv beta iota. rewrite Ha.
    apply bool_decide_eq_true in Hfrom. rewrite Hfrom.
    rewrite !bool_decide_eq_false_2 by discriminate.
    rewrite bool_decide_eq_true_2 by reflexivity. reflexivity. }
  split.
  { intros Hcc Ha Hz Hfrom Him. rewrite Hcc. cbv beta iota. rewrite Ha.
    apply Z.eqb_neq in Hz. rewrite Hz, Him. cbn [negb].
    apply bool_decide_eq_false in Hfrom.
    destruct (decide (ref ∈ region_space_bitmap s)), (decide (ref ∈ mark_bitmap s)),
      (decide (ref ∈ los_bitmap s)), (decide (ref ∈ allocation_stack s)),
      (has_space_bitmap E ref), (kIsDebugBuild E), (GetRegionType E ref); try congruence;
      repeat first [progress cbv beta iota | progress cbn [negb]
                   | rewrite bool_decide_eq_true_2 by first [assumption | reflexivity]
                   | rewrite bool_decide_eq_false_2 by first [assumption | discriminate]];
      split; intros H;
      first [reflexivity | discriminate H
            | injection H as H; apply Z.eqb_neq in Hz; congruence]. }
  intros Hcc Ha Hregion Him. rewrite Hcc. cbv beta iota. rewrite Ha, Hregion, Him.
  rewrite !bool_decide_eq_false_2 by discriminate.
  destruct (kUseBakerReadBarrier E); [|split; [left; reflexivity | reflexivity]].
  destruct (is_gc_thread self s), (gc_grays_immune_objects s); cbn [andb negb];
    try (split; [intros _; right; left; split; reflexivity | reflexivity]).
  all: destruct (updated_all_immune_objects s);
    [split; [intros _; right; right; left; reflexivity | reflexivity]|].
  all: destruct (heap s !! ref) as [o|]; cbn [fmap option_fmap option_map];
    [|split; [discriminate | intros [?|[[? ?]|[?|?]]]; discriminate]].
  all: destruct (decide (rb_ptr o = GrayPtr)) as [Hg|Hg];
    [rewrite bool_decide_eq_true_2 by exact Hg;
     split; [intros _; right; right; right; rewrite Hg; reflexivity | reflexivity]
    |rewrite bool_decide_eq_false_2 by exact Hg;
     split; [discriminate | intros [?|[[? ?]|[?|?]]]; congruence]].
Qed.

(** *** Beyond the claims: AllocateInSkippedBlock *)

Lemma sorted_by_size_insert (e : Z * Z) (m : list (Z * Z)) :
  sorted_by_size m -> sorted_by_size (multimap_insert e m).
Proof.
  intros Hs. induction Hs as [|e' m Hs IH Hall]; cbn.
  - constructor; constructor.
  - destruct (fst e' <=? fst e) eqn:Hle.
    + apply Z.leb_le in Hle. constructor; [exact IH|].
      rewrite multimap_insert_Permutation. constructor; [exact Hle | exact Hall].
    + apply Z.leb_gt in Hle. constructor; [constructor; assumption|].
      constructor; [cbn in *; lia|].
      eapply Forall_impl; [exact Hall|]. intros x Hx. cbn in *. lia.
Qed.

(** X7.  AllocateInSkippedBlock (lines 1895-1951) is a best fit.  With the
    skipped-blocks map sorted by size, it takes a smallest block among those
    that fit the request exactly or leave room for a dummy object, and gives
    up exactly when no block fits; the block is erased from the map, which
    stays sorted.  A block that fits exactly is the copy; of a larger one the
    remainder is filled with a dummy object and goes back into the map, which
    then holds the remainder beside what it held and is sorted. *)
Theorem AllocateInSkippedBlock_best_fit (l : CopyLocals) (s s' : State) (r : FrameStep) :
  0 <= min_object_size ->
  sorted_by_size (skipped_blocks_map s) ->
  let alloc_size := region_space_alloc_size l in
  (Copy_try_skipped l s = Ok (r, s') ->
   sorted_by_size (skipped_blocks_map s') /\
   ((r = Goto (FCopy CopyNonMovingFallback l) /\ s' = s /\
     forall size addr, (size, addr) ∈ skipped_blocks_map s -> ~ block_fits alloc_size size) \/
    (exists k size addr,
       skipped_blocks_map s !! k = Some (size, addr) /\ block_fits alloc_size size /\
       skipped_blocks_map s' = delete k (skipped_blocks_map s) /\
       (forall size' addr', (size', addr') ∈ skipped_blocks_map s ->
          block_fits alloc_size size' -> size <= size') /\
       r = if alloc_size <? size
           then Call (FCopy CopySkippedRemainder (with_skipped addr size l))
                     (FFillEntry (addr + alloc_size) (size - alloc_size))
           else Goto (FCopy CopyLoopHead (with_to_ref addr alloc_size l))))) /\
  (Copy_skipped_remainder l s = Ok (r, s') ->
   sorted_by_size (skipped_blocks_map s') /\
   skipped_blocks_map s'
     ≡ₚ (skipped_byte_size l - alloc_size, skipped_addr l + alloc_size) :: skipped_blocks_map s /\
   r = Goto (FCopy CopyLoopHead (with_to_ref (skipped_addr l) alloc_size l))).
Proof.
  intros Hmin Hs alloc_size. split.
  - apply Copy_try_skipped_best_fit; assumption.
  - unfold Copy_skipped_remainder. fold alloc_size. intros H.
    apply bind_Ok in H as ([] & s0 & Hc & H). apply CHECK_Ok in Hc as [_ [= ->]].
    apply bind_Ok in H as ([] & s0 & Hc & H). apply modify_Ok in Hc as [= ->].
    apply ret_Ok in H. injection H as -> ->. cbn.
    split; [apply sorted_by_size_insert; exact Hs|].
    split; [apply multimap_insert_Permutation | reflexivity].
Qed.

(** *** Beyond the claims: forwarding addresses under every schedule *)

Lemma from_space_not_owned (c : Config) (x : Z) :
  inv_own c -> IsInFromSpace x = true -> x ∉ owned_all c.
Proof.
  intros (_ & Hin & _) Hfrom Hx. destruct (Hin x Hx) as [_ Hno]. congruence.
Qed.

Lemma forwarded_to_config_step (a : Action) (c c' : Config) (x t : Z) :
  config_step a c = Ok c' -> inv_own c ->
  forwarded_to (state_of c) x t -> forwarded_to (state_of c') x t.
Proof.
  intros Hstep Hinv Hfwd.
  destruct (config_step_outside a c c' Hstep Hinv) as (pub & Hout & _).
  eapply forwarded_to_kept; [|exact Hfwd].
  apply Hout. apply from_space_not_owned; [exact Hinv | apply Hfwd].
Qed.

Lemma forwarded_to_run_actions (schedule : list Action) (c c' : Config) (x t : Z) :
  run_actions schedule c = Ok c' -> inv_own c ->
  forwarded_to (state_of c) x t -> forwarded_to (state_of c') x t.
Proof.
  revert c. induction schedule as [|a later IH]; intros c H Hinv Hfwd; cbn [run_actions] in H.
  - injection H as <-. exact Hfwd.
  - destruct (config_step a c) as [c1| | |] eqn:Hstep; try discriminate.
    eapply IH; [exact H | |].
    + eapply inv_own_config_step; eauto.
    + eapply forwarded_to_config_step; eauto.
Qed.

(** What a forwarding address leads to. *)
Lemma forwarded_to_published (c : Config) (x t : Z) :
  inv_own c -> forwarded_to (state_of c) x t -> published_ok c t.
Proof.
  intros (_ & _ & _ & Hfwd) [Hfrom Hlw]. unfold lock_word_at in Hlw.
  destruct (heap (state_of c) !! x) as [o|] eqn:Hx; [|discriminate].
  injection Hlw as Hlw. exact (Hfwd x o t Hx Hfrom Hlw).
Qed.

(** X8.  A forwarding address is final.  Under every schedule of calls of
    [Mark], steps of the threads and changes of lock words by mutators, from
    the flip on, a from-space object that is forwarded to a copy stays
    forwarded to that copy whatever happens later: no step of Copy overwrites
    a forwarding address (lines 2018-2061 install one only over a lock word
    that is none). *)
Theorem forwarding_address_is_final (schedule later : list Action) (c c1 c2 : Config)
    (x t : Z) :
  at_flip c -> run_actions schedule c = Ok c1 -> run_actions later c1 = Ok c2 ->
  forwarded_to (state_of c1) x t ->
  forwarded_to (state_of c2) x t /\
  (forall t', forwarded_to (state_of c2) x t' -> t' = t).
Proof.
  intros Hflip H1 H2 Hfwd.
  destruct (at_flip_run schedule c c1 Hflip H1) as [Hown _].
  pose proof (forwarded_to_run_actions later c1 c2 x t H2 Hown Hfwd) as Hfwd2.
  split; [exact Hfwd2|].
  intros t' [_ Hlw']. destruct Hfwd2 as [_ Hlw]. congruence.
Qed.

(** X9.  What [Mark] returns for a from-space object.  Under every schedule
    from the flip on, a call of [Mark] for a from-space reference returned the
    forwarding address of the object, and that reference lies outside the
    from-space, in the to-space or marked in the non-moving space; it holds an
    object, no thread has it as an unpublished block, it is not among the
    skipped blocks, and in Baker mode it is not black. *)
Theorem Mark_returns_published_copy (schedule : list Action) (c c' : Config) (x v : Z) :
  at_flip c -> run_actions schedule c = Ok c' ->
  (x, v) ∈ returned c' ->
  forwarded_to (state_of c') x v /\
  IsInFromSpace v = false /\
  (IsInToSpace v = true \/
   (non_moving_HasAddress E v = true /\ v ∈ mark_bitmap (state_of c'))) /\
  is_Some (heap (state_of c') !! v) /\
  (v ∉ owned_all c') /\
  (kUseBakerReadBarrier E = true -> rb_at (state_of c') v <> Some BlackPtr).
Proof.
  intros Hflip Hrun Hret.
  destruct (at_flip_run schedule c c' Hflip Hrun) as [Hown Hlog].
  destruct Hlog as (_ & _ & _ & _ & _ & Hreturned & _).
  pose proof (Hreturned x v Hret) as Hfwd.
  destruct (forwarded_to_published c' x v Hown Hfwd) as (Hgood & Hsome & Hno & Hcol).
  split; [exact Hfwd|]. split; [exact (good_target_not_from _ _ Hgood)|].
  split.
  { destruct Hgood as [Hto|(_ & _ & _ & Hnm & Hbit)]; [left; exact Hto | right; auto]. }
  auto.
Qed.

(** The forwarding address a step installs was a block of the thread. *)
Lemma installed_config_step (a : Action) (c c' : Config) :
  config_step a c = Ok c' -> inv_own c ->
  installed c' = installed c \/
  exists x t col, installed c' = (x, t, col) :: installed c /\ t ∈ owned_all c.
Proof.
  intros H Hinv. destruct a as [t g ref|t|x lw]; cbn [config_step] in H.
  - destruct (pool c !! t) as [[stack|v]|] eqn:Ht; try discriminate.
    injection H as <-. left. reflexivity.
  - destruct (pool c !! t) as [[[|f rest]|v]|] eqn:Ht; try discriminate.
    destruct (frame_step t f (state_of c)) as [[r s']| | |] eqn:Hstep; try discriminate.
    injection H as <-. cbn [installed].
    destruct (inv_own_running _ _ _ Hinv Ht) as (Hf & Hs & Hnd & Hin).
    pose proof (frame_step_own _ _ rest _ _ _ Hstep Hf Hs Hnd Hin) as Hown.
    inversion Hf as [|? ? Hf0 _]; subst.
    destruct (frame_step_log _ _ _ _ _ Hstep Hf0) as (_ & _ & _ & _ & Hli & _).
    rewrite Hli. destruct (published f r) as [[x t0]|]; [|left; reflexivity].
    right. exists x, t0, (rb_at s' t0). split; [reflexivity|].
    destruct Hown as (W & Wb & N & _ & _ & _ & _ & _ & _ & _ & _ & Hmine & _).
    destruct (pool_lookup_split _ _ _ (Finished 0) Ht) as [Hp _].
    unfold owned_all. rewrite Hp. apply elem_of_app. left.
    apply elem_of_pool_owned. left. exact Hmine.
  - destruct (mutator_sets_lock_word x lw (state_of c)) as [[[] s']| | |] eqn:Hstep;
      try discriminate.
    injection H as <-. left. reflexivity.
Qed.

Lemma installed_targets_step (n0 b0 : Z) (a : Action) (c c' : Config) :
  config_step a c = Ok c' -> inv_own c -> inv_log n0 b0 c ->
  NoDup (installed c).*1.*2 -> NoDup (installed c').*1.*2.
Proof.
  intros Hstep Hown Hlog Hnd.
  destruct (installed_config_step a c c' Hstep Hown) as [->|(x & t & col & -> & Ht)];
    [exact Hnd|].
  cbn. apply NoDup_cons. split; [|exact Hnd].
  intros Hin. apply list_elem_of_fmap in Hin as ([x1 t1] & Ht1 & Hin).
  apply list_elem_of_fmap in Hin as ([[x2 t2] col2] & Hx2 & Hin). cbn in *. simplify_eq.
  destruct Hlog as (_ & _ & _ & Hinst & _).
  destruct (Hinst _ _ _ Hin) as [Hfwd _].
  destruct (forwarded_to_published c _ _ Hown Hfwd) as (_ & _ & Hno & _).
  contradiction.
Qed.

Lemma installed_targets_run (n0 b0 : Z) (schedule : list Action) (c c' : Config) :
  run_actions schedule c = Ok c' -> inv_own c -> inv_log n0 b0 c ->
  NoDup (installed c).*1.*2 -> NoDup (installed c').*1.*2.
Proof.
  revert c. induction schedule as [|a later IH]; intros c H Hinv Hlog Hnd;
    cbn [run_actions] in H.
  - injection H as <-. exact Hnd.
  - destruct (config_step a c) as [c1| | |] eqn:Hstep; try discriminate.
    eapply IH; [exact H | | |].
    + eapply inv_own_config_step; eauto.
    + eapply inv_log_config_step; eauto.
    + eapply installed_targets_step; eauto.
Qed.

Lemma NoDup_fmap_eq {A B : Type} (f : A -> B) (l : list A) (a b : A) :
  NoDup (f <$> l) -> a ∈ l -> b ∈ l -> f a = f b -> a = b.
Proof.
  induction l as [|e l IH]; intros Hnd Ha Hb Hf; [apply elem_of_nil in Ha; destruct Ha|].
  cbn in Hnd. apply NoDup_cons in Hnd as [Hno Hnd].
  apply elem_of_cons in Ha as [->|Ha]; apply elem_of_cons in Hb as [->|Hb].
  - reflexivity.
  - exfalso. apply Hno. rewrite Hf. apply list_elem_of_fmap. eauto.
  - exfalso. apply Hno. rewrite <- Hf. apply list_elem_of_fmap. eauto.
  - apply IH; assumption.
Qed.

(** A forwarded object is in the log of the installed forwarding addresses. *)
Lemma forwarded_to_installed (n0 b0 : Z) (c : Config) (x t : Z) :
  inv_log n0 b0 c -> forwarded_to (state_of c) x t ->
  exists col, (x, t, col) ∈ installed c.
Proof.
  intros (_ & _ & _ & Hinst & Hall & _) [Hfrom Hlw]. unfold lock_word_at in Hlw.
  destruct (heap (state_of c) !! x) as [o|] eqn:Hx; [|discriminate].
  injection Hlw as Hlw.
  assert (Hin : x ∈ (installed c).*1.*1).
  { apply (Hall x o Hx Hfrom). rewrite Hlw. reflexivity. }
  apply list_elem_of_fmap in Hin as ([x1 t1] & Hx1 & Hin).
  apply list_elem_of_fmap in Hin as ([[x2 t2] col] & Hx2 & Hin). cbn in *. simplify_eq.
  destruct (Hinst _ _ _ Hin) as [[_ Hlw2] _]. unfold lock_word_at in Hlw2.
  rewrite Hx in Hlw2. cbn in Hlw2. rewrite Hlw in Hlw2. injection Hlw2 as <-.
  exists col. exact Hin.
Qed.

(** X10.  Distinct objects get distinct copies.  Under every schedule from
    the flip on, two from-space objects that are forwarded to the same
    reference are the same object: the compare-and-swap of Copy (line 2061)
    publishes a block that the thread allocated for this copy, and no block is
    published twice. *)
Theorem distinct_objects_distinct_copies (schedule : list Action) (c c' : Config)
    (x1 x2 t : Z) :
  at_flip c -> run_actions schedule c = Ok c' ->
  forwarded_to (state_of c') x1 t -> forwarded_to (state_of c') x2 t -> x1 = x2.
Proof.
  intros Hflip Hrun H1 H2.
  destruct (at_flip_inv c Hflip) as [Hown Hlog].
  assert (Hnd : NoDup (installed c').*1.*2).
  { eapply installed_targets_run; [exact Hrun | exact Hown | exact Hlog |].
    destruct Hflip as (_ & _ & _ & -> & _). constructor. }
  destruct (at_flip_run schedule c c' Hflip Hrun) as [_ Hlog'].
  destruct (forwarded_to_installed 0 0 c' x1 t Hlog' H1) as [col1 Hin1].
  destruct (forwarded_to_installed 0 0 c' x2 t Hlog' H2) as [col2 Hin2].
  rewrite <- list_fmap_compose in Hnd.
  pose proof (NoDup_fmap_eq _ _ _ _ Hnd Hin1 Hin2 eq_refl) as Heq.
  congruence.
Qed.

Lemma elem_of_forwarded_objects (s : State) (x : Z) :
  x ∈ forwarded_objects s <->
  IsInFromSpace x = true /\
  exists o, heap s !! x = Some o /\ is_forwarding (monitor o) = true.
Proof.
  unfold forwarded_objects, is_forwarded, lock_word_at.
  rewrite list_elem_of_filter, elem_of_from_space_objects. split.
  - intros (Hf & Hfrom & [o Ho]). rewrite Ho in Hf. cbn in Hf. eauto.
  - intros (Hfrom & o & Ho & Hf). rewrite Ho. cbn. eauto.
Qed.

Lemma all_finished_pool (c : Config) (p : Frame -> list Z) :
  all_finished c -> pool c ≫= pending p = [].
Proof.
  intros H. induction H as [|[stack|v] pl Ha _ IH]; [reflexivity | destruct Ha |].
  cbn. exact IH.
Qed.

(** X11.  The counters when no thread is in the collector.  Under every
    schedule from the flip on, once every call has returned,
    [objects_moved_] is the number of from-space objects that carry a
    forwarding address and [bytes_moved_] is the sum of their sizes, each
    rounded up to the alignment of the region space (lines 2063-2064; both
    counters are 64 bits wide). *)
Theorem counters_when_idle (schedule : list Action) (c c' : Config) :
  at_flip c -> run_actions schedule c = Ok c' -> all_finished c' ->
  let s := state_of c' in
  objects_moved s = wrap64 (Z.of_nat (length (forwarded_objects s))) /\
  bytes_moved s = wrap64 (foldr (fun a n => copy_size (heap s) a + n) 0 (forwarded_objects s)).
Proof.
  intros Hflip Hrun Hidle s.
  destruct (at_flip_inv c Hflip) as [Hown Hlog].
  destruct (at_flip_run_all schedule c c' Hown Hlog (at_flip_inv_size c Hflip) Hrun)
    as (Hown' & Hlog' & Hsize' & _).
  destruct Hlog' as (Hnd & Hcount & Hbytes & Hinst & Hall & _ & Hn & Hb).
  destruct Hsize' as (_ & _ & Hsizes).
  rewrite (all_finished_pool c' pending_count Hidle) in Hcount.
  rewrite (all_finished_pool c' pending_bytes Hidle) in Hbytes.
  cbn [app] in Hcount, Hbytes. fold s in Hinst, Hall, Hn, Hb, Hsizes.
  assert (Hperm : (installed c').*1.*1 ≡ₚ forwarded_objects s).
  { apply NoDup_Permutation; [exact Hnd | apply NoDup_filter, NoDup_from_space_objects |].
    intros x. rewrite elem_of_forwarded_objects. split.
    - intros Hin. apply list_elem_of_fmap in Hin as ([x1 t1] & Hx1 & Hin).
      apply list_elem_of_fmap in Hin as ([[x2 t2] col] & Hx2 & Hin). cbn in *. simplify_eq.
      destruct (Hinst _ _ _ Hin) as [[Hfrom Hlw] _]. split; [exact Hfrom|].
      unfold lock_word_at in Hlw. destruct (heap s !! x2) as [o|] eqn:Ho; [|discriminate].
      exists o. split; [reflexivity|]. injection Hlw as ->. reflexivity.
    - intros (Hfrom & o & Ho & Hf). exact (Hall x o Ho Hfrom Hf). }
  split.
  - rewrite Hn, Z.add_0_l. rewrite <- Hperm, Hcount, length_fmap. reflexivity.
  - rewrite Hb, Z.add_0_l.
    rewrite (sum_sizes_copy_size (heap s)) by (intros x n Hx; apply (Hsizes x n Hx)).
    rewrite (sum_Permutation _ _ _ (symmetry Hbytes)).
    rewrite (sum_Permutation _ _ _ Hperm). reflexivity.
Qed.

(** *** Beyond the claims: the assertion over the fields of an object *)

(** A loop whose body leaves the state as it is has run its body on every
    element, in the state it started from. *)
Lemma for_each_read_only {B : Type} (l : list B) (body : B -> M unit) (s s' : State)
    (u : unit) :
  (forall x, keeps (fun s => s) (body x)) ->
  for_each l body s = Ok (u, s') ->
  s' = s /\ forall x, x ∈ l -> body x s = Ok (tt, s).
Proof.
  intros Hk. induction l as [|x l IH]; cbn [for_each]; intros H.
  - apply ret_Ok in H. injection H as _ ->. split; [reflexivity|].
    intros x Hx. apply elem_of_nil in Hx. destruct Hx.
  - apply bind_Ok in H as ([] & s1 & H1 & H).
    pose proof (Hk x _ _ _ H1) as Hs. cbv beta in Hs. subst s1.
    destruct (IH H) as [-> Hall]. split; [reflexivity|].
    intros y Hy. apply elem_of_cons in Hy as [->|Hy]; [exact H1 | exact (Hall y Hy)].
Qed.

Lemma AssertToSpaceInvariant_from_space (self : nat) (ref : Z) (s : State) :
  is_asserting_to_space_invariant s = true -> IsInFromSpace ref = true ->
  AssertToSpaceInvariant self ref s = Fatal.
Proof.
  unfold AssertToSpaceInvariant, IsInToSpace, IsInUnevacFromSpace, IsInFromSpace, CHECK,
    bind, gets, ret, fatal.
  intros Ha Hfrom. destruct (collector_type_is_CC E); [|reflexivity].
  cbv beta iota. rewrite Ha. apply bool_decide_eq_true in Hfrom. rewrite Hfrom.
  rewrite !bool_decide_eq_false_2 by discriminate.
  rewrite bool_decide_eq_true_2 by reflexivity. reflexivity.
Qed.

(** X12.  AssertToSpaceInvariantObjectVisitor (lines 1094-1115, with the field
    visitor of lines 1060-1092) is a sound check.  When it passes, the state
    is as before, the object is not null and not in the from-space, and,
    while the collector asserts the invariant, neither the object nor any
    reference field or native root of it that is not null lies in the
    from-space: AssertToSpaceInvariant passes on each of them. *)
Theorem AssertToSpaceInvariantObject_sound (self : nat) (obj : Z) (s s' : State) (u : unit) :
  AssertToSpaceInvariantObject self obj s = Ok (u, s') ->
  s' = s /\ obj <> 0 /\ IsInFromSpace obj = false /\
  AssertToSpaceInvariant self obj s = Ok (tt, s) /\
  exists o,
    heap s !! obj = Some o /\
    forall ref, ref ∈ ref_fields o ++ native_roots o -> ref <> 0 ->
      AssertToSpaceInvariant self ref s = Ok (tt, s) /\
      (is_asserting_to_space_invariant s = true -> IsInFromSpace ref = false).
Proof.
  intros H.
  pose proof (AssertToSpaceInvariantObject_state self obj _ _ _ H) as Hs.
  cbv beta in Hs. subst s'. split; [reflexivity|].
  unfold AssertToSpaceInvariantObject in H.
  apply bind_Ok in H as ([] & s1 & Hc & H). apply CHECK_Ok in Hc as [Hnull [= ->]].
  apply bind_Ok in H as ([] & s1 & Hc & H). apply CHECK_Ok in Hc as [Hfrom [= ->]].
  apply negb_true_iff in Hnull, Hfrom. apply Z.eqb_neq in Hnull.
  split; [exact Hnull|]. split; [exact Hfrom|].
  apply bind_Ok in H as ([] & s1 & Hobj & H).
  pose proof (AssertToSpaceInvariant_state _ _ _ _ _ Hobj). subst s1.
  split; [exact Hobj|].
  unfold VisitReferences in H.
  apply bind_Ok in H as (o & s1 & Ho & H).
  apply object_at_Ok in Ho as (o' & Ho & [= <- ->]).
  exists o. split; [exact Ho|].
  apply bind_Ok in H as ([] & s1 & Hfields & H).
  apply for_each_read_only in Hfields as [-> Hfields]; [|intros i; keeps_tac].
  apply bind_Ok in H as (is_ref & s1 & Hcls & H).
  assert (K : keeps (fun s => s) (IsTypeOfReferenceClass obj)) by keeps_tac.
  pose proof (K _ _ _ Hcls) as Hs. cbv beta in Hs. subst s1.
  apply bind_Ok in H as ([] & s1 & Hwhen & H).
  assert (K2 : keeps (fun s => s)
                 (when is_ref (is_ref0 <- IsTypeOfReferenceClass obj ;; CHECK is_ref0)))
    by keeps_tac.
  pose proof (K2 _ _ _ Hwhen) as Hs. cbv beta in Hs. subst s1.
  apply for_each_read_only in H as [_ Hroots]; [|intros i; keeps_tac].
  assert (Hsafe : forall ref, AssertToSpaceInvariant self ref s = Ok (tt, s) ->
            is_asserting_to_space_invariant s = true -> IsInFromSpace ref = false).
  { intros ref Hok Has. destruct (IsInFromSpace ref) eqn:Hf; [|reflexivity].
    rewrite (AssertToSpaceInvariant_from_space self ref s Has Hf) in Hok. discriminate. }
  intros ref Hin Hnz. apply elem_of_app in Hin as [Hin|Hin];
    apply list_elem_of_lookup_1 in Hin as [i Hi].
  - assert (Hi' : i ∈ seq 0 (List.length (ref_fields o))).
    { apply elem_of_seq. apply lookup_lt_Some in Hi. lia. }
    pose proof (Hfields i Hi') as Hbody. cbv beta in Hbody.
    apply bind_Ok in Hbody as (v & s1 & Hload & Hbody).
    unfold slot_load, bind, object_at in Hload. rewrite Ho, Hi in Hload.
    apply ret_Ok in Hload. injection Hload as -> ->.
    apply Z.eqb_neq in Hnz. rewrite Hnz in Hbody. cbn [negb when] in Hbody.
    destruct u. split; [exact Hbody | apply Hsafe; exact Hbody].
  - assert (Hi' : i ∈ seq 0 (List.length (native_roots o))).
    { apply elem_of_seq. apply lookup_lt_Some in Hi. lia. }
    pose proof (Hroots i Hi') as Hbody. cbv beta in Hbody.
    apply bind_Ok in Hbody as (v & s1 & Hload & Hbody).
    unfold slot_load, bind, object_at in Hload. rewrite Ho, Hi in Hload.
    apply ret_Ok in Hload. injection Hload as -> ->.
    apply Z.eqb_neq in Hnz. rewrite Hnz in Hbody. cbn [negb when] in Hbody.
    destruct u. split; [exact Hbody | apply Hsafe; exact Hbody].
Qed.

(** *** Beyond the claims: the false gray stack *)

Lemma set_heap_same (s : State) : set_heap (heap s) s = s.
Proof. destruct s. reflexivity. Qed.

Lemma whiten_step (x : Z) (rest : list Z) (a : Z) (o : Object) :
  whiten rest a (whiten [x] a o) = whiten (x :: rest) a o.
Proof.
  unfold whiten.
  destruct (decide (rb_ptr o = GrayPtr)) as [Hg|Hg].
  - rewrite (bool_decide_eq_true_2 _ Hg), !andb_true_r.
    destruct (decide (a = x)) as [->|Hne].
    + rewrite (bool_decide_eq_true_2 (x ∈ [x])) by (apply list_elem_of_singleton; reflexivity).
      rewrite (bool_decide_eq_true_2 (x ∈ x :: rest)) by (apply elem_of_cons; auto).
      cbn. rewrite (bool_decide_eq_false_2 (WhitePtr = GrayPtr)) by discriminate.
      rewrite andb_false_r. reflexivity.
    + rewrite (bool_decide_eq_false_2 (a ∈ [x]))
        by (rewrite list_elem_of_singleton; exact Hne).
      rewrite (bool_decide_eq_true_2 _ Hg), andb_true_r.
      destruct (decide (a ∈ rest)) as [Hin|Hin].
      * rewrite !bool_decide_eq_true_2; [reflexivity | apply elem_of_cons; auto | exact Hin].
      * rewrite !bool_decide_eq_false_2; [reflexivity | | exact Hin].
        rewrite elem_of_cons. tauto.
  - rewrite (bool_decide_eq_false_2 _ Hg), !andb_false_r.
    rewrite (bool_decide_eq_false_2 _ Hg), andb_false_r. reflexivity.
Qed.

(** IsMarked reads the lock words of the heap only. *)
Lemma IsMarked_heap_ext (x : Z) (h : gmap Z Object) (s : State) (m : Z) :
  (forall a, monitor <$> h !! a = monitor <$> heap s !! a) ->
  IsMarked x (set_heap h s) = Ok (m, set_heap h s) -> IsMarked x s = Ok (m, s).
Proof.
  intros Hlw. pose proof (Hlw x) as Hx.
  unfold IsMarked, DCHECK, CHECK, GetFwdPtr, GetLockWord, object_at, region_bitmap_Test,
    los_bitmap_Test, mark_bitmap_Test, IsOnAllocStack, bind, gets, ret, fatal.
  cbn [heap set_heap region_space_bitmap mark_bitmap los_bitmap allocation_stack].
  destruct (kIsDebugBuild E), (negb (x =? 0)), (GetRegionType E x); try discriminate;
    repeat first
      [ progress cbv beta iota
      | progress cbn [heap set_heap region_space_bitmap mark_bitmap los_bitmap
                      allocation_stack]
      | match goal with
        | |- context [h !! x] =>
            destruct (h !! x) as [o1|], (heap s !! x) as [o2|]; try discriminate;
              cbn in Hx; try injection Hx as Hx; try rewrite Hx
        | |- context [GetState ?lw] => destruct (GetState lw)
        | |- context [if ?b then _ else _] => destruct b
        end ];
    intros H; try discriminate H; injection H as <-; reflexivity.
Qed.

Lemma false_gray_loop (objs : list Z) (s s' : State) (u : unit) :
  for_each objs (fun obj =>
    DCHECK (m <- IsMarked obj ;; ret (negb (m =? 0))) ;;
    rb <- GetReadBarrierPointer obj ;;
    when (bool_decide (rb = GrayPtr))
      (success <- AtomicSetReadBarrierPointer obj GrayPtr WhitePtr ;;
       DCHECK (ret success))) s = Ok (u, s') ->
  s' = set_heap (heap s') s /\
  (forall a, heap s' !! a = whiten objs a <$> heap s !! a) /\
  (forall obj, obj ∈ objs -> is_Some (heap s !! obj)) /\
  (kIsDebugBuild E = true ->
   forall obj, obj ∈ objs -> exists m, IsMarked obj s = Ok (m, s) /\ m <> 0).
Proof.
  revert s. induction objs as [|x rest IH]; intros s H; cbn [for_each] in H.
  - apply ret_Ok in H. injection H as _ ->.
    split; [symmetry; apply set_heap_same|].
    split; [|split; [|intros _]; intros obj Hobj; apply elem_of_nil in Hobj; destruct Hobj].
    intros a. unfold whiten. destruct (heap s !! a) as [o|]; [|reflexivity]. cbn.
    rewrite bool_decide_eq_false_2 by apply not_elem_of_nil. reflexivity.
  - apply bind_Ok in H as ([] & s1 & Hx & H).
    apply bind_Ok in Hx as ([] & s0 & Hd & Hx).
    assert (Hmarked : s0 = s /\
              (kIsDebugBuild E = true -> exists m, IsMarked x s = Ok (m, s) /\ m <> 0)).
    { unfold DCHECK in Hd. destruct (kIsDebugBuild E).
      - apply bind_Ok in Hd as (b & s2 & Hm & Hc). apply CHECK_Ok in Hc as [-> [= ->]].
        apply bind_Ok in Hm as (m & s3 & Hm & Hr). apply ret_Ok in Hr.
        injection Hr as Hr ->. destruct (IsMarked_answer _ _ _ _ Hm) as [-> _].
        split; [reflexivity|]. intros _. exists m. split; [exact Hm|].
        symmetry in Hr. apply negb_true_iff in Hr. apply Z.eqb_neq in Hr. exact Hr.
      - apply ret_Ok in Hd. injection Hd as ->. split; [reflexivity | discriminate]. }
    destruct Hmarked as [-> Hmarked].
    apply bind_Ok in Hx as (rb & s0 & Hrb & Hx).
    apply GetReadBarrierPointer_Ok in Hrb as (o & Ho & [= -> ->]).
    assert (Hs1 : s1 = set_heap (<[x := whiten [x] x o]> (heap s)) s).
    { unfold whiten.
      rewrite (bool_decide_eq_true_2 (x ∈ [x])) by (apply list_elem_of_singleton; reflexivity).
      cbn [andb]. unfold when in Hx.
      destruct (bool_decide (rb_ptr o = GrayPtr)) eqn:Hg.
      - apply bool_decide_eq_true in Hg.
        apply bind_Ok in Hx as (success & s2 & Hcas & Hx).
        unfold AtomicSetReadBarrierPointer, bind, object_at in Hcas. rewrite Ho in Hcas.
        destruct (decide (rb_ptr o = GrayPtr)); [|contradiction].
        cbn in Hcas. injection Hcas as <- <-.
        assert (K : keeps (fun s => s) (DCHECK (ret true))) by keeps_tac.
        pose proof (K _ _ _ Hx) as Hs. cbv beta in Hs. subst s1. reflexivity.
      - apply ret_Ok in Hx. injection Hx as ->.
        rewrite insert_id by exact Ho. symmetry. apply set_heap_same. }
    destruct (IH _ H) as (Hs' & Hheap & Hall & Hdebug).
    assert (Hlook : forall a, heap s1 !! a = whiten [x] a <$> heap s !! a).
    { intros a. rewrite Hs1. cbn. destruct (decide (a = x)) as [->|Hne].
      - rewrite lookup_insert_eq, Ho. reflexivity.
      - rewrite lookup_insert_ne by congruence.
        destruct (heap s !! a) as [o'|]; [|reflexivity]. cbn. unfold whiten.
        rewrite (bool_decide_eq_false_2 (a ∈ [x]))
          by (rewrite list_elem_of_singleton; exact Hne).
        reflexivity. }
    split.
    { rewrite Hs' at 1. rewrite Hs1. destruct s. reflexivity. }
    split.
    { intros a. rewrite Hheap, Hlook. destruct (heap s !! a) as [o'|]; [|reflexivity].
      cbn. rewrite whiten_step. reflexivity. }
    split.
    { intros obj Hobj. apply elem_of_cons in Hobj as [->|Hobj]; [eauto|].
      destruct (Hall obj Hobj) as [o' Ho']. rewrite Hlook in Ho'.
      destruct (heap s !! obj); [eauto | discriminate]. }
    intros Hdbg obj Hobj. apply elem_of_cons in Hobj as [->|Hobj]; [exact (Hmarked Hdbg)|].
    destruct (Hdebug Hdbg obj Hobj) as (m & Hm & Hnz). exists m. split; [|exact Hnz].
    apply (IsMarked_heap_ext obj (heap s1) s m).
    + intros a. rewrite Hlook. destruct (heap s !! a) as [o'|]; [|reflexivity].
      cbn. unfold whiten.
      destruct (bool_decide (a ∈ [x]) && bool_decide (rb_ptr o' = GrayPtr)); reflexivity.
    + clear Hs' Hheap Hall Hdebug Hlook H. subst s1. cbn [heap set_heap] in *. exact Hm.
Qed.

(** X13.  ProcessFalseGrayStack (lines 781-798) runs only in Baker builds.
    When it returns, the false gray stack is empty; an object that was on the
    stack and gray is white, every other object is as it was, and nothing but
    the heap and the stack has changed; every object of the stack was in the
    heap and, in a debug build, was reported as marked by IsMarked.  A second
    run changes nothing. *)
Theorem ProcessFalseGrayStack_whitens (s s' : State) (u : unit) :
  ProcessFalseGrayStack s = Ok (u, s') ->
  kUseBakerReadBarrier E = true /\
  false_gray_stack s' = [] /\
  s' = set_false_gray_stack [] (set_heap (heap s') s) /\
  (forall a, heap s' !! a = whiten (false_gray_stack s) a <$> heap s !! a) /\
  (forall obj, obj ∈ false_gray_stack s -> is_Some (heap s !! obj)) /\
  (kIsDebugBuild E = true ->
   forall obj, obj ∈ false_gray_stack s -> exists m, IsMarked obj s = Ok (m, s) /\ m <> 0) /\
  ProcessFalseGrayStack s' = Ok (tt, s').
Proof.
  unfold ProcessFalseGrayStack at 1. intros H.
  apply bind_Ok in H as ([] & s0 & Hc & H). apply CHECK_Ok in Hc as [Hbaker [= ->]].
  apply bind_Ok in H as (objs & s0 & Hg & H). apply gets_Ok in Hg as [= -> ->].
  apply bind_Ok in H as ([] & s1 & Hloop & H). apply modify_Ok in H as [= -> ->].
  destruct (false_gray_loop _ _ _ _ Hloop) as (Hs1 & Hheap & Hall & Hdebug).
  split; [exact Hbaker|]. split; [reflexivity|].
  split; [rewrite Hs1 at 1; destruct s; reflexivity|].
  split; [exact Hheap|]. split; [exact Hall|]. split; [exact Hdebug|].
  unfold ProcessFalseGrayStack, bind, gets, modify. rewrite Hbaker. cbn.
  destruct s1. reflexivity.
Qed.

(** *** Beyond the claims: the loops over the thread list *)

Lemma set_threads_set_threads (m1 m2 : gmap nat Thread) (s : State) :
  set_threads m2 (set_threads m1 s) = set_threads m2 s.
Proof. reflexivity. Qed.

Lemma set_threads_same (s : State) : set_threads (threads s) s = s.
Proof. destruct s. reflexivity. Qed.

(** A loop that stores [f th] for every thread [th] of a list of distinct
    threads. *)
Lemma for_each_store_thread (f : Thread -> Thread) (l : list (nat * Thread)) (s : State) :
  NoDup l.*1 ->
  (forall t th, (t, th) ∈ l -> threads s !! t = Some th) ->
  for_each l (fun '(t, _) => th <- thread_at t ;; store_thread t (f th)) s
  = Ok (tt, set_threads (foldr (fun '(t, th) m => <[t := f th]> m) (threads s) l) s).
Proof.
  revert s. induction l as [|[t th] l IH]; intros s Hnd Hin.
  - cbn. rewrite set_threads_same. reflexivity.
  - cbn [for_each]. cbn in Hnd. apply NoDup_cons in Hnd as [Hno Hnd].
    assert (Ht : threads s !! t = Some th) by (apply Hin; apply elem_of_cons; auto).
    assert (Hstep : (th0 <- thread_at t ;; store_thread t (f th0)) s
                    = Ok (tt, set_threads (<[t := f th]> (threads s)) s)).
    { unfold bind, thread_at. rewrite Ht. reflexivity. }
    rewrite (bind_eq _ _ _ _ _ Hstep).
    rewrite IH; [|exact Hnd|].
    + cbn [threads set_threads]. rewrite set_threads_set_threads. f_equal. f_equal. f_equal.
      clear IH Hin Hstep Ht. induction l as [|[t1 th1] l IHl]; cbn; [reflexivity|].
      cbn in Hno, Hnd. apply not_elem_of_cons in Hno as [Hne Hno].
      apply NoDup_cons in Hnd as [_ Hnd].
      rewrite IHl by assumption. apply insert_insert_ne. congruence.
    + intros t1 th1 H1. cbn. rewrite lookup_insert_ne.
      * apply Hin. apply elem_of_cons. auto.
      * intros <-. apply Hno. apply list_elem_of_fmap. exists (t, th1). auto.
Qed.

Lemma foldr_insert_lookup (f : Thread -> Thread) (l : list (nat * Thread))
    (m : gmap nat Thread) (t : nat) :
  NoDup l.*1 ->
  foldr (fun '(t, th) m => <[t := f th]> m) m l !! t
  = match list_find (fun e => e.1 = t) l with
    | Some (_, (_, th)) => Some (f th)
    | None => m !! t
    end.
Proof.
  intros Hnd. induction l as [|[t1 th1] l IH]; [reflexivity|].
  cbn in Hnd. apply NoDup_cons in Hnd as [Hno Hnd]. cbn [foldr list_find].
  destruct (decide ((t1, th1).1 = t)) as [Heq|Hne]; cbn in *.
  - subst t1. rewrite lookup_insert_eq. reflexivity.
  - rewrite lookup_insert_ne by exact Hne. rewrite (IH Hnd).
    destruct (list_find _ l) as [[i [t2 th2]]|]; reflexivity.
Qed.

Lemma for_each_threads (f : Thread -> Thread) (s : State) :
  for_each (map_to_list (threads s))
    (fun '(t, _) => th <- thread_at t ;; store_thread t (f th)) s
  = Ok (tt, set_threads (f <$> threads s) s).
Proof.
  rewrite for_each_store_thread.
  - f_equal. f_equal. f_equal. apply map_eq. intros t.
    rewrite foldr_insert_lookup by apply NoDup_fst_map_to_list.
    rewrite lookup_fmap.
    destruct (list_find (fun e => e.1 = t) (map_to_list (threads s)))
      as [[i [t1 th1]]|] eqn:Hfind.
    + apply list_find_Some in Hfind as (Hi & Ht & _). cbn in Ht. subst t1.
      apply list_elem_of_lookup_2 in Hi. apply elem_of_map_to_list in Hi.
      rewrite Hi. reflexivity.
    + destruct (threads s !! t) as [th|] eqn:Hth; [|reflexivity].
      exfalso. apply elem_of_map_to_list in Hth.
      eapply list_find_None in Hfind. rewrite Forall_forall in Hfind.
      apply (Hfind _ Hth). reflexivity.
  - apply NoDup_fst_map_to_list.
  - intros t th Hin. apply elem_of_map_to_list. exact Hin.
Qed.

Lemma DisableMarking_eq (s : State) :
  DisableMarking s
  = Ok (tt, set_mark_stack_mode kMarkStackModeOff
              (set_is_mark_stack_push_disallowed 1
                 (set_threads (SetIsGcMarking false <$> threads s)
                    (set_is_marking false s)))).
Proof.
  unfold DisableMarking.
  rewrite (bind_eq _ _ _ _ _ (eq_refl : modify (set_is_marking false) s = Ok (tt, _))).
  rewrite (bind_eq _ _ _ _ _
             (eq_refl : gets (fun s0 => map_to_list (threads s0)) (set_is_marking false s)
                        = Ok (_, _))).
  rewrite (bind_eq _ _ _ _ _ (for_each_threads (SetIsGcMarking false) _)).
  reflexivity.
Qed.

(** X14.  DisableMarking (lines 757-772).  When it returns it has cleared
    [is_marking_] and the [is_gc_marking] flag of every thread, disallowed
    pushes and turned the mark stack mode off, and has left the rest of the
    state, the mark stacks of the threads among it, as it was.  From then on
    every push onto a mark stack aborts, for every thread. *)
Theorem DisableMarking_stops_pushes (s s' : State) (u : unit) :
  DisableMarking s = Ok (u, s') ->
  s' = set_mark_stack_mode kMarkStackModeOff
         (set_is_mark_stack_push_disallowed 1
            (set_threads (SetIsGcMarking false <$> threads s)
               (set_is_marking false s))) /\
  (forall t, threads s' !! t = SetIsGcMarking false <$> threads s !! t) /\
  (forall t th, threads s' !! t = Some th ->
     is_gc_marking th = false /\
     exists th0, threads s !! t = Some th0 /\ tl_mark_stack th = tl_mark_stack th0 /\
                 tl_weak_ref_access_enabled th = tl_weak_ref_access_enabled th0) /\
  (forall self x, PushOntoMarkStack self x s' = Fatal).
Proof.
  intros H. rewrite DisableMarking_eq in H. injection H as _ <-.
  split; [reflexivity|].
  assert (Hlook : forall t,
            threads (set_mark_stack_mode kMarkStackModeOff
                       (set_is_mark_stack_push_disallowed 1
                          (set_threads (SetIsGcMarking false <$> threads s)
                             (set_is_marking false s)))) !! t
            = SetIsGcMarking false <$> threads s !! t).
  { intros t. cbn. apply lookup_fmap. }
  split; [exact Hlook|]. split.
  - intros t th Ht. rewrite Hlook in Ht.
    destruct (threads s !! t) as [th0|]; [|discriminate]. injection Ht as <-.
    split; [reflexivity|]. exists th0. repeat split.
  - intros self x. apply PushOntoMarkStack_aborts. left. cbn. discriminate.
Qed.

(** *** Beyond the claims: revoking the thread-local mark stacks *)

Lemma revoke_step (b : bool) (t : nat) (th th' : Thread) (s : State) :
  threads s !! t = Some th ->
  (let '(t, _) := (t, th') in
   th <- thread_at t ;;
   (match tl_mark_stack th with
    | Some st =>
        modify (fun s => set_revoked_mark_stacks (revoked_mark_stacks s ++ [st]) s) ;;
        store_thread t (SetThreadLocalMarkStack None th)
    | None => ret tt
    end) ;;
   when b (th1 <- thread_at t ;; store_thread t (SetWeakRefAccessEnabled false th1))) s
  = Ok (tt, set_threads (<[t := revoked_thread b th]> (threads s))
              (set_revoked_mark_stacks
                 (revoked_mark_stacks s ++ option_list (tl_mark_stack th)) s)).
Proof.
  intros Ht. cbv zeta beta iota. unfold bind at 1. unfold thread_at at 1. rewrite Ht.
  unfold revoked_thread.
  destruct th as [[st|] g w]; destruct b; cbn [tl_mark_stack when option_list];
    unfold bind, modify, store_thread, thread_at, ret; cbn;
    rewrite ?lookup_insert_eq, ?Ht; cbn; rewrite ?insert_insert_eq, ?app_nil_r;
    try reflexivity.
  - unfold modify. cbn. rewrite insert_insert_eq. reflexivity.
  - unfold SetThreadLocalMarkStack. cbn. rewrite insert_id by exact Ht.
    destruct s; reflexivity.
Qed.

Lemma revoke_loop (b : bool) (l : list (nat * Thread)) (s : State) :
  NoDup l.*1 ->
  (forall t th, (t, th) ∈ l -> threads s !! t = Some th) ->
  for_each l (fun '(t, _) =>
    th <- thread_at t ;;
    (match tl_mark_stack th with
     | Some st =>
         modify (fun s => set_revoked_mark_stacks (revoked_mark_stacks s ++ [st]) s) ;;
         store_thread t (SetThreadLocalMarkStack None th)
     | None => ret tt
     end) ;;
    when b (th1 <- thread_at t ;; store_thread t (SetWeakRefAccessEnabled false th1))) s
  = Ok (tt, set_threads
              (foldr (fun '(t, th) m => <[t := revoked_thread b th]> m) (threads s) l)
              (set_revoked_mark_stacks
                 (revoked_mark_stacks s ++ omap (fun e => tl_mark_stack e.2) l) s)).
Proof.
  revert s. induction l as [|[t th] l IH]; intros s Hnd Hin.
  - cbn. rewrite app_nil_r. destruct s; reflexivity.
  - cbn [for_each]. cbn in Hnd. apply NoDup_cons in Hnd as [Hno Hnd].
    assert (Ht : threads s !! t = Some th) by (apply Hin; apply elem_of_cons; auto).
    rewrite (bind_eq _ _ _ _ _ (revoke_step b t th th s Ht)).
    rewrite IH; [|exact Hnd|].
    + cbn [threads set_threads revoked_mark_stacks set_revoked_mark_stacks].
      f_equal. f_equal.
      assert (Hm : foldr (fun '(t0, th0) m => <[t0 := revoked_thread b th0]> m)
                     (<[t := revoked_thread b th]> (threads s)) l
                   = <[t := revoked_thread b th]>
                       (foldr (fun '(t0, th0) m => <[t0 := revoked_thread b th0]> m)
                          (threads s) l)).
      { clear IH Hin Ht. induction l as [|[t1 th1] l IHl]; cbn; [reflexivity|].
        cbn in Hno, Hnd. apply not_elem_of_cons in Hno as [Hne Hno].
        apply NoDup_cons in Hnd as [_ Hnd].
        rewrite IHl by assumption. apply insert_insert_ne. congruence. }
      assert (Hr : (revoked_mark_stacks s ++ option_list (tl_mark_stack th))
                   ++ omap (fun e => tl_mark_stack e.2) l
                   = revoked_mark_stacks s
                     ++ omap (fun e => tl_mark_stack e.2) ((t, th) :: l)).
      { rewrite <- app_assoc. f_equal. cbn. destruct (tl_mark_stack th); reflexivity. }
      rewrite Hm, Hr. destruct s; reflexivity.
    + intros t1 th1 H1. cbn. rewrite lookup_insert_ne.
      * apply Hin. apply elem_of_cons. auto.
      * intros <-. apply Hno. apply list_elem_of_fmap. exists (t, th1). auto.
Qed.

(** RevokeThreadLocalMarkStacks in one step. *)
Lemma RevokeThreadLocalMarkStacks_eq (b : bool) (s : State) :
  RevokeThreadLocalMarkStacks b s
  = Ok (tt, set_threads (revoked_thread b <$> threads s)
              (set_revoked_mark_stacks
                 (revoked_mark_stacks s ++ thread_local_mark_stacks s) s)).
Proof.
  unfold RevokeThreadLocalMarkStacks.
  rewrite (bind_eq _ _ _ _ _
             (eq_refl : gets (fun s0 => map_to_list (threads s0)) s = Ok (_, _))).
  rewrite revoke_loop.
  - f_equal. f_equal. f_equal. apply map_eq. intros t.
    rewrite (foldr_insert_lookup (revoked_thread b)) by apply NoDup_fst_map_to_list.
    rewrite lookup_fmap.
    destruct (list_find (fun e => e.1 = t) (map_to_list (threads s)))
      as [[i [t1 th1]]|] eqn:Hfind.
    + apply list_find_Some in Hfind as (Hi & Ht & _). cbn in Ht. subst t1.
      apply list_elem_of_lookup_2 in Hi. apply elem_of_map_to_list in Hi.
      rewrite Hi. reflexivity.
    + destruct (threads s !! t) as [th|] eqn:Hth; [|reflexivity].
      exfalso. apply elem_of_map_to_list in Hth.
      eapply list_find_None in Hfind. rewrite Forall_forall in Hfind.
      apply (Hfind _ Hth). reflexivity.
  - apply NoDup_fst_map_to_list.
  - intros t th Hin. apply elem_of_map_to_list. exact Hin.
Qed.

Lemma elem_of_thread_local_mark_stacks (s : State) (st : ObjectStack) :
  st ∈ thread_local_mark_stacks s <->
  exists t th, threads s !! t = Some th /\ tl_mark_stack th = Some st.
Proof.
  unfold thread_local_mark_stacks. rewrite list_elem_of_omap. split.
  - intros ([t th] & Hin & Hst). apply elem_of_map_to_list in Hin. eauto.
  - intros (t & th & Ht & Hst). exists (t, th). split; [|exact Hst].
    apply elem_of_map_to_list. exact Ht.
Qed.


(** X16.  ReenableWeakRefAccess (lines 694-711) has no check and returns; it sets
    [weak_ref_access_enabled_] and the flag of every thread and changes
    nothing else.  It undoes what the checkpoint of
    RevokeThreadLocalMarkStacks did to a thread when it disabled weak
    reference access: a thread that had access before the checkpoint is, but
    for its revoked mark stack, as it was. *)
Theorem ReenableWeakRefAccess_undoes_revoke (s : State) :
  exists s',
    ReenableWeakRefAccess s = Ok (tt, s') /\
    s' = set_threads (SetWeakRefAccessEnabled true <$> threads s)
           (set_weak_ref_access_enabled true s) /\
    weak_ref_access_enabled s' = true /\
    (forall t th, threads s' !! t = Some th -> tl_weak_ref_access_enabled th = true) /\
    (forall s0 t th,
       RevokeThreadLocalMarkStacks true s0 = Ok (tt, s) ->
       threads s0 !! t = Some th -> tl_weak_ref_access_enabled th = true ->
       threads s' !! t = Some (SetThreadLocalMarkStack None th)).
Proof.
  eexists. split.
  { unfold ReenableWeakRefAccess.
    rewrite (bind_eq _ _ _ _ _
               (eq_refl : modify (set_weak_ref_access_enabled true) s = Ok (tt, _))).
    rewrite (bind_eq _ _ _ _ _
               (eq_refl : gets (fun s0 => map_to_list (threads s0))
                            (set_weak_ref_access_enabled true s) = Ok (_, _))).
    apply (for_each_threads (SetWeakRefAccessEnabled true)). }
  split; [reflexivity|]. split; [reflexivity|].
  assert (Hlook : forall t,
            threads (set_threads
                       (SetWeakRefAccessEnabled true
                          <$> threads (set_weak_ref_access_enabled true s))
                       (set_weak_ref_access_enabled true s)) !! t
            = SetWeakRefAccessEnabled true <$> threads s !! t).
  { intros t. cbn. apply lookup_fmap. }
  split.
  - intros t th Ht. rewrite Hlook in Ht.
    destruct (threads s !! t) as [th0|]; [|discriminate]. injection Ht as <-. reflexivity.
  - intros s0 t th Hrevoke Ht Hw. rewrite Hlook.
    rewrite RevokeThreadLocalMarkStacks_eq in Hrevoke. injection Hrevoke as <-.
    cbn [threads set_threads set_revoked_mark_stacks]. rewrite lookup_fmap, Ht. cbn.
    destruct th as [st g w]. cbn in Hw. subst w. reflexivity.
Qed.

(** *** Beyond the claims: checking that the mark stacks are empty *)

Lemma fmap_id_threads (f : Thread -> Thread) (m : gmap nat Thread) :
  (forall t th, m !! t = Some th -> f th = th) -> f <$> m = m.
Proof.
  intros H. apply map_eq. intros t. rewrite lookup_fmap.
  destruct (m !! t) as [th|] eqn:Ht; [|reflexivity]. cbn. rewrite (H t th Ht). reflexivity.
Qed.

Lemma thread_local_mark_stacks_nil (s : State) :
  thread_local_mark_stacks s = [] <->
  forall t th, threads s !! t = Some th -> tl_mark_stack th = None.
Proof.
  split.
  - intros Hnil t th Ht. destruct (tl_mark_stack th) as [st|] eqn:Hst; [|reflexivity].
    assert (Hin : st ∈ thread_local_mark_stacks s)
      by (apply elem_of_thread_local_mark_stacks; eauto).
    rewrite Hnil in Hin. apply elem_of_nil in Hin. destruct Hin.
  - intros Hall. destruct (thread_local_mark_stacks s) as [|st l] eqn:Hl; [reflexivity|].
    assert (Hin : st ∈ thread_local_mark_stacks s) by (rewrite Hl; apply elem_of_cons; auto).
    apply elem_of_thread_local_mark_stacks in Hin as (t & th & Ht & Hst).
    rewrite (Hall t th Ht) in Hst. discriminate.
Qed.

(** X17.  CheckEmptyMarkStack (lines 1377-1409) is a check.  When it returns
    the state is as it was, the caller runs the collector and has no
    thread-local mark stack, there is no revoked mark stack, and, in the
    thread-local mode, no thread has a thread-local mark stack, in the other
    modes, the GC mark stack is empty; in the thread-local mode the GC mark
    stack is not looked at.  Outside the thread-local mode it returns
    whenever these conditions hold.  A call by a thread of the list that does
    not return aborts. *)
Theorem CheckEmptyMarkStack_sound (self : nat) (s : State) :
  (forall u s', CheckEmptyMarkStack self s = Ok (u, s') ->
     s' = s /\
     thread_running_gc s = Some self /\
     (exists th, threads s !! self = Some th /\ tl_mark_stack th = None) /\
     revoked_mark_stacks s = [] /\
     if bool_decide (mark_stack_mode s = kMarkStackModeThreadLocal)
     then forall t th, threads s !! t = Some th -> tl_mark_stack th = None
     else elems (gc_mark_stack s) = []) /\
  (mark_stack_mode s <> kMarkStackModeThreadLocal ->
   thread_running_gc s = Some self ->
   (exists th, threads s !! self = Some th /\ tl_mark_stack th = None) ->
   revoked_mark_stacks s = [] -> elems (gc_mark_stack s) = [] ->
   CheckEmptyMarkStack self s = Ok (tt, s)) /\
  (is_Some (threads s !! self) ->
   (forall s', CheckEmptyMarkStack self s <> Ok (tt, s')) ->
   CheckEmptyMarkStack self s = Fatal).
Proof.
  assert (Hrun : forall u s', CheckEmptyMarkStack self s = Ok (u, s') ->
            s' = s /\
            thread_running_gc s = Some self /\
            (exists th, threads s !! self = Some th /\ tl_mark_stack th = None) /\
            revoked_mark_stacks s = [] /\
            if bool_decide (mark_stack_mode s = kMarkStackModeThreadLocal)
            then forall t th, threads s !! t = Some th -> tl_mark_stack th = None
            else elems (gc_mark_stack s) = []).
  { intros u s' H. unfold CheckEmptyMarkStack in H.
    apply bind_Ok in H as (gc & s0 & Hg & H). apply gets_Ok in Hg as [= -> ->].
    apply bind_Ok in H as ([] & s0 & Hc & H). apply CHECK_Ok in Hc as [_ [= ->]].
    apply bind_Ok in H as ([] & s0 & Hc & H). apply CHECK_Ok in Hc as [Hgc [= ->]].
    apply bool_decide_eq_true in Hgc.
    apply bind_Ok in H as (th & s0 & Hth & H).
    apply thread_at_Ok in Hth as (th' & Hth & [= <- ->]).
    apply bind_Ok in H as ([] & s0 & Hc & H). apply CHECK_Ok in Hc as [Htl [= ->]].
    apply bool_decide_eq_true in Htl.
    apply bind_Ok in H as (mode & s0 & Hm & H). apply gets_Ok in Hm as [= -> ->].
    destruct (bool_decide (mark_stack_mode s = kMarkStackModeThreadLocal)) eqn:Hmode.
    - apply bind_Ok in H as ([] & s1 & Hrev & H).
      rewrite RevokeThreadLocalMarkStacks_eq in Hrev. injection Hrev as <-.
      apply bind_Ok in H as (revoked & s2 & Hr & H). apply gets_Ok in Hr as [= -> ->].
      cbn [revoked_mark_stacks set_threads set_revoked_mark_stacks] in H.
      destruct (revoked_mark_stacks s ++ thread_local_mark_stacks s) eqn:Happ;
        [|discriminate].
      apply app_eq_nil in Happ as [Hr Htls].
      apply ret_Ok in H. injection H as _ ->.
      assert (Hnone : forall t th0, threads s !! t = Some th0 -> tl_mark_stack th0 = None)
        by (apply thread_local_mark_stacks_nil; exact Htls).
      split.
      + rewrite (fmap_id_threads (revoked_thread false)).
        * destruct s; cbn in *; subst; reflexivity.
        * intros t th0 Ht. unfold revoked_thread. destruct th0 as [st g w].
          pose proof (Hnone t _ Ht) as Hn. cbn in Hn. subst st. reflexivity.
      + split; [exact Hgc|]. split; [eauto|]. split; [exact Hr | exact Hnone].
    - apply bind_Ok in H as (st & s0 & Hg & H). apply gets_Ok in Hg as [= -> ->].
      apply bind_Ok in H as ([] & s0 & Hc & H). apply CHECK_Ok in Hc as [Hempty [= ->]].
      apply bind_Ok in H as (revoked & s0 & Hr & H). apply gets_Ok in Hr as [= -> ->].
      apply CHECK_Ok in H as [Hrev [= _ ->]]. apply bool_decide_eq_true in Hrev.
      split; [reflexivity|]. split; [exact Hgc|]. split; [eauto|]. split; [exact Hrev|].
      unfold IsEmpty in Hempty. destruct (elems (gc_mark_stack s)); [reflexivity|discriminate]. }
  split; [exact Hrun|].
  split.
  - intros Hmode Hgc (th & Hth & Htl) Hrev Hempty.
    unfold CheckEmptyMarkStack, bind, gets, thread_at, CHECK, ret.
    cbv beta iota. rewrite Hgc.
    rewrite !bool_decide_eq_true_2 by (first [reflexivity | discriminate]).
    cbv beta iota. rewrite Hth. cbv beta iota. rewrite Htl.
    rewrite bool_decide_eq_true_2 by reflexivity. cbv beta iota.
    rewrite bool_decide_eq_false_2 by exact Hmode.
    unfold IsEmpty. rewrite Hempty, Hrev.
    rewrite bool_decide_eq_true_2 by reflexivity. reflexivity.
  - intros [th Hth] Hno.
    destruct (CheckEmptyMarkStack self s) as [[[] s']| | |] eqn:Hrun'.
    + destruct (Hno s' eq_refl).
    + reflexivity.
    + exfalso. revert Hrun'.
      unfold CheckEmptyMarkStack, bind, gets, thread_at, CHECK, ret, fatal.
      repeat first [progress cbv beta iota
                   | rewrite Hth
                   | rewrite RevokeThreadLocalMarkStacks_eq
                   | match goal with
                     | |- context [if ?b then _ else _] => destruct b
                     | |- context [match ?l with [] => _ | _ :: _ => _ end] => destruct l
                     end]; discriminate.
    + exfalso. revert Hrun'.
      unfold CheckEmptyMarkStack, bind, gets, thread_at, CHECK, ret, fatal.
      repeat first [progress cbv beta iota
                   | rewrite Hth
                   | rewrite RevokeThreadLocalMarkStacks_eq
                   | match goal with
                     | |- context [if ?b then _ else _] => destruct b
                     | |- context [match ?l with [] => _ | _ :: _ => _ end] => destruct l
                     end]; discriminate.
Qed.

(** *** Beyond the claims: what marking does to the mark stacks *)

Section Preserves.

Context (R : State -> State -> Prop).
Hypothesis R_refl : forall s, R s s.
Hypothesis R_trans : forall s1 s2 s3, R s1 s2 -> R s2 s3 -> R s1 s3.

Lemma preserves_ret {B : Type} (b : B) : preserves R (ret b).
Proof. intros s b' s' H. apply ret_Ok in H. injection H as _ ->. apply R_refl. Qed.

Lemma preserves_bind {B C : Type} (c : M B) (k : B -> M C) :
  preserves R c -> (forall b, preserves R (k b)) -> preserves R (bind c k).
Proof.
  intros Hc Hk s r s' H. apply bind_Ok in H as (b & s1 & H1 & H2).
  eapply R_trans; [eapply Hc | eapply Hk]; eauto.
Qed.

Lemma preserves_keeps {A B : Type} (proj : State -> A) (c : M B) :
  (forall s s', proj s' = proj s -> R s s') -> keeps proj c -> preserves R c.
Proof. intros HR Hk s b s' H. apply HR. eapply Hk; eauto. Qed.

Lemma preserves_stuck {B : Type} (c : M B) :
  (forall s b s', c s <> Ok (b, s')) -> preserves R c.
Proof. intros Hc s b s' H. destruct (Hc _ _ _ H). Qed.

Lemma preserves_when (b : bool) (c : M unit) : preserves R c -> preserves R (when b c).
Proof. intros Hc. destruct b; [exact Hc | apply preserves_ret]. Qed.

Lemma preserves_for_each {B : Type} (l : list B) (body : B -> M unit) :
  (forall x, preserves R (body x)) -> preserves R (for_each l body).
Proof.
  intros Hb. induction l as [|x l IH]; [apply preserves_ret|].
  apply preserves_bind; [apply Hb | intros _; exact IH].
Qed.

Lemma preserves_run_thread (fuel self : nat) (stack : list Frame) :
  (forall f, preserves R (frame_step self f)) -> preserves R (run_thread fuel self stack).
Proof.
  intros Hf. revert stack. induction fuel as [|fuel IH]; intros stack s v s' H.
  - discriminate.
  - rewrite run_thread_S in H. destruct stack as [|f rest]; [discriminate|].
    rewrite thread_step_cons in H.
    destruct (frame_step self f s) as [[[f'|c d|v0] s1]| | |] eqn:Hs; try discriminate.
    + eapply R_trans; [eapply Hf; eauto | eapply IH; eauto].
    + eapply R_trans; [eapply Hf; eauto | eapply IH; eauto].
    + destruct rest as [|c rest'].
      * simplify_eq. eapply Hf; eauto.
      * eapply R_trans; [eapply Hf; eauto | eapply IH; eauto].
Qed.

Lemma preserves_update_loop (fuel : nat) (sl : Slot) (expected_ref new_ref : Z)
    (pc : UpdatePc) :
  (forall pc', preserves R (update_step sl expected_ref new_ref pc')) ->
  preserves R (update_loop fuel sl expected_ref new_ref pc).
Proof.
  intros Hstep. revert pc. induction fuel as [|fuel IH]; intros pc.
  - destruct pc; cbn [update_loop];
      first [apply preserves_ret | apply preserves_stuck; discriminate].
  - destruct pc; cbn [update_loop]; try apply preserves_ret;
      (apply preserves_bind; [apply Hstep | intros pc'; apply IH]).
Qed.

End Preserves.

Lemma stacks_grow_refl (self : nat) (s : State) : stacks_grow self s s.
Proof. split; [reflexivity|]. split; [reflexivity|]. intros _. auto. Qed.

Lemma stacks_grow_trans (self : nat) (s1 s2 s3 : State) :
  stacks_grow self s1 s2 -> stacks_grow self s2 s3 -> stacks_grow self s1 s3.
Proof.
  intros (Hg1 & Hm1 & H1) (Hg2 & Hm2 & H2).
  split; [congruence|]. split; [congruence|].
  intros Hgc. destruct (H1 Hgc) as (Ht1 & Hr1 & Hp1).
  destruct H2 as (Ht2 & Hr2 & Hp2); [congruence|].
  split; [congruence|]. split; [congruence|]. etransitivity; eassumption.
Qed.

Lemma stacks_grow_same (self : nat) (s s' : State) :
  mark_stack_state s' = mark_stack_state s -> stacks_grow self s s'.
Proof.
  unfold mark_stack_state. intros [= Hg Hm Ht Hr Hs].
  split; [exact Hg|]. split; [exact Hm|]. intros _. rewrite Ht, Hr, Hs. auto.
Qed.

Lemma PushOntoMarkStack_grows (self : nat) (x : Z) :
  preserves (stacks_grow self) (PushOntoMarkStack self x).
Proof.
  intros s u s' H.
  assert (Hpush : forall s0 s1 u0, push_gc_mark_stack x s0 = Ok (u0, s1) ->
            stacks_grow self s0 s1).
  { intros s0 s1 u0 H0. apply push_gc_mark_stack_Ok in H0 as [cap ->].
    split; [reflexivity|]. split; [reflexivity|]. intros _.
    split; [reflexivity|]. split; [reflexivity|]. cbn. apply prefix_app_r. reflexivity. }
  unfold PushOntoMarkStack in H.
  apply bind_Ok in H as (d & s0 & Hg & H). apply gets_Ok in Hg as [= -> ->].
  apply bind_Ok in H as ([] & s0 & Hc & H). apply CHECK_Ok in Hc as [_ [= ->]].
  apply bind_Ok in H as (gc & s0 & Hg & H). apply gets_Ok in Hg as [= -> ->].
  apply bind_Ok in H as ([] & s0 & Hc & H). apply CHECK_Ok in Hc as [_ [= ->]].
  apply bind_Ok in H as (mode & s0 & Hg & H). apply gets_Ok in Hg as [= -> ->].
  destruct (mark_stack_mode s) eqn:Hmode.
  - apply bind_Ok in H as ([] & s0 & Hc & H). apply CHECK_Ok in Hc as [Hc _]. discriminate.
  - destruct (bool_decide (thread_running_gc s = Some self)) eqn:Hgc.
    + apply bind_Ok in H as (th & s0 & Hth & H).
      apply thread_at_Ok in Hth as (th' & Hth & [= <- ->]).
      apply bind_Ok in H as ([] & s0 & Hc & H). apply CHECK_Ok in Hc as [_ [= ->]].
      eapply Hpush; eauto.
    + apply bool_decide_eq_false in Hgc.
      assert (K : keeps (fun s => (thread_running_gc s, mark_stack_mode s))
                    (th <- thread_at self ;;
                     let tl := tl_mark_stack th in
                     if match tl with None => true | Some st => IsFull st end then
                       pooled <- gets pooled_mark_stacks ;;
                       new_tl <- match pooled with
                                 | st :: rest => modify (set_pooled_mark_stacks rest) ;; ret st
                                 | [] => ret (Create 4096)
                                 end ;;
                       DCHECK (ret (IsEmpty new_tl)) ;;
                       store_thread self (SetThreadLocalMarkStack (Some (PushBack x new_tl)) th) ;;
                       match tl with
                       | Some old =>
                           modify (fun s => set_revoked_mark_stacks
                                              (revoked_mark_stacks s ++ [old]) s)
                       | None => ret tt
                       end
                     else
                       match tl with
                       | Some st =>
                           store_thread self
                             (SetThreadLocalMarkStack (Some (PushBack x st)) th)
                       | None => ret tt
                       end)) by keeps_tac.
      apply K in H. injection H as Hg Hm.
      split; [exact Hg|]. split; [exact Hm|]. intros Hself. contradiction.
  - eapply Hpush; eauto.
  - apply bind_Ok in H as ([] & s0 & Hc & H). apply CHECK_Ok in Hc as [_ [= ->]].
    apply bind_Ok in H as ([] & s0 & Hc & H). apply CHECK_Ok in Hc as [_ [= ->]].
    eapply Hpush; eauto.
Qed.

Create HintDb preserves_db.

#[local] Hint Resolve PushOntoMarkStack_grows stacks_grow_refl stacks_grow_trans
  : preserves_db.

(** Proves [preserves (stacks_grow self) c] along the structure of [c]: the
    pushes grow the GC mark stack, everything else leaves the mark stacks
    alone. *)
Ltac grows_step :=
  first
    [ assumption
    | solve [eauto 3 with preserves_db]
    | apply preserves_ret; apply stacks_grow_refl
    | apply preserves_stuck; discriminate
    | apply preserves_bind; [apply stacks_grow_trans| |intros ?]
    | apply preserves_when; [apply stacks_grow_refl|]
    | apply preserves_for_each;
        [apply stacks_grow_refl | apply stacks_grow_trans | intros ?]
    | apply (preserves_keeps _ mark_stack_state); [apply stacks_grow_same | solve [keeps_tac]]
    | match goal with
      | |- preserves _ (DCHECK _) => unfold DCHECK
      | |- preserves _ (if ?b then _ else _) => destruct b
      | |- preserves _ (match ?x with _ => _ end) => destruct x
      | |- preserves _ (let '(_, _) := ?x in _) => destruct x
      end
    | progress autounfold with collector_ops
    | progress cbv beta ].
Ltac grows_tac := repeat grows_step.

Lemma frame_step_grows (self : nat) (f : Frame) :
  preserves (stacks_grow self) (frame_step self f).
Proof.
  destruct f as [g ref|pc l|d n|d n en|d n en c]; [| destruct pc | | |]; grows_tac.
Qed.
Lemma Mark_grows (fuel self : nat) (g : bool) (ref : Z) :
  preserves (stacks_grow self) (Mark fuel self g ref).
Proof.
  apply preserves_run_thread; [apply stacks_grow_trans | apply frame_step_grows].
Qed.

Lemma update_loop_grows (self fuel : nat) (sl : Slot) (expected_ref new_ref : Z)
    (pc : UpdatePc) :
  preserves (stacks_grow self) (update_loop fuel sl expected_ref new_ref pc).
Proof.
  apply preserves_update_loop; [apply stacks_grow_refl | apply stacks_grow_trans |].
  intros pc'. apply (preserves_keeps _ mark_stack_state); [apply stacks_grow_same|].
  destruct pc', sl; keeps_tac.
Qed.

#[local] Hint Resolve Mark_grows update_loop_grows : preserves_db.

Lemma Process_grows (fuel self : nat) (obj : Z) (offset : nat) :
  preserves (stacks_grow self) (Process fuel self obj offset).
Proof. unfold Process. grows_tac. Qed.

Lemma MarkRoot_grows (fuel self : nat) (g : bool) (root : Slot) :
  preserves (stacks_grow self) (MarkRoot fuel self g root).
Proof. unfold MarkRoot. destruct root; grows_tac. Qed.

#[local] Hint Resolve Process_grows MarkRoot_grows : preserves_db.

Lemma Scan_grows (fuel self : nat) (to_ref : Z) :
  preserves (stacks_grow self) (Scan fuel self to_ref).
Proof. unfold Scan. grows_tac. Qed.

#[local] Hint Resolve Scan_grows : preserves_db.

Lemma ProcessMarkStackRef_grows (fuel self : nat) (to_ref : Z) :
  preserves (stacks_grow self) (ProcessMarkStackRef fuel self to_ref).
Proof. unfold ProcessMarkStackRef. grows_tac. Qed.

#[local] Hint Resolve ProcessMarkStackRef_grows : preserves_db.

Lemma process_revoked_stacks_grows (fuel self : nat) (stacks : list ObjectStack) (count : Z) :
  preserves (stacks_grow self) (process_revoked_stacks fuel self stacks count).
Proof.
  revert count. induction stacks as [|st stacks IH]; intros count;
    cbn [process_revoked_stacks]; grows_tac.
Qed.

Lemma process_revoked_stacks_processed (fuel self : nat) (stacks : list ObjectStack)
    (count : Z) (s s' : State) (count' : Z) :
  process_revoked_stacks fuel self stacks count s = Ok (count', s') ->
  processed s' = rev (stacks ≫= elems) ++ processed s.
Proof.
  revert count s. induction stacks as [|st stacks IH]; intros count s H;
    cbn [process_revoked_stacks] in H.
  - apply ret_Ok in H. injection H as _ ->. reflexivity.
  - apply bind_Ok in H as ([] & s1 & H1 & H).
    apply for_each_ProcessMarkStackRef in H1.
    apply bind_Ok in H as (pooled & s2 & Hp & H). apply gets_Ok in Hp as [= -> ->].
    apply bind_Ok in H as ([] & s2 & Hm & H).
    assert (K : keeps processed
                  (if (kMarkStackPoolSize E <=? List.length (pooled_mark_stacks s1))%nat
                   then ret tt
                   else modify (set_pooled_mark_stacks
                                  (ResetStack st :: pooled_mark_stacks s1)))) by keeps_tac.
    apply K in Hm. rewrite (IH _ _ H), Hm, H1.
    rewrite bind_cons, rev_app_distr, <- app_assoc. reflexivity.
Qed.

Lemma PopBack_Some (st st' : ObjectStack) (x : Z) :
  PopBack st = Some (x, st') -> elems st = elems st' ++ [x].
Proof.
  unfold PopBack. intros H. destruct (rev (elems st)) as [|y r] eqn:Hr; [discriminate|].
  injection H as -> <-. cbn.
  rewrite <- (rev_involutive (elems st)), Hr. reflexivity.
Qed.

Lemma drained (self : nat) (s0 : State) :
  IsEmpty (gc_mark_stack s0) = true ->
  stacks_grow self (set_gc_mark_stack (ResetStack (gc_mark_stack s0)) s0) s0 /\
  elems (gc_mark_stack s0) = [] /\
  exists refs, processed s0 = refs ++ processed s0 /\
               forall y, y ∈ elems (gc_mark_stack s0) -> y ∈ refs.
Proof.
  intros Hempty. unfold IsEmpty in Hempty.
  destruct (elems (gc_mark_stack s0)) eqn:He; [|discriminate].
  split.
  { split; [reflexivity|]. split; [reflexivity|]. intros _. cbn. rewrite He. auto. }
  split; [reflexivity|]. exists []. split; [reflexivity|]. intros y Hy. exact Hy.
Qed.

(** What a drain of the GC mark stack by the collector thread comes to. *)
Lemma drain_gc_mark_stack_all (fuel self : nat) (count : Z) (s s' : State) (count' : Z) :
  drain_gc_mark_stack fuel self count s = Ok (count', s') ->
  thread_running_gc s = Some self ->
  stacks_grow self (set_gc_mark_stack (ResetStack (gc_mark_stack s)) s) s' /\
  elems (gc_mark_stack s') = [] /\
  exists refs, processed s' = refs ++ processed s /\
               forall y, y ∈ elems (gc_mark_stack s) -> y ∈ refs.
Proof.
  revert count s. induction fuel as [|fuel IH]; intros count s H Hgc.
  - cbn [drain_gc_mark_stack] in H.
    apply bind_Ok in H as (st & s0 & Hg & H). apply gets_Ok in Hg as [= -> ->].
    destruct (PopBack (gc_mark_stack s)) as [[x st']|] eqn:Hpop; [discriminate|].
    apply ret_Ok in H. injection H as _ ->.
    apply drained. apply PopBack_None. exact Hpop.
  - cbn [drain_gc_mark_stack] in H.
    apply bind_Ok in H as (st & s0 & Hg & H). apply gets_Ok in Hg as [= -> ->].
    destruct (PopBack (gc_mark_stack s)) as [[x st']|] eqn:Hpop.
    + apply PopBack_Some in Hpop.
      apply bind_Ok in H as ([] & s1 & Hm & H). apply modify_Ok in Hm as [= ->].
      apply bind_Ok in H as ([] & s2 & Href & H).
      pose proof (ProcessMarkStackRef_processed _ _ _ _ _ _ Href) as Hproc.
      pose proof (ProcessMarkStackRef_grows _ _ _ _ _ _ Href) as (Hg2 & Hm2 & Hgrow).
      destruct (Hgrow Hgc) as (Ht2 & Hr2 & Hpre). cbn in Hg2, Hm2, Ht2, Hr2, Hpre, Hproc.
      destruct (IH _ _ H) as ((Hg3 & Hm3 & Hgrow3) & Hempty & refs & Hrefs & Hall);
        [congruence|].
      destruct Hgrow3 as (Ht3 & Hr3 & _); [cbn; congruence|]. cbn in Hg3, Hm3, Ht3, Hr3.
      split.
      { split; [cbn; congruence|]. split; [cbn; congruence|]. intros _. cbn.
        split; [congruence|]. split; [congruence|]. apply prefix_nil. }
      split; [exact Hempty|].
      exists (refs ++ [x]). split; [rewrite Hrefs, Hproc, <- app_assoc; reflexivity|].
      intros y Hy. rewrite Hpop in Hy. apply elem_of_app in Hy as [Hy|Hy].
      * apply elem_of_app. left. apply Hall.
        destruct Hpre as [k ->]. apply elem_of_app. left. exact Hy.
      * apply elem_of_app. right. exact Hy.
    + apply ret_Ok in H. injection H as _ ->.
      apply drained. apply PopBack_None. exact Hpop.
Qed.

Lemma for_each_ProcessMarkStackRef_grows (fuel self : nat) (l : list Z) :
  preserves (stacks_grow self) (for_each l (ProcessMarkStackRef fuel self)).
Proof. grows_tac. Qed.

Lemma drain_shared_mark_stack_all (fuel self : nat) (count : Z) (s s' : State) (count' : Z) :
  drain_shared_mark_stack fuel self count s = Ok (count', s') ->
  thread_running_gc s = Some self ->
  stacks_grow self (set_gc_mark_stack (ResetStack (gc_mark_stack s)) s) s' /\
  elems (gc_mark_stack s') = [] /\
  exists refs, processed s' = refs ++ processed s /\
               forall y, y ∈ elems (gc_mark_stack s) -> y ∈ refs.
Proof.
  revert count s. induction fuel as [|fuel IH]; intros count s H Hgc.
  - cbn [drain_shared_mark_stack] in H.
    apply bind_Ok in H as (st & s0 & Hg & H). apply gets_Ok in Hg as [= -> ->].
    destruct (IsEmpty (gc_mark_stack s)) eqn:Hempty; [|discriminate].
    apply ret_Ok in H. injection H as _ ->. apply drained. exact Hempty.
  - cbn [drain_shared_mark_stack] in H.
    apply bind_Ok in H as (st & s0 & Hg & H). apply gets_Ok in Hg as [= -> ->].
    destruct (IsEmpty (gc_mark_stack s)) eqn:Hempty.
    + apply ret_Ok in H. injection H as _ ->. apply drained. exact Hempty.
    + apply bind_Ok in H as ([] & s1 & Hm & H). apply modify_Ok in Hm as [= ->].
      apply bind_Ok in H as ([] & s2 & Hrefs & H).
      pose proof (for_each_ProcessMarkStackRef _ _ _ _ _ _ Hrefs) as Hproc.
      pose proof (for_each_ProcessMarkStackRef_grows _ _ _ _ _ _ Hrefs) as (Hg2 & Hm2 & Hgrow).
      destruct (Hgrow Hgc) as (Ht2 & Hr2 & _). cbn in Hg2, Hm2, Ht2, Hr2, Hproc.
      destruct (IH _ _ H) as ((Hg3 & Hm3 & Hgrow3) & Hempty3 & refs & Hrefs3 & _);
        [congruence|].
      destruct Hgrow3 as (Ht3 & Hr3 & _); [cbn; congruence|]. cbn in Hg3, Hm3, Ht3, Hr3.
      split.
      { split; [cbn; congruence|]. split; [cbn; congruence|]. intros _. cbn.
        split; [congruence|]. split; [congruence|]. apply prefix_nil. }
      split; [exact Hempty3|].
      exists (refs ++ rev (elems (gc_mark_stack s))).
      split; [rewrite Hrefs3, Hproc, <- app_assoc; reflexivity|].
      intros y Hy. apply elem_of_app. right.
      apply list_elem_of_In, in_rev. rewrite rev_involutive. apply list_elem_of_In. exact Hy.
Qed.

(** ProcessThreadLocalMarkStacks, run by the collector thread. *)
Lemma ProcessThreadLocalMarkStacks_all (fuel self : nat) (b : bool) (s s' : State)
    (count : Z) :
  ProcessThreadLocalMarkStacks fuel self b s = Ok (count, s') ->
  thread_running_gc s = Some self ->
  processed s' = rev ((revoked_mark_stacks s ++ thread_local_mark_stacks s) ≫= elems)
                   ++ processed s /\
  thread_running_gc s' = thread_running_gc s /\ mark_stack_mode s' = mark_stack_mode s /\
  threads s' = revoked_thread b <$> threads s /\
  revoked_mark_stacks s' = [] /\
  elems (gc_mark_stack s) `prefix_of` elems (gc_mark_stack s').
Proof.
  unfold ProcessThreadLocalMarkStacks. intros H Hgc.
  apply bind_Ok in H as ([] & s1 & Hrev & H).
  rewrite RevokeThreadLocalMarkStacks_eq in Hrev. injection Hrev as <-.
  apply bind_Ok in H as (stacks & s2 & Hg & H). apply gets_Ok in Hg as [= -> ->].
  apply bind_Ok in H as ([] & s2 & Hm & H). apply modify_Ok in Hm as [= ->].
  cbn [revoked_mark_stacks set_threads set_revoked_mark_stacks] in H.
  pose proof (process_revoked_stacks_processed _ _ _ _ _ _ _ H) as Hproc.
  pose proof (process_revoked_stacks_grows _ _ _ _ _ _ _ H) as (Hg2 & Hm2 & Hgrow).
  destruct (Hgrow Hgc) as (Ht2 & Hr2 & Hpre).
  split; [exact Hproc|]. split; [exact Hg2|]. split; [exact Hm2|].
  split; [exact Ht2|]. split; [exact Hr2 | exact Hpre].
Qed.


(** *** Beyond the claims: the mark stack modes *)

(** X19.  SwitchToGcExclusiveMarkStackMode (lines 1362-1375) returns exactly
    when the caller runs the collector and has no thread-local mark stack and
    the mode is the shared one; it changes the mode and nothing else.  In the
    new mode a push by a thread that does not run the collector aborts, and a
    push by the collector thread appends the reference to the GC mark stack. *)
Theorem SwitchToGcExclusiveMarkStackMode_exclusive (self : nat) (s : State) :
  (forall u s', SwitchToGcExclusiveMarkStackMode self s = Ok (u, s') <->
     s' = set_mark_stack_mode kMarkStackModeGcExclusive s /\
     thread_running_gc s = Some self /\
     (exists th, threads s !! self = Some th /\ tl_mark_stack th = None) /\
     mark_stack_mode s = kMarkStackModeShared) /\
  (forall t x, thread_running_gc s <> Some t ->
     PushOntoMarkStack t x (set_mark_stack_mode kMarkStackModeGcExclusive s) = Fatal) /\
  (forall x s', thread_running_gc s = Some self ->
     PushOntoMarkStack self x (set_mark_stack_mode kMarkStackModeGcExclusive s)
       = Ok (tt, s') ->
     elems (gc_mark_stack s') = elems (gc_mark_stack s) ++ [x] /\
     threads s' = threads s /\ revoked_mark_stacks s' = revoked_mark_stacks s).
Proof.
  split; [|split].
  - intros [] s'. unfold SwitchToGcExclusiveMarkStackMode. split.
    + intros H.
      apply bind_Ok in H as (gc & s0 & Hg & H). apply gets_Ok in Hg as [= -> ->].
      apply bind_Ok in H as ([] & s0 & Hc & H). apply CHECK_Ok in Hc as [_ [= ->]].
      apply bind_Ok in H as ([] & s0 & Hc & H). apply CHECK_Ok in Hc as [Hgc [= ->]].
      apply bool_decide_eq_true in Hgc.
      apply bind_Ok in H as (th & s0 & Hth & H).
      apply thread_at_Ok in Hth as (th' & Hth & [= <- ->]).
      apply bind_Ok in H as ([] & s0 & Hc & H). apply CHECK_Ok in Hc as [Htl [= ->]].
      apply bool_decide_eq_true in Htl.
      apply bind_Ok in H as (mode & s0 & Hm & H). apply gets_Ok in Hm as [= -> ->].
      apply bind_Ok in H as ([] & s0 & Hc & H). apply CHECK_Ok in Hc as [Hmode [= ->]].
      apply bool_decide_eq_true in Hmode.
      apply modify_Ok in H as [= ->]. eauto 6.
    + intros (-> & Hgc & (th & Hth & Htl) & Hmode).
      unfold bind, gets, thread_at, CHECK, ret, modify. cbv beta iota. rewrite Hgc.
      rewrite !bool_decide_eq_true_2 by (first [reflexivity | discriminate]).
      cbv beta iota. rewrite Hth. cbv beta iota. rewrite Htl.
      rewrite bool_decide_eq_true_2 by reflexivity. cbv beta iota. rewrite Hmode.
      rewrite bool_decide_eq_true_2 by reflexivity. reflexivity.
  - intros t x Hne. unfold PushOntoMarkStack, bind, gets, CHECK, fatal, ret. cbn.
    destruct (is_mark_stack_push_disallowed s =? 0); [|reflexivity].
    cbn [is_mark_stack_push_disallowed thread_running_gc mark_stack_mode
         set_mark_stack_mode].
    destruct (bool_decide (thread_running_gc s <> None)); [|reflexivity].
    cbn [is_mark_stack_push_disallowed thread_running_gc mark_stack_mode
         set_mark_stack_mode].
    rewrite bool_decide_eq_true_2 by reflexivity.
    rewrite bool_decide_eq_false_2 by exact Hne. reflexivity.
  - intros x s' Hgc H.
    pose proof (PushOntoMarkStack_where _ _ _ _ _ H) as Hwhere.
    cbn [mark_stack_mode thread_running_gc set_mark_stack_mode] in Hwhere.
    rewrite bool_decide_eq_false_2 in Hwhere by discriminate.
    destruct Hwhere as (He & Ht & Hr & _). auto.
Qed.

(** X20.  RevokeThreadLocalMarkStack (lines 1170-1180) aborts unless the
    caller is the thread itself.  When it returns and the thread had no
    thread-local mark stack, the state is as it was; when the thread had one,
    the collector is marking, the stack has been appended to the revoked mark
    stacks and taken from the thread, and nothing else has changed.  A
    reference lies on some mark stack afterwards exactly when it did before. *)
Theorem RevokeThreadLocalMarkStack_moves (self thread : nat) (s : State) :
  (self <> thread -> RevokeThreadLocalMarkStack self thread s = Fatal) /\
  (forall u s', RevokeThreadLocalMarkStack self thread s = Ok (u, s') ->
     self = thread /\
     exists th, threads s !! thread = Some th /\
       match tl_mark_stack th with
       | None => s' = s
       | Some st =>
           is_marking s = true /\
           s' = set_threads (<[thread := SetThreadLocalMarkStack None th]> (threads s))
                  (set_revoked_mark_stacks (revoked_mark_stacks s ++ [st]) s)
       end /\
       forall y, on_some_mark_stack y s' <-> on_some_mark_stack y s).
Proof.
  split.
  - intros Hne. unfold RevokeThreadLocalMarkStack, bind, CHECK.
    rewrite bool_decide_eq_false_2 by exact Hne. reflexivity.
  - intros [] s' H. unfold RevokeThreadLocalMarkStack in H.
    apply bind_Ok in H as ([] & s0 & Hc & H). apply CHECK_Ok in Hc as [Hself [= ->]].
    apply bool_decide_eq_true in Hself. split; [exact Hself|].
    apply bind_Ok in H as (th & s0 & Hth & H).
    apply thread_at_Ok in Hth as (th' & Hth & [= <- ->]).
    exists th. split; [exact Hth|].
    destruct (tl_mark_stack th) as [st|] eqn:Htl.
    + apply bind_Ok in H as (marking & s0 & Hg & H). apply gets_Ok in Hg as [= -> ->].
      apply bind_Ok in H as ([] & s0 & Hc & H). apply CHECK_Ok in Hc as [Hm [= ->]].
      apply bind_Ok in H as ([] & s0 & Hmod & H). apply modify_Ok in Hmod as [= ->].
      apply store_thread_Ok in H as [= ->].
      split; [split; [exact Hm | reflexivity]|].
      intros y. unfold on_some_mark_stack. cbn. split.
      * intros [Hgc|[(st' & Hst & Hy)|(t & th0 & st' & Ht & Hst & Hy)]].
        -- left. exact Hgc.
        -- apply elem_of_app in Hst as [Hst|Hst].
           ++ right. left. eauto.
           ++ apply list_elem_of_singleton in Hst as ->. right. right. eauto 6.
        -- destruct (decide (t = thread)) as [->|Hne].
           ++ rewrite lookup_insert_eq in Ht. injection Ht as <-. discriminate Hst.
           ++ rewrite lookup_insert_ne in Ht by congruence. right. right. eauto 6.
      * intros [Hgc|[(st' & Hst & Hy)|(t & th0 & st' & Ht & Hst & Hy)]].
        -- left. exact Hgc.
        -- right. left. exists st'. split; [|exact Hy]. apply elem_of_app. auto.
        -- destruct (decide (t = thread)) as [->|Hne].
           ++ right. left. exists st'. split; [|exact Hy]. apply elem_of_app. right.
              apply list_elem_of_singleton. congruence.
           ++ right. right. exists t, th0, st'.
              rewrite lookup_insert_ne by congruence. auto.
    + apply ret_Ok in H. injection H as ->. split; [reflexivity|]. tauto.
Qed.

(** X21.  SwitchToSharedMarkStackMode (lines 1342-1360).  When it returns,
    the caller ran the collector and had no thread-local mark stack, the mode
    was the thread-local one and weak reference access was enabled; the mode
    is the shared one afterwards, no thread has a thread-local mark stack,
    weak reference access is disabled for every thread, there is no revoked
    mark stack, and every reference that was on a revoked or a thread-local
    mark stack has been passed to ProcessMarkStackRef. *)
Theorem SwitchToSharedMarkStackMode_drains (fuel self : nat) (s s' : State) (u : unit) :
  SwitchToSharedMarkStackMode fuel self s = Ok (u, s') ->
  thread_running_gc s = Some self /\
  (exists th, threads s !! self = Some th /\ tl_mark_stack th = None) /\
  mark_stack_mode s = kMarkStackModeThreadLocal /\
  weak_ref_access_enabled s = true /\
  mark_stack_mode s' = kMarkStackModeShared /\
  thread_running_gc s' = Some self /\
  threads s' = revoked_thread true <$> threads s /\
  (forall t th, threads s' !! t = Some th ->
     tl_mark_stack th = None /\ tl_weak_ref_access_enabled th = false) /\
  revoked_mark_stacks s' = [] /\
  processed s' = rev ((revoked_mark_stacks s ++ thread_local_mark_stacks s) ≫= elems)
                   ++ processed s /\
  elems (gc_mark_stack s) `prefix_of` elems (gc_mark_stack s').
Proof.
  unfold SwitchToSharedMarkStackMode. intros H.
  apply bind_Ok in H as (gc & s0 & Hg & H). apply gets_Ok in Hg as [= -> ->].
  apply bind_Ok in H as ([] & s0 & Hc & H). apply CHECK_Ok in Hc as [_ [= ->]].
  apply bind_Ok in H as ([] & s0 & Hc & H). apply CHECK_Ok in Hc as [Hgc [= ->]].
  apply bool_decide_eq_true in Hgc.
  apply bind_Ok in H as (th & s0 & Hth & H).
  apply thread_at_Ok in Hth as (th' & Hth & [= <- ->]).
  apply bind_Ok in H as ([] & s0 & Hc & H). apply CHECK_Ok in Hc as [Htl [= ->]].
  apply bool_decide_eq_true in Htl.
  apply bind_Ok in H as (mode & s0 & Hm & H). apply gets_Ok in Hm as [= -> ->].
  apply bind_Ok in H as ([] & s0 & Hc & H). apply CHECK_Ok in Hc as [Hmode [= ->]].
  apply bool_decide_eq_true in Hmode.
  apply bind_Ok in H as ([] & s0 & Hmod & H). apply modify_Ok in Hmod as [= ->].
  apply bind_Ok in H as (enabled & s0 & Hg & H). apply gets_Ok in Hg as [= -> ->].
  apply bind_Ok in H as ([] & s0 & Hc & H). apply CHECK_Ok in Hc as [Hweak [= ->]].
  apply bind_Ok in H as ([] & s0 & Hmod & H). apply modify_Ok in Hmod as [= ->].
  apply bind_Ok in H as (count & s1 & Hproc & H).
  apply ret_Ok in H. injection H as H. subst s'.
  destruct (ProcessThreadLocalMarkStacks_all _ _ _ _ _ _ Hproc Hgc)
    as (Hp & Hg' & Hm' & Ht' & Hr' & Hpre).
  cbn in Hp, Hg', Hm', Ht', Hpre.
  change (thread_local_mark_stacks
            (set_weak_ref_access_enabled false
               (set_mark_stack_mode kMarkStackModeShared s)))
    with (thread_local_mark_stacks s) in Hp.
  split; [exact Hgc|]. split; [eauto|]. split; [exact Hmode|]. split; [exact Hweak|].
  split; [exact Hm'|]. split; [rewrite Hg'; exact Hgc|]. split; [exact Ht'|].
  split.
  { intros t th0 Ht. rewrite Ht', lookup_fmap in Ht.
    destruct (threads s !! t) as [th1|]; [|discriminate]. injection Ht as <-.
    split; reflexivity. }
  split; [exact Hr'|]. split; [exact Hp | exact Hpre].
Qed.

End CollectorFacts.

(** *** Instances *)

Lemma state_with_classes_ok :
  dummy_classes_ok (E := example_env) state_with_classes 3100 java_lang_Object_data.
Proof.
  unfold dummy_classes_ok.
  repeat split; try (vm_compute; congruence).
  - exists (class_object int_array_class_data), int_array_class_data.
    repeat split; vm_compute; reflexivity.
  - exists (class_object java_lang_Object_data). repeat split; vm_compute; reflexivity.
Defined.



(** C5, an instance: with one gray object on the GC mark stack the first drain
    processes it and reports a stack that was not empty, the next two report
    empty, and ProcessMarkStack returns after the third. *)
Lemma ProcessMarkStack_two_empty_drains_witness :
  exists s' reports,
    ProcessMarkStack (E := example_env) 3 3 0 state_with_gray_object = Ok (tt, s') /\
    drains (E := example_env) 3 0 state_with_gray_object (reports ++ [true; true]) s' /\
    reports = [false] /\ processed s' = [3100].
Proof.
  destruct (ProcessMarkStack (E := example_env) 3 3 0 state_with_gray_object)
    as [[[] s']| | |] eqn:Hrun; try (vm_compute in Hrun; discriminate).
  destruct (proj1 (proj1 (ProcessMarkStack_two_empty_drains (E := example_env) 3 3 0 _ s')) Hrun)
    as (reports & Hd & Hseen & Hlen).
  exists s', reports. split; [reflexivity|]. split; [exact Hd|].
  split.
  - destruct reports as [|b [|b' reports]]; cbn in Hlen; try lia.
    + inversion Hd as [|? s1 ? ? ? H1 _]; subst. vm_compute in H1. discriminate.
    + inversion Hd as [|? s1 ? ? ? H1 _]; subst.
      vm_compute in H1. injection H1 as <- _. reflexivity.
  - vm_compute in Hrun. injection Hrun as <-. reflexivity.
Defined.

(** C10, an instance: the collector has read 1000 from the field and is about
    to install 3200; a mutator stores 3300 before the compare-and-swap, and
    3300 stays. *)
Lemma forwarding_update_keeps_mutator_store_witness :
  slot_holds (FieldSlot 3100 0) state_with_field 1000 /\
  exists pc' s',
    run_update (FieldSlot 3100 0) 1000 3200 ([CollectorStep] ++ MutatorStore 3300 :: [CollectorStep])
      UpdateLoad state_with_field = Ok (pc', s') /\
    slot_holds (FieldSlot 3100 0) s' 3300.
Proof.
  assert (H : slot_holds (FieldSlot 3100 0) state_with_field 1000) by reflexivity.
  split; [exact H|].
  destruct (forwarding_update_keeps_mutator_store (E := example_env) (FieldSlot 3100 0))
    as (_ & _ & _ & Hschedule).
  apply (Hschedule 1000 3200 [CollectorStep] [CollectorStep] UpdateLoad state_with_field
           1000 3300 H).
  - repeat constructor.
  - lia.
Defined.

(** C6, instances: a Reference whose referent is still in the from-space stays
    gray; a plain object goes from gray to white. *)
Lemma ProcessMarkStackRef_gray_to_white_witness :
  (exists s' o',
     ProcessMarkStackRef (E := example_env) 3 0 3100 state_with_gray_reference = Ok (tt, s') /\
     heap s' !! 3100 = Some o' /\ rb_ptr o' = GrayPtr) /\
  (exists s' o',
     ProcessMarkStackRef (E := example_env) 3 0 3100 state_with_gray_object = Ok (tt, s') /\
     heap s' !! 3100 = Some o' /\ rb_ptr o' = WhitePtr).
Proof.
  split.
  - destruct (ProcessMarkStackRef (E := example_env) 3 0 3100 state_with_gray_reference)
      as [[[] s']| | |] eqn:Hrun; try (vm_compute in Hrun; discriminate).
    destruct (ProcessMarkStackRef_gray_to_white (E := example_env) 3 0 3100 _ s' eq_refl Hrun)
      as (_ & _ & _ & s2 & o2 & leave_gray & _ & _ & _ & _ & _ & _ & o' & Ho' & _).
    exists s', o'. split; [reflexivity|]. split; [exact Ho'|].
    vm_compute in Hrun. injection Hrun as <-.
    vm_compute in Ho'. injection Ho' as <-. reflexivity.
  - destruct (ProcessMarkStackRef (E := example_env) 3 0 3100 state_with_gray_object)
      as [[[] s']| | |] eqn:Hrun; try (vm_compute in Hrun; discriminate).
    destruct (ProcessMarkStackRef_gray_to_white (E := example_env) 3 0 3100 _ s' eq_refl Hrun)
      as (_ & _ & _ & s2 & o2 & leave_gray & _ & _ & _ & _ & _ & _ & o' & Ho' & _).
    exists s', o'. split; [reflexivity|]. split; [exact Ho'|].
    vm_compute in Hrun. injection Hrun as <-.
    vm_compute in Ho'. injection Ho' as <-. reflexivity.
Defined.

Lemma race_start_at_flip : at_flip (E := example_env) race_start.
Proof.
  unfold at_flip. cbv zeta.
  split; [repeat constructor|]. do 6 (split; [reflexivity|]).
  split; [constructor|].
  split; [intros a Ha; apply elem_of_nil in Ha; destruct Ha|].
  intros x o Hx Hfrom.
  assert (Hh : heap (state_of race_start)
               = <[1000 := instance_of 3008 []]>
                   (<[3000 := class_object int_array_class_data]>
                      {[3008 := class_object java_lang_Object_data]})) by reflexivity.
  rewrite Hh in Hx.
  apply lookup_insert_Some in Hx as [[<- <-]|[_ Hx]].
  - split; [reflexivity|]. split; [apply not_elem_of_nil|].
    exists 8. split; [vm_compute; reflexivity | lia].
  - apply lookup_insert_Some in Hx as [[<- <-]|[_ Hx]]; [vm_compute in Hfrom; discriminate|].
    apply lookup_singleton_Some in Hx as [<- <-]. vm_compute in Hfrom. discriminate.
Defined.

(** C3, an instance: two threads race to copy the object at 1000; the
    forwarding address 3200 is installed once, with a gray copy. *)
Lemma Copy_gray_before_forwarding_witness :
  exists c',
    run_actions (E := example_env) race_schedule race_start = Ok c' /\
    installed c' = [(1000, 3200, Some GrayPtr)] /\
    forall x t col, (x, t, col) ∈ installed c' ->
      col = Some GrayPtr /\ forwarded_to (E := example_env) (state_of c') x t.
Proof.
  destruct (run_actions (E := example_env) race_schedule race_start)
    as [c'| | |] eqn:Hrun; try (vm_compute in Hrun; discriminate).
  exists c'. split; [reflexivity|]. split.
  - vm_compute in Hrun. injection Hrun as <-. reflexivity.
  - destruct (Copy_gray_before_forwarding (E := example_env) eq_refl)
      as (_ & _ & Hinstalled & _).
    exact (Hinstalled race_schedule race_start c' race_start_at_flip Hrun).
Defined.

(** C2, an instance: thread 1 loses the race for the object at 1000; the
    object is counted once, both calls return 3200, and the block of the
    loser, 3300, is in the skipped-blocks map and holds a java.lang.Object of
    its 8 bytes.  A block of 24 bytes is filled with an int array of length 3. *)
Lemma Copy_lost_race_returns_winner_witness :
  (exists c',
     run_actions (E := example_env) race_schedule race_start = Ok c' /\
     counted c' = [(1000, 8)] /\ returned c' = [(1000, 3200); (1000, 3200)] /\
     skipped_blocks_map (state_of c') = [(8, 3300)] /\
     size_in (E := example_env) (heap (state_of c')) 3300 = Some 8 /\
     klass <$> heap (state_of c') !! 3300 = Some (java_lang_Object (state_of c')) /\
     objects_moved (state_of c') = wrap64 (Z.of_nat (length (counted c'))) /\
     forall x v v', (x, v) ∈ returned c' -> (x, v') ∈ returned c' -> v = v') /\
  (exists s' o,
     FillWithDummyObject (E := example_env) 3 0 3100 24 state_with_classes = Ok (tt, s') /\
     heap s' !! 3100 = Some o /\
     size_in (E := example_env) (heap s') 3100 = Some 24 /\
     klass o = int_array_class s' /\ array_length o = 3).
Proof.
  destruct (Copy_lost_race_returns_winner (E := example_env))
    as (_ & _ & _ & _ & _ & Hfill & _ & Hglobal).
  split.
  - destruct (run_actions (E := example_env) race_schedule race_start)
      as [c'| | |] eqn:Hrun; try (vm_compute in Hrun; discriminate).
    exists c'. split; [reflexivity|].
    destruct (Hglobal race_schedule race_start c' race_start_at_flip Hrun)
      as (_ & _ & Hn & _ & _ & Hsame).
    vm_compute in Hrun. injection Hrun as <-.
    split; [reflexivity|]. split; [reflexivity|]. split; [reflexivity|].
    split; [vm_compute; reflexivity|]. split; [vm_compute; reflexivity|].
    split; [exact Hn | exact Hsame].
  - destruct (FillWithDummyObject (E := example_env) 3 0 3100 24 state_with_classes)
      as [[[] s']| | |] eqn:Hrun; try (vm_compute in Hrun; discriminate).
    destruct (Hfill 3%nat 0%nat 3100 24 state_with_classes s' Hrun)
      as (_ & o & Ho & Hsize & Hhead).
    exists s', o. split; [reflexivity|]. split; [exact Ho|]. split; [exact Hsize|].
    change (24 <? Array_DataOffset example_env 4) with false in Hhead.
    destruct Hhead as (_ & Hlen & _).
    split; [|rewrite Hlen; vm_compute; reflexivity].
    vm_compute in Hrun. injection Hrun as <-. vm_compute in Ho. injection Ho as <-.
    reflexivity.
Defined.

(** C8, an instance: [Mark] copies the object at 1000 to 3200, and [Mark] of
    3200 returns 3200. *)
Lemma Mark_idempotent_witness :
  exists s',
    Mark (E := example_env) 10 0 true 1000 race_state = Ok (3200, s') /\
    (exists s'', Mark (E := example_env) 1 0 true 3200 s' = Ok (3200, s'')) /\
    forwarded_to (E := example_env) s' 1000 3200.
Proof.
  destruct (Mark (E := example_env) 10 0 true 1000 race_state)
    as [[y s']| | |] eqn:Hrun; try (vm_compute in Hrun; discriminate).
  assert (Hy : y = 3200) by (vm_compute in Hrun; injection Hrun as <- _; reflexivity).
  subst y. exists s'. split; [reflexivity|].
  destruct (Mark_idempotent (E := example_env) 10 0 true 1000 race_state s' 3200
              (at_flip_quiescent (E := example_env) race_start race_start_at_flip)
              ltac:(discriminate) Hrun) as [Hagain Hcase].
  split; [exact Hagain|]. exact (proj1 Hcase).
Defined.

(** C7, an instance: after the race for the one from-space object, of 8
    bytes, one object and 8 bytes are moved, and the record of the freed
    objects finds nothing freed. *)
Lemma ReclaimPhase_freed_counts_witness :
  exists c',
    run_actions (E := example_env) race_schedule race_start = Ok c' /\
    from_objects_of (E := example_env) race_state = 1 /\
    from_bytes_of (E := example_env) race_state = 8 /\
    0 <= objects_moved (state_of c') <= from_objects_of (E := example_env) race_state /\
    0 <= bytes_moved (state_of c') <= from_bytes_of (E := example_env) race_state /\
    ReclaimPhase_RecordFree (E := example_env)
      {| GetBytesAllocatedInFromSpace := 8; GetObjectsAllocatedInFromSpace := 1;
         GetBytesAllocatedInUnevacFromSpace := 0; GetObjectsAllocatedInUnevacFromSpace := 0 |}
      0 0 (state_of c') = Ok ((0, 0), state_of c').
Proof.
  destruct (run_actions (E := example_env) race_schedule race_start)
    as [c'| | |] eqn:Hrun; try (vm_compute in Hrun; discriminate).
  exists c'. split; [reflexivity|].
  destruct (ReclaimPhase_freed_counts (E := example_env) ltac:(reflexivity))
    as (Hrecord & _ & _ & Hglobal).
  destruct (Hglobal race_schedule race_start c' race_start_at_flip Hrun)
    as (_ & _ & Ho & Hb).
  split; [vm_compute; reflexivity|]. split; [vm_compute; reflexivity|].
  split; [exact Ho|]. split; [exact Hb|].
  apply Hrecord. vm_compute in Hrun. injection Hrun as <-.
  split; [intros Hcheck; discriminate Hcheck|].
  split; [apply Z.leb_le; vm_compute; reflexivity|].
  split; [apply Z.leb_le; vm_compute; reflexivity|].
  split; reflexivity.
Defined.

(** X1, an instance: thread 1, a mutator, pushes 3200 in the thread-local
    mode; the reference is on a fresh stack of its own, thread 0 and the GC
    mark stack with the gray object 3100 are as they were. *)
Lemma PushOntoMarkStack_loses_nothing_witness :
  exists s',
    PushOntoMarkStack (E := example_env) 1 3200 state_with_gray_object = Ok (tt, s') /\
    threads s' !! 0%nat = Some example_thread /\
    threads s' !! 1%nat
    = Some (SetThreadLocalMarkStack (Some (PushBack 3200 (Create 4096))) example_thread) /\
    gc_mark_stack s' = gc_mark_stack state_with_gray_object /\
    on_some_mark_stack 3100 s'.
Proof.
  destruct (PushOntoMarkStack (E := example_env) 1 3200 state_with_gray_object)
    as [[[] s']| | |] eqn:Hrun; try (vm_compute in Hrun; discriminate).
  exists s'. split; [reflexivity|].
  destruct (PushOntoMarkStack_loses_nothing (E := example_env) 1 3200) as [_ Hpush].
  destruct (Hpush _ _ Hrun) as (_ & Hothers & _ & _ & Hwhere & _ & Hkeeps).
  split; [rewrite (Hothers 0%nat) by discriminate; reflexivity|].
  split; [vm_compute in Hrun; injection Hrun as <-; reflexivity|].
  split; [exact (proj1 Hwhere)|].
  apply Hkeeps. left. apply elem_of_cons. left. reflexivity.
Defined.

(** X2, an instance: the full stack of capacity one is expanded to capacity
    two and keeps its reference; a stack that is not full makes the debug
    build abort. *)
Lemma ExpandGcMarkStack_doubles_witness :
  ExpandGcMarkStack (E := example_env) state_with_full_mark_stack
    = Ok (tt, set_gc_mark_stack {| elems := [3100]; capacity := 2 |}
                state_with_full_mark_stack) /\
  ExpandGcMarkStack (E := example_env) state_with_gray_object = Fatal.
Proof.
  split.
  - destruct (ExpandGcMarkStack_doubles (E := example_env) state_with_full_mark_stack)
      as (Hiff & _ & _).
    apply (proj2 (Hiff _)). split; [reflexivity|].
    intros _. split; [reflexivity | discriminate].
  - destruct (ExpandGcMarkStack_doubles (E := example_env) state_with_gray_object)
      as (_ & Hfatal & _).
    apply Hfatal; [reflexivity | left; reflexivity].
Defined.


(** X4, an instance: IsMarked reports the copy 3200 of the forwarded object
    at 1000, and [Mark] of 1000 returns 3200. *)
Lemma IsMarked_agrees_with_Mark_witness :
  IsMarked (E := example_env) 1000 state_with_forwarded_object
    = Ok (3200, state_with_forwarded_object) /\
  forall r s', Mark_step (E := example_env) 0 true 1000 state_with_forwarded_object = Ok (r, s') ->
               r = Return 3200.
Proof.
  assert (H : IsMarked (E := example_env) 1000 state_with_forwarded_object
              = Ok (3200, state_with_forwarded_object)) by reflexivity.
  split; [exact H|].
  destruct (IsMarked_agrees_with_Mark (E := example_env) 0 true 1000 _ _ _ H) as (_ & _ & Hm).
  apply Hm; discriminate.
Defined.

(** X5, an instance: the field of 3100 holds 1000, forwarded to 3200;
    IsMarkedHeapReference answers true and leaves 3200 in the field. *)
Lemma IsMarkedHeapReference_forwards_witness :
  exists s',
    IsMarkedHeapReference (E := example_env) (FieldSlot 3100 0) state_with_stale_field
      = Ok (true, s') /\
    slot_holds (FieldSlot 3100 0) s' 3200.
Proof.
  destruct (IsMarkedHeapReference (E := example_env) (FieldSlot 3100 0) state_with_stale_field)
    as [[b s']| | |] eqn:Hrun; try (vm_compute in Hrun; discriminate).
  assert (Hb : b = true) by (vm_compute in Hrun; injection Hrun as <- _; reflexivity).
  subst b. exists s'. split; [reflexivity|].
  destruct (IsMarkedHeapReference_forwards (E := example_env) _ _ _ _ Hrun)
    as (from_ref & to_ref & Hfrom & Hmarked & _ & _ & Hto & _).
  assert (Hf : from_ref = 1000) by (vm_compute in Hfrom; injection Hfrom as <-; reflexivity).
  subst from_ref.
  assert (Ht : to_ref = 3200) by (vm_compute in Hmarked; injection Hmarked as <-; reflexivity).
  subst to_ref. apply Hto. discriminate.
Defined.

(** X6, an instance: while the invariant is asserted the to-space reference
    3000 passes, as IsMarked reports it; the from-space reference 1000 aborts;
    the immune object 5000 passes, all immune objects being updated. *)
Lemma AssertToSpaceInvariant_accepts_marked_witness :
  AssertToSpaceInvariant (E := example_env) 0 3000 state_with_classes
    = Ok (tt, state_with_classes) /\
  AssertToSpaceInvariant (E := example_env) 0 1000 state_with_classes = Fatal /\
  AssertToSpaceInvariant (E := example_env) 1 5000 state_with_classes
    = Ok (tt, state_with_classes).
Proof.
  split; [|split].
  - destruct (AssertToSpaceInvariant_accepts_marked (E := example_env) 0 3000
                state_with_classes) as (_ & _ & _ & _ & Hmarked & _).
    apply (Hmarked eq_refl eq_refl); [discriminate | reflexivity | reflexivity | reflexivity].
  - destruct (AssertToSpaceInvariant_accepts_marked (E := example_env) 0 1000
                state_with_classes) as (_ & _ & _ & Hfrom & _).
    apply Hfrom; reflexivity.
  - destruct (AssertToSpaceInvariant_accepts_marked (E := example_env) 1 5000
                state_with_classes) as (_ & _ & _ & _ & _ & Himmune).
    apply (Himmune eq_refl eq_refl eq_refl eq_refl). right. right. left. reflexivity.
Defined.

(** X7, an instance: a request of 16 bytes takes the block of 24 bytes at
    3500, the smallest that fits, and splits it. *)
Lemma AllocateInSkippedBlock_best_fit_witness :
  exists r s',
    Copy_try_skipped (E := example_env) (with_sizes 12 16 (entry_locals 1000))
      state_with_skipped_blocks = Ok (r, s') /\
    skipped_blocks_map s' = [(8, 3400); (40, 3600)] /\
    sorted_by_size (skipped_blocks_map s').
Proof.
  destruct (Copy_try_skipped (E := example_env) (with_sizes 12 16 (entry_locals 1000))
              state_with_skipped_blocks) as [[r s']| | |] eqn:Hrun;
    try (vm_compute in Hrun; discriminate).
  exists r, s'. split; [reflexivity|].
  assert (Hmin : 0 <= min_object_size (E := example_env)) by (vm_compute; discriminate).
  assert (Hsorted : sorted_by_size (skipped_blocks_map state_with_skipped_blocks)).
  { repeat constructor; cbn; lia. }
  destruct (AllocateInSkippedBlock_best_fit (E := example_env)
              (with_sizes 12 16 (entry_locals 1000)) _ s' r Hmin Hsorted)
    as [Htry _].
  destruct (Htry Hrun) as [Hs' _].
  split; [|exact Hs'].
  vm_compute in Hrun. injection Hrun as _ <-. reflexivity.
Defined.

(** X8, an instance: in the race for the object at 1000 the forwarding
    address 3200 is there after eleven actions, and stays. *)
Lemma forwarding_address_is_final_witness :
  exists c1 c2,
    run_actions (E := example_env) (take 11 race_schedule) race_start = Ok c1 /\
    run_actions (E := example_env) (drop 11 race_schedule) c1 = Ok c2 /\
    forwarded_to (E := example_env) (state_of c1) 1000 3200 /\
    forwarded_to (E := example_env) (state_of c2) 1000 3200.
Proof.
  destruct (run_actions (E := example_env) (take 11 race_schedule) race_start)
    as [c1| | |] eqn:Hrun1; try (vm_compute in Hrun1; discriminate).
  destruct (run_actions (E := example_env) (drop 11 race_schedule) c1)
    as [c2| | |] eqn:Hrun2;
    try (vm_compute in Hrun1; injection Hrun1 as <-; vm_compute in Hrun2; discriminate).
  exists c1, c2. split; [reflexivity|]. split; [exact Hrun2|].
  assert (Hfwd : forwarded_to (E := example_env) (state_of c1) 1000 3200).
  { vm_compute in Hrun1. injection Hrun1 as <-. split; vm_compute; reflexivity. }
  split; [exact Hfwd|].
  exact (proj1 (forwarding_address_is_final (E := example_env) _ _ race_start c1 c2 1000 3200
                  race_start_at_flip Hrun1 Hrun2 Hfwd)).
Defined.

(** X9, an instance: both calls of the race returned 3200, a to-space
    reference that no thread owns. *)
Lemma Mark_returns_published_copy_witness :
  exists c',
    run_actions (E := example_env) race_schedule race_start = Ok c' /\
    (1000, 3200) ∈ returned c' /\
    IsInFromSpace (E := example_env) 3200 = false /\
    is_Some (heap (state_of c') !! 3200) /\
    (3200 ∉ owned_all c').
Proof.
  destruct (run_actions (E := example_env) race_schedule race_start)
    as [c'| | |] eqn:Hrun; try (vm_compute in Hrun; discriminate).
  exists c'. split; [reflexivity|].
  assert (Hret : (1000, 3200) ∈ returned c').
  { vm_compute in Hrun. injection Hrun as <-. cbn. apply elem_of_cons. left. reflexivity. }
  split; [exact Hret|].
  destruct (Mark_returns_published_copy (E := example_env) race_schedule race_start c'
              1000 3200 race_start_at_flip Hrun Hret) as (_ & Hfrom & _ & Hsome & Hno & _).
  auto.
Defined.

(** X10, an instance: after the race 3200 is the copy of 1000 and of no
    other object. *)
Lemma distinct_objects_distinct_copies_witness :
  exists c',
    run_actions (E := example_env) race_schedule race_start = Ok c' /\
    forwarded_to (E := example_env) (state_of c') 1000 3200 /\
    forall x, forwarded_to (E := example_env) (state_of c') x 3200 -> x = 1000.
Proof.
  destruct (run_actions (E := example_env) race_schedule race_start)
    as [c'| | |] eqn:Hrun; try (vm_compute in Hrun; discriminate).
  exists c'. split; [reflexivity|].
  assert (Hfwd : forwarded_to (E := example_env) (state_of c') 1000 3200).
  { vm_compute in Hrun. injection Hrun as <-. split; vm_compute; reflexivity. }
  split; [exact Hfwd|].
  intros x Hx.
  exact (distinct_objects_distinct_copies (E := example_env) race_schedule race_start c'
           x 1000 3200 race_start_at_flip Hrun Hx Hfwd).
Defined.

(** X11, an instance: after the race one object is forwarded and
    [objects_moved_] is 1, [bytes_moved_] is 8. *)
Lemma counters_when_idle_witness :
  exists c',
    run_actions (E := example_env) race_schedule race_start = Ok c' /\
    all_finished c' /\
    forwarded_objects (E := example_env) (state_of c') = [1000] /\
    objects_moved (state_of c')
      = wrap64 (Z.of_nat (length (forwarded_objects (E := example_env) (state_of c')))) /\
    bytes_moved (state_of c')
      = wrap64 (foldr (fun a n => copy_size (E := example_env) (heap (state_of c')) a + n) 0
                  (forwarded_objects (E := example_env) (state_of c'))).
Proof.
  destruct (run_actions (E := example_env) race_schedule race_start)
    as [c'| | |] eqn:Hrun; try (vm_compute in Hrun; discriminate).
  exists c'. split; [reflexivity|].
  assert (Hidle : all_finished c').
  { vm_compute in Hrun. injection Hrun as <-. repeat constructor. }
  split; [exact Hidle|].
  split; [vm_compute in Hrun; injection Hrun as <-; vm_compute; reflexivity|].
  exact (counters_when_idle (E := example_env) race_schedule race_start c'
           race_start_at_flip Hrun Hidle).
Defined.

(** X12, an instance: the object at 3100 passes, and its field 3200 is not
    in the from-space. *)
Lemma AssertToSpaceInvariantObject_sound_witness :
  AssertToSpaceInvariantObject (E := example_env) 0 3100 state_with_forwarded_field
    = Ok (tt, state_with_forwarded_field) /\
  IsInFromSpace (E := example_env) 3200 = false.
Proof.
  assert (H : AssertToSpaceInvariantObject (E := example_env) 0 3100 state_with_forwarded_field
              = Ok (tt, state_with_forwarded_field)) by (vm_compute; reflexivity).
  split; [exact H|].
  destruct (AssertToSpaceInvariantObject_sound (E := example_env) 0 3100 _ _ _ H)
    as (_ & _ & _ & _ & o & Ho & Hall).
  assert (Hin : 3200 ∈ ref_fields o ++ native_roots o).
  { vm_compute in Ho. injection Ho as <-. cbn. apply elem_of_cons. left. reflexivity. }
  destruct (Hall 3200 Hin ltac:(discriminate)) as [_ Hfrom].
  apply Hfrom. reflexivity.
Defined.

(** X13, an instance: the false gray object at 6000 is white afterwards. *)
Lemma ProcessFalseGrayStack_whitens_witness :
  exists s',
    ProcessFalseGrayStack (E := example_env) state_with_false_gray = Ok (tt, s') /\
    false_gray_stack s' = [] /\
    rb_at s' 6000 = Some WhitePtr.
Proof.
  destruct (ProcessFalseGrayStack (E := example_env) state_with_false_gray)
    as [[[] s']| | |] eqn:Hrun; try (vm_compute in Hrun; discriminate).
  exists s'. split; [reflexivity|].
  destruct (ProcessFalseGrayStack_whitens (E := example_env) _ _ _ Hrun)
    as (_ & Hempty & _ & Hheap & _).
  split; [exact Hempty|].
  unfold rb_at. rewrite Hheap. vm_compute. reflexivity.
Defined.

(** X14, an instance: after DisableMarking thread 1 no longer marks, keeps
    its mark stack, and its push aborts. *)
Lemma DisableMarking_stops_pushes_witness :
  exists s',
    DisableMarking state_with_thread_local_stack = Ok (tt, s') /\
    is_marking s' = false /\ mark_stack_mode s' = kMarkStackModeOff /\
    threads s' !! 1%nat
    = Some (SetIsGcMarking false
              (SetThreadLocalMarkStack (Some (PushBack 3200 (Create 8))) example_thread)) /\
    PushOntoMarkStack (E := example_env) 1 3100 s' = Fatal.
Proof.
  destruct (DisableMarking state_with_thread_local_stack)
    as [[[] s']| | |] eqn:Hrun; try (vm_compute in Hrun; discriminate).
  exists s'. split; [reflexivity|].
  destruct (DisableMarking_stops_pushes (E := example_env) _ _ _ Hrun)
    as (Hs' & Hthreads & _ & Hpush).
  split; [rewrite Hs'; reflexivity|]. split; [rewrite Hs'; reflexivity|].
  split; [rewrite Hthreads; reflexivity | apply Hpush].
Defined.


(** X16, an instance: the checkpoint that disables weak reference access
    and ReenableWeakRefAccess after it leave thread 1 as it was, but for its
    revoked mark stack. *)
Lemma ReenableWeakRefAccess_undoes_revoke_witness :
  exists s1 s2,
    RevokeThreadLocalMarkStacks true state_with_thread_local_stack
      = Ok (tt, s1) /\
    threads s1 !! 1%nat = Some (SetWeakRefAccessEnabled false example_thread) /\
    ReenableWeakRefAccess s1 = Ok (tt, s2) /\
    threads s2 !! 1%nat = Some example_thread.
Proof.
  destruct (RevokeThreadLocalMarkStacks true
              state_with_thread_local_stack) as [[[] s1]| | |] eqn:Hrun;
    try (vm_compute in Hrun; discriminate).
  destruct (ReenableWeakRefAccess_undoes_revoke s1)
    as (s2 & Hre & _ & _ & _ & Hundo).
  exists s1, s2. split; [reflexivity|].
  split; [vm_compute in Hrun; injection Hrun as <-; reflexivity|].
  split; [exact Hre|].
  exact (Hundo state_with_thread_local_stack 1%nat _ Hrun eq_refl eq_refl).
Defined.

(** X17, an instance: in the shared mode the check passes with empty stacks
    and aborts with a reference on the GC mark stack; in the thread-local mode
    a check that returns has found no thread-local mark stack. *)
Lemma CheckEmptyMarkStack_sound_witness :
  CheckEmptyMarkStack 0
    (set_mark_stack_mode kMarkStackModeShared state_with_classes)
  = Ok (tt, set_mark_stack_mode kMarkStackModeShared state_with_classes) /\
  CheckEmptyMarkStack 0
    (set_mark_stack_mode kMarkStackModeShared state_with_gray_object) = Fatal /\
  (CheckEmptyMarkStack 0 state_with_classes
   = Ok (tt, state_with_classes) /\
   forall t th, threads state_with_classes !! t = Some th -> tl_mark_stack th = None).
Proof.
  split; [|split].
  - destruct (CheckEmptyMarkStack_sound 0
                (set_mark_stack_mode kMarkStackModeShared state_with_classes))
      as (_ & Hpass & _).
    apply Hpass; try reflexivity; [discriminate|].
    exists example_thread. split; reflexivity.
  - destruct (CheckEmptyMarkStack_sound 0
                (set_mark_stack_mode kMarkStackModeShared state_with_gray_object))
      as (Hok & _ & Habort).
    apply Habort; [exists example_thread; reflexivity|].
    intros s' Hrun. destruct (Hok _ _ Hrun) as (_ & _ & _ & _ & Hempty).
    discriminate Hempty.
  - destruct (CheckEmptyMarkStack_sound 0 state_with_classes)
      as (Hok & _ & _).
    destruct (CheckEmptyMarkStack 0 state_with_classes)
      as [[[] s']| | |] eqn:Hrun; try (vm_compute in Hrun; discriminate).
    destruct (Hok _ _ eq_refl) as (-> & _ & _ & _ & Hnone).
    split; [reflexivity | exact Hnone].
Defined.


(** X19, an instance: the collector thread 0 switches from the shared to the
    exclusive mode; the push of thread 1 aborts then. *)
Lemma SwitchToGcExclusiveMarkStackMode_exclusive_witness :
  SwitchToGcExclusiveMarkStackMode 0
    (set_mark_stack_mode kMarkStackModeShared state_with_classes)
  = Ok (tt, set_mark_stack_mode kMarkStackModeGcExclusive
              (set_mark_stack_mode kMarkStackModeShared state_with_classes)) /\
  PushOntoMarkStack (E := example_env) 1 3100
    (set_mark_stack_mode kMarkStackModeGcExclusive
       (set_mark_stack_mode kMarkStackModeShared state_with_classes)) = Fatal.
Proof.
  destruct (SwitchToGcExclusiveMarkStackMode_exclusive (E := example_env) 0
              (set_mark_stack_mode kMarkStackModeShared state_with_classes))
    as (Hiff & Hothers & _).
  split.
  - apply (proj2 (Hiff tt _)). split; [reflexivity|]. split; [reflexivity|].
    split; [|reflexivity]. exists example_thread. split; reflexivity.
  - apply Hothers. discriminate.
Defined.

(** X20, an instance: thread 1 revokes its own mark stack; thread 0 cannot
    do it for thread 1. *)
Lemma RevokeThreadLocalMarkStack_moves_witness :
  (exists s',
     RevokeThreadLocalMarkStack 1 1 state_with_thread_local_stack = Ok (tt, s') /\
     revoked_mark_stacks s' = [PushBack 3200 (Create 8)] /\
     threads s' !! 1%nat = Some example_thread /\
     on_some_mark_stack 3200 s') /\
  RevokeThreadLocalMarkStack 0 1 state_with_thread_local_stack = Fatal.
Proof.
  split.
  - destruct (RevokeThreadLocalMarkStack 1 1 state_with_thread_local_stack)
      as [[[] s']| | |] eqn:Hrun; try (vm_compute in Hrun; discriminate).
    exists s'. split; [reflexivity|].
    destruct (RevokeThreadLocalMarkStack_moves 1 1 state_with_thread_local_stack)
      as [_ Hmoves].
    destruct (Hmoves _ _ Hrun) as (_ & th & Hth & Hcase & Hkeeps).
    assert (Hs' : revoked_mark_stacks s' = [PushBack 3200 (Create 8)] /\
                  threads s' !! 1%nat = Some example_thread).
    { vm_compute in Hrun. injection Hrun as <-. split; reflexivity. }
    split; [exact (proj1 Hs')|]. split; [exact (proj2 Hs')|].
    apply Hkeeps. right. right. exists 1%nat. eexists _, _.
    split; [reflexivity|]. split; [reflexivity|].
    apply elem_of_cons. left. reflexivity.
  - destruct (RevokeThreadLocalMarkStack_moves 0 1 state_with_thread_local_stack)
      as [Habort _].
    apply Habort. discriminate.
Defined.

(** X21, an instance: the collector thread 0 switches to the shared mode; the
    gray object on the stack of thread 1 is processed, and thread 1 has no
    mark stack and no weak reference access afterwards. *)
Lemma SwitchToSharedMarkStackMode_drains_witness :
  exists s',
    SwitchToSharedMarkStackMode (E := example_env) 3 0 state_with_gray_on_thread_stack
      = Ok (tt, s') /\
    mark_stack_mode s' = kMarkStackModeShared /\
    threads s' !! 1%nat = Some (SetWeakRefAccessEnabled false example_thread) /\
    3100 ∈ processed s'.
Proof.
  destruct (SwitchToSharedMarkStackMode (E := example_env) 3 0
              state_with_gray_on_thread_stack) as [[[] s']| | |] eqn:Hrun;
    try (vm_compute in Hrun; discriminate).
  exists s'. split; [reflexivity|].
  destruct (SwitchToSharedMarkStackMode_drains (E := example_env) _ _ _ _ _ Hrun)
    as (_ & _ & _ & _ & Hmode & _ & Hthreads & _ & _ & Hprocessed & _).
  split; [exact Hmode|]. split; [rewrite Hthreads; reflexivity|].
  rewrite Hprocessed. vm_compute. left.
Defined.

(* end of the file *)
